(** * synapse.cores.lmdb: the LMDB-backed row store and its index key codec

    A shallow embedding of [synapse/cores/lmdb.py]: the value-key codec
    ([_enc_val_key] and friends), the four tables of the environment, the
    writer [_addRows], the deleters and the query engine, followed by the
    properties of the store that are checked against the code. *)

From Stdlib Require Import ZArith List Bool Lia Permutation Sorted.
Import ListNotations.
Open Scope Z_scope.

(** ** Byte strings and their lexicographic order

    Python [bytes] values and LMDB keys are lists of octets; both Python's
    comparison operators on [bytes] and LMDB's default key comparator order
    them lexicographically, a proper prefix being smaller. *)

Definition bytes := list Z.

Fixpoint bcmp (a b : bytes) : comparison :=
  match a, b with
  | [], [] => Eq
  | [], _ :: _ => Lt
  | _ :: _, [] => Gt
  | x :: a', y :: b' =>
      match x ?= y with
      | Eq => bcmp a' b'
      | c => c
      end
  end.

Definition blt (a b : bytes) : bool := match bcmp a b with Lt => true | _ => false end.
Definition ble (a b : bytes) : bool := match bcmp a b with Gt => false | _ => true end.
Definition bgt (a b : bytes) : bool := match bcmp a b with Gt => true | _ => false end.
Definition bge (a b : bytes) : bool := match bcmp a b with Lt => false | _ => true end.
Definition beq (a b : bytes) : bool := match bcmp a b with Eq => true | _ => false end.

(** [key[:n]] *)
Definition slice_to (n : nat) (k : bytes) : bytes := firstn n k.
(** [key[n:]] *)
Definition slice_from (n : nat) (k : bytes) : bytes := skipn n k.

Definition is_byte (x : Z) : Prop := 0 <= x < 256.

(** ** The MessagePack encoder *)

Module Msgpack.

(** Big-endian fixed-width unsigned integers, most significant octet first. *)
Fixpoint be (n : nat) (x : Z) : bytes :=
  match n with
  | O => []
  | S m => (x / 256 ^ Z.of_nat m) mod 256 :: be m x
  end.

Fixpoint be_dec (acc : Z) (l : bytes) : Z :=
  match l with
  | [] => acc
  | x :: l' => be_dec (acc * 256 + x) l'
  end.

(** Modelled from the spec: [msgenpack] lives in [synapse.common], which is not
    part of the sources at hand; the spec calls it the canonical
    variable-length integer encoding S and a canonical length-prefixed string
    encoding. It is [msgpack.packb(item, use_bin_type=True)], whose output the
    [msgpack.Unpacker] of [_getRowByPkValEnc] reads back, so it is written out
    here from the MessagePack wire format: an integer takes the shortest of
    positive fixint, uint8/16/32/64, negative fixint and int8/16/32/64.
    MessagePack refuses integers outside [-2^63, 2^64) with an OverflowError;
    on those the model keeps the low 64 bits, and every statement below that
    depends on the value carries the range as a hypothesis. *)
Definition pack_int (v : Z) : bytes :=
  if 0 <=? v then
    if v <? 128 then [v]
    else if v <? 2 ^ 8 then 204 :: be 1 v
    else if v <? 2 ^ 16 then 205 :: be 2 v
    else if v <? 2 ^ 32 then 206 :: be 4 v
    else 207 :: be 8 v
  else
    if -32 <=? v then [256 + v]
    else if - 2 ^ 7 <=? v then 208 :: be 1 (v + 2 ^ 8)
    else if - 2 ^ 15 <=? v then 209 :: be 2 (v + 2 ^ 16)
    else if - 2 ^ 31 <=? v then 210 :: be 4 (v + 2 ^ 32)
    else 211 :: be 8 (v + 2 ^ 64).

(** Modelled from the spec: the string case of [msgenpack] (see [pack_int]):
    fixstr, str8, str16 or str32 header by the octet length, then the octets. *)
Definition pack_str (s : bytes) : bytes :=
  let n := Z.of_nat (length s) in
  if n <? 32 then (160 + n) :: s
  else if n <? 2 ^ 8 then 217 :: be 1 n ++ s
  else if n <? 2 ^ 16 then 218 :: be 2 n ++ s
  else 219 :: be 4 n ++ s.

(** The reader: one object off the front of a buffer, with the rest of the
    buffer, as [msgpack.Unpacker.unpack] does; [None] when the buffer does not
    start with an integer or a string. *)
Inductive obj :=
| OInt (z : Z)
| OStr (s : bytes).

Definition take_be (n : nat) (l : bytes) : option (Z * bytes) :=
  if (length l <? n)%nat then None else Some (be_dec 0 (firstn n l), skipn n l).

Definition take_str (n : Z) (l : bytes) : option (obj * bytes) :=
  let k := Z.to_nat n in
  if (length l <? k)%nat then None else Some (OStr (firstn k l), skipn k l).

Definition unpack (l : bytes) : option (obj * bytes) :=
  match l with
  | [] => None
  | h :: t =>
      if h <? 128 then Some (OInt h, t)
      else if (160 <=? h) && (h <? 192) then take_str (h - 160) t
      else if 224 <=? h then Some (OInt (h - 256), t)
      else
        let uint n := match take_be n t with
                      | Some (x, r) => Some (OInt x, r)
                      | None => None
                      end in
        let sint n := match take_be n t with
                      | Some (x, r) =>
                          let m := 256 ^ Z.of_nat n in
                          Some (OInt (if x <? m / 2 then x else x - m), r)
                      | None => None
                      end in
        let str n := match take_be n t with
                     | Some (x, r) => take_str x r
                     | None => None
                     end in
        if h =? 204 then uint 1%nat
        else if h =? 205 then uint 2%nat
        else if h =? 206 then uint 4%nat
        else if h =? 207 then uint 8%nat
        else if h =? 208 then sint 1%nat
        else if h =? 209 then sint 2%nat
        else if h =? 210 then sint 4%nat
        else if h =? 211 then sint 8%nat
        else if h =? 217 then str 1%nat
        else if h =? 218 then str 2%nat
        else if h =? 219 then str 4%nat
        else None
  end.

End Msgpack.

(** ** Values, rows and exceptions *)

(** A value [v] of a row is a Python int or a string. *)
Inductive valu :=
| VInt (z : Z)
| VStr (s : bytes).

Definition valu_eqb (a b : valu) : bool :=
  match a, b with
  | VInt x, VInt y => x =? y
  | VStr x, VStr y => beq x y
  | _, _ => false
  end.

(** [msgenpack] on a value. *)
Definition msgenpack (v : valu) : bytes :=
  match v with
  | VInt z => Msgpack.pack_int z
  | VStr s => Msgpack.pack_str s
  end.

Definition obj_valu (o : Msgpack.obj) : valu :=
  match o with
  | Msgpack.OInt z => VInt z
  | Msgpack.OStr s => VStr s
  end.

(** A row (i, p, v, t): the iden as the hex text of the API, the property
    name, the value and the timestamp. *)
Record row := mkRow {
  r_iden : bytes;
  r_prop : bytes;
  r_valu : valu;
  r_time : Z
}.

(** The exceptions of the module and of the calls it makes.
    [UnhexlifyError] is the exception [binascii.unhexlify] raises on a text
    it refuses; its class depends on the interpreter and on the text:
    [binascii.Error] under Python 3, a plain [ValueError] there when the
    text has a character outside ASCII, [TypeError] under Python 2. *)
Inductive exn :=
| DatabaseInconsistent
| DatabaseLimitReached
| UnhexlifyError
| UnpackException
| AssertionError
| DeleteFailure.

(** The outcome of a call: a value, or a raised exception. *)
Inductive res (A : Type) :=
| Ok (a : A)
| Raise (e : exn).
Arguments Ok {A} a.
Arguments Raise {A} e.

Definition bind {A B} (m : res A) (f : A -> res B) : res B :=
  match m with
  | Ok a => f a
  | Raise e => Raise e
  end.

Notation "x <- m ;; k" := (bind m (fun x => k))
  (at level 61, m at next level, right associativity).
Notation "' p <- m ;; k" := (bind m (fun p => k))
  (at level 61, p pattern, m at next level, right associativity).

(** ** Constants of the module *)

(** [sys.maxsize] on a 64-bit host. *)
Definition MAX_PK : Z := 2 ^ 63 - 1.
Definition NEGATIVE_VAL_MARKER : Z := -1.
Definition STRING_VAL_MARKER : Z := -2.
Definition HASH_VAL_MARKER : Z := -3.
Definition NEGATIVE_VAL_MARKER_ENC : bytes := Msgpack.pack_int NEGATIVE_VAL_MARKER.
Definition STRING_VAL_MARKER_ENC : bytes := Msgpack.pack_int STRING_VAL_MARKER.
Definition HASH_VAL_MARKER_ENC : bytes := Msgpack.pack_int HASH_VAL_MARKER.
Definition UUID_SIZE : nat := 16.
Definition MAX_INDEX_KEY : bytes := repeat 255 20.
Definition LARGE_STRING_SIZE : Z := 128.
Definition MAX_PROP_LEN : Z := 350.
Definition MAX_INT_VAL : Z := 2 ^ 63 - 1.
Definition MIN_INT_VAL : Z := -1 * (2 ^ 63).
Definition MAX_TIME_ENC : bytes := Msgpack.pack_int MAX_INT_VAL.

Definition len (s : bytes) : Z := Z.of_nat (length s).

(** [len(s)] of a text: the model holds a text by its UTF-8 octets, and
    Python counts its characters, which are the octets outside [80..bf]
    (each character has one first octet, followed by octets of that range).
    The module applies [len] to property names and string values as texts;
    the MessagePack headers count octets. *)
Definition utf8_lead (c : Z) : bool := negb ((128 <=? c) && (c <=? 191)).
Definition str_len (s : bytes) : Z := len (filter utf8_lead s).

(** ** The codec *)

(** [binascii.unhexlify] and [binascii.hexlify] on ASCII text. *)
Definition unhex_digit (c : Z) : option Z :=
  if (48 <=? c) && (c <=? 57) then Some (c - 48)
  else if (97 <=? c) && (c <=? 102) then Some (c - 87)
  else if (65 <=? c) && (c <=? 70) then Some (c - 55)
  else None.

Fixpoint unhexlify (s : bytes) : option bytes :=
  match s with
  | [] => Some []
  | [_] => None
  | a :: b :: s' =>
      match unhex_digit a, unhex_digit b, unhexlify s' with
      | Some x, Some y, Some r => Some (16 * x + y :: r)
      | _, _, _ => None
      end
  end.

Definition hex_digit (d : Z) : Z := if d <? 10 then 48 + d else 87 + d.

Fixpoint hexlify (b : bytes) : bytes :=
  match b with
  | [] => []
  | x :: b' => hex_digit (x / 16) :: hex_digit (x mod 16) :: hexlify b'
  end.

Definition _enc_iden (iden : bytes) : res bytes :=
  match unhexlify iden with
  | Some b => Ok b
  | None => Raise UnhexlifyError
  end.

Definition _dec_iden (iden_enc : bytes) : bytes := hexlify iden_enc.

Definition _enc_val_val (v : valu) : bytes := msgenpack v.

Section Codec.

(** [xxhash.xxh64(v).intdigest()], an external 64-bit hash. *)
Variable xxh64 : bytes -> Z.

Definition _enc_val_key (v : valu) : bytes :=
  match v with
  | VInt z =>
      if z >=? 0 then msgenpack (VInt z)
      else NEGATIVE_VAL_MARKER_ENC ++ msgenpack (VInt (- z))
  | VStr s =>
      if str_len s >=? LARGE_STRING_SIZE
      then HASH_VAL_MARKER_ENC ++ msgenpack (VInt (xxh64 s))
      else STRING_VAL_MARKER_ENC ++ msgenpack (VStr s)
  end.

End Codec.

(** ** The LMDB engine

    The part of py-lmdb the core relies on. A [dupsort=True] table holds
    (key, value) pairs in ascending order of key and, under one key, of value;
    the [integerkey=True] rows table is keyed by native words. A cursor is a
    position in the table. *)

Module Lmdb.

Definition entry := (bytes * bytes)%type.

Definition ecmp (a b : entry) : comparison :=
  match bcmp (fst a) (fst b) with
  | Eq => bcmp (snd a) (snd b)
  | c => c
  end.

Definition table := list entry.

(** [txn.put(key, value, db=db)] and each step of [putmulti(kvs, dupdata=True)]:
    the pair goes to its place in the order; a pair already there stays. *)
Fixpoint put (e : entry) (t : table) : table :=
  match t with
  | [] => [e]
  | x :: t' =>
      match ecmp e x with
      | Lt => e :: t
      | Eq => t
      | Gt => x :: put e t'
      end
  end.

Definition putmulti (kvs : list entry) (t : table) : table :=
  fold_left (fun acc e => put e acc) kvs t.

(** [txn.delete(key, value=value, db=db)]: [None] is the [False] of a pair
    that is not there. *)
Fixpoint delete (e : entry) (t : table) : option table :=
  match t with
  | [] => None
  | x :: t' =>
      match ecmp e x with
      | Eq => Some t'
      | _ => option_map (cons x) (delete e t')
      end
  end.

(** [cursor.set_range(key)]: the first position whose key is >= [key]. *)
Fixpoint set_range (k : bytes) (t : table) : option nat :=
  match t with
  | [] => None
  | x :: t' => if bge (fst x) k then Some O else option_map S (set_range k t')
  end.

(** [cursor.item()], [cursor.key()] *)
Definition item (t : table) (c : nat) : entry := nth c t ([], []).

(** [cursor.next()] and [cursor.prev()]: [None] is [False]. *)
Definition next (t : table) (c : nat) : option nat :=
  if (S c <? length t)%nat then Some (S c) else None.

Definition prev (c : nat) : option nat :=
  match c with
  | O => None
  | S c' => Some c'
  end.

(** [cursor.delete()]: removes the current pair; the cursor then stands on
    the pair that followed it, which is the same position. *)
Definition cdelete (t : table) (c : nat) : option table :=
  if (c <? length t)%nat then Some (firstn c t ++ skipn (S c) t) else None.

(** [cursor.iternext()] and [cursor.iterprev()] start at the current pair. *)
Definition iternext (t : table) (c : nat) : list entry := skipn c t.
Definition iterprev (t : table) (c : nat) : list entry := rev (firstn (S c) t).

(** The rows table: [integerkey=True], one value per key. *)
Definition rtable := list (Z * bytes).

Fixpoint rget (k : Z) (t : rtable) : option bytes :=
  match t with
  | [] => None
  | (k', v) :: t' => if k' =? k then Some v else rget k t'
  end.

Fixpoint rdel (k : Z) (t : rtable) : rtable :=
  match t with
  | [] => []
  | (k', v) :: t' => if k' =? k then t' else (k', v) :: rdel k t'
  end.

(** [txn.pop(key, db=rows)] *)
Definition rpop (k : Z) (t : rtable) : option (bytes * rtable) :=
  match rget k t with
  | Some v => Some (v, rdel k t)
  | None => None
  end.

(** [cursor.last()] then [cursor.key()] *)
Definition rlast (t : rtable) : option Z :=
  match rev t with
  | [] => None
  | (k, _) :: _ => Some k
  end.

(** [putmulti(kvs, overwrite=False, append=True)]: a key that is not above
    the last key of the table is counted as consumed but not added. *)
Fixpoint rputmulti (kvs : list (Z * bytes)) (t : rtable) (consumed added : Z)
  : Z * Z * rtable :=
  match kvs with
  | [] => (consumed, added, t)
  | (k, v) :: kvs' =>
      let fits := match rlast t with
                  | Some l => l <? k
                  | None => true
                  end in
      if fits then rputmulti kvs' (t ++ [(k, v)]) (consumed + 1) (added + 1)
      else rputmulti kvs' t (consumed + 1) added
  end.

End Lmdb.

(** ** The cortex *)

(** [_enc_pk_key] packs the primary key as a native size_t, and the rows
    table compares its keys as such words: the key is the word's value. *)
Definition _enc_pk_key (pk : Z) : Z := pk.
Definition _dec_pk_key (pk_enc : Z) : Z := pk_enc.

(** [msgunpack]: the single object held by a buffer. *)
Definition msgunpack (b : bytes) : option valu :=
  match Msgpack.unpack b with
  | Some (o, []) => Some (obj_valu o)
  | _ => None
  end.

(** The environment: the four tables and the in-memory counter. *)
Record store := mkStore {
  rows : Lmdb.rtable;
  index_ip : Lmdb.table;
  index_pvt : Lmdb.table;
  index_pt : Lmdb.table;
  next_pk : Z
}.

Inductive which := IP | PVT | PT.

Definition get_index (s : store) (w : which) : Lmdb.table :=
  match w with
  | IP => index_ip s
  | PVT => index_pvt s
  | PT => index_pt s
  end.

Definition set_index (s : store) (w : which) (t : Lmdb.table) : store :=
  match w with
  | IP => mkStore (rows s) t (index_pvt s) (index_pt s) (next_pk s)
  | PVT => mkStore (rows s) (index_ip s) t (index_pt s) (next_pk s)
  | PT => mkStore (rows s) (index_ip s) (index_pvt s) t (next_pk s)
  end.

Definition set_rows (s : store) (r : Lmdb.rtable) : store :=
  mkStore r (index_ip s) (index_pvt s) (index_pt s) (next_pk s).

Definition set_next_pk (s : store) (n : Z) : store :=
  mkStore (rows s) (index_ip s) (index_pvt s) (index_pt s) n.

(** [with self._get_txn(write=...) as txn: body] with no transaction bound to
    the thread: the body's writes are committed when it returns and dropped
    when it raises. *)
Definition with_txn {A} (s : store) (body : res (store * A)) : store * res A :=
  match body with
  | Ok (s', a) => (s', Ok a)
  | Raise e => (s, Raise e)
  end.

Definition _get_largest_pk (s : store) : Z :=
  match Lmdb.rlast (rows s) with
  | None => 0
  | Some k => _dec_pk_key k
  end.

(** [_initDbConn] on the tables found in the file: the sentinels are put, the
    counter is set from the last key of the rows table. *)
Definition _initDbConn (r : Lmdb.rtable) (ip pvt pt : Lmdb.table) : res store :=
  let sentinels (db : Lmdb.table) := Lmdb.put (MAX_INDEX_KEY, []) db in
  let ip := sentinels ip in
  let pvt := Lmdb.put ([0], []) (sentinels pvt) in
  let pt := sentinels pt in
  let s := mkStore r ip pvt pt 0 in
  let largest_pk := _get_largest_pk s in
  if largest_pk =? MAX_PK then Raise DatabaseLimitReached
  else Ok (set_next_pk s (largest_pk + 1)).

(** The environment opened on an empty file. *)
Definition fresh : store :=
  mkStore [] [(MAX_INDEX_KEY, [])] [([0], []); (MAX_INDEX_KEY, [])]
          [(MAX_INDEX_KEY, [])] 1.

(** The interpreter the module runs under: it supports both (see
    [memToBytes]), and indexing a [bytes] object differs between them. *)
Inductive python := Python2 | Python3.

(** [b[0] == m] for [bytes] objects [b] and [m]: under Python 3 [b[0]] is an
    int, which is never equal to a [bytes] object; under Python 2 it is the
    one-character string. *)
Definition index0_eq (py : python) (b m : bytes) : bool :=
  match py with
  | Python3 => false
  | Python2 => beq (firstn 1 b) m
  end.

(** What a query returns: a count or the rows. *)
Inductive qres :=
| QCount (n : Z)
| QRows (l : list row).

Definition qadd (a b : qres) : qres :=
  match a, b with
  | QCount x, QCount y => QCount (x + y)
  | QRows x, QRows y => QRows (x ++ y)
  | _, _ => a
  end.

Definition qsize (a : qres) : Z :=
  match a with
  | QCount n => n
  | QRows l => Z.of_nat (length l)
  end.

(** The tuple [_addRows] precomputes for a row. *)
Record enc := mkEnc {
  e_i : bytes;
  e_p : bytes;
  e_vval : bytes;
  e_t : bytes;
  e_vkey : bytes;
  e_pkval : bytes;
  e_pkkey : Z
}.

Section Cortex.

Variable xxh64 : bytes -> Z.
Variable py : python.

Fixpoint addRows_encs (next_pk : Z) (rws : list row) : res (list enc * Z) :=
  match rws with
  | [] => Ok ([], next_pk)
  | r :: rest =>
      if next_pk >? MAX_PK then Raise DatabaseLimitReached
      else if str_len (r_prop r) >? MAX_PROP_LEN then Raise DatabaseLimitReached
      else
        i_enc <- _enc_iden (r_iden r) ;;
        let p_enc := msgenpack (VStr (r_prop r)) in
        let v_val_enc := _enc_val_val (r_valu r) in
        let v_key_enc := _enc_val_key xxh64 (r_valu r) in
        let t_enc := msgenpack (VInt (r_time r)) in
        let pk_val_enc := msgenpack (VInt next_pk) in
        let pk_key_enc := _enc_pk_key next_pk in
        '(encs, n) <- addRows_encs (next_pk + 1) rest ;;
        Ok (mkEnc i_enc p_enc v_val_enc t_enc v_key_enc pk_val_enc pk_key_enc :: encs, n)
  end.

Definition _addRows (s : store) (rws : list row) : store * res unit :=
  match addRows_encs (next_pk s) rws with
  | Raise e => (s, Raise e)
  | Ok (encs, npk) =>
      with_txn s
        (let kvs := map (fun x => (e_pkkey x, e_i x ++ e_p x ++ e_vval x ++ e_t x)) encs in
         let '(consumed, added, r') := Lmdb.rputmulti kvs (rows s) 0 0 in
         if negb (consumed =? added) || negb (consumed =? Z.of_nat (length encs))
         then Raise DatabaseInconsistent
         else
           let ip := Lmdb.putmulti (map (fun x => (e_i x ++ e_p x, e_pkval x)) encs)
                                   (index_ip s) in
           let pvt := Lmdb.putmulti
                        (map (fun x => (e_p x ++ e_vkey x ++ e_t x, e_pkval x)) encs)
                        (index_pvt s) in
           let pt := Lmdb.putmulti (map (fun x => (e_p x ++ e_t x, e_pkval x)) encs)
                                   (index_pt s) in
           Ok (mkStore r' ip pvt pt npk, tt))
  end.

Definition _getRowByPkValEnc (s : store) (pk_val_enc : bytes) (do_delete : bool)
  : res (store * row) :=
  match msgunpack pk_val_enc with
  | Some (VInt pk) =>
      let found := if do_delete then Lmdb.rpop (_enc_pk_key pk) (rows s)
                   else option_map (fun v => (v, rows s))
                                   (Lmdb.rget (_enc_pk_key pk) (rows s)) in
      match found with
      | None => Raise DatabaseInconsistent
      | Some (payload, r') =>
          let i := _dec_iden (slice_to UUID_SIZE payload) in
          match Msgpack.unpack (slice_from UUID_SIZE payload) with
          | Some (Msgpack.OStr p, rest1) =>
              match Msgpack.unpack rest1 with
              | Some (v, rest2) =>
                  match Msgpack.unpack rest2 with
                  | Some (Msgpack.OInt t, _) =>
                      Ok (set_rows s r', mkRow i p (obj_valu v) t)
                  | _ => Raise UnpackException
                  end
              | None => Raise UnpackException
              end
          | _ => Raise UnpackException
          end
      end
  | _ => Raise UnpackException
  end.

Definition or_else (o : option bytes) (d : bytes) : bytes :=
  match o with
  | Some b => b
  | None => d
  end.

Definition _delRowAndIndices (s : store) (pk_val_enc : bytes)
    (i_enc p_enc v_key_enc t_enc : option bytes)
    (delete_ip delete_pvt delete_pt : bool) (only_if_val : option valu)
  : res (store * bool) :=
  '(s, r) <- _getRowByPkValEnc s pk_val_enc true ;;
  let mismatch := match only_if_val with
                  | Some w => negb (valu_eqb w (r_valu r))
                  | None => false
                  end in
  if mismatch then Ok (s, false)
  else
    i_enc <- match i_enc with
             | None => if delete_ip then _enc_iden (r_iden r) else Ok []
             | Some b => Ok b
             end ;;
    let p_enc := or_else p_enc (msgenpack (VStr (r_prop r))) in
    let v_key_enc := or_else v_key_enc (_enc_val_key xxh64 (r_valu r)) in
    let t_enc := or_else t_enc (msgenpack (VInt (r_time r))) in
    s <- (if delete_ip then
            match Lmdb.delete (i_enc ++ p_enc, pk_val_enc) (index_ip s) with
            | None => Raise DatabaseInconsistent
            | Some t' => Ok (set_index s IP t')
            end
          else Ok s) ;;
    s <- (if delete_pvt then
            match Lmdb.delete (p_enc ++ v_key_enc ++ t_enc, pk_val_enc) (index_pvt s) with
            | None => Raise DatabaseInconsistent
            | Some t' => Ok (set_index s PVT t')
            end
          else Ok s) ;;
    s <- (if delete_pt then
            match Lmdb.delete (p_enc ++ t_enc, pk_val_enc) (index_pt s) with
            | None => Raise DatabaseInconsistent
            | Some t' => Ok (set_index s PT t')
            end
          else Ok s) ;;
    Ok (s, true).

(** The [while True] loops run on fuel: [None] is a loop that has not
    returned within it. *)
Fixpoint delRowsById_loop (fuel : nat) (s : store) (c : nat) (i_enc : bytes)
  : option (res (store * unit)) :=
  match fuel with
  | O => None
  | S f =>
      let '(key, value) := Lmdb.item (index_ip s) c in
      if negb (beq (slice_to (length i_enc) key) i_enc) then Some (Ok (s, tt))
      else
        let p_enc := slice_from (length i_enc) key in
        let pk_val_enc := value in
        match Lmdb.cdelete (index_ip s) c with
        | None => Some (Raise DeleteFailure)
        | Some t' =>
            match _delRowAndIndices (set_index s IP t') pk_val_enc (Some i_enc)
                    (Some p_enc) None None false true true None with
            | Raise e => Some (Raise e)
            | Ok (s', _) => delRowsById_loop f s' c i_enc
            end
        end
  end.

Definition _delRowsById (fuel : nat) (s : store) (iden : bytes)
  : option (store * res unit) :=
  match _enc_iden iden with
  | Raise e => Some (s, Raise e)
  | Ok i_enc =>
      option_map (with_txn s)
        match Lmdb.set_range i_enc (index_ip s) with
        | None => Some (Raise DatabaseInconsistent)
        | Some c => delRowsById_loop fuel s c i_enc
        end
  end.

Fixpoint delRowsByIdProp_loop (fuel : nat) (s : store) (c : nat)
    (i_enc p_enc first_key : bytes) (valu : option valu)
  : option (res (store * unit)) :=
  match fuel with
  | O => None
  | S f =>
      let '(key, value) := Lmdb.item (index_ip s) c in
      if negb (beq (slice_to (length first_key) key) first_key) then Some (Ok (s, tt))
      else
        let pk_val_enc := value in
        match _delRowAndIndices s pk_val_enc (Some i_enc) (Some p_enc) None None
                false true true valu with
        | Raise e => Some (Raise e)
        | Ok (s', false) =>
            match Lmdb.next (index_ip s') c with
            | None => Some (Raise DatabaseInconsistent)
            | Some c' => delRowsByIdProp_loop f s' c' i_enc p_enc first_key valu
            end
        | Ok (s', true) =>
            match Lmdb.cdelete (index_ip s') c with
            | None => Some (Raise DeleteFailure)
            | Some t' =>
                delRowsByIdProp_loop f (set_index s' IP t') c i_enc p_enc first_key valu
            end
        end
  end.

Definition _delRowsByIdProp (fuel : nat) (s : store) (iden prop : bytes)
    (valu : option valu) : option (store * res unit) :=
  match _enc_iden iden with
  | Raise e => Some (s, Raise e)
  | Ok i_enc =>
      let p_enc := msgenpack (VStr prop) in
      let first_key := i_enc ++ p_enc in
      option_map (with_txn s)
        match Lmdb.set_range first_key (index_ip s) with
        | None => Some (Raise DatabaseInconsistent)
        | Some c => delRowsByIdProp_loop fuel s c i_enc p_enc first_key valu
        end
  end.

Definition is_none {A} (o : option A) : bool :=
  match o with
  | None => true
  | Some _ => false
  end.

Definition limit_hit (limit : option Z) (count : Z) : bool :=
  match limit with
  | Some l => count >=? l
  | None => false
  end.

(** One pass of the loop of [_getRowsByProp] up to [count += 1]: the state
    and rows to go on with, or [None] for the [continue] statement. *)
Definition getRowsByProp_body (s : store) (w : which) (c : nat) (value p_enc : bytes)
    (valu : option valu) (v_is_hashed do_count_only do_delete_only : bool)
    (ret : list row) : res (option (store * list row)) :=
  if do_delete_only then
    let pk_val_enc := value in
    match Lmdb.cdelete (get_index s w) c with
    | None => Raise DeleteFailure
    | Some t' =>
        '(s', _) <- _delRowAndIndices (set_index s w t') pk_val_enc None (Some p_enc)
                      None None true (is_none valu) (negb (is_none valu)) valu ;;
        Ok (Some (s', ret))
    end
  else if negb do_count_only || v_is_hashed then
    '(_, r) <- _getRowByPkValEnc s value false ;;
    let differs := match valu with
                   | Some w => negb (valu_eqb w (r_valu r))
                   | None => false
                   end in
    if v_is_hashed && differs then Ok None
    else Ok (Some (s, if negb do_count_only then ret ++ [r] else ret))
  else Ok (Some (s, ret)).

Fixpoint getRowsByProp_loop (fuel : nat) (s : store) (w : which) (c : nat)
    (p_enc last_key : bytes) (valu : option valu) (v_is_hashed : bool)
    (limit : option Z) (do_count_only do_delete_only : bool)
    (ret : list row) (count : Z) : option (res (store * (list row * Z))) :=
  match fuel with
  | O => None
  | S f =>
      let '(key, value) := Lmdb.item (get_index s w) c in
      if bge key last_key then Some (Ok (s, (ret, count)))
      else
        match getRowsByProp_body s w c value p_enc valu v_is_hashed do_count_only
                do_delete_only ret with
        | Raise e => Some (Raise e)
        | Ok None =>
            getRowsByProp_loop f s w c p_enc last_key valu v_is_hashed limit
              do_count_only do_delete_only ret count
        | Ok (Some (s', ret')) =>
            let count := count + 1 in
            if limit_hit limit count then Some (Ok (s', (ret', count)))
            else if negb do_delete_only then
              match Lmdb.next (get_index s' w) c with
              | None => Some (Raise DatabaseInconsistent)
              | Some c' =>
                  getRowsByProp_loop f s' w c' p_enc last_key valu v_is_hashed limit
                    do_count_only do_delete_only ret' count
              end
            else
              getRowsByProp_loop f s' w c p_enc last_key valu v_is_hashed limit
                do_count_only do_delete_only ret' count
        end
  end.

Definition _getRowsByProp (fuel : nat) (s : store) (prop : bytes) (valu : option valu)
    (limit mintime maxtime : option Z) (do_count_only do_delete_only : bool)
  : option (store * res qres) :=
  if do_count_only && do_delete_only then Some (s, Raise AssertionError)
  else
    let indx := if is_none valu then PT else PVT in
    let p_enc := msgenpack (VStr prop) in
    let v_key_enc := match valu with
                     | None => []
                     | Some v => _enc_val_key xxh64 v
                     end in
    let v_is_hashed := negb (is_none valu) && index0_eq py v_key_enc HASH_VAL_MARKER_ENC in
    let mintime_enc := match mintime with
                       | None => []
                       | Some t => msgenpack (VInt t)
                       end in
    let maxtime_enc := match maxtime with
                       | None => MAX_TIME_ENC
                       | Some t => msgenpack (VInt t)
                       end in
    let first_key := p_enc ++ v_key_enc ++ mintime_enc in
    let last_key := p_enc ++ v_key_enc ++ maxtime_enc in
    option_map
      (fun r => with_txn s
                  ('(s', (ret, count)) <- r ;;
                   Ok (s', if do_count_only then QCount count else QRows ret)))
      match Lmdb.set_range first_key (get_index s indx) with
      | None => Some (Raise DatabaseInconsistent)
      | Some c =>
          getRowsByProp_loop fuel s indx c p_enc last_key valu v_is_hashed limit
            do_count_only do_delete_only [] 0
      end.

Definition _getSizeByProp (fuel : nat) (s : store) (prop : bytes) (valu : option valu)
    (limit mintime maxtime : option Z) : option (store * res qres) :=
  _getRowsByProp fuel s prop valu limit mintime maxtime true false.

Definition _delRowsByProp (fuel : nat) (s : store) (prop : bytes) (valu : option valu)
    (mintime maxtime : option Z) : option (store * res qres) :=
  _getRowsByProp fuel s prop valu None mintime maxtime false true.

(** The loop of [_subrangeRows] over the cursor's iterator. *)
Fixpoint subrange_loop (s : store) (it : list Lmdb.entry) (last_key : bytes)
    (term_cmp : bytes -> bytes -> bool) (limit : option Z) (do_count_only : bool)
    (ret : list row) (count : Z) : res (list row * Z) :=
  match it with
  | [] => Ok (ret, count)
  | (key, value) :: it' =>
      if term_cmp (slice_to (length last_key) key) last_key then Ok (ret, count)
      else
        let count := count + 1 in
        ret <- (if negb do_count_only
                then '(_, r) <- _getRowByPkValEnc s value false ;; Ok (ret ++ [r])
                else Ok ret) ;;
        if limit_hit limit count then Ok (ret, count)
        else subrange_loop s it' last_key term_cmp limit do_count_only ret count
  end.

Definition _subrangeRows (s : store) (p_enc : bytes) (first_val last_val : Z)
    (limit : option Z) (right_closed do_count_only : bool) : res qres :=
  let first_key := p_enc ++ _enc_val_key xxh64 (VInt first_val) in
  let am_going_backwards := first_val <? 0 in
  let last_key := p_enc ++ _enc_val_key xxh64 (VInt last_val) in
  let term_cmp := if am_going_backwards
                  then (if right_closed then blt else ble)
                  else (if right_closed then bgt else bge) in
  match Lmdb.set_range first_key (index_pvt s) with
  | None => Raise DatabaseInconsistent
  | Some c =>
      it <- (if am_going_backwards then
               c <- (if bgt (slice_to (length first_key) (fst (Lmdb.item (index_pvt s) c)))
                            first_key
                     then match Lmdb.prev c with
                          | None => Raise DatabaseInconsistent
                          | Some c' => Ok c'
                          end
                     else Ok c) ;;
               Ok (Lmdb.iterprev (index_pvt s) c)
             else Ok (Lmdb.iternext (index_pvt s) c)) ;;
      '(ret, count) <- subrange_loop s it last_key term_cmp limit do_count_only [] 0 ;;
      Ok (if do_count_only then QCount count else QRows ret)
  end.

Definition _rowsByMinmax (s : store) (prop : bytes) (minval maxval : Z)
    (limit : option Z) (right_closed do_count_only : bool) : res qres :=
  if minval >? maxval then Ok (QCount 0)
  else
    let do_neg_search := minval <? 0 in
    let do_pos_search := maxval >=? 0 in
    let ret := if do_count_only then QCount 0 else QRows [] in
    let p_enc := msgenpack (VStr prop) in
    '(ret, limit, done) <-
      (if do_neg_search then
         let this_right_closed := do_pos_search || right_closed in
         let first_val := minval in
         let last_val := Z.min (-1) maxval in
         sub <- _subrangeRows s p_enc first_val last_val limit this_right_closed
                  do_count_only ;;
         let ret := qadd ret sub in
         match limit with
         | Some l => Ok (ret, Some (l - qsize ret), l - qsize ret =? 0)
         | None => Ok (ret, None, false)
         end
       else Ok (ret, limit, false)) ;;
    if done then Ok ret
    else if do_pos_search then
      let first_val := Z.max 0 minval in
      let last_val := maxval in
      sub <- _subrangeRows s p_enc first_val last_val limit right_closed do_count_only ;;
      Ok (qadd ret sub)
    else Ok ret.

Definition _rowsByRange (s : store) (prop : bytes) (valu : Z * Z) (limit : option Z)
  : res qres :=
  _rowsByMinmax s prop (fst valu) (snd valu) limit false false.

Definition _sizeByRange (s : store) (prop : bytes) (valu : Z * Z) (limit : option Z)
  : res qres :=
  _rowsByMinmax s prop (fst valu) (snd valu) limit false true.

Definition _rowsByGe (s : store) (prop : bytes) (valu : Z) (limit : option Z) : res qres :=
  _rowsByMinmax s prop valu MAX_INT_VAL limit true false.

Definition _rowsByLe (s : store) (prop : bytes) (valu : Z) (limit : option Z) : res qres :=
  _rowsByMinmax s prop MIN_INT_VAL valu limit true false.

Definition _sizeByLt (s : store) (prop : bytes) (valu : Z) (limit : option Z) : res qres :=
  _rowsByMinmax s prop MIN_INT_VAL valu limit false true.

End Cortex.






(** The primary keys held by the rows table, and those an index table refers
    to; the sentinels carry the empty value, which is no primary key. *)
Definition row_pks (s : store) : list Z := map fst (rows s).

Definition index_pks (t : Lmdb.table) : list Z :=
  flat_map (fun e => match msgunpack (snd e) with
                     | Some (VInt pk) => [pk]
                     | _ => []
                     end) t.

(** ** Sessions: sequences of appends and deletes on an open environment *)

Inductive op :=
| Append (rws : list row)
| DelById (iden : bytes)
| DelByIdProp (iden prop : bytes) (valu : option valu)
| DelByProp (prop : bytes) (valu : option valu) (mintime maxtime : option Z).

Section Sessions.

Variable xxh64 : bytes -> Z.
Variable py : python.

(** The store after one operation; an operation that raises has had its
    transaction dropped. [None]: the operation did not return within the fuel. *)
Definition apply_op (fuel : nat) (s : store) (o : op) : option store :=
  match o with
  | Append rws => Some (fst (_addRows xxh64 s rws))
  | DelById i => option_map fst (_delRowsById xxh64 fuel s i)
  | DelByIdProp i p v => option_map fst (_delRowsByIdProp xxh64 fuel s i p v)
  | DelByProp p v mintime maxtime =>
      option_map fst (_delRowsByProp xxh64 py fuel s p v mintime maxtime)
  end.

(** The primary keys an operation has assigned: the keys it added at the end
    of the rows table. *)
Definition assigned_pks (s s' : store) (o : op) : list Z :=
  match o with
  | Append _ => skipn (length (rows s)) (row_pks s')
  | _ => []
  end.

(** A session: the final store and the primary keys assigned, in order. *)
Fixpoint run_session (fuel : nat) (s : store) (ops : list op) : option (store * list Z) :=
  match ops with
  | [] => Some (s, [])
  | o :: ops' =>
      match apply_op fuel s o with
      | None => None
      | Some s' =>
          match run_session fuel s' ops' with
          | None => None
          | Some (s'', pks) => Some (s'', assigned_pks s s' o ++ pks)
          end
      end
  end.

(** The lifetime of a store: sessions, each opened with [_initDbConn] on the
    tables the previous one left in the file. *)
Fixpoint run_lifetime (fuel : nat) (r : Lmdb.rtable) (ip pvt pt : Lmdb.table)
    (sessions : list (list op)) : option (list Z) :=
  match sessions with
  | [] => Some []
  | ops :: rest =>
      match _initDbConn r ip pvt pt with
      | Raise _ => None
      | Ok s =>
          match run_session fuel s ops with
          | None => None
          | Some (s', pks) =>
              match run_lifetime fuel (rows s') (index_ip s') (index_pvt s') (index_pt s')
                      rest with
              | None => None
              | Some pks' => Some (pks ++ pks')
              end
          end
      end
  end.

End Sessions.

(** ** Well-formed rows

    The rows of the data model: the iden is 32 lowercase hex digits, the
    property name is at most [MAX_PROP_LEN] octets, an integer value and the
    timestamp are signed 64-bit integers, a string value is shorter than 2^32
    octets. *)

Definition lower_hex (c : Z) : bool :=
  ((48 <=? c) && (c <=? 57)) || ((97 <=? c) && (c <=? 102)).

Definition int64 (z : Z) : bool := (MIN_INT_VAL <=? z) && (z <=? MAX_INT_VAL).

Definition wf_valu (v : valu) : bool :=
  match v with
  | VInt z => int64 z
  | VStr s => len s <? 2 ^ 32
  end.

Definition wf_row (r : row) : bool :=
  (length (r_iden r) =? 32)%nat && forallb lower_hex (r_iden r) &&
  (len (r_prop r) <=? MAX_PROP_LEN) && wf_valu (r_valu r) && int64 (r_time r).

(** ** What a batch of rows puts in the tables *)

Fixpoint zseq (start : Z) (n : nat) : list Z :=
  match n with
  | O => []
  | S m => start :: zseq (start + 1) m
  end.

(** The decoded iden of a row. *)
Definition iden_bytes (r : row) : bytes :=
  match unhexlify (r_iden r) with
  | Some b => b
  | None => []
  end.

Section Entries.

Variable xxh64 : bytes -> Z.

(** The value of the rows table and the keys of the three indices for a row. *)
Definition payload (r : row) : bytes :=
  iden_bytes r ++ msgenpack (VStr (r_prop r)) ++ _enc_val_val (r_valu r)
    ++ msgenpack (VInt (r_time r)).

Definition ip_key (r : row) : bytes := iden_bytes r ++ msgenpack (VStr (r_prop r)).

Definition pvt_key (r : row) : bytes :=
  msgenpack (VStr (r_prop r)) ++ _enc_val_key xxh64 (r_valu r) ++ msgenpack (VInt (r_time r)).

Definition pt_key (r : row) : bytes :=
  msgenpack (VStr (r_prop r)) ++ msgenpack (VInt (r_time r)).

Definition enc_of (x : Z * row) : enc :=
  let r := snd x in
  mkEnc (iden_bytes r) (msgenpack (VStr (r_prop r))) (_enc_val_val (r_valu r))
        (msgenpack (VInt (r_time r))) (_enc_val_key xxh64 (r_valu r))
        (msgenpack (VInt (fst x))) (_enc_pk_key (fst x)).

Definition pvt_entry (x : Z * row) : Lmdb.entry := (pvt_key (snd x), msgenpack (VInt (fst x))).
Definition pt_entry (x : Z * row) : Lmdb.entry := (pt_key (snd x), msgenpack (VInt (fst x))).
Definition ip_entry (x : Z * row) : Lmdb.entry := (ip_key (snd x), msgenpack (VInt (fst x))).

End Entries.

(** The rows of a batch with the primary keys they are given. *)
Definition numbered (npk : Z) (rws : list row) : list (Z * row) :=
  combine (zseq npk (length rws)) rws.

(** The order of a table's entries. *)
Definition elt (a b : Lmdb.entry) : Prop := Lmdb.ecmp a b = Lt.

(** ** The store that holds a given list of numbered rows *)

Definition sentinel_lo : Lmdb.entry := ([0], []).
Definition sentinel_hi : Lmdb.entry := (MAX_INDEX_KEY, []).

Record models (xxh64 : bytes -> Z) (live : list (Z * row)) (s : store) : Prop := {
  m_rows : rows s = map (fun x => (fst x, payload (snd x))) live;
  m_nodup : NoDup (map fst live);
  m_wf : Forall (fun x => wf_row (snd x) = true /\ 1 <= fst x <= MAX_PK) live;
  m_pvt_sorted : StronglySorted elt (index_pvt s);
  m_pvt_in : forall e, In e (index_pvt s) <->
                       e = sentinel_lo \/ e = sentinel_hi \/ In e (map (pvt_entry xxh64) live);
  m_pt_sorted : StronglySorted elt (index_pt s);
  m_pt_in : forall e, In e (index_pt s) <-> e = sentinel_hi \/ In e (map pt_entry live)
}.

(** How the value key of [v] compares with that of the integer [x], and how
    the (prop, value) part of a row's P-V-T key compares with the key of
    property [p] and integer [x]. *)
Definition vcmp (v : valu) (x : Z) : comparison :=
  match v with
  | VInt z =>
      if x <? 0 then (if z <? 0 then x ?= z else Lt)
      else (if z <? 0 then Gt else z ?= x)
  | VStr _ => if x <? 0 then Lt else Gt
  end.

Definition row_cmp (r : row) (p : bytes) (x : Z) : comparison :=
  match bcmp (Msgpack.pack_str (r_prop r)) (Msgpack.pack_str p) with
  | Eq => vcmp (r_valu r) x
  | c => c
  end.

(** The comparison the range engine makes: the key cut to the length of the
    bound against the bound. *)
Definition pcmp (q : bytes) (e : Lmdb.entry) : comparison :=
  bcmp (slice_to (length q) (fst e)) q.

(** The test that ends the loop of [_subrangeRows], on an entry. *)
Definition termb (term_cmp : bytes -> bytes -> bool) (last_key : bytes)
    (e : Lmdb.entry) : bool :=
  term_cmp (slice_to (length last_key) (fst e)) last_key.

(** The entry of the P-V-T index that a returned row was read through. *)
Definition read_through (xxh64 : bytes -> Z) (live : list (Z * row))
    (e : Lmdb.entry) (r : row) : Prop :=
  exists pk, In (pk, r) live /\ e = pvt_entry xxh64 (pk, r).

(** The entries a scan has read, out of its candidates in cursor order: all
    of them when there is no limit, the first few otherwise. *)
Definition scanned (xxh64 : bytes -> Z) (live : list (Z * row))
    (cands : list Lmdb.entry) (limit : option Z) (rs : list row) : Prop :=
  exists pre suf,
    cands = pre ++ suf /\
    Forall2 (read_through xxh64 live) pre rs /\
    (limit = None -> suf = []).

(** The candidates of the forward scan over [first_key, last_key]. *)
Definition fwd_cands (first_key last_key : bytes) (right_closed : bool)
    (t : Lmdb.table) : list Lmdb.entry :=
  filter (fun e => bge (fst e) first_key &&
                   negb (termb (if right_closed then bgt else bge) last_key e)) t.

(** The candidates of the backward scan: the entry the cursor landed on when
    it carries the first key, then the entries below the first key from the
    largest down. *)
Definition bwd_cands (landed : list Lmdb.entry) (first_key last_key : bytes)
    (right_closed : bool) (t : Lmdb.table) : list Lmdb.entry :=
  filter (fun e => negb (termb (if right_closed then blt else ble) last_key e))
         (landed ++ rev (filter (fun e => blt (fst e) first_key) t)).

(** The integer a row holds. *)
Definition ival (r : row) : Z :=
  match r_valu r with
  | VInt z => z
  | VStr _ => 0
  end.

(** ** The rows table as found in the file *)

(** The keys of the rows table are unsigned words in ascending order. *)
Fixpoint keys_ascend (prev : Z) (t : Lmdb.rtable) : bool :=
  match t with
  | [] => true
  | (k, _) :: t' => (prev <? k) && keys_ascend k t'
  end.

Definition rtable_ok (t : Lmdb.rtable) : bool := keys_ascend (-1) t.

(** The largest primary key stored, 0 for the empty table. *)
Definition max_pk (t : Lmdb.rtable) : Z := fold_right Z.max 0 (map fst t).

(** A delete leaves the counter alone and adds no row. *)
Definition shrinks (s s' : store) : Prop :=
  next_pk s' = next_pk s /\ incl (rows s') (rows s).

(** A session used as an example: two rows appended, the rows of their iden
    deleted, one more row appended. *)
Definition session_example : list op :=
  [Append [mkRow (repeat 97 32) [102; 111; 111] (VInt 1) 10;
           mkRow (repeat 97 32) [102; 111; 111] (VInt 2) 20];
   DelById (repeat 97 32);
   Append [mkRow (repeat 97 32) [102; 111; 111] (VInt 3) 30]].

Definition session_example_store : store :=
  Eval vm_compute in
    match run_session (fun _ => 0) Python3 10 fresh session_example with
    | Some (s, _) => s
    | None => fresh
    end.

(** A row and its three index entries are in the store. *)
Definition kept (pk : Z) (pl : bytes) (ei ev et : Lmdb.entry) (s : store) : Prop :=
  Lmdb.rget pk (rows s) = Some pl /\
  In ei (index_ip s) /\ In ev (index_pvt s) /\ In et (index_pt s).

(** Every index entry of [s] whose value is not [pkv] is still in [s']. *)
Definition spares (pkv : bytes) (s s' : store) : Prop :=
  forall w x, In x (get_index s w) -> snd x <> pkv -> In x (get_index s' w).

(** The value of a query by property, when one is given, can be encoded. *)
Definition wf_query (valu : option valu) : bool :=
  match valu with
  | Some v => wf_valu v
  | None => true
  end.

(** ** The readers by iden and the remaining range queries *)

(** The loop of [_getRowsById] over the cursor's iterator; running off the
    end of the table is the missing sentinel. *)
Fixpoint getRowsById_loop (s : store) (it : list Lmdb.entry) (iden_enc : bytes)
    (ret : list row) : res (list row) :=
  match it with
  | [] => Raise DatabaseInconsistent
  | (key, value) :: it' =>
      if negb (beq (slice_to (length iden_enc) key) iden_enc) then Ok ret
      else
        '(_, r) <- _getRowByPkValEnc s value false ;;
        getRowsById_loop s it' iden_enc (ret ++ [r])
  end.

Definition _getRowsById (s : store) (iden : bytes) : res (list row) :=
  iden_enc <- _enc_iden iden ;;
  match Lmdb.set_range iden_enc (index_ip s) with
  | None => Raise DatabaseInconsistent
  | Some c => getRowsById_loop s (Lmdb.iternext (index_ip s) c) iden_enc []
  end.

(** The loop of [_getRowsByIdProp]: the whole key is compared, and a row of
    another value is passed over. *)
Fixpoint getRowsByIdProp_loop (s : store) (it : list Lmdb.entry) (first_key : bytes)
    (valu : option valu) (ret : list row) : res (list row) :=
  match it with
  | [] => Raise DatabaseInconsistent
  | (key, value) :: it' =>
      if negb (beq key first_key) then Ok ret
      else
        '(_, r) <- _getRowByPkValEnc s value false ;;
        let differs := match valu with
                       | Some w => negb (valu_eqb (r_valu r) w)
                       | None => false
                       end in
        getRowsByIdProp_loop s it' first_key valu (if differs then ret else ret ++ [r])
  end.

Definition _getRowsByIdProp (s : store) (iden prop : bytes) (valu : option valu)
  : res (list row) :=
  iden_enc <- _enc_iden iden ;;
  let prop_enc := msgenpack (VStr prop) in
  let first_key := iden_enc ++ prop_enc in
  match Lmdb.set_range first_key (index_ip s) with
  | None => Raise DatabaseInconsistent
  | Some c => getRowsByIdProp_loop s (Lmdb.iternext (index_ip s) c) first_key valu []
  end.

Definition _sizeByGe (xxh64 : bytes -> Z) (s : store) (prop : bytes) (valu : Z)
    (limit : option Z) : res qres :=
  _rowsByMinmax xxh64 s prop valu MAX_INT_VAL limit true true.

Definition _sizeByLe (xxh64 : bytes -> Z) (s : store) (prop : bytes) (valu : Z)
    (limit : option Z) : res qres :=
  _rowsByMinmax xxh64 s prop MIN_INT_VAL valu limit true true.

(** ** Vocabulary of the further properties *)

(** [str.lower] on an ASCII character, and the characters [unhexlify] takes. *)
Definition ascii_lower (c : Z) : Z := if (65 <=? c) && (c <=? 90) then c + 32 else c.

Definition hex_char (c : Z) : bool := lower_hex c || ((65 <=? c) && (c <=? 70)).

(** The store holds exactly the numbered rows [live]: the rows table in
    ascending order of primary key, one entry per row in each of the three
    indices beside the sentinels, and a counter past every key in use. *)
Record consistent (xxh64 : bytes -> Z) (live : list (Z * row)) (s : store) : Prop := {
  c_models : models xxh64 live s;
  c_ascend : StronglySorted Z.lt (map fst live);
  c_ip_sorted : StronglySorted elt (index_ip s);
  c_ip_in : forall e, In e (index_ip s) <-> e = sentinel_hi \/ In e (map ip_entry live);
  c_next : Forall (fun x => fst x < next_pk s) live;
  c_next_range : 1 <= next_pk s <= MAX_PK + 1
}.

(** The numbered rows but the one of primary key [pk]. *)
Definition without (pk : Z) (live : list (Z * row)) : list (Z * row) :=
  filter (fun x => negb (fst x =? pk)) live.

(** What a deleting loop came to: a store, an exception, or no return
    within the fuel. *)
Definition del_outcome {A} (good : store -> Prop) (bad stuck : Prop)
    (o : option (res (store * A))) : Prop :=
  match o with
  | Some (Ok (s', _)) => good s'
  | Some (Raise _) => bad
  | None => stuck
  end.

(** The value of a query by property is matched on the index alone: it is
    absent, an integer, or a string short enough to be indexed whole. *)
Definition exact_valu (valu : option valu) : bool :=
  match valu with
  | Some (VStr a) => len a <? LARGE_STRING_SIZE
  | _ => true
  end.

(** The rows a query by property with these bounds goes through: those
    whose key in the index it scans is in [first_key, last_key). *)
Definition in_window (xxh64 : bytes -> Z) (prop : bytes) (valu : option valu)
    (mintime maxtime : option Z) (r : row) : bool :=
  let p_enc := msgenpack (VStr prop) in
  let v_key_enc := match valu with
                   | None => []
                   | Some v => _enc_val_key xxh64 v
                   end in
  let mintime_enc := match mintime with
                     | None => []
                     | Some t => msgenpack (VInt t)
                     end in
  let maxtime_enc := match maxtime with
                     | None => MAX_TIME_ENC
                     | Some t => msgenpack (VInt t)
                     end in
  let key := if is_none valu then pt_key r else pvt_key xxh64 r in
  bge key (p_enc ++ v_key_enc ++ mintime_enc) && blt key (p_enc ++ v_key_enc ++ maxtime_enc).

(** The operations that keep the tables in step: appends of well-formed
    rows, deletes by iden, deletes by iden and property with no value asked
    for, and deletes by property for a value matched on the index alone. *)
Definition safe_op (o : op) : bool :=
  match o with
  | Append rws => forallb wf_row rws
  | DelById _ => true
  | DelByIdProp _ _ v => is_none v
  | DelByProp p v _ _ => (len p <? 2 ^ 32) && wf_query v && exact_valu v
  end.

(** A session with each kind of operation that keeps the tables in step,
    and the store it ends in. *)
Definition mixed_session : list op :=
  let foo := [102; 111; 111] in
  let bar := [98; 97; 114] in
  [Append [mkRow (repeat 97 32) foo (VInt 1) 10;
           mkRow (repeat 97 32) bar (VStr [120]) 20;
           mkRow (repeat 98 32) foo (VInt (-5)) 30;
           mkRow (repeat 99 32) foo (VInt 1) 40;
           mkRow (repeat 99 32) bar (VInt 7) 50];
   DelById (repeat 97 32);
   DelByIdProp (repeat 99 32) foo None;
   DelByProp foo (Some (VInt (-5))) None None;
   Append [mkRow (repeat 97 32) foo (VInt 1) 60]].

Definition mixed_session_store : store :=
  Eval vm_compute in
    match run_session (fun _ => 0) Python3 10 fresh mixed_session with
    | Some (s, _) => s
    | None => fresh
    end.

(** The rows of the store as [_getRowByPkValEnc] reads them, each with its
    primary key, in the order of the rows table. *)
Definition stored (s : store) : list (Z * row) :=
  flat_map (fun kv => match _getRowByPkValEnc s (msgenpack (VInt (fst kv))) false with
                      | Ok (_, r) => [(fst kv, r)]
                      | Raise _ => []
                      end) (rows s).

(** The store a session of operations that keep the tables in step has
    ended in, started on the empty environment. *)
Definition reached_by (xxh64 : bytes -> Z) (py : python) (fuel : nat) (ops : list op)
    (s : store) : Prop :=
  forallb safe_op ops = true /\
  option_map fst (run_session xxh64 py fuel fresh ops) = Some s.

(** ** Vocabulary for the results of a query by property *)

(** What a scan with a limit goes through of the entries [l] before it: the
    count is compared with the limit after each row, so the first row always
    gets through. *)
Fixpoint take_limit {A} (limit : option Z) (count : Z) (l : list A) : list A :=
  match l with
  | [] => []
  | x :: l' =>
      x :: (if limit_hit limit (count + 1) then [] else take_limit limit (count + 1) l')
  end.

(** The number of rows a limit lets through, of [n] candidates. *)
Definition limited (limit : option Z) (n : nat) : nat :=
  match limit with
  | Some z => Nat.min n (Z.to_nat (Z.max 1 z))
  | None => n
  end.

(** A time bound of a query that MessagePack writes as an unsigned integer. *)
Definition wf_bound (o : option Z) : bool :=
  match o with
  | Some a => (0 <=? a) && (a <? 2 ^ 64)
  | None => true
  end.

(** The timestamps between the bounds of a query: not negative, from
    [mintime] on, and below [maxtime], or below [MAX_INT_VAL] without one. *)
Definition in_times (mintime maxtime : option Z) (t : Z) : bool :=
  (0 <=? t) &&
  match mintime with
  | Some a => a <=? t
  | None => true
  end &&
  (t <? match maxtime with
        | Some b => b
        | None => MAX_INT_VAL
        end).

(** The rows of a property, of a value when one is given, with a timestamp
    between the bounds. *)
Definition selected (prop : bytes) (valu : option valu) (mintime maxtime : option Z)
    (r : row) : bool :=
  beq (r_prop r) prop &&
  match valu with
  | Some v => valu_eqb (r_valu r) v
  | None => true
  end &&
  in_times mintime maxtime (r_time r).

(** A session that stores one row under the largest iden. *)
Definition max_iden_session : list op :=
  [Append [mkRow (repeat 102 32) [102; 111; 111] (VInt 1) 10]].

Definition max_iden_store : store :=
  Eval vm_compute in
    match run_session (fun _ => 0) Python3 10 fresh max_iden_session with
    | Some (s, _) => s
    | None => fresh
    end.

(** * Properties *)

(** A text has at most as many characters as octets. *)
Lemma str_len_le (s : bytes) : 0 <= str_len s <= len s.
Proof.
  unfold str_len, len. pose proof (filter_length_le utf8_lead s). lia.
Qed.

(** A text of ASCII characters has as many characters as octets. *)
Lemma str_len_ascii (s : bytes) :
  Forall (fun c => 0 <= c < 128) s -> str_len s = len s.
Proof.
  intros H. unfold str_len. f_equal. apply forallb_filter_id.
  apply forallb_forall. intros c Hc. rewrite Forall_forall in H. specialize (H c Hc).
  unfold utf8_lead. destruct (Z.leb_spec 128 c); [lia | reflexivity].
Qed.

(** ** Sample evaluations *)

Example marker_encodings :
  NEGATIVE_VAL_MARKER_ENC = [255] /\ STRING_VAL_MARKER_ENC = [254] /\
  HASH_VAL_MARKER_ENC = [253] /\
  MAX_TIME_ENC = [207; 127; 255; 255; 255; 255; 255; 255; 255].
Proof. repeat split; reflexivity. Qed.

Example pack_int_samples :
  Msgpack.pack_int 0 = [0] /\ Msgpack.pack_int 127 = [127] /\
  Msgpack.pack_int 128 = [204; 128] /\ Msgpack.pack_int 256 = [205; 1; 0] /\
  Msgpack.pack_int 65536 = [206; 0; 1; 0; 0] /\
  Msgpack.pack_int (-33) = [208; 223] /\ Msgpack.pack_int (-129) = [209; 255; 127].
Proof. repeat split; reflexivity. Qed.

Example unpack_samples :
  Msgpack.unpack (Msgpack.pack_int (-129) ++ [7]) = Some (Msgpack.OInt (-129), [7]) /\
  Msgpack.unpack (Msgpack.pack_str [102; 111; 111] ++ [7]) =
    Some (Msgpack.OStr [102; 111; 111], [7]) /\
  Msgpack.unpack (Msgpack.pack_int (2 ^ 63)) = Some (Msgpack.OInt (2 ^ 63), []).
Proof. repeat split; reflexivity. Qed.

Example fresh_is_init : _initDbConn [] [] [] [] = Ok fresh.
Proof. reflexivity. Qed.

(** ** The lexicographic order *)

Lemma bcmp_refl (a : bytes) : bcmp a a = Eq.
Proof.
  induction a as [|x a IH]; simpl; [reflexivity|].
  now rewrite Z.compare_refl.
Qed.

Lemma bcmp_eq (a b : bytes) : bcmp a b = Eq -> a = b.
Proof.
  revert b; induction a as [|x a IH]; intros [|y b]; simpl; try discriminate; auto.
  destruct (x ?= y) eqn:E; try discriminate.
  apply Z.compare_eq in E; subst; intros H; f_equal; auto.
Qed.

Lemma bcmp_antisym (a b : bytes) : bcmp b a = CompOpp (bcmp a b).
Proof.
  revert b; induction a as [|x a IH]; intros [|y b]; simpl; auto.
  rewrite (Z.compare_antisym x y).
  destruct (x ?= y); simpl; auto.
Qed.

Lemma bcmp_lt_trans (a b c : bytes) :
  bcmp a b = Lt -> bcmp b c = Lt -> bcmp a c = Lt.
Proof.
  revert b c; induction a as [|x a IH]; intros [|y b] [|z c]; simpl;
    try discriminate; auto.
  destruct (x ?= y) eqn:E1; try discriminate;
    destruct (y ?= z) eqn:E2; try discriminate; intros H1 H2.
  - apply Z.compare_eq in E1, E2; subst. rewrite Z.compare_refl; eauto.
  - apply Z.compare_eq in E1; subst. now rewrite E2.
  - apply Z.compare_eq in E2; subst. now rewrite E1.
  - rewrite Z.compare_lt_iff in E1, E2.
    assert (x < z) as E by lia. rewrite <- Z.compare_lt_iff in E. now rewrite E.
Qed.

Lemma bcmp_app_l (p a b : bytes) : bcmp (p ++ a) (p ++ b) = bcmp a b.
Proof.
  induction p as [|x p IH]; simpl; auto.
  now rewrite Z.compare_refl.
Qed.

Lemma bcmp_gt_lt (a b : bytes) : bcmp a b = Gt <-> bcmp b a = Lt.
Proof.
  rewrite (bcmp_antisym a b). destruct (bcmp a b); simpl; split; congruence.
Qed.

Lemma beq_true (a b : bytes) : beq a b = true <-> a = b.
Proof.
  unfold beq; split.
  - destruct (bcmp a b) eqn:E; try discriminate. intros _. now apply bcmp_eq.
  - intros ->. now rewrite bcmp_refl.
Qed.

(** ** The MessagePack encoder: lengths and order *)

Lemma be_length (n : nat) (x : Z) : length (Msgpack.be n x) = n.
Proof. induction n; simpl; auto. Qed.

Lemma pow256_pos (n : nat) : 0 < 256 ^ Z.of_nat n.
Proof. apply Z.pow_pos_nonneg; lia. Qed.

Lemma mod_pow256_succ (m : nat) (a : Z) :
  a mod 256 ^ Z.of_nat (S m) =
  a mod 256 ^ Z.of_nat m + 256 ^ Z.of_nat m * ((a / 256 ^ Z.of_nat m) mod 256).
Proof.
  pose proof (pow256_pos m).
  rewrite Nat2Z.inj_succ, Z.pow_succ_r by lia.
  rewrite (Z.mul_comm 256).
  apply Z.rem_mul_r; lia.
Qed.

(** Fixed-width big-endian words compare as the numbers they hold. *)
Lemma be_cmp (n : nat) (a b : Z) :
  bcmp (Msgpack.be n a) (Msgpack.be n b) =
  (a mod 256 ^ Z.of_nat n ?= b mod 256 ^ Z.of_nat n).
Proof.
  induction n as [|m IH].
  - simpl. rewrite !Z.mod_1_r. reflexivity.
  - cbn [Msgpack.be bcmp]. rewrite !mod_pow256_succ.
    pose proof (pow256_pos m) as Hp.
    pose proof (Z.mod_pos_bound a (256 ^ Z.of_nat m) Hp).
    pose proof (Z.mod_pos_bound b (256 ^ Z.of_nat m) Hp).
    set (ha := (a / 256 ^ Z.of_nat m) mod 256) in *.
    set (hb := (b / 256 ^ Z.of_nat m) mod 256) in *.
    set (la := a mod 256 ^ Z.of_nat m) in *.
    set (lb := b mod 256 ^ Z.of_nat m) in *.
    set (P := 256 ^ Z.of_nat m) in *.
    destruct (ha ?= hb) eqn:E.
    + apply Z.compare_eq in E. rewrite E, IH.
      destruct (la ?= lb) eqn:E2; symmetry.
      * apply Z.compare_eq in E2. rewrite E2. apply Z.compare_refl.
      * rewrite Z.compare_lt_iff in *. lia.
      * rewrite Z.compare_gt_iff in *. lia.
    + symmetry. rewrite Z.compare_lt_iff in *. nia.
    + symmetry. rewrite Z.compare_gt_iff in *. nia.
Qed.

Lemma be_lt (n : nat) (a b : Z) :
  0 <= a < b -> b < 256 ^ Z.of_nat n ->
  bcmp (Msgpack.be n a) (Msgpack.be n b) = Lt.
Proof.
  intros H1 H2. rewrite be_cmp, !Z.mod_small by lia.
  now apply Z.compare_lt_iff.
Qed.

Lemma bcmp_cons_lt (x y : Z) (a b : bytes) : x < y -> bcmp (x :: a) (y :: b) = Lt.
Proof. intros H. simpl. apply Z.compare_lt_iff in H. now rewrite H. Qed.

Lemma bcmp_cons_same (x : Z) (a b : bytes) : bcmp (x :: a) (x :: b) = bcmp a b.
Proof. simpl. now rewrite Z.compare_refl. Qed.

(** The encodings of the unsigned integers ascend with the integers. *)
Lemma pack_uint_lt (a b : Z) :
  0 <= a < b -> b < 2 ^ 64 ->
  bcmp (Msgpack.pack_int a) (Msgpack.pack_int b) = Lt.
Proof.
  intros Hab Hb. unfold Msgpack.pack_int.
  destruct (Z.leb_spec 0 a); [|lia]. destruct (Z.leb_spec 0 b); [|lia].
  change (2 ^ 8) with 256 in *. change (2 ^ 16) with 65536 in *.
  change (2 ^ 32) with 4294967296 in *. change (2 ^ 64) with 18446744073709551616 in *.
  repeat match goal with
         | |- context [?x <? ?y] => destruct (Z.ltb_spec x y)
         end; try lia;
    first [ apply bcmp_cons_lt; lia
          | rewrite bcmp_cons_same; apply be_lt; [lia | simpl; lia] ].
Qed.

(** ** The value-key codec *)

Lemma pack_str_short (s : bytes) :
  len s < 32 -> Msgpack.pack_str s = (160 + len s) :: s.
Proof.
  intros H. unfold Msgpack.pack_str, len in *.
  destruct (Z.ltb_spec (Z.of_nat (length s)) 32); [reflexivity | lia].
Qed.

Lemma pack_str_str8 (s : bytes) :
  32 <= len s < 256 -> Msgpack.pack_str s = 217 :: len s :: s.
Proof.
  intros H. unfold Msgpack.pack_str, len in *.
  destruct (Z.ltb_spec (Z.of_nat (length s)) 32); [lia|].
  change (2 ^ 8) with 256.
  destruct (Z.ltb_spec (Z.of_nat (length s)) 256); [|lia].
  cbn [Msgpack.be app]. change (256 ^ Z.of_nat 0) with 1.
  rewrite Z.div_1_r, Z.mod_small by lia. reflexivity.
Qed.

(** Strings shorter than 128 octets: the encodings are ordered by length
    first, and by content among strings of one length. *)
Lemma pack_str_cmp (s1 s2 : bytes) :
  len s1 < 128 -> len s2 < 128 ->
  bcmp (Msgpack.pack_str s1) (Msgpack.pack_str s2) =
  match len s1 ?= len s2 with
  | Eq => bcmp s1 s2
  | c => c
  end.
Proof.
  intros H1 H2.
  assert (0 <= len s1) by (unfold len; lia).
  assert (0 <= len s2) by (unfold len; lia).
  destruct (Z_lt_ge_dec (len s1) 32), (Z_lt_ge_dec (len s2) 32).
  - rewrite !pack_str_short by lia. cbn [bcmp].
    rewrite Z.compare_sub. replace (160 + len s1 - (160 + len s2)) with (len s1 - len s2) by lia.
    rewrite <- Z.compare_sub. reflexivity.
  - rewrite (pack_str_short s1), (pack_str_str8 s2) by lia.
    rewrite bcmp_cons_lt by lia.
    assert (len s1 < len s2) as E by lia. apply Z.compare_lt_iff in E. now rewrite E.
  - rewrite (pack_str_short s2), (pack_str_str8 s1) by lia.
    assert (len s2 < len s1) as E by lia.
    rewrite bcmp_antisym, bcmp_cons_lt by lia.
    apply Z.compare_gt_iff in E. now rewrite E.
  - rewrite !pack_str_str8 by lia. rewrite bcmp_cons_same. cbn [bcmp]. reflexivity.
Qed.

(** C4, evaluated on the code: the three markers encode to the single octets
    0xff (negative), 0xfe (string) and 0xfd (hash), so the negative marker is
    the largest of the three and not the smallest, and the encoding of the
    integer -1 sorts after that of the empty string. *)
Theorem marker_order_evaluated :
  bcmp NEGATIVE_VAL_MARKER_ENC HASH_VAL_MARKER_ENC = Gt /\
  bcmp NEGATIVE_VAL_MARKER_ENC STRING_VAL_MARKER_ENC = Gt /\
  bcmp HASH_VAL_MARKER_ENC STRING_VAL_MARKER_ENC = Lt /\
  forall xxh64,
    _enc_val_key xxh64 (VInt (-1)) = [255; 1] /\
    _enc_val_key xxh64 (VStr []) = [254; 160] /\
    blt (_enc_val_key xxh64 (VInt (-1))) (_enc_val_key xxh64 (VStr [])) = false.
Proof. repeat split; reflexivity. Qed.

(** C5, the claim as stated fails: -2 < -1 and both are negative, yet the
    encoding of -2 does not precede that of -1; and the string "aa" precedes
    "b" while its encoding follows that of "b". *)
Lemma enc_val_key_natural_order_fails :
  - 2 ^ 63 <= -2 /\ -2 < -1 /\ -1 < 0 /\
  blt (_enc_val_key (fun _ => 0) (VInt (-2))) (_enc_val_key (fun _ => 0) (VInt (-1))) = false /\
  len [97; 97] < 128 /\ len [98] < 128 /\ blt [97; 97] [98] = true /\
  blt (_enc_val_key (fun _ => 0) (VStr [97; 97])) (_enc_val_key (fun _ => 0) (VStr [98])) = false.
Proof. repeat split; first [reflexivity | lia]. Qed.

Lemma enc_val_key_nonneg xxh64 (a : Z) :
  0 <= a -> _enc_val_key xxh64 (VInt a) = Msgpack.pack_int a.
Proof.
  intros H. unfold _enc_val_key. destruct (Z.geb_spec a 0); [reflexivity | lia].
Qed.

Lemma enc_val_key_neg xxh64 (a : Z) :
  a < 0 -> _enc_val_key xxh64 (VInt a) = 255 :: Msgpack.pack_int (- a).
Proof.
  intros H. unfold _enc_val_key. destruct (Z.geb_spec a 0); [lia | reflexivity].
Qed.

Lemma enc_val_key_str xxh64 (s : bytes) :
  len s < 128 -> _enc_val_key xxh64 (VStr s) = 254 :: Msgpack.pack_str s.
Proof.
  intros H. unfold _enc_val_key, LARGE_STRING_SIZE. pose proof (str_len_le s).
  destruct (Z.geb_spec (str_len s) 128); [lia | reflexivity].
Qed.

Lemma enc_val_key_hash xxh64 (s : bytes) :
  128 <= str_len s -> _enc_val_key xxh64 (VStr s) = 253 :: Msgpack.pack_int (xxh64 s).
Proof.
  intros H. unfold _enc_val_key, LARGE_STRING_SIZE.
  destruct (Z.geb_spec (str_len s) 128); [reflexivity | lia].
Qed.

(** C5, amended: within the non-negative region the encodings ascend with the
    integers; within the negative region they descend (the larger integer has
    the smaller encoding); the encodings of strings shorter than 128 octets
    are ordered by length first and lexicographically among equal lengths. *)
Theorem enc_val_key_order_within_regions xxh64 (a b : Z) (s1 s2 : bytes) :
  (0 <= a -> a < b -> b <= 2 ^ 63 - 1 ->
   bcmp (_enc_val_key xxh64 (VInt a)) (_enc_val_key xxh64 (VInt b)) = Lt) /\
  (- 2 ^ 63 <= a -> a < b -> b < 0 ->
   bcmp (_enc_val_key xxh64 (VInt b)) (_enc_val_key xxh64 (VInt a)) = Lt) /\
  (len s1 < 128 -> len s2 < 128 ->
   bcmp (_enc_val_key xxh64 (VStr s1)) (_enc_val_key xxh64 (VStr s2)) =
   match len s1 ?= len s2 with
   | Eq => bcmp s1 s2
   | c => c
   end).
Proof.
  split; [|split].
  - intros H1 H2 H3. rewrite !enc_val_key_nonneg by lia.
    apply pack_uint_lt; lia.
  - intros H1 H2 H3. rewrite !enc_val_key_neg by lia.
    rewrite bcmp_cons_same. apply pack_uint_lt; lia.
  - intros H1 H2. rewrite !enc_val_key_str by lia.
    rewrite bcmp_cons_same. now apply pack_str_cmp.
Qed.

Lemma enc_val_key_order_within_regions_witness :
  bcmp (_enc_val_key (fun _ => 0) (VInt 127)) (_enc_val_key (fun _ => 0) (VInt 128)) = Lt /\
  bcmp (_enc_val_key (fun _ => 0) (VInt (-1))) (_enc_val_key (fun _ => 0) (VInt (-2))) = Lt /\
  bcmp (_enc_val_key (fun _ => 0) (VStr [98])) (_enc_val_key (fun _ => 0) (VStr [97; 97])) = Lt.
Proof.
  split; [|split].
  - apply (enc_val_key_order_within_regions (fun _ => 0) 127 128 [] []); lia.
  - apply (enc_val_key_order_within_regions (fun _ => 0) (-2) (-1) [] []); lia.
  - apply (proj2 (proj2 (enc_val_key_order_within_regions (fun _ => 0) 0 0 [98] [97; 97])));
      reflexivity.
Defined.

(** ** The writer *)







(** An exception of [_addRows] never leaves a partial write behind. *)
Lemma addRows_raise_unchanged xxh64 (s s' : store) (rws : list row) (e : exn) :
  _addRows xxh64 s rws = (s', Raise e) -> s' = s.
Proof.
  unfold _addRows, with_txn.
  destruct (addRows_encs xxh64 (next_pk s) rws) as [[encs npk]|]; [|congruence].
  destruct (Lmdb.rputmulti _ _ _ _) as [[consumed added] r'].
  destruct (negb _ || negb _); congruence.
Qed.

(** ** The deleters *)

(** C2, evaluated on the code. One row (aa..aa, foo, 2, 10) is stored under
    primary key 1. [_delRowAndIndices] with [only_if_val = 1] returns False,
    but by then [_getRowByPkValEnc(do_delete=True)] has popped the row: the
    rows table is empty and the three index entries still point at key 1. So
    [_delRowsByIdProp(aa..aa, foo, 1)], which matches no row, removes the row
    from the rows table and leaves its index entries behind. *)
Theorem delRowAndIndices_pops_before_check xxh64 :
  let i := repeat 97 32 in
  let p := [102; 111; 111] in
  let s := fst (_addRows xxh64 fresh [mkRow i p (VInt 2) 10]) in
  row_pks s = [1] /\
  (exists s',
     _delRowAndIndices xxh64 s [1] (Some (repeat 170 16)) (Some (msgenpack (VStr p)))
       None None false true true (Some (VInt 1)) = Ok (s', false) /\
     rows s' = [] /\ rows s' <> rows s /\
     index_ip s' = index_ip s /\ index_pvt s' = index_pvt s /\ index_pt s' = index_pt s) /\
  (exists s',
     _delRowsByIdProp xxh64 10 s i p (Some (VInt 1)) = Some (s', Ok tt) /\
     row_pks s' = [] /\
     index_pks (index_ip s') = [1] /\ index_pks (index_pvt s') = [1] /\
     index_pks (index_pt s') = [1]).
Proof.
  cbv zeta. split; [reflexivity|]. split.
  - eexists. split; [vm_compute; reflexivity|].
    repeat split; try reflexivity. discriminate.
  - eexists. split; [vm_compute; reflexivity|].
    repeat split; reflexivity.
Qed.

(** C3, evaluated on the code: after the append of (aa..aa, foo, 2, 10) and
    the delete [_delRowsByIdProp(aa..aa, foo, 1)] the rows table holds no
    primary key, while each of the three index tables still refers to key 1. *)
Theorem index_entries_dangle_after_delete xxh64 py :
  let i := repeat 97 32 in
  let p := [102; 111; 111] in
  exists s,
    run_session xxh64 py 10 fresh
      [Append [mkRow i p (VInt 2) 10]; DelByIdProp i p (Some (VInt 1))] = Some (s, [1]) /\
    row_pks s = [] /\
    index_pks (index_ip s) = [1] /\
    index_pks (index_pvt s) = [1] /\
    index_pks (index_pt s) = [1].
Proof.
  cbv zeta. eexists. split; [vm_compute; reflexivity|].
  repeat split; reflexivity.
Qed.

(** C7, the claim as stated fails over the lifetime of a store: a row is
    appended under primary key 1 and deleted, the environment is closed and
    opened again, and the next append is given primary key 1 once more. *)
Lemma pk_reused_after_reopen :
  let r := mkRow (repeat 97 32) [102; 111; 111] (VInt 2) 10 in
  run_lifetime (fun _ => 0) Python3 10 [] [] [] []
    [[Append [r]; DelById (repeat 97 32)]; [Append [r]]] = Some [1; 1].
Proof. vm_compute. reflexivity. Qed.

(** ** Reading back what the encoder wrote *)

Lemma be_dec_be (n : nat) (x acc : Z) :
  Msgpack.be_dec acc (Msgpack.be n x) = acc * 256 ^ Z.of_nat n + x mod 256 ^ Z.of_nat n.
Proof.
  revert acc; induction n as [|m IH]; intros acc.
  - simpl. rewrite Z.mod_1_r. lia.
  - cbn [Msgpack.be Msgpack.be_dec]. rewrite IH, mod_pow256_succ.
    rewrite Nat2Z.inj_succ, Z.pow_succ_r by lia. ring.
Qed.

Lemma take_be_app (n : nat) (x : Z) (rest : bytes) :
  Msgpack.take_be n (Msgpack.be n x ++ rest) = Some (x mod 256 ^ Z.of_nat n, rest).
Proof.
  unfold Msgpack.take_be.
  rewrite length_app, be_length.
  destruct (Nat.ltb_spec (n + length rest) n); [lia|].
  rewrite firstn_app, skipn_app, be_length, Nat.sub_diag.
  rewrite firstn_all2, skipn_all2 by (rewrite be_length; lia). simpl.
  rewrite app_nil_r, be_dec_be. reflexivity.
Qed.

Lemma take_str_app (s rest : bytes) :
  Msgpack.take_str (len s) (s ++ rest) = Some (Msgpack.OStr s, rest).
Proof.
  unfold Msgpack.take_str, len. rewrite Nat2Z.id, length_app.
  destruct (Nat.ltb_spec (length s + length rest) (length s)); [lia|].
  rewrite firstn_app, skipn_app, Nat.sub_diag, firstn_all, skipn_all. simpl.
  now rewrite app_nil_r.
Qed.

Ltac zcases :=
  repeat match goal with
         | |- context [?x <? ?y] => destruct (Z.ltb_spec x y); try lia
         | |- context [?x <=? ?y] => destruct (Z.leb_spec x y); try lia
         | |- context [?x =? ?y] => destruct (Z.eqb_spec x y); try lia
         end.

Lemma unpack_head (h : Z) (t : bytes) (k : nat) :
  h = 204 /\ k = 1%nat \/ h = 205 /\ k = 2%nat \/ h = 206 /\ k = 4%nat \/ h = 207 /\ k = 8%nat ->
  Msgpack.unpack (h :: t) =
  match Msgpack.take_be k t with
  | Some (x, r) => Some (Msgpack.OInt x, r)
  | None => None
  end.
Proof.
  intros [[-> ->] | [[-> ->] | [[-> ->] | [-> ->]]]]; reflexivity.
Qed.

Lemma unpack_head_signed (h : Z) (t : bytes) (k : nat) :
  h = 208 /\ k = 1%nat \/ h = 209 /\ k = 2%nat \/ h = 210 /\ k = 4%nat \/ h = 211 /\ k = 8%nat ->
  Msgpack.unpack (h :: t) =
  match Msgpack.take_be k t with
  | Some (x, r) =>
      Some (Msgpack.OInt (if x <? 256 ^ Z.of_nat k / 2 then x else x - 256 ^ Z.of_nat k), r)
  | None => None
  end.
Proof.
  intros [[-> ->] | [[-> ->] | [[-> ->] | [-> ->]]]]; reflexivity.
Qed.

Lemma unpack_head_str (h : Z) (t : bytes) (k : nat) :
  h = 217 /\ k = 1%nat \/ h = 218 /\ k = 2%nat \/ h = 219 /\ k = 4%nat ->
  Msgpack.unpack (h :: t) =
  match Msgpack.take_be k t with
  | Some (x, r) => Msgpack.take_str x r
  | None => None
  end.
Proof.
  intros [[-> ->] | [[-> ->] | [-> ->]]]; reflexivity.
Qed.

Lemma unpack_pack_int (z : Z) (rest : bytes) :
  - 2 ^ 63 <= z < 2 ^ 64 ->
  Msgpack.unpack (Msgpack.pack_int z ++ rest) = Some (Msgpack.OInt z, rest).
Proof.
  intros Hz. unfold Msgpack.pack_int.
  change (- 2 ^ 7) with (-128). change (- 2 ^ 15) with (-32768).
  change (- 2 ^ 31) with (-2147483648).
  change (2 ^ 7) with 128. change (2 ^ 8) with 256. change (2 ^ 15) with 32768.
  change (2 ^ 16) with 65536. change (2 ^ 31) with 2147483648.
  change (2 ^ 32) with 4294967296. change (2 ^ 63) with 9223372036854775808 in *.
  change (2 ^ 64) with 18446744073709551616 in *.
  destruct (Z.leb_spec 0 z).
  - destruct (Z.ltb_spec z 128).
    { cbn [app Msgpack.unpack]. destruct (Z.ltb_spec z 128); [reflexivity | lia]. }
    destruct (Z.ltb_spec z 256).
    { cbn [app]. rewrite (unpack_head _ _ 1%nat) by tauto.
      rewrite take_be_app, Z.mod_small by (simpl; lia). reflexivity. }
    destruct (Z.ltb_spec z 65536).
    { cbn [app]. rewrite (unpack_head _ _ 2%nat) by tauto.
      rewrite take_be_app, Z.mod_small by (simpl; lia). reflexivity. }
    destruct (Z.ltb_spec z 4294967296).
    { cbn [app]. rewrite (unpack_head _ _ 4%nat) by tauto.
      rewrite take_be_app, Z.mod_small by (simpl; lia). reflexivity. }
    cbn [app]. rewrite (unpack_head _ _ 8%nat) by tauto.
    rewrite take_be_app, Z.mod_small by (simpl; lia). reflexivity.
  - destruct (Z.leb_spec (-32) z).
    { cbn [app Msgpack.unpack]. zcases. cbn [andb]. do 2 f_equal. f_equal. lia. }
    destruct (Z.leb_spec (-128) z).
    { cbn [app]. rewrite (unpack_head_signed _ _ 1%nat) by tauto.
      rewrite take_be_app, Z.mod_small by (simpl; lia).
      change (256 ^ Z.of_nat 1) with 256. change (256 / 2) with 128.
      zcases. do 2 f_equal. f_equal. lia. }
    destruct (Z.leb_spec (-32768) z).
    { cbn [app]. rewrite (unpack_head_signed _ _ 2%nat) by tauto.
      rewrite take_be_app, Z.mod_small by (simpl; lia).
      change (256 ^ Z.of_nat 2) with 65536. change (65536 / 2) with 32768.
      zcases. do 2 f_equal. f_equal. lia. }
    destruct (Z.leb_spec (-2147483648) z).
    { cbn [app]. rewrite (unpack_head_signed _ _ 4%nat) by tauto.
      rewrite take_be_app, Z.mod_small by (simpl; lia).
      change (256 ^ Z.of_nat 4) with 4294967296.
      change (4294967296 / 2) with 2147483648.
      zcases. do 2 f_equal. f_equal. lia. }
    cbn [app]. rewrite (unpack_head_signed _ _ 8%nat) by tauto.
    rewrite take_be_app, Z.mod_small by (simpl; lia).
    change (256 ^ Z.of_nat 8) with 18446744073709551616.
    change (18446744073709551616 / 2) with 9223372036854775808.
    zcases. do 2 f_equal. f_equal. lia.
Qed.

Lemma unpack_pack_str (s rest : bytes) :
  len s < 2 ^ 32 ->
  Msgpack.unpack (Msgpack.pack_str s ++ rest) = Some (Msgpack.OStr s, rest).
Proof.
  intros Hs. unfold Msgpack.pack_str. fold (len s).
  assert (0 <= len s) by (unfold len; lia).
  change (2 ^ 8) with 256. change (2 ^ 16) with 65536.
  change (2 ^ 32) with 4294967296 in *.
  destruct (Z.ltb_spec (len s) 32).
  { cbn [app Msgpack.unpack]. zcases. cbn [andb].
    replace (160 + len s - 160) with (len s) by lia. apply take_str_app. }
  destruct (Z.ltb_spec (len s) 256).
  { cbn [app]. rewrite (unpack_head_str _ _ 1%nat) by tauto.
    rewrite <- app_assoc, take_be_app, Z.mod_small by (simpl; lia). apply take_str_app. }
  destruct (Z.ltb_spec (len s) 65536).
  { cbn [app]. rewrite (unpack_head_str _ _ 2%nat) by tauto.
    rewrite <- app_assoc, take_be_app, Z.mod_small by (simpl; lia). apply take_str_app. }
  cbn [app]. rewrite (unpack_head_str _ _ 4%nat) by tauto.
  rewrite <- app_assoc, take_be_app, Z.mod_small by (simpl; lia). apply take_str_app.
Qed.

Lemma unhex_lower (c : Z) :
  lower_hex c = true ->
  exists d, unhex_digit c = Some d /\ 0 <= d < 16 /\ hex_digit d = c.
Proof.
  unfold lower_hex, unhex_digit, hex_digit. intros H.
  destruct (Z.leb_spec 48 c), (Z.leb_spec c 57); cbn [andb orb] in *.
  - exists (c - 48). repeat split; try lia. zcases.
  - destruct (Z.leb_spec 97 c), (Z.leb_spec c 102); cbn [andb] in *; try discriminate.
    exists (c - 87). repeat split; try lia. zcases.
  - destruct (Z.leb_spec 97 c), (Z.leb_spec c 102); cbn [andb] in *; try discriminate; lia.
  - destruct (Z.leb_spec 97 c), (Z.leb_spec c 102); cbn [andb] in *; try discriminate; lia.
Qed.

Lemma unhexlify_lower (n : nat) :
  forall s, length s = (2 * n)%nat -> forallb lower_hex s = true ->
  exists b, unhexlify s = Some b /\ hexlify b = s /\ length b = n.
Proof.
  induction n as [|n IH]; intros s Hlen Hs.
  - destruct s; [|discriminate]. exists []. auto.
  - destruct s as [|a [|b s]]; try (simpl in Hlen; lia).
    cbn [forallb] in Hs. apply andb_true_iff in Hs as [Ha Hs].
    apply andb_true_iff in Hs as [Hb Hs].
    destruct (unhex_lower a Ha) as (x & Hx & Rx & Ex).
    destruct (unhex_lower b Hb) as (y & Hy & Ry & Ey).
    destruct (IH s) as (r & Hr & Er & Lr); [simpl in Hlen; lia | assumption |].
    exists (16 * x + y :: r). cbn [unhexlify hexlify length].
    rewrite Hx, Hy, Hr. repeat split; [|lia].
    replace ((16 * x + y) / 16) with x by (apply Z.div_unique with y; lia).
    replace ((16 * x + y) mod 16) with y by (apply Z.mod_unique with x; lia).
    now rewrite Ex, Ey, Er.
Qed.

Lemma int64_range (z : Z) : int64 z = true <-> - 2 ^ 63 <= z <= 2 ^ 63 - 1.
Proof.
  unfold int64, MIN_INT_VAL, MAX_INT_VAL. rewrite andb_true_iff, !Z.leb_le. lia.
Qed.

(** What [wf_row] gives. *)
Lemma wf_row_spec (r : row) :
  wf_row r = true ->
  (exists b, unhexlify (r_iden r) = Some b /\ hexlify b = r_iden r /\ length b = 16%nat) /\
  len (r_prop r) <= 350 /\
  wf_valu (r_valu r) = true /\
  - 2 ^ 63 <= r_time r <= 2 ^ 63 - 1.
Proof.
  unfold wf_row. rewrite !andb_true_iff. intros ((((Hl & Hh) & Hp) & Hv) & Ht).
  apply Nat.eqb_eq in Hl. apply Z.leb_le in Hp. apply int64_range in Ht.
  repeat split; auto; try lia.
  apply unhexlify_lower; [rewrite Hl; reflexivity | assumption].
Qed.

(** ** Codes in which no word is a prefix of another *)

(** Two byte strings that differ at a position both have. *)
Inductive diverge : bytes -> bytes -> Prop :=
| diverge_here (x y : Z) (a b : bytes) : x <> y -> diverge (x :: a) (y :: b)
| diverge_next (x : Z) (a b : bytes) : diverge a b -> diverge (x :: a) (x :: b).

Lemma diverge_sym (a b : bytes) : diverge a b -> diverge b a.
Proof.
  induction 1; [apply diverge_here; congruence | now apply diverge_next].
Qed.

Lemma diverge_app (a b r r' : bytes) : diverge a b -> diverge (a ++ r) (b ++ r').
Proof.
  induction 1; simpl; [now apply diverge_here | now apply diverge_next].
Qed.

Lemma diverge_prefix (p a b : bytes) : diverge a b -> diverge (p ++ a) (p ++ b).
Proof. intros H. induction p; simpl; auto. now apply diverge_next. Qed.

Lemma diverge_neq (a b : bytes) : diverge a b -> bcmp a b <> Eq.
Proof.
  induction 1; simpl.
  - destruct (x ?= y) eqn:E; try discriminate. apply Z.compare_eq in E. contradiction.
  - now rewrite Z.compare_refl.
Qed.

(** The comparison of two diverging strings is not changed by what follows
    either of them, nor by cutting the first at or after the length of the
    second. *)
Lemma diverge_cmp_app (a b r r' : bytes) :
  diverge a b -> bcmp (a ++ r) (b ++ r') = bcmp a b.
Proof.
  induction 1; simpl.
  - destruct (x ?= y) eqn:E; auto. apply Z.compare_eq in E. contradiction.
  - now rewrite Z.compare_refl.
Qed.

Lemma diverge_cmp_firstn (a b : bytes) (n : nat) :
  diverge a b -> (length b <= n)%nat -> bcmp (firstn n a) b = bcmp a b.
Proof.
  intros H; revert n; induction H; intros n Hn; simpl in Hn;
    (destruct n as [|n]; [lia|]); simpl.
  - destruct (x ?= y) eqn:E; auto. apply Z.compare_eq in E. contradiction.
  - rewrite Z.compare_refl. apply IHdiverge. lia.
Qed.

Lemma diverge_app_l (a b r : bytes) : diverge a b -> diverge (a ++ r) b.
Proof.
  intros H. rewrite <- (app_nil_r b). now apply diverge_app.
Qed.

Lemma diverge_cmp_app_l (a b r : bytes) : diverge a b -> bcmp (a ++ r) b = bcmp a b.
Proof.
  intros H. rewrite <- (app_nil_r b) at 1. now apply diverge_cmp_app.
Qed.

(** Strings of which neither is the start of the other diverge. *)
Lemma no_prefix_diverge (a b : bytes) :
  (forall r r', a ++ r <> b ++ r') -> diverge a b.
Proof.
  revert b; induction a as [|x a IH]; intros b H.
  - exfalso. apply (H b []). now rewrite app_nil_r.
  - destruct b as [|y b].
    + exfalso. apply (H [] (x :: a)). now rewrite app_nil_r.
    + destruct (Z.eq_dec x y) as [->|Hxy].
      * apply diverge_next, IH. intros r r' E. apply (H r r'). simpl. now f_equal.
      * now apply diverge_here.
Qed.

(** A code that can be read back off the front of a buffer. *)
Definition pfree (C : bytes -> Prop) : Prop :=
  forall a b r r', C a -> C b -> a ++ r = b ++ r' -> a = b.

Lemma pfree_diverge (C : bytes -> Prop) (a b : bytes) :
  pfree C -> C a -> C b -> a <> b -> diverge a b.
Proof.
  intros HC Ha Hb Hab. apply no_prefix_diverge. intros r r' E.
  apply Hab. eapply HC; eauto.
Qed.

Definition is_pack_str (a : bytes) : Prop :=
  exists s, len s < 2 ^ 32 /\ a = Msgpack.pack_str s.

Lemma pfree_pack_str : pfree is_pack_str.
Proof.
  intros a b r r' (s & Hs & ->) (s' & Hs' & ->) E.
  pose proof (unpack_pack_str s r Hs) as U. rewrite E, unpack_pack_str in U by assumption.
  congruence.
Qed.

Definition eq_or_div (a b : bytes) : Prop := a = b \/ diverge a b.

Lemma pack_str_eq_or_div (s s' : bytes) :
  len s < 2 ^ 32 -> len s' < 2 ^ 32 ->
  eq_or_div (Msgpack.pack_str s) (Msgpack.pack_str s').
Proof.
  intros H H'.
  destruct (list_eq_dec Z.eq_dec (Msgpack.pack_str s) (Msgpack.pack_str s')) as [E|N].
  - now left.
  - right. apply (pfree_diverge is_pack_str); auto using pfree_pack_str.
    + now exists s.
    + now exists s'.
Qed.

Lemma pack_str_inj (s s' : bytes) :
  len s < 2 ^ 32 -> len s' < 2 ^ 32 ->
  Msgpack.pack_str s = Msgpack.pack_str s' -> s = s'.
Proof.
  intros H H' E. pose proof (unpack_pack_str s [] H) as U.
  rewrite E, unpack_pack_str in U by assumption. congruence.
Qed.

Definition is_pack_int (a : bytes) : Prop :=
  exists z, - 2 ^ 63 <= z < 2 ^ 64 /\ a = Msgpack.pack_int z.

Lemma pfree_pack_int : pfree is_pack_int.
Proof.
  intros a b r r' (z & Hz & ->) (z' & Hz' & ->) E.
  pose proof (unpack_pack_int z r Hz) as U. rewrite E, unpack_pack_int in U by assumption.
  congruence.
Qed.

Lemma pack_int_eq_or_div (z z' : Z) :
  - 2 ^ 63 <= z < 2 ^ 64 -> - 2 ^ 63 <= z' < 2 ^ 64 ->
  eq_or_div (Msgpack.pack_int z) (Msgpack.pack_int z').
Proof.
  intros H H'.
  destruct (list_eq_dec Z.eq_dec (Msgpack.pack_int z) (Msgpack.pack_int z')) as [E|N].
  - now left.
  - right. apply (pfree_diverge is_pack_int); auto using pfree_pack_int.
    + now exists z.
    + now exists z'.
Qed.

Lemma pack_int_inj (z z' : Z) :
  - 2 ^ 63 <= z < 2 ^ 64 -> - 2 ^ 63 <= z' < 2 ^ 64 ->
  Msgpack.pack_int z = Msgpack.pack_int z' -> z = z'.
Proof.
  intros H H' E. pose proof (unpack_pack_int z [] H) as U.
  rewrite E, unpack_pack_int in U by assumption. congruence.
Qed.

(** The first octet of an unsigned integer's encoding is below the markers,
    and so is that of a string's. *)
Lemma pack_uint_head (z : Z) :
  0 <= z -> exists h t, Msgpack.pack_int z = h :: t /\ 0 <= h <= 207.
Proof.
  intros Hz. unfold Msgpack.pack_int.
  destruct (Z.leb_spec 0 z); [|lia].
  repeat match goal with
         | |- context [?x <? ?y] => destruct (Z.ltb_spec x y)
         end; eexists _, _; (split; [reflexivity | lia]).
Qed.

Lemma pack_str_head (s : bytes) :
  exists h t, Msgpack.pack_str s = h :: t /\ 160 <= h <= 219.
Proof.
  unfold Msgpack.pack_str.
  assert (0 <= Z.of_nat (length s)) by lia.
  repeat match goal with
         | |- context [?x <? ?y] => destruct (Z.ltb_spec x y)
         end; eexists _, _; (split; [reflexivity | lia]).
Qed.

Section ValueKeys.

Variable xxh64 : bytes -> Z.
Hypothesis xxh64_range : forall b, 0 <= xxh64 b < 2 ^ 64.

(** The four shapes of a value key. *)
Inductive vk_view : valu -> bytes -> Prop :=
| vk_nonneg (z : Z) : 0 <= z <= 2 ^ 63 - 1 -> vk_view (VInt z) (Msgpack.pack_int z)
| vk_neg (z : Z) : - 2 ^ 63 <= z < 0 -> vk_view (VInt z) (255 :: Msgpack.pack_int (- z))
| vk_str (s : bytes) :
    len s < 2 ^ 32 -> str_len s < 128 -> vk_view (VStr s) (254 :: Msgpack.pack_str s)
| vk_hash (s : bytes) :
    128 <= str_len s -> vk_view (VStr s) (253 :: Msgpack.pack_int (xxh64 s)).

Lemma vk_viewP (v : valu) : wf_valu v = true -> vk_view v (_enc_val_key xxh64 v).
Proof.
  destruct v as [z|s]; cbn [wf_valu]; intros H.
  - apply int64_range in H. destruct (Z_lt_ge_dec z 0).
    + rewrite enc_val_key_neg by lia. constructor. lia.
    + rewrite enc_val_key_nonneg by lia. constructor. lia.
  - apply Z.ltb_lt in H. unfold _enc_val_key, LARGE_STRING_SIZE.
    destruct (Z.geb_spec (str_len s) 128).
    + apply vk_hash. lia.
    + now apply vk_str.
Qed.

Lemma cons_eq_or_div (x : Z) (a b : bytes) :
  eq_or_div a b -> eq_or_div (x :: a) (x :: b).
Proof. intros [->|H]; [now left | right; now apply diverge_next]. Qed.

Lemma vk_view_eq_or_div (v v' : valu) (a b : bytes) :
  vk_view v a -> vk_view v' b -> eq_or_div a b.
Proof.
  intros Ha Hb.
  destruct Ha as [z Hz | z Hz | s Hs Hc | s Hs];
    destruct Hb as [z' Hz' | z' Hz' | s' Hs' Hc' | s' Hs'].
  all: try solve [apply pack_int_eq_or_div; lia].
  all: try solve [apply cons_eq_or_div;
                  first [ apply pack_int_eq_or_div;
                          try pose proof (xxh64_range s);
                          try pose proof (xxh64_range s'); lia
                        | apply pack_str_eq_or_div; lia ]].
  all: try solve [right; apply diverge_here; lia].
  all: try solve [destruct (pack_uint_head z) as (h & t & E & Hh); [lia|];
                  rewrite E; right; apply diverge_here; lia].
  all: try solve [destruct (pack_uint_head z') as (h & t & E & Hh); [lia|];
                  rewrite E; right; apply diverge_here; lia].
Qed.

Lemma enc_val_key_eq_or_div (v v' : valu) :
  wf_valu v = true -> wf_valu v' = true ->
  eq_or_div (_enc_val_key xxh64 v) (_enc_val_key xxh64 v').
Proof.
  intros H H'. eapply vk_view_eq_or_div; apply vk_viewP; assumption.
Qed.

End ValueKeys.

(** ** Ordered tables *)

Lemma bcmp_le_trans (a b c : bytes) :
  bcmp a b <> Gt -> bcmp b c <> Gt -> bcmp a c <> Gt.
Proof.
  intros H1 H2.
  destruct (bcmp a b) eqn:E1; [| |congruence].
  - apply bcmp_eq in E1. now subst.
  - destruct (bcmp b c) eqn:E2; [| |congruence].
    + apply bcmp_eq in E2. subst. now rewrite E1.
    + now rewrite (bcmp_lt_trans a b c).
Qed.

Lemma ecmp_refl (a : Lmdb.entry) : Lmdb.ecmp a a = Eq.
Proof. unfold Lmdb.ecmp. now rewrite !bcmp_refl. Qed.

Lemma ecmp_eq (a b : Lmdb.entry) : Lmdb.ecmp a b = Eq -> a = b.
Proof.
  unfold Lmdb.ecmp. destruct a as [k v], b as [k' v']; simpl.
  destruct (bcmp k k') eqn:E; try discriminate.
  intros E'. apply bcmp_eq in E, E'. now subst.
Qed.

Lemma ecmp_antisym (a b : Lmdb.entry) : Lmdb.ecmp b a = CompOpp (Lmdb.ecmp a b).
Proof.
  unfold Lmdb.ecmp. rewrite (bcmp_antisym (fst a) (fst b)).
  destruct (bcmp (fst a) (fst b)); simpl; auto using bcmp_antisym.
Qed.

Lemma elt_trans (a b c : Lmdb.entry) : elt a b -> elt b c -> elt a c.
Proof.
  unfold elt, Lmdb.ecmp. intros H1 H2.
  destruct (bcmp (fst a) (fst b)) eqn:E1; try discriminate;
    destruct (bcmp (fst b) (fst c)) eqn:E2; try discriminate.
  - apply bcmp_eq in E1, E2. rewrite E1, E2, bcmp_refl. eauto using bcmp_lt_trans.
  - apply bcmp_eq in E1. now rewrite E1, E2.
  - apply bcmp_eq in E2. now rewrite <- E2, E1.
  - now rewrite (bcmp_lt_trans _ _ _ E1 E2).
Qed.

Lemma elt_key_le (a b : Lmdb.entry) : elt a b -> bcmp (fst a) (fst b) <> Gt.
Proof.
  unfold elt, Lmdb.ecmp. destruct (bcmp (fst a) (fst b)); congruence.
Qed.

Lemma put_In (e x : Lmdb.entry) (t : Lmdb.table) :
  In x (Lmdb.put e t) <-> x = e \/ In x t.
Proof.
  induction t as [|y t IH]; simpl.
  - intuition.
  - destruct (Lmdb.ecmp e y) eqn:E; simpl.
    + apply ecmp_eq in E. subst. intuition.
    + intuition.
    + rewrite IH. intuition.
Qed.

Lemma put_sorted (e : Lmdb.entry) (t : Lmdb.table) :
  StronglySorted elt t -> StronglySorted elt (Lmdb.put e t).
Proof.
  induction 1 as [|y t Ht IH Hy]; simpl.
  - repeat constructor.
  - destruct (Lmdb.ecmp e y) eqn:E.
    + now constructor.
    + constructor; [now constructor|].
      constructor; [exact E|].
      eapply Forall_impl; [|exact Hy]. intros z Hz. eapply elt_trans; eauto.
    + constructor; [assumption|].
      apply Forall_forall. intros z Hz. apply put_In in Hz as [->|Hz].
      * unfold elt. rewrite ecmp_antisym, E. reflexivity.
      * rewrite Forall_forall in Hy. auto.
Qed.

Lemma putmulti_In (es : list Lmdb.entry) (x : Lmdb.entry) :
  forall t, In x (Lmdb.putmulti es t) <-> In x es \/ In x t.
Proof.
  unfold Lmdb.putmulti. induction es as [|e es IH]; intros t; simpl.
  - intuition.
  - rewrite IH, put_In. intuition.
Qed.

Lemma putmulti_sorted (es : list Lmdb.entry) :
  forall t, StronglySorted elt t -> StronglySorted elt (Lmdb.putmulti es t).
Proof.
  unfold Lmdb.putmulti. induction es as [|e es IH]; intros t Ht; simpl; auto.
  apply IH, put_sorted, Ht.
Qed.

(** In an ordered table [set_range] splits the entries into those below the
    key and those at or above it. *)
Lemma sorted_keys_ge (x : Lmdb.entry) (t : Lmdb.table) (k : bytes) :
  StronglySorted elt (x :: t) -> bge (fst x) k = true ->
  Forall (fun e => bge (fst e) k = true) (x :: t).
Proof.
  intros Hs Hx. inversion Hs as [|? ? Ht Hall]; subst.
  constructor; [assumption|].
  eapply Forall_impl; [|exact Hall]. intros e He. apply elt_key_le in He.
  unfold bge in *. destruct (bcmp (fst e) k) eqn:E; auto.
  exfalso. destruct (bcmp (fst x) k) eqn:E2; try discriminate.
  - apply bcmp_eq in E2. subst. apply He. now apply bcmp_gt_lt.
  - apply bcmp_gt_lt in E2. apply He. apply bcmp_gt_lt.
    eapply bcmp_lt_trans; eauto.
Qed.

Lemma filter_all_false {A} (f : A -> bool) (l : list A) :
  Forall (fun x => f x = false) l -> filter f l = [].
Proof.
  induction 1 as [|x l Hx _ IH]; simpl; auto. now rewrite Hx.
Qed.

Lemma filter_all_true {A} (f : A -> bool) (l : list A) :
  Forall (fun x => f x = true) l -> filter f l = l.
Proof.
  induction 1 as [|x l Hx _ IH]; simpl; auto. rewrite Hx. now f_equal.
Qed.

Lemma bge_not_blt (a b : bytes) : bge a b = negb (blt a b).
Proof. unfold bge, blt. destruct (bcmp a b); reflexivity. Qed.

Lemma set_range_split (k : bytes) (t : Lmdb.table) :
  StronglySorted elt t ->
  forall c, Lmdb.set_range k t = Some c ->
    firstn c t = filter (fun e => blt (fst e) k) t /\
    skipn c t = filter (fun e => bge (fst e) k) t /\
    (c < length t)%nat.
Proof.
  induction t as [|x t IH]; intros Hs c; simpl; [discriminate|].
  destruct (bge (fst x) k) eqn:E.
  - intros [= <-]. pose proof (sorted_keys_ge x t k Hs E) as Hall.
    inversion Hall as [|? ? _ Hall']; subst.
    rewrite bge_not_blt in E. apply negb_true_iff in E. rewrite E.
    simpl. repeat split; [| |lia].
    + symmetry. apply filter_all_false.
      eapply Forall_impl; [|exact Hall']. intros e He. simpl in He.
      rewrite bge_not_blt in He. now apply negb_true_iff in He.
    + f_equal. symmetry. now apply filter_all_true.
  - destruct (Lmdb.set_range k t) as [c'|] eqn:R; [|discriminate].
    intros [= <-]. inversion Hs as [|? ? Hs' _]; subst.
    destruct (IH Hs' c' eq_refl) as (F1 & F2 & F3).
    rewrite bge_not_blt in E. apply negb_false_iff in E. rewrite E.
    simpl. repeat split; [now f_equal | assumption | lia].
Qed.

Lemma set_range_some (k : bytes) (t : Lmdb.table) (e : Lmdb.entry) :
  In e t -> bge (fst e) k = true -> exists c, Lmdb.set_range k t = Some c.
Proof.
  induction t as [|x t IH]; simpl; [tauto|].
  intros [->|H] He.
  - rewrite He. eauto.
  - destruct (bge (fst x) k); eauto.
    destruct (IH H He) as (c & ->). simpl. eauto.
Qed.

(** ** What [_addRows] writes *)

Lemma numbered_cons (npk : Z) (r : row) (rws : list row) :
  numbered npk (r :: rws) = (npk, r) :: numbered (npk + 1) rws.
Proof. reflexivity. Qed.

Lemma numbered_length (npk : Z) (rws : list row) :
  length (numbered npk rws) = length rws.
Proof.
  revert npk; induction rws as [|r rws IH]; intros npk; [reflexivity|].
  rewrite numbered_cons. simpl. now rewrite IH.
Qed.

Lemma numbered_range (rws : list row) :
  forall npk x, In x (numbered npk rws) ->
    npk <= fst x < npk + Z.of_nat (length rws) /\ In (snd x) rws.
Proof.
  induction rws as [|r rws IH]; intros npk x; [intros []|].
  rewrite numbered_cons. cbn [In length]. intros [<-|H].
  - simpl. split; [lia | auto].
  - apply IH in H as [H1 H2]. split; [lia | auto].
Qed.

Lemma numbered_In_row (rws : list row) (r : row) :
  forall npk, In r rws -> exists pk, In (pk, r) (numbered npk rws).
Proof.
  induction rws as [|r' rws IH]; intros npk; [intros []|].
  rewrite numbered_cons. intros [->|H].
  - exists npk. now left.
  - destruct (IH (npk + 1) H) as (pk & Hpk). exists pk. now right.
Qed.

Lemma numbered_NoDup (rws : list row) :
  forall npk, NoDup (map fst (numbered npk rws)).
Proof.
  induction rws as [|r rws IH]; intros npk; [constructor|].
  rewrite numbered_cons. cbn [map fst]. constructor; [|apply IH].
  intros H. apply in_map_iff in H as (x & Hx & Hin).
  apply numbered_range in Hin. lia.
Qed.

Lemma addRows_encs_ok xxh64 (rws : list row) :
  forall npk,
    forallb wf_row rws = true ->
    npk + Z.of_nat (length rws) - 1 <= MAX_PK ->
    addRows_encs xxh64 npk rws =
    Ok (map (enc_of xxh64) (numbered npk rws), npk + Z.of_nat (length rws)).
Proof.
  induction rws as [|r rws IH]; intros npk Hwf Hpk.
  - simpl. do 2 f_equal. lia.
  - cbn [forallb] in Hwf. apply andb_true_iff in Hwf as [Hr Hwf].
    destruct (wf_row_spec r Hr) as ((b & Hb & _ & _) & Hp & _ & _).
    cbn [addRows_encs]. cbn [length] in Hpk.
    destruct (Z.gtb_spec npk MAX_PK); [lia|].
    unfold MAX_PROP_LEN. pose proof (str_len_le (r_prop r)).
    destruct (Z.gtb_spec (str_len (r_prop r)) 350); [lia|].
    unfold _enc_iden. rewrite Hb. cbn [bind].
    rewrite IH by (auto; lia). cbn [bind].
    rewrite numbered_cons. cbn [map]. unfold enc_of at 2. cbn [fst snd].
    unfold iden_bytes. rewrite Hb. do 2 f_equal. cbn [length]. lia.
Qed.

Lemma rlast_In (t : Lmdb.rtable) (l : Z) :
  Lmdb.rlast t = Some l -> In l (map fst t).
Proof.
  unfold Lmdb.rlast. destruct (rev t) as [|[k v] t'] eqn:E; [discriminate|].
  intros [= <-]. apply in_map_iff. exists (k, v). split; [reflexivity|].
  apply in_rev. rewrite E. now left.
Qed.

Lemma rputmulti_numbered (g : Z * row -> Z * bytes) (rws : list row) :
  (forall x, fst (g x) = fst x) ->
  forall npk t c a,
    Forall (fun kv => fst kv < npk) t ->
    Lmdb.rputmulti (map g (numbered npk rws)) t c a =
    (c + Z.of_nat (length rws), a + Z.of_nat (length rws), t ++ map g (numbered npk rws)).
Proof.
  intros Hg. induction rws as [|r rws IH]; intros npk t c a Ht.
  - simpl. rewrite app_nil_r, !Z.add_0_r. reflexivity.
  - rewrite numbered_cons. cbn [map Lmdb.rputmulti].
    destruct (g (npk, r)) as [k v] eqn:E.
    assert (k = npk) as -> by (specialize (Hg (npk, r)); rewrite E in Hg; exact Hg).
    assert ((match Lmdb.rlast t with
             | Some l => l <? npk
             | None => true
             end) = true) as ->.
    { destruct (Lmdb.rlast t) as [l|] eqn:L; [|reflexivity].
      apply rlast_In, in_map_iff in L as (x & <- & Hx).
      rewrite Forall_forall in Ht. apply Z.ltb_lt. auto. }
    rewrite IH.
    + rewrite <- app_assoc. cbn [app length].
      replace (c + 1 + Z.of_nat (length rws)) with (c + Z.of_nat (S (length rws))) by lia.
      replace (a + 1 + Z.of_nat (length rws)) with (a + Z.of_nat (S (length rws))) by lia.
      reflexivity.
    + apply Forall_app. split.
      * eapply Forall_impl; [|exact Ht]. simpl. intros; lia.
      * repeat constructor. simpl. lia.
Qed.

Lemma addRows_ok xxh64 (s : store) (rws : list row) :
  forallb wf_row rws = true ->
  next_pk s + Z.of_nat (length rws) - 1 <= MAX_PK ->
  Forall (fun kv => fst kv < next_pk s) (rows s) ->
  let live := numbered (next_pk s) rws in
  _addRows xxh64 s rws =
  (mkStore (rows s ++ map (fun x => (fst x, payload (snd x))) live)
           (Lmdb.putmulti (map ip_entry live) (index_ip s))
           (Lmdb.putmulti (map (pvt_entry xxh64) live) (index_pvt s))
           (Lmdb.putmulti (map pt_entry live) (index_pt s))
           (next_pk s + Z.of_nat (length rws)),
   Ok tt).
Proof.
  intros Hwf Hpk Hrows live. subst live. unfold _addRows.
  rewrite addRows_encs_ok by assumption.
  rewrite !map_map.
  rewrite (rputmulti_numbered _ rws) by (auto; intros []; reflexivity).
  rewrite !Z.add_0_l, Z.eqb_refl, length_map, numbered_length, Z.eqb_refl.
  reflexivity.
Qed.

(** ** Comparing index keys with the bounds of a query *)

Lemma pack_uint_cmp (a b : Z) :
  0 <= a < 2 ^ 64 -> 0 <= b < 2 ^ 64 ->
  bcmp (Msgpack.pack_int a) (Msgpack.pack_int b) = (a ?= b).
Proof.
  intros Ha Hb. destruct (Z.compare_spec a b) as [->|H|H].
  - apply bcmp_refl.
  - apply pack_uint_lt; lia.
  - apply bcmp_gt_lt, pack_uint_lt; lia.
Qed.

Lemma firstn_app_exact {A} (a t : list A) : firstn (length a) (a ++ t) = a.
Proof.
  rewrite firstn_app, Nat.sub_diag, firstn_all. simpl. apply app_nil_r.
Qed.

(** A key is a word of the property code, a word of the value code and a
    tail; a bound is a word of each. Cut to the length of the bound, the key
    compares with it as the words do. *)
Lemma key_cmp_firstn (P' V' T P V : bytes) :
  eq_or_div P' P -> eq_or_div V' V ->
  bcmp (firstn (length (P ++ V)) (P' ++ V' ++ T)) (P ++ V) =
  match bcmp P' P with
  | Eq => bcmp V' V
  | c => c
  end.
Proof.
  intros [->|HP] HV.
  - rewrite bcmp_refl, length_app, firstn_app.
    rewrite firstn_all2 by lia.
    replace (length P + length V - length P)%nat with (length V) by lia.
    rewrite bcmp_app_l. destruct HV as [->|HV].
    + now rewrite firstn_app_exact.
    + rewrite diverge_cmp_firstn by (first [now apply diverge_app_l | lia]).
      now apply diverge_cmp_app_l.
  - pose proof (diverge_neq _ _ HP) as N.
    rewrite diverge_cmp_firstn by (auto using diverge_app; lia).
    rewrite diverge_cmp_app by assumption.
    destruct (bcmp P' P); congruence.
Qed.

Lemma key_cmp_full (P' V' T P V : bytes) :
  eq_or_div P' P -> eq_or_div V' V -> T <> [] ->
  bcmp (P' ++ V' ++ T) (P ++ V) =
  match bcmp P' P with
  | Eq => match bcmp V' V with
          | Eq => Gt
          | c => c
          end
  | c => c
  end.
Proof.
  intros [->|HP] HV HT.
  - rewrite bcmp_refl, bcmp_app_l. destruct HV as [->|HV].
    + rewrite bcmp_refl. rewrite <- (app_nil_r V) at 2. rewrite bcmp_app_l.
      destruct T; [congruence | reflexivity].
    + pose proof (diverge_neq _ _ HV) as N.
      rewrite diverge_cmp_app_l by assumption.
      destruct (bcmp V' V); congruence.
  - pose proof (diverge_neq _ _ HP) as N.
    rewrite diverge_cmp_app by assumption.
    destruct (bcmp P' P); congruence.
Qed.

Section KeyOrder.

Variable xxh64 : bytes -> Z.
Hypothesis xxh64_range : forall b, 0 <= xxh64 b < 2 ^ 64.

Lemma vk_cmp (v : valu) (x : Z) :
  wf_valu v = true -> - 2 ^ 63 <= x <= 2 ^ 63 - 1 ->
  bcmp (_enc_val_key xxh64 v) (_enc_val_key xxh64 (VInt x)) = vcmp v x.
Proof.
  intros Hv Hx. pose proof (vk_viewP xxh64 v Hv) as V.
  destruct (Z_lt_ge_dec x 0) as [Hneg|Hpos].
  - rewrite (enc_val_key_neg xxh64 x) by lia.
    destruct V as [z Hz | z Hz | s Hs Hc | s Hs]; cbn [vcmp];
      destruct (Z.ltb_spec x 0); try lia.
    + destruct (Z.ltb_spec z 0); [lia|].
      destruct (pack_uint_head z) as (h & t & -> & Hh); [lia|].
      apply bcmp_cons_lt. lia.
    + destruct (Z.ltb_spec z 0); [|lia].
      rewrite bcmp_cons_same, pack_uint_cmp by lia.
      apply Z.compare_opp.
    + apply bcmp_cons_lt. lia.
    + apply bcmp_cons_lt. lia.
  - rewrite (enc_val_key_nonneg xxh64 x) by lia.
    destruct V as [z Hz | z Hz | s Hs Hc | s Hs]; cbn [vcmp];
      destruct (Z.ltb_spec x 0); try lia.
    + destruct (Z.ltb_spec z 0); [lia|]. apply pack_uint_cmp; lia.
    + destruct (Z.ltb_spec z 0); [|lia].
      destruct (pack_uint_head x) as (h & t & -> & Hh); [lia|].
      apply bcmp_gt_lt, bcmp_cons_lt. lia.
    + destruct (pack_uint_head x) as (h & t & -> & Hh); [lia|].
      apply bcmp_gt_lt, bcmp_cons_lt. lia.
    + destruct (pack_uint_head x) as (h & t & -> & Hh); [lia|].
      apply bcmp_gt_lt, bcmp_cons_lt. lia.
Qed.

Lemma vcmp_eq (v : valu) (x : Z) : vcmp v x = Eq <-> v = VInt x.
Proof.
  destruct v as [z|s]; cbn [vcmp].
  - destruct (Z.ltb_spec x 0), (Z.ltb_spec z 0); split; try discriminate;
      try (intros [= ->]; lia).
    + intros E. apply Z.compare_eq in E. now subst.
    + intros [= ->]. apply Z.compare_refl.
    + intros E. apply Z.compare_eq in E. now subst.
    + intros [= ->]. apply Z.compare_refl.
  - destruct (x <? 0); split; discriminate.
Qed.

Lemma pack_int_nonempty (z : Z) : Msgpack.pack_int z <> [].
Proof.
  unfold Msgpack.pack_int.
  repeat match goal with
         | |- context [if ?c then _ else _] => destruct c
         end; discriminate.
Qed.

(** The two comparisons of a row's P-V-T key with the bound (p, x). *)
Lemma pvt_key_pcmp (r : row) (p : bytes) (x : Z) (v : bytes) :
  wf_row r = true -> len p < 2 ^ 32 -> - 2 ^ 63 <= x <= 2 ^ 63 - 1 ->
  pcmp (Msgpack.pack_str p ++ _enc_val_key xxh64 (VInt x)) (pvt_key xxh64 r, v) =
  row_cmp r p x.
Proof.
  intros Hr Hp Hx. destruct (wf_row_spec r Hr) as (_ & Hpr & Hv & Ht).
  unfold pcmp, slice_to, pvt_key, row_cmp. cbn [fst msgenpack].
  rewrite key_cmp_firstn.
  - now rewrite vk_cmp.
  - apply pack_str_eq_or_div; lia.
  - apply enc_val_key_eq_or_div; auto.
    cbn [wf_valu]. now apply int64_range.
Qed.

Lemma pvt_key_bcmp (r : row) (p : bytes) (x : Z) :
  wf_row r = true -> len p < 2 ^ 32 -> - 2 ^ 63 <= x <= 2 ^ 63 - 1 ->
  bcmp (pvt_key xxh64 r) (Msgpack.pack_str p ++ _enc_val_key xxh64 (VInt x)) =
  match row_cmp r p x with
  | Eq => Gt
  | c => c
  end.
Proof.
  intros Hr Hp Hx. destruct (wf_row_spec r Hr) as (_ & Hpr & Hv & Ht).
  unfold pvt_key, row_cmp. cbn [msgenpack].
  rewrite key_cmp_full.
  - rewrite vk_cmp by assumption.
    destruct (bcmp (Msgpack.pack_str (r_prop r)) (Msgpack.pack_str p)); reflexivity.
  - apply pack_str_eq_or_div; lia.
  - apply enc_val_key_eq_or_div; auto.
    cbn [wf_valu]. now apply int64_range.
  - apply pack_int_nonempty.
Qed.

End KeyOrder.

(** ** The store after an append on a fresh environment *)

Lemma addRows_encs_bound xxh64 (rws : list row) :
  forall npk x,
    addRows_encs xxh64 npk rws = Ok x -> npk <= MAX_PK + 1 ->
    npk + Z.of_nat (length rws) - 1 <= MAX_PK.
Proof.
  induction rws as [|r rws IH]; intros npk x H Hn.
  - simpl. lia.
  - cbn [addRows_encs] in H.
    destruct (Z.gtb_spec npk MAX_PK); [discriminate|].
    destruct (str_len (r_prop r) >? MAX_PROP_LEN); [discriminate|].
    destruct (_enc_iden (r_iden r)); [|discriminate]. cbn [bind] in H.
    destruct (addRows_encs xxh64 (npk + 1) rws) as [y|] eqn:E; [|discriminate].
    apply IH in E; [|lia]. cbn [length]. lia.
Qed.

Lemma sentinels_sorted : StronglySorted elt [sentinel_lo; sentinel_hi].
Proof. repeat constructor. Qed.

Lemma built_models xxh64 (rws : list row) (s : store) :
  forallb wf_row rws = true ->
  _addRows xxh64 fresh rws = (s, Ok tt) ->
  models xxh64 (numbered 1 rws) s.
Proof.
  intros Hwf H.
  assert (1 + Z.of_nat (length rws) - 1 <= MAX_PK) as Hb.
  { unfold _addRows in H.
    destruct (addRows_encs xxh64 (next_pk fresh) rws) as [x|] eqn:E; [|discriminate].
    apply addRows_encs_bound in E; [exact E | vm_compute; discriminate]. }
  rewrite addRows_ok in H by (auto; constructor).
  injection H as <-. constructor; cbn [rows index_pvt index_pt fresh next_pk].
  - reflexivity.
  - apply numbered_NoDup.
  - apply Forall_forall. intros x Hx. pose proof (numbered_range _ _ _ Hx) as [R I].
    rewrite forallb_forall in Hwf. split; [auto | lia].
  - apply putmulti_sorted, sentinels_sorted.
  - intros e. rewrite putmulti_In. cbn [In]. unfold sentinel_lo, sentinel_hi.
    intuition congruence.
  - apply putmulti_sorted. repeat constructor.
  - intros e. rewrite putmulti_In. cbn [In]. unfold sentinel_hi. intuition congruence.
Qed.

Lemma rget_In (t : Lmdb.rtable) (k : Z) (v : bytes) :
  NoDup (map fst t) -> In (k, v) t -> Lmdb.rget k t = Some v.
Proof.
  induction t as [|[k' v'] t IH]; cbn [map fst In Lmdb.rget]; [tauto|].
  intros Hnd [E|H].
  - injection E as -> ->. now rewrite Z.eqb_refl.
  - inversion Hnd as [|? ? Hk Hnd']; subst.
    destruct (Z.eqb_spec k' k) as [->|N].
    + exfalso. apply Hk. apply in_map_iff. now exists (k, v).
    + auto.
Qed.

Lemma set_rows_same (s : store) : set_rows s (rows s) = s.
Proof. now destruct s. Qed.

Lemma msgunpack_pack_int (z : Z) :
  - 2 ^ 63 <= z < 2 ^ 64 -> msgunpack (Msgpack.pack_int z) = Some (VInt z).
Proof.
  intros H. unfold msgunpack.
  rewrite <- (app_nil_r (Msgpack.pack_int z)), unpack_pack_int by assumption.
  reflexivity.
Qed.

(** Reading a stored row back by its primary key gives the row. *)
Lemma fetch_row xxh64 (live : list (Z * row)) (s : store) (pk : Z) (r : row) :
  models xxh64 live s -> In (pk, r) live ->
  _getRowByPkValEnc s (msgenpack (VInt pk)) false = Ok (s, r).
Proof.
  intros M Hin. destruct M as [Mrows Mnd Mwf _ _ _ _].
  rewrite Forall_forall in Mwf. destruct (Mwf _ Hin) as [Hwf Hpk]. cbn [fst snd] in *.
  destruct (wf_row_spec r Hwf) as ((b & Hb & Hhex & Hlen) & Hp & Hv & Ht).
  unfold _getRowByPkValEnc. cbn [msgenpack].
  unfold MAX_PK in Hpk. rewrite msgunpack_pack_int by lia.
  unfold _enc_pk_key.
  rewrite (rget_In (rows s) pk (payload r)).
  2:{ rewrite Mrows, map_map. cbn [fst]. exact Mnd. }
  2:{ rewrite Mrows. apply in_map_iff. now exists (pk, r). }
  cbn [option_map]. unfold payload, iden_bytes. rewrite Hb.
  unfold slice_to, slice_from, UUID_SIZE. rewrite <- Hlen.
  rewrite firstn_app_exact, skipn_app, Nat.sub_diag, skipn_all. cbn [app skipn].
  cbn [msgenpack]. rewrite unpack_pack_str by lia.
  unfold _enc_val_val.
  assert (Msgpack.unpack (msgenpack (r_valu r) ++ Msgpack.pack_int (r_time r)) =
          Some (match r_valu r with
                | VInt z => Msgpack.OInt z
                | VStr x => Msgpack.OStr x
                end, Msgpack.pack_int (r_time r))) as ->.
  { destruct (r_valu r) as [z|x]; cbn [msgenpack wf_valu] in *.
    - apply int64_range in Hv. apply unpack_pack_int. lia.
    - apply Z.ltb_lt in Hv. now apply unpack_pack_str. }
  rewrite <- (app_nil_r (Msgpack.pack_int (r_time r))), unpack_pack_int by lia.
  rewrite set_rows_same. unfold _dec_iden. rewrite Hhex.
  destruct r as [i p v t]; cbn [r_iden r_prop r_valu r_time].
  destruct v; reflexivity.
Qed.

(** ** Lists in order *)

Lemma SS_impl {A} (R R' : A -> A -> Prop) (l : list A) :
  (forall x y, R x y -> R' x y) -> StronglySorted R l -> StronglySorted R' l.
Proof.
  intros HR. induction 1 as [|x l _ IH Hx]; constructor; auto.
  eapply Forall_impl; [|exact Hx]. auto.
Qed.

Lemma SS_snoc {A} (R : A -> A -> Prop) (l : list A) (x : A) :
  StronglySorted R l -> Forall (fun y => R y x) l -> StronglySorted R (l ++ [x]).
Proof.
  induction 1 as [|y l _ IH Hy]; intros Hx; simpl.
  - repeat constructor.
  - inversion Hx; subst. constructor; auto.
    apply Forall_app. split; auto.
Qed.

Lemma SS_rev {A} (R : A -> A -> Prop) (l : list A) :
  StronglySorted R l -> StronglySorted (fun a b => R b a) (rev l).
Proof.
  induction 1 as [|x l _ IH Hx]; simpl; [constructor|].
  apply SS_snoc; auto. now apply Forall_rev.
Qed.

Lemma SS_filter {A} (R : A -> A -> Prop) (f : A -> bool) (l : list A) :
  StronglySorted R l -> StronglySorted R (filter f l).
Proof.
  induction 1 as [|x l _ IH Hx]; simpl; [constructor|].
  destruct (f x); auto. constructor; auto.
  apply Forall_forall. intros y Hy. apply filter_In in Hy as [Hy _].
  rewrite Forall_forall in Hx. auto.
Qed.

Lemma SS_app_inv {A} (R : A -> A -> Prop) (l1 l2 : list A) :
  StronglySorted R (l1 ++ l2) ->
  StronglySorted R l1 /\ StronglySorted R l2 /\
  forall x y, In x l1 -> In y l2 -> R x y.
Proof.
  induction l1 as [|a l1 IH]; simpl; intros H.
  - repeat split; [constructor | assumption | intros ? ? []].
  - inversion H as [|? ? Hs Ha]; subst. destruct (IH Hs) as (S1 & S2 & S3).
    apply Forall_app in Ha as [Ha1 Ha2]. repeat split; auto.
    + now constructor.
    + intros x y [<-|Hx] Hy; [|auto]. rewrite Forall_forall in Ha2. auto.
Qed.

Lemma filter_filter {A} (f g : A -> bool) (l : list A) :
  filter f (filter g l) = filter (fun x => g x && f x) l.
Proof.
  induction l as [|x l IH]; simpl; auto.
  destruct (g x); simpl; [destruct (f x)|]; now rewrite IH.
Qed.

Lemma firstn_cmp_mono (n : nat) :
  forall a b, bcmp a b <> Gt -> bcmp (firstn n a) (firstn n b) <> Gt.
Proof.
  induction n as [|n IH]; intros a b H; [simpl; discriminate|].
  destruct a as [|x a], b as [|y b]; simpl in *; try discriminate; try congruence.
  destruct (x ?= y); auto.
Qed.

(** ** The loop of [_subrangeRows] *)

Section Scan.

Variable xxh64 : bytes -> Z.
Variable live : list (Z * row).
Variable s : store.
Hypothesis M : models xxh64 live s.

Lemma subrange_loop_spec (last_key : bytes) (term_cmp : bytes -> bytes -> bool)
    (limit : option Z) (it : list Lmdb.entry) :
  forall ret count,
    StronglySorted (fun x y => termb term_cmp last_key x = true ->
                               termb term_cmp last_key y = true) it ->
    (forall e, In e it -> termb term_cmp last_key e = false ->
               In e (map (pvt_entry xxh64) live)) ->
    exists pre suf rs,
      filter (fun e => negb (termb term_cmp last_key e)) it = pre ++ suf /\
      Forall2 (read_through xxh64 live) pre rs /\
      subrange_loop s it last_key term_cmp limit false ret count =
        Ok (ret ++ rs, count + Z.of_nat (length rs)) /\
      (limit = None -> suf = []).
Proof.
  induction it as [|[key value] it IH]; intros ret count Hmono Hrows.
  - exists [], [], []. simpl. rewrite app_nil_r, Z.add_0_r. repeat split. constructor.
  - inversion Hmono as [|? ? Hmono' Hhd]; subst.
    cbn [subrange_loop filter].
    change (term_cmp (slice_to (length last_key) key) last_key)
      with (termb term_cmp last_key (key, value)).
    destruct (termb term_cmp last_key (key, value)) eqn:T; cbn [negb].
    + exists [], [], []. split; [|split; [|split]].
      * apply filter_all_false. eapply Forall_impl; [|exact Hhd].
        intros e He. simpl in He. now rewrite He.
      * constructor.
      * cbn [length]. now rewrite app_nil_r, Z.add_0_r.
      * reflexivity.
    + destruct (proj1 (in_map_iff _ _ _) (Hrows _ (or_introl eq_refl) T))
        as ([pk r] & E & Hin).
      unfold pvt_entry in E. cbn [fst snd] in E. injection E as <- <-.
      cbn [negb]. pose proof (fetch_row xxh64 live s pk r M Hin) as F.
      cbn [msgenpack] in F. rewrite F. cbn [bind]. clear F.
      destruct (limit_hit limit (count + 1)) eqn:L.
      * exists [(pvt_key xxh64 r, msgenpack (VInt pk))],
          (filter (fun e => negb (termb term_cmp last_key e)) it), [r].
        split; [|split; [|split]].
        -- reflexivity.
        -- repeat constructor. exists pk. split; [assumption | reflexivity].
        -- reflexivity.
        -- intros ->. discriminate.
      * destruct (IH (ret ++ [r]) (count + 1) Hmono') as (pre & suf & rs & F & R & S & N).
        { intros e He. apply Hrows. now right. }
        exists ((pvt_key xxh64 r, msgenpack (VInt pk)) :: pre), suf, (r :: rs).
        split; [|split; [|split]].
        -- simpl. now rewrite F.
        -- constructor; [|assumption]. exists pk. split; [assumption | reflexivity].
        -- rewrite S, <- app_assoc. cbn [app length]. do 2 f_equal. lia.
        -- assumption.
Qed.

End Scan.

(** ** The two directions of [_subrangeRows] *)

Lemma bcmp_lt_le_trans (a b c : bytes) :
  bcmp a b = Lt -> bcmp b c <> Gt -> bcmp a c = Lt.
Proof.
  intros H1 H2. destruct (bcmp b c) eqn:E; [| |congruence].
  - apply bcmp_eq in E. now subst.
  - eapply bcmp_lt_trans; eauto.
Qed.

Lemma bcmp_le_lt_trans (a b c : bytes) :
  bcmp a b <> Gt -> bcmp b c = Lt -> bcmp a c = Lt.
Proof.
  intros H1 H2. destruct (bcmp a b) eqn:E; [| |congruence].
  - apply bcmp_eq in E. now subst.
  - eapply bcmp_lt_trans; eauto.
Qed.

Lemma term_up (right_closed : bool) (lk : bytes) (x y : Lmdb.entry) :
  bcmp (fst x) (fst y) <> Gt ->
  termb (if right_closed then bgt else bge) lk x = true ->
  termb (if right_closed then bgt else bge) lk y = true.
Proof.
  intros Hxy. apply (firstn_cmp_mono (length lk)) in Hxy.
  unfold termb, slice_to. set (a := firstn _ (fst x)) in *. set (b := firstn _ (fst y)) in *.
  destruct right_closed; unfold bgt, bge.
  - destruct (bcmp a lk) eqn:E; try discriminate. intros _.
    apply bcmp_gt_lt in E. rewrite (proj2 (bcmp_gt_lt b lk)); [reflexivity|].
    eapply bcmp_lt_le_trans; eauto.
  - destruct (bcmp b lk) eqn:E; auto. intros H.
    assert (bcmp a lk = Lt) as E' by (eapply bcmp_le_lt_trans; eauto).
    now rewrite E' in H.
Qed.

Lemma term_down (right_closed : bool) (lk : bytes) (x y : Lmdb.entry) :
  bcmp (fst y) (fst x) <> Gt ->
  termb (if right_closed then blt else ble) lk x = true ->
  termb (if right_closed then blt else ble) lk y = true.
Proof.
  intros Hxy. apply (firstn_cmp_mono (length lk)) in Hxy.
  unfold termb, slice_to. set (a := firstn _ (fst x)) in *. set (b := firstn _ (fst y)) in *.
  destruct right_closed; unfold blt, ble.
  - destruct (bcmp a lk) eqn:E; try discriminate. intros _.
    now rewrite (bcmp_le_lt_trans b a lk).
  - destruct (bcmp b lk) eqn:E; auto. intros H.
    apply bcmp_gt_lt in E.
    assert (bcmp lk a = Lt) as E' by (eapply bcmp_lt_le_trans; eauto).
    apply bcmp_gt_lt in E'. now rewrite E' in H.
Qed.

(** A bound starts with the head of a MessagePack string, which lies
    strictly between the heads of the two sentinels. *)
Lemma bound_head (p v : bytes) :
  exists h t, Msgpack.pack_str p ++ v = h :: t /\ 160 <= h <= 219.
Proof.
  destruct (pack_str_head p) as (h & t & -> & Hh). exists h, (t ++ v). auto.
Qed.

Lemma sentinel_lo_below (q : bytes) (h : Z) (t : bytes) :
  q = h :: t -> 160 <= h <= 219 ->
  bcmp (fst sentinel_lo) q = Lt /\ pcmp q sentinel_lo = Lt.
Proof.
  intros -> Hh. unfold pcmp, slice_to. cbn [fst sentinel_lo length firstn].
  rewrite firstn_nil. split; apply bcmp_cons_lt; lia.
Qed.

Lemma sentinel_hi_above (q : bytes) (h : Z) (t : bytes) :
  q = h :: t -> 160 <= h <= 219 ->
  bcmp (fst sentinel_hi) q = Gt /\ pcmp q sentinel_hi = Gt.
Proof.
  intros -> Hh. unfold pcmp, slice_to. cbn [fst sentinel_hi MAX_INDEX_KEY repeat length firstn].
  split; apply bcmp_gt_lt, bcmp_cons_lt; lia.
Qed.

Lemma skipn_cons_nth {A} (d : A) (l : list A) :
  forall c, (c < length l)%nat -> skipn c l = nth c l d :: skipn (S c) l.
Proof.
  induction l as [|x l IH]; intros c Hc; simpl in Hc; [lia|].
  destruct c as [|c]; [reflexivity|]. simpl. apply IH. lia.
Qed.

Lemma firstn_snoc_nth {A} (d : A) (l : list A) :
  forall c, (c < length l)%nat -> firstn (S c) l = firstn c l ++ [nth c l d].
Proof.
  induction l as [|x l IH]; intros c Hc; simpl in Hc; [lia|].
  destruct c as [|c]; [reflexivity|]. cbn [firstn nth app]. f_equal. apply IH. lia.
Qed.

Lemma SS_firstn {A} (R : A -> A -> Prop) (n : nat) (l : list A) :
  StronglySorted R l -> StronglySorted R (firstn n l).
Proof.
  intros H. rewrite <- (firstn_skipn n l) in H. now apply SS_app_inv in H.
Qed.

Section Subrange.

Variable xxh64 : bytes -> Z.
Variable live : list (Z * row).
Variable s : store.
Hypothesis M : models xxh64 live s.

Lemma subrangeRows_forward (p : bytes) (first last : Z) (limit : option Z)
    (right_closed : bool) :
  0 <= first ->
  exists rs,
    _subrangeRows xxh64 s (Msgpack.pack_str p) first last limit right_closed false =
      Ok (QRows rs) /\
    scanned xxh64 live
      (fwd_cands (Msgpack.pack_str p ++ _enc_val_key xxh64 (VInt first))
                 (Msgpack.pack_str p ++ _enc_val_key xxh64 (VInt last))
                 right_closed (index_pvt s)) limit rs.
Proof.
  intros Hfirst. unfold _subrangeRows, fwd_cands.
  set (fk := Msgpack.pack_str p ++ _enc_val_key xxh64 (VInt first)).
  set (lk := Msgpack.pack_str p ++ _enc_val_key xxh64 (VInt last)).
  destruct (bound_head p (_enc_val_key xxh64 (VInt first))) as (hf & tf & Ef & Hf).
  destruct (bound_head p (_enc_val_key xxh64 (VInt last))) as (hl & tl & El & Hl).
  fold fk in Ef. fold lk in El.
  destruct (Z.ltb_spec first 0); [lia|].
  pose proof (m_pvt_sorted _ _ _ M) as Hs.
  pose proof (m_pvt_in _ _ _ M) as Hin.
  destruct (set_range_some fk (index_pvt s) sentinel_hi) as (c & Hc).
  { apply Hin. auto. }
  { unfold bge. now rewrite (proj1 (sentinel_hi_above fk hf tf Ef Hf)). }
  rewrite Hc. destruct (set_range_split fk _ Hs c Hc) as (_ & Hskip & _).
  cbn [bind]. unfold Lmdb.iternext. rewrite Hskip.
  destruct (subrange_loop_spec xxh64 live s M lk (if right_closed then bgt else bge)
              limit (filter (fun e => bge (fst e) fk) (index_pvt s)) [] 0)
    as (pre & suf & rs & F & R & S & N).
  - apply SS_filter. eapply SS_impl; [|exact Hs].
    intros x y Hxy. apply term_up. now apply elt_key_le.
  - intros e He T. apply filter_In in He as [He Hge].
    apply Hin in He as [->|[->|He]]; [| |assumption].
    + unfold bge in Hge. rewrite (proj1 (sentinel_lo_below fk hf tf Ef Hf)) in Hge.
      discriminate.
    + exfalso. pose proof (proj2 (sentinel_hi_above lk hl tl El Hl)) as G.
      unfold termb, pcmp in *. destruct right_closed; unfold bgt, bge in T;
        rewrite G in T; discriminate.
  - exists rs. rewrite S. cbn [bind app]. split; [reflexivity|].
    exists pre, suf. rewrite <- filter_filter. auto.
Qed.

Lemma subrangeRows_backward (p : bytes) (first last : Z) (limit : option Z)
    (right_closed : bool) :
  first < 0 ->
  let fk := Msgpack.pack_str p ++ _enc_val_key xxh64 (VInt first) in
  let lk := Msgpack.pack_str p ++ _enc_val_key xxh64 (VInt last) in
  exists landed rs,
    (landed = [] \/
     exists x, landed = [x] /\ In x (map (pvt_entry xxh64) live) /\ pcmp fk x = Eq) /\
    StronglySorted (fun a b => elt b a)
      (landed ++ rev (filter (fun e => blt (fst e) fk) (index_pvt s))) /\
    _subrangeRows xxh64 s (Msgpack.pack_str p) first last limit right_closed false =
      Ok (QRows rs) /\
    scanned xxh64 live (bwd_cands landed fk lk right_closed (index_pvt s)) limit rs.
Proof.
  intros Hfirst fk lk. unfold _subrangeRows, bwd_cands. fold fk lk.
  destruct (bound_head p (_enc_val_key xxh64 (VInt first))) as (hf & tf & Ef & Hf).
  destruct (bound_head p (_enc_val_key xxh64 (VInt last))) as (hl & tl & El & Hl).
  fold fk in Ef. fold lk in El.
  destruct (Z.ltb_spec first 0); [|lia].
  pose proof (m_pvt_sorted _ _ _ M) as Hs.
  pose proof (m_pvt_in _ _ _ M) as Hin.
  set (t := index_pvt s) in *.
  destruct (set_range_some fk t sentinel_hi) as (c & Hc).
  { apply Hin. auto. }
  { unfold bge. now rewrite (proj1 (sentinel_hi_above fk hf tf Ef Hf)). }
  rewrite Hc. destruct (set_range_split fk _ Hs c Hc) as (Hfirstn & Hskip & Hlt).
  set (B := filter (fun e => blt (fst e) fk) t) in *.
  set (x := Lmdb.item t c).
  assert (In x t) as Hx by (apply nth_In; assumption).
  assert (bge (fst x) fk = true) as Hxge.
  { assert (In x (skipn c t)) as Hx'.
    { rewrite (skipn_cons_nth (A:=Lmdb.entry) ([], []) t c Hlt). now left. }
    rewrite Hskip in Hx'. now apply filter_In in Hx'. }
  assert (bcmp (slice_to (length fk) (fst x)) fk <> Lt) as Hxnl.
  { intros E. unfold bge in Hxge.
    assert (bcmp fk (fst x) <> Gt) as G.
    { rewrite bcmp_antisym. destruct (bcmp (fst x) fk); simpl; congruence. }
    apply (firstn_cmp_mono (length fk)) in G. rewrite firstn_all in G.
    apply G. now apply bcmp_gt_lt. }
  (* the iterator, as a reversed initial segment of the table *)
  assert (exists k landed,
            (if bgt (slice_to (length fk) (fst x)) fk
             then match Lmdb.prev c with
                  | Some c' => Ok c'
                  | None => Raise DatabaseInconsistent
                  end
             else Ok c) = Ok k /\
            Lmdb.iterprev t k = landed ++ rev B /\
            (landed = [] \/ landed = [x] /\ pcmp fk x = Eq)) as (k & landed & Ek & Eit & Hl').
  { destruct (bgt (slice_to (length fk) (fst x)) fk) eqn:G.
    - destruct c as [|c'].
      + exfalso. assert (In sentinel_lo B) as HB.
        { apply filter_In. split; [apply Hin; auto|].
          unfold blt. now rewrite (proj1 (sentinel_lo_below fk hf tf Ef Hf)). }
        rewrite <- Hfirstn in HB. destruct HB.
      + exists c', []. cbn [Lmdb.prev app]. unfold Lmdb.iterprev.
        rewrite Hfirstn. auto.
    - exists c, [x]. unfold Lmdb.iterprev.
      rewrite (firstn_snoc_nth (A:=Lmdb.entry) ([], []) t c Hlt), rev_app_distr, Hfirstn.
      repeat split; auto. right. split; [reflexivity|].
      unfold pcmp. unfold bgt in G.
      destruct (bcmp (slice_to (length fk) (fst x)) fk); congruence. }
  fold x. rewrite Ek. cbn [bind]. rewrite Eit.
  destruct (subrange_loop_spec xxh64 live s M lk (if right_closed then blt else ble)
              limit (landed ++ rev B) [] 0)
    as (pre & suf & rs & F & R & S & N).
  - rewrite <- Eit. unfold Lmdb.iterprev.
    eapply SS_impl; [|apply SS_rev, SS_firstn, Hs].
    intros a b Hab. apply term_down. now apply elt_key_le.
  - intros e He T.
    assert (In e t /\ (blt (fst e) fk = true \/ pcmp fk e = Eq)) as [Het Hcls].
    { apply in_app_or in He as [He|He].
      - destruct Hl' as [->|[-> E]]; [destruct He|].
        destruct He as [<-|[]]. auto.
      - apply in_rev in He. unfold B in He. apply filter_In in He as [? ?]. auto. }
    apply Hin in Het as [->|[->|Het]]; [| |assumption].
    + exfalso. pose proof (proj2 (sentinel_lo_below lk hl tl El Hl)) as G.
      unfold termb, pcmp in *. destruct right_closed; unfold blt, ble in T;
        rewrite G in T; discriminate.
    + exfalso. destruct (sentinel_hi_above fk hf tf Ef Hf) as [G1 G2].
      destruct Hcls as [Hc'|Hc']; [unfold blt in Hc'; rewrite G1 in Hc' | rewrite G2 in Hc'];
        discriminate.
  - exists landed, rs. rewrite S. cbn [bind app]. split; [|split; [|split; [reflexivity|]]].
    2:{ change (StronglySorted (fun a b => elt b a) (landed ++ rev B)).
        rewrite <- Eit. unfold Lmdb.iterprev. apply SS_rev, SS_firstn, Hs. }
    + destruct Hl' as [->|[-> E]]; [now left|]. right. exists x. repeat split; auto.
      apply Hin in Hx as [Ex|[Ex|Hx]]; [| |assumption]; exfalso.
      * rewrite Ex in E. rewrite (proj2 (sentinel_lo_below fk hf tf Ef Hf)) in E.
        discriminate.
      * rewrite Ex in E. rewrite (proj2 (sentinel_hi_above fk hf tf Ef Hf)) in E.
        discriminate.
    + exists pre, suf. auto.
Qed.

End Subrange.

(** ** What the comparisons say about a row *)

Lemma row_cmp_prop (r : row) (p : bytes) (x : Z) :
  len (r_prop r) < 2 ^ 32 -> len p < 2 ^ 32 ->
  (row_cmp r p x = Lt \/ row_cmp r p x = Gt) \/
  (r_prop r = p /\ row_cmp r p x = vcmp (r_valu r) x).
Proof.
  intros H1 H2. unfold row_cmp.
  destruct (bcmp (Msgpack.pack_str (r_prop r)) (Msgpack.pack_str p)) eqn:E; auto.
  right. apply bcmp_eq, pack_str_inj in E; auto.
Qed.

Lemma row_cmp_same_prop (r : row) (x : Z) :
  row_cmp r (r_prop r) x = vcmp (r_valu r) x.
Proof. unfold row_cmp. now rewrite bcmp_refl. Qed.

(** The comparison with one bound is [Lt] or [Gt] for every bound when the
    property differs. *)
Lemma row_cmp_other_prop (r : row) (p : bytes) (x y : Z) :
  len (r_prop r) < 2 ^ 32 -> len p < 2 ^ 32 -> r_prop r <> p ->
  row_cmp r p x = row_cmp r p y /\ row_cmp r p x <> Eq.
Proof.
  intros H1 H2 N. unfold row_cmp.
  destruct (bcmp (Msgpack.pack_str (r_prop r)) (Msgpack.pack_str p)) eqn:E;
    try (split; [reflexivity | discriminate]).
  apply bcmp_eq, pack_str_inj in E; auto. contradiction.
Qed.

Ltac vcmp_cases :=
  unfold vcmp in *;
  repeat match goal with
         | H : context [?a <? ?b] |- _ => destruct (Z.ltb_spec a b)
         | |- context [?a <? ?b] => destruct (Z.ltb_spec a b)
         end;
  repeat match goal with
         | H : context [?a ?= ?b] |- _ => destruct (Z.compare_spec a b)
         | |- context [?a ?= ?b] => destruct (Z.compare_spec a b)
         end.

(** Forward scan, right-open and right-closed. *)
Lemma vcmp_fwd (v : valu) (a b : Z) (right_closed : bool) :
  0 <= a -> 0 <= b ->
  (vcmp v a <> Lt /\
   (if right_closed then vcmp v b <> Gt else vcmp v b = Lt)) <->
  exists z, v = VInt z /\ a <= z /\ (if right_closed then z <= b else z < b).
Proof.
  intros Ha Hb. split.
  - intros [H1 H2]. destruct v as [z|x].
    + exists z. split; [reflexivity|].
      destruct right_closed; vcmp_cases; try congruence; lia.
    + exfalso. destruct right_closed; vcmp_cases; try congruence; lia.
  - intros (z & -> & H1 & H2).
    destruct right_closed; vcmp_cases; split; try congruence; try lia.
Qed.

(** Backward scan below the first key, right-open and right-closed. *)
Lemma vcmp_bwd (v : valu) (a b : Z) (right_closed : bool) :
  a < 0 -> b < 0 ->
  (vcmp v a = Lt /\
   (if right_closed then vcmp v b <> Lt else vcmp v b = Gt)) <->
  exists z, v = VInt z /\ a < z /\ (if right_closed then z <= b else z < b).
Proof.
  intros Ha Hb. split.
  - intros [H1 H2]. destruct v as [z|x].
    + exists z. split; [reflexivity|].
      destruct right_closed; vcmp_cases; try congruence; lia.
    + exfalso. destruct right_closed; vcmp_cases; try congruence; lia.
  - intros (z & -> & H1 & H2).
    destruct right_closed; vcmp_cases; split; try congruence; try lia.
Qed.

(** The entry the backward scan landed on. *)
Lemma vcmp_landed (v : valu) (a b : Z) (right_closed : bool) :
  a < 0 -> b < 0 ->
  (vcmp v a = Eq /\
   (if right_closed then vcmp v b <> Lt else vcmp v b = Gt)) <->
  v = VInt a /\ (if right_closed then a <= b else a < b).
Proof.
  intros Ha Hb. split.
  - intros [H1 H2]. destruct v as [z|x].
    + destruct right_closed; vcmp_cases; try congruence; split; try f_equal; lia.
    + exfalso. destruct right_closed; vcmp_cases; try congruence; lia.
  - intros (-> & H2).
    destruct right_closed; vcmp_cases; split; try congruence; try lia.
Qed.

Lemma Forall2_In_l {A B} (R : A -> B -> Prop) (l : list A) (l' : list B) (x : A) :
  Forall2 R l l' -> In x l -> exists y, In y l' /\ R x y.
Proof.
  induction 1 as [|a b l l' Hab _ IH]; [intros []|].
  intros [<-|H]; [exists b; simpl; auto|].
  destruct (IH H) as (y & Hy & Rxy). exists y. simpl. auto.
Qed.

Lemma Forall2_In_r {A B} (R : A -> B -> Prop) (l : list A) (l' : list B) (y : B) :
  Forall2 R l l' -> In y l' -> exists x, In x l /\ R x y.
Proof.
  induction 1 as [|a b l l' Hab _ IH]; [intros []|].
  intros [<-|H]; [exists a; simpl; auto|].
  destruct (IH H) as (x & Hx & Rxy). exists x. simpl. auto.
Qed.

Lemma NoDup_fst_inj {A B} (l : list (A * B)) (k : A) (v v' : B) :
  NoDup (map fst l) -> In (k, v) l -> In (k, v') l -> v = v'.
Proof.
  induction l as [|[a b] l IH]; cbn [map fst In]; [tauto|].
  intros Hnd H1 H2. inversion Hnd as [|? ? Hk Hnd']; subst.
  destruct H1 as [E1|H1], H2 as [E2|H2].
  - congruence.
  - injection E1 as -> ->. exfalso. apply Hk, in_map_iff. now exists (k, v').
  - injection E2 as -> ->. exfalso. apply Hk, in_map_iff. now exists (k, v).
  - auto.
Qed.

Lemma read_through_inj xxh64 (live : list (Z * row)) (s : store) (e : Lmdb.entry)
    (r r' : row) :
  models xxh64 live s ->
  read_through xxh64 live e r -> read_through xxh64 live e r' -> r = r'.
Proof.
  intros M (pk & Hin & ->) (pk' & Hin' & E).
  pose proof (m_wf _ _ _ M) as Hwf. rewrite Forall_forall in Hwf.
  destruct (Hwf _ Hin) as [_ R]. destruct (Hwf _ Hin') as [_ R'].
  unfold pvt_entry in E. cbn [fst snd msgenpack] in *. injection E as _ E.
  unfold MAX_PK in *. apply pack_int_inj in E; [|lia|lia]. subst pk'.
  eapply NoDup_fst_inj; eauto using m_nodup.
Qed.

(** ** The candidates of a scan, by the rows they stand for *)

Section Candidates.

Variable xxh64 : bytes -> Z.
Hypothesis xxh64_range : forall b, 0 <= xxh64 b < 2 ^ 64.
Variable live : list (Z * row).
Variable s : store.
Hypothesis M : models xxh64 live s.
Variable p : bytes.
Hypothesis p_len : len p < 2 ^ 32.

Let bound (x : Z) : bytes := Msgpack.pack_str p ++ _enc_val_key xxh64 (VInt x).

Lemma live_wf (pk : Z) (r : row) :
  In (pk, r) live -> wf_row r = true /\ 1 <= pk <= MAX_PK.
Proof.
  intros H. pose proof (m_wf _ _ _ M) as Hwf. rewrite Forall_forall in Hwf.
  apply (Hwf _ H).
Qed.

Lemma live_entry (pk : Z) (r : row) :
  In (pk, r) live -> In (pvt_entry xxh64 (pk, r)) (index_pvt s).
Proof.
  intros H. apply (m_pvt_in _ _ _ M). right; right. now apply in_map.
Qed.

Lemma row_entry_pcmp (pk : Z) (r : row) (x : Z) :
  In (pk, r) live -> - 2 ^ 63 <= x <= 2 ^ 63 - 1 ->
  bcmp (slice_to (length (bound x)) (fst (pvt_entry xxh64 (pk, r)))) (bound x) =
  row_cmp r p x.
Proof.
  intros Hin Hx. destruct (live_wf pk r Hin) as [Hwf _].
  apply (pvt_key_pcmp xxh64 xxh64_range r p x (msgenpack (VInt pk))); assumption.
Qed.

Lemma row_entry_bcmp (pk : Z) (r : row) (x : Z) :
  In (pk, r) live -> - 2 ^ 63 <= x <= 2 ^ 63 - 1 ->
  bcmp (fst (pvt_entry xxh64 (pk, r))) (bound x) =
  match row_cmp r p x with
  | Eq => Gt
  | c => c
  end.
Proof.
  intros Hin Hx. destruct (live_wf pk r Hin) as [Hwf _].
  apply (pvt_key_bcmp xxh64 xxh64_range r p x); assumption.
Qed.

Lemma fwd_cands_row (pk : Z) (r : row) (first last : Z) (right_closed : bool) :
  In (pk, r) live ->
  - 2 ^ 63 <= first <= 2 ^ 63 - 1 -> - 2 ^ 63 <= last <= 2 ^ 63 - 1 ->
  In (pvt_entry xxh64 (pk, r)) (fwd_cands (bound first) (bound last) right_closed (index_pvt s))
  <->
  row_cmp r p first <> Lt /\
  (if right_closed then row_cmp r p last <> Gt else row_cmp r p last = Lt).
Proof.
  intros Hin Hf Hl.
  unfold fwd_cands. rewrite filter_In, andb_true_iff, negb_true_iff.
  unfold termb, bge.
  pose proof (live_entry pk r Hin).
  destruct right_closed; unfold bgt, bge;
    rewrite row_entry_pcmp, row_entry_bcmp by assumption;
    destruct (row_cmp r p first), (row_cmp r p last); intuition congruence.
Qed.

Lemma bwd_cands_row (pk : Z) (r : row) (first last : Z) (right_closed : bool)
    (landed : list Lmdb.entry) :
  In (pk, r) live ->
  - 2 ^ 63 <= first <= 2 ^ 63 - 1 -> - 2 ^ 63 <= last <= 2 ^ 63 - 1 ->
  (forall x, In x landed -> pcmp (bound first) x = Eq) ->
  In (pvt_entry xxh64 (pk, r))
     (bwd_cands landed (bound first) (bound last) right_closed (index_pvt s)) ->
  (row_cmp r p first = Eq \/ row_cmp r p first = Lt) /\
  (if right_closed then row_cmp r p last <> Lt else row_cmp r p last = Gt).
Proof.
  intros Hin Hf Hl Hland.
  unfold bwd_cands. rewrite filter_In, negb_true_iff, in_app_iff, <- in_rev, filter_In.
  unfold termb.
  intros [[H|[_ H]] T].
  - apply Hland in H. unfold pcmp in H. rewrite row_entry_pcmp in H by assumption.
    split; [now left|].
    destruct right_closed; unfold blt, ble in T;
      rewrite row_entry_pcmp in T by assumption;
      destruct (row_cmp r p last); congruence.
  - unfold blt in H. rewrite row_entry_bcmp in H by assumption.
    split.
    + right. destruct (row_cmp r p first); congruence.
    + destruct right_closed; unfold blt, ble in T;
        rewrite row_entry_pcmp in T by assumption;
        destruct (row_cmp r p last); congruence.
Qed.

Lemma bwd_cands_row_below (pk : Z) (r : row) (first last : Z) (right_closed : bool)
    (landed : list Lmdb.entry) :
  In (pk, r) live ->
  - 2 ^ 63 <= first <= 2 ^ 63 - 1 -> - 2 ^ 63 <= last <= 2 ^ 63 - 1 ->
  row_cmp r p first = Lt ->
  (if right_closed then row_cmp r p last <> Lt else row_cmp r p last = Gt) ->
  In (pvt_entry xxh64 (pk, r))
     (bwd_cands landed (bound first) (bound last) right_closed (index_pvt s)).
Proof.
  intros Hin Hf Hl H1 H2.
  unfold bwd_cands. rewrite filter_In, negb_true_iff, in_app_iff, <- in_rev, filter_In.
  unfold termb. split.
  - right. split; [now apply live_entry|].
    unfold blt. rewrite row_entry_bcmp by assumption. now rewrite H1.
  - destruct right_closed; unfold blt, ble;
      rewrite row_entry_pcmp by assumption;
      destruct (row_cmp r p last); congruence.
Qed.

(** A row read by a scan stands behind one of the candidates, and with no
    limit every candidate is read. *)
Lemma scanned_sound (cands : list Lmdb.entry) (limit : option Z) (rs : list row) (r : row) :
  scanned xxh64 live cands limit rs -> In r rs ->
  exists pk, In (pk, r) live /\ In (pvt_entry xxh64 (pk, r)) cands.
Proof.
  intros (pre & suf & -> & F & _) Hr.
  destruct (Forall2_In_r _ _ _ _ F Hr) as (e & He & pk & Hin & ->).
  exists pk. split; [assumption|]. apply in_or_app. now left.
Qed.

Lemma scanned_complete (cands : list Lmdb.entry) (rs : list row) (pk : Z) (r : row) :
  scanned xxh64 live cands None rs -> In (pk, r) live ->
  In (pvt_entry xxh64 (pk, r)) cands -> In r rs.
Proof.
  intros (pre & suf & -> & F & N) Hin He. rewrite (N eq_refl), app_nil_r in He.
  destruct (Forall2_In_l _ _ _ _ F He) as (r' & Hr' & R).
  assert (read_through xxh64 live (pvt_entry xxh64 (pk, r)) r) as R'
      by (exists pk; auto).
  now rewrite (read_through_inj _ _ _ _ _ _ M R' R).
Qed.

End Candidates.

(** ** [_rowsByMinmax]: the negative scan, then the non-negative scan *)

Section Minmax.

Variable xxh64 : bytes -> Z.
Variable live : list (Z * row).
Variable s : store.
Hypothesis M : models xxh64 live s.
Variable p : bytes.

Let bound (x : Z) : bytes := Msgpack.pack_str p ++ _enc_val_key xxh64 (VInt x).

Lemma scanned_nothing (cands : list Lmdb.entry) (l : Z) :
  scanned xxh64 live cands (Some l) [].
Proof. exists [], cands. repeat split; [constructor | discriminate]. Qed.

Lemma rowsByMinmax_rows (lo hi : Z) (limit : option Z) (right_closed : bool) :
  lo <= hi ->
  exists rsn rsp,
    _rowsByMinmax xxh64 s p lo hi limit right_closed false = Ok (QRows (rsn ++ rsp)) /\
    (if lo <? 0 then
       exists landed,
         (landed = [] \/
          exists x, landed = [x] /\ In x (map (pvt_entry xxh64) live) /\
                    pcmp (bound lo) x = Eq) /\
         StronglySorted (fun a b => elt b a)
           (landed ++ rev (filter (fun e => blt (fst e) (bound lo)) (index_pvt s))) /\
         scanned xxh64 live
           (bwd_cands landed (bound lo) (bound (Z.min (-1) hi))
                      ((hi >=? 0) || right_closed) (index_pvt s)) limit rsn
     else rsn = []) /\
    (if hi >=? 0 then
       exists limit',
         (limit = None -> limit' = None) /\
         scanned xxh64 live
           (fwd_cands (bound (Z.max 0 lo)) (bound hi) right_closed (index_pvt s))
           limit' rsp
     else rsp = []).
Proof.
  intros Hle. unfold _rowsByMinmax.
  destruct (Z.gtb_spec lo hi); [lia|]. cbn [msgenpack].
  destruct (Z.ltb_spec lo 0) as [Hneg|Hneg].
  - destruct (subrangeRows_backward xxh64 live s M p lo (Z.min (-1) hi) limit
                ((hi >=? 0) || right_closed) Hneg) as (landed & rsn & HL & SS & E & SC).
    rewrite E. cbn [bind qadd app].
    destruct (hi >=? 0) eqn:Hpos.
    + destruct (subrangeRows_forward xxh64 live s M p (Z.max 0 lo) hi
                  (match limit with
                   | Some l => Some (l - qsize (QRows rsn))
                   | None => None
                   end) right_closed ltac:(lia)) as (rsp & E' & SC').
      destruct limit as [l|]; cbn [bind].
      * destruct (l - qsize (QRows rsn) =? 0).
        -- exists rsn, []. rewrite app_nil_r. repeat split; eauto.
           exists (Some 0). split; [discriminate | apply scanned_nothing].
        -- rewrite E'. cbn [bind qadd]. exists rsn, rsp. repeat split; eauto.
           eexists. split; [|exact SC']. discriminate.
      * rewrite E'. cbn [bind qadd]. exists rsn, rsp. repeat split; eauto.
    + exists rsn, []. rewrite app_nil_r.
      destruct limit as [l|]; cbn [bind];
        [destruct (l - qsize (QRows rsn) =? 0)|]; repeat split; eauto.
  - cbn [bind].
    destruct (hi >=? 0) eqn:Hpos.
    + destruct (subrangeRows_forward xxh64 live s M p (Z.max 0 lo) hi limit right_closed
                  ltac:(lia)) as (rsp & E' & SC').
      rewrite E'. cbn [bind qadd app]. exists [], rsp. repeat split; eauto.
    + exists [], []. repeat split; eauto.
Qed.

End Minmax.

Lemma row_cmp_match_bwd (r : row) (p : bytes) (x y : Z) :
  len (r_prop r) < 2 ^ 32 -> len p < 2 ^ 32 ->
  row_cmp r p x <> Gt -> row_cmp r p y <> Lt -> r_prop r = p.
Proof.
  intros H1 H2 Hx Hy. destruct (list_eq_dec Z.eq_dec (r_prop r) p) as [E|N]; auto.
  exfalso. destruct (row_cmp_other_prop r p x y H1 H2 N) as [E N'].
  rewrite <- E in Hy. destruct (row_cmp r p x); congruence.
Qed.

Lemma row_cmp_match_fwd (r : row) (p : bytes) (x y : Z) :
  len (r_prop r) < 2 ^ 32 -> len p < 2 ^ 32 ->
  row_cmp r p x <> Lt -> row_cmp r p y <> Gt -> r_prop r = p.
Proof.
  intros H1 H2 Hx Hy. destruct (list_eq_dec Z.eq_dec (r_prop r) p) as [E|N]; auto.
  exfalso. destruct (row_cmp_other_prop r p x y H1 H2 N) as [E N'].
  rewrite <- E in Hy. destruct (row_cmp r p x); congruence.
Qed.

(** ** Range queries *)

(** C1, the claim as stated fails: the row with value 5 is stored under
    property foo, 0 <= 5 <= 5, and [_rowsByRange(foo, (0, 5))] returns no row:
    the upper bound is not included. *)
Lemma rowsByRange_excludes_upper_bound :
  let r := mkRow (repeat 97 32) [102; 111; 111] (VInt 5) 10 in
  let s := fst (_addRows (fun _ => 0) fresh [r]) in
  0 <= 5 <= 5 /\
  _addRows (fun _ => 0) fresh [r] = (s, Ok tt) /\
  _rowsByRange (fun _ => 0) s [102; 111; 111] (0, 5) None = Ok (QRows []) /\
  _rowsByRange (fun _ => 0) s [102; 111; 111] (0, 6) None = Ok (QRows [r]).
Proof. cbv zeta. split; [lia|]. repeat split; vm_compute; reflexivity. Qed.

(** C1, amended: for every property p, all integers lo <= hi and every list
    of rows stored by an append, [_rowsByRange(p, (lo, hi))] returns only
    stored rows of property p with an integer value v such that
    lo <= v < hi (the upper bound is excluded), and it returns every such row
    whose value is above lo, or equal to a non-negative lo; this whether or
    not the range spans zero. *)
Theorem rowsByRange_half_open xxh64 (rws : list row) (s : store) (p : bytes) (lo hi : Z) :
  (forall b, 0 <= xxh64 b < 2 ^ 64) ->
  forallb wf_row rws = true ->
  _addRows xxh64 fresh rws = (s, Ok tt) ->
  len p < 2 ^ 32 ->
  - 2 ^ 63 <= lo -> lo <= hi -> hi <= 2 ^ 63 - 1 ->
  exists l,
    _rowsByRange xxh64 s p (lo, hi) None = Ok (QRows l) /\
    (forall r, In r l ->
       In r rws /\ r_prop r = p /\ exists v, r_valu r = VInt v /\ lo <= v < hi) /\
    (forall r v, In r rws -> r_prop r = p -> r_valu r = VInt v -> lo <= v < hi ->
       0 <= lo \/ lo < v -> In r l).
Proof.
  intros Hx Hwf Hadd Hp Hlo Hle Hhi.
  pose proof (built_models xxh64 rws s Hwf Hadd) as M.
  destruct (rowsByMinmax_rows xxh64 _ s M p lo hi None false Hle)
    as (rsn & rsp & E & Hn & Hpz).
  exists (rsn ++ rsp). split; [exact E|]. split.
  - intros r Hr. apply in_app_or in Hr as [Hr|Hr].
    + destruct (Z.ltb_spec lo 0) as [Hneg|Hneg]; [|subst rsn; destruct Hr].
      destruct Hn as (landed & HL & _ & SC).
      destruct (scanned_sound xxh64 _ _ _ _ r SC Hr) as (pk & Hin & Hc).
      destruct (live_wf xxh64 _ s M pk r Hin) as [Hwr _].
      destruct (wf_row_spec r Hwr) as (_ & Hpl & _ & _).
      apply (bwd_cands_row xxh64 Hx _ s M p Hp pk r) in Hc; try assumption; try lia.
      2:{ intros x Hxin. destruct HL as [->|(x' & -> & _ & Ex)]; [destruct Hxin|].
          destruct Hxin as [<-|[]]. exact Ex. }
      destruct Hc as [C1 C2].
      assert (r_prop r = p) as Ep.
      { apply (row_cmp_match_bwd r p lo (Z.min (-1) hi)); try lia.
        - destruct C1 as [-> | ->]; discriminate.
        - destruct ((hi >=? 0) || false); [exact C2 | rewrite C2; discriminate]. }
      split; [apply (numbered_range _ _ _ Hin)|]. split; [exact Ep|].
      subst p. rewrite !row_cmp_same_prop in *.
      destruct C1 as [C1|C1].
      * destruct (proj1 (vcmp_landed (r_valu r) lo (Z.min (-1) hi) _ Hneg ltac:(lia))
                    (conj C1 C2)) as [Ev Hb].
        exists lo. split; [exact Ev|].
        destruct (Z.geb_spec hi 0); cbn [orb] in Hb; lia.
      * destruct (proj1 (vcmp_bwd (r_valu r) lo (Z.min (-1) hi) _ Hneg ltac:(lia))
                    (conj C1 C2)) as (z & Ev & Hz & Hb).
        exists z. split; [exact Ev|].
        destruct (Z.geb_spec hi 0); cbn [orb] in Hb; lia.
    + destruct (Z.geb_spec hi 0) as [Hpos|Hpos]; [|subst rsp; destruct Hr].
      destruct Hpz as (limit' & _ & SC).
      destruct (scanned_sound xxh64 _ _ _ _ r SC Hr) as (pk & Hin & Hc).
      destruct (live_wf xxh64 _ s M pk r Hin) as [Hwr _].
      destruct (wf_row_spec r Hwr) as (_ & Hpl & _ & _).
      apply (fwd_cands_row xxh64 Hx _ s M p Hp pk r) in Hc; try assumption; try lia.
      destruct Hc as [C1 C2].
      assert (r_prop r = p) as Ep.
      { apply (row_cmp_match_fwd r p (Z.max 0 lo) hi); try lia; auto.
        rewrite C2. discriminate. }
      split; [apply (numbered_range _ _ _ Hin)|]. split; [exact Ep|].
      subst p. rewrite !row_cmp_same_prop in *.
      destruct (proj1 (vcmp_fwd (r_valu r) (Z.max 0 lo) hi false ltac:(lia) ltac:(lia))
                  (conj C1 C2)) as (z & Ev & Hz & Hb).
      exists z. split; [exact Ev | lia].
  - intros r v Hr Ep Ev Hv Hslip.
    destruct (numbered_In_row rws r 1 Hr) as (pk & Hin).
    subst p. apply in_or_app.
    destruct (Z_lt_ge_dec v 0) as [Hvn|Hvp].
    + left. destruct (Z.ltb_spec lo 0) as [Hneg|Hneg]; [|lia].
      destruct Hn as (landed & HL & _ & SC).
      apply (scanned_complete xxh64 _ s M _ _ pk r SC Hin).
      apply (bwd_cands_row_below xxh64 Hx _ s M (r_prop r) Hp pk r); try assumption;
        try lia; rewrite !row_cmp_same_prop.
      * apply (proj2 (vcmp_bwd (r_valu r) lo (Z.min (-1) hi) ((hi >=? 0) || false)
                        Hneg ltac:(lia))).
        exists v. split; [exact Ev|]. split; [lia|].
        destruct (Z.geb_spec hi 0); cbn [orb]; lia.
      * apply (proj2 (vcmp_bwd (r_valu r) lo (Z.min (-1) hi) ((hi >=? 0) || false)
                        Hneg ltac:(lia))).
        exists v. split; [exact Ev|]. split; [lia|].
        destruct (Z.geb_spec hi 0); cbn [orb]; lia.
    + right. destruct (Z.geb_spec hi 0) as [Hpos|Hpos]; [|lia].
      destruct Hpz as (limit' & Hnone & SC). rewrite (Hnone eq_refl) in SC.
      apply (scanned_complete xxh64 _ s M _ _ pk r SC Hin).
      apply (fwd_cands_row xxh64 Hx _ s M (r_prop r) Hp pk r); try assumption; try lia.
      rewrite !row_cmp_same_prop.
      apply (proj2 (vcmp_fwd (r_valu r) (Z.max 0 lo) hi false ltac:(lia) ltac:(lia))).
      exists v. split; [exact Ev | lia].
Qed.

Lemma rowsByRange_half_open_witness :
  let h := fun _ : bytes => 0 in
  let foo := [102; 111; 111] in
  let rws := [mkRow (repeat 97 32) foo (VInt 1) 10;
              mkRow (repeat 97 32) foo (VInt (-5)) 20;
              mkRow (repeat 98 32) foo (VInt 1) 30] in
  let s := fst (_addRows h fresh rws) in
  exists l,
    _rowsByRange h s foo (-10, 2) None = Ok (QRows l) /\
    (forall r, In r l ->
       In r rws /\ r_prop r = foo /\ exists v, r_valu r = VInt v /\ -10 <= v < 2) /\
    (forall r v, In r rws -> r_prop r = foo -> r_valu r = VInt v -> -10 <= v < 2 ->
       0 <= -10 \/ -10 < v -> In r l).
Proof.
  cbv zeta.
  apply rowsByRange_half_open;
    [intros; lia | reflexivity | vm_compute; reflexivity | reflexivity | lia | lia | lia].
Defined.

(** ** The order of the rows a range query returns *)

Lemma SS_app {A} (R : A -> A -> Prop) (l1 l2 : list A) :
  StronglySorted R l1 -> StronglySorted R l2 ->
  (forall x y, In x l1 -> In y l2 -> R x y) ->
  StronglySorted R (l1 ++ l2).
Proof.
  induction 1 as [|a l1 _ IH Ha]; intros H2 H; simpl; auto.
  constructor.
  - apply IH; [assumption|]. intros x y Hx Hy. apply H; [now right | assumption].
  - apply Forall_app. split; [assumption|].
    apply Forall_forall. intros y Hy. apply H; [now left | assumption].
Qed.

Lemma SS_map {A B} (f : A -> B) (R : B -> B -> Prop) (l : list A) :
  StronglySorted (fun x y => R (f x) (f y)) l -> StronglySorted R (map f l).
Proof.
  induction 1 as [|a l _ IH Ha]; simpl; constructor; auto.
  apply Forall_map. exact Ha.
Qed.

Lemma Forall2_SS {A B} (R : A -> B -> Prop) (Q : A -> A -> Prop) (Q' : B -> B -> Prop)
    (l : list A) (l' : list B) :
  Forall2 R l l' -> StronglySorted Q l ->
  (forall a b a' b', In a l -> In b l -> R a a' -> R b b' -> Q a b -> Q' a' b') ->
  StronglySorted Q' l'.
Proof.
  induction 1 as [|a a' l l' Ha F IH]; intros HS HQ; [constructor|].
  inversion HS as [|? ? HS' Hall]; subst. constructor.
  - apply IH; [assumption|]. intros x y x' y' Hx Hy Rx Ry Qxy.
    apply (HQ x y); auto; now right.
  - apply Forall_forall. intros b' Hb'.
    destruct (Forall2_In_r _ _ _ _ F Hb') as (b & Hb & Rb).
    rewrite Forall_forall in Hall.
    apply (HQ a b); auto; [now left | now right].
Qed.

Section KeyValues.

Variable xxh64 : bytes -> Z.
Hypothesis xxh64_range : forall b, 0 <= xxh64 b < 2 ^ 64.

(** Two keys of one property with integer values are ordered as the value
    keys of the integers are. *)
Lemma pvt_key_cmp_values (r1 r2 : row) (z1 z2 : Z) :
  wf_row r1 = true -> wf_row r2 = true ->
  r_prop r1 = r_prop r2 -> r_valu r1 = VInt z1 -> r_valu r2 = VInt z2 ->
  bcmp (pvt_key xxh64 r1) (pvt_key xxh64 r2) <> Gt -> vcmp (VInt z1) z2 <> Gt.
Proof.
  intros W1 W2 Ep E1 E2.
  destruct (wf_row_spec r1 W1) as (_ & _ & V1 & _).
  destruct (wf_row_spec r2 W2) as (_ & _ & V2 & _).
  unfold pvt_key. rewrite Ep, bcmp_app_l, E1, E2. rewrite E1 in V1. rewrite E2 in V2.
  assert (- 2 ^ 63 <= z2 <= 2 ^ 63 - 1) as R2 by (now apply int64_range).
  rewrite <- (vk_cmp xxh64 (VInt z1) z2 V1 R2).
  destruct (enc_val_key_eq_or_div xxh64 xxh64_range (VInt z1) (VInt z2) V1 V2) as [E|D].
  - rewrite E, bcmp_refl. discriminate.
  - now rewrite diverge_cmp_app.
Qed.

End KeyValues.

Section Pieces.

Variable xxh64 : bytes -> Z.
Hypothesis xxh64_range : forall b, 0 <= xxh64 b < 2 ^ 64.
Variable live : list (Z * row).
Variable s : store.
Hypothesis M : models xxh64 live s.
Variable p : bytes.
Hypothesis p_len : len p < 2 ^ 32.

Let bound (x : Z) : bytes := Msgpack.pack_str p ++ _enc_val_key xxh64 (VInt x).

Lemma ival_int (r : row) (z : Z) : r_valu r = VInt z -> r_valu r = VInt (ival r) /\ ival r = z.
Proof. intros E. unfold ival. rewrite E. auto. Qed.

Lemma live_prop_len (pk : Z) (r : row) : In (pk, r) live -> len (r_prop r) < 2 ^ 32.
Proof.
  intros H. destruct (live_wf xxh64 _ s M pk r H) as [W _].
  destruct (wf_row_spec r W) as (_ & Hp & _). lia.
Qed.

Lemma cand_neg_row (pk : Z) (r : row) (lo last : Z) (right_closed : bool)
    (landed : list Lmdb.entry) :
  In (pk, r) live -> - 2 ^ 63 <= lo -> lo < 0 -> - 2 ^ 63 <= last -> last < 0 ->
  (forall x, In x landed -> pcmp (bound lo) x = Eq) ->
  In (pvt_entry xxh64 (pk, r))
     (bwd_cands landed (bound lo) (bound last) right_closed (index_pvt s)) ->
  r_prop r = p /\ r_valu r = VInt (ival r) /\ lo <= ival r < 0.
Proof.
  intros Hin Hlo Hneg Hla Hlneg Hland Hc.
  pose proof (live_prop_len pk r Hin) as Hpl.
  apply (bwd_cands_row xxh64 xxh64_range _ s M p p_len pk r) in Hc;
    try assumption; try lia.
  destruct Hc as [C1 C2].
  assert (r_prop r = p) as Ep.
  { apply (row_cmp_match_bwd r p lo last); try lia.
    - destruct C1 as [-> | ->]; discriminate.
    - destruct right_closed; [exact C2 | rewrite C2; discriminate]. }
  split; [exact Ep|]. clear bound Hland. subst p. rewrite !row_cmp_same_prop in *.
  destruct C1 as [C1|C1].
  - destruct (proj1 (vcmp_landed (r_valu r) lo last _ Hneg Hlneg) (conj C1 C2)) as [Ev Hb].
    destruct (ival_int r lo Ev) as [E1 E2]. split; [exact E1 | lia].
  - destruct (proj1 (vcmp_bwd (r_valu r) lo last _ Hneg Hlneg) (conj C1 C2))
      as (z & Ev & Hz & Hb).
    destruct (ival_int r z Ev) as [E1 E2]. split; [exact E1|].
    destruct right_closed; lia.
Qed.

Lemma cand_pos_row (pk : Z) (r : row) (first last : Z) (right_closed : bool) :
  In (pk, r) live -> 0 <= first <= 2 ^ 63 - 1 -> 0 <= last <= 2 ^ 63 - 1 ->
  In (pvt_entry xxh64 (pk, r))
     (fwd_cands (bound first) (bound last) right_closed (index_pvt s)) ->
  r_prop r = p /\ r_valu r = VInt (ival r) /\ first <= ival r.
Proof.
  intros Hin Hf Hl Hc.
  pose proof (live_prop_len pk r Hin) as Hpl.
  apply (fwd_cands_row xxh64 xxh64_range _ s M p p_len pk r) in Hc;
    try assumption; try lia.
  destruct Hc as [C1 C2].
  assert (r_prop r = p) as Ep.
  { apply (row_cmp_match_fwd r p first last); try lia; auto.
    destruct right_closed; [exact C2 | rewrite C2; discriminate]. }
  split; [exact Ep|]. clear bound. subst p. rewrite !row_cmp_same_prop in *.
  destruct (proj1 (vcmp_fwd (r_valu r) first last _ ltac:(lia) ltac:(lia)) (conj C1 C2))
    as (z & Ev & Hz & Hb).
  destruct (ival_int r z Ev) as [E1 E2]. split; [exact E1 | lia].
Qed.

(** The rows read by a scan come in the order of their values. *)
Lemma scanned_ascending (Q : Lmdb.entry -> Lmdb.entry -> Prop)
    (cands : list Lmdb.entry) (limit : option Z) (rs : list row) (neg : bool) :
  scanned xxh64 live cands limit rs ->
  StronglySorted Q cands ->
  (forall a b, Q a b -> if neg then bcmp (fst b) (fst a) <> Gt
                      else bcmp (fst a) (fst b) <> Gt) ->
  (forall pk r, In (pk, r) live -> In (pvt_entry xxh64 (pk, r)) cands ->
                r_prop r = p /\ r_valu r = VInt (ival r) /\
                if neg then ival r < 0 else 0 <= ival r) ->
  Forall (fun r => r_valu r = VInt (ival r) /\ if neg then ival r < 0 else 0 <= ival r) rs /\
  StronglySorted (fun r1 r2 => ival r1 <= ival r2) rs.
Proof.
  intros (pre & suf & -> & F & _) HS HQ Hrow.
  apply SS_app_inv in HS as (HS & _ & _). split.
  - apply Forall_forall. intros r Hr.
    destruct (Forall2_In_r _ _ _ _ F Hr) as (e & He & pk & Hin & ->).
    destruct (Hrow pk r Hin) as (_ & E & Hsign); [apply in_or_app; now left | auto].
  - apply (Forall2_SS _ _ _ _ _ F HS).
    intros a b r1 r2 Ha Hb (pk1 & Hin1 & ->) (pk2 & Hin2 & ->) Hab.
    destruct (Hrow pk1 r1 Hin1) as (P1 & E1 & S1); [apply in_or_app; now left|].
    destruct (Hrow pk2 r2 Hin2) as (P2 & E2 & S2); [apply in_or_app; now left|].
    destruct (live_wf xxh64 _ s M pk1 r1 Hin1) as [W1 _].
    destruct (live_wf xxh64 _ s M pk2 r2 Hin2) as [W2 _].
    apply HQ in Hab. cbn [fst pvt_entry snd] in Hab.
    destruct neg.
    + apply (pvt_key_cmp_values xxh64 xxh64_range r2 r1 (ival r2) (ival r1) W2 W1) in Hab;
        try congruence. vcmp_cases; try congruence; lia.
    + apply (pvt_key_cmp_values xxh64 xxh64_range r1 r2 (ival r1) (ival r2) W1 W2) in Hab;
        try congruence. vcmp_cases; try congruence; lia.
Qed.

End Pieces.

(** C9: the rows of an integer range query come in ascending numeric order
    of their values: the negative ones from the most negative up, then the
    non-negative ones from the smallest up. *)
Theorem rowsByMinmax_ascending xxh64 (rws : list row) (s : store) (p : bytes)
    (lo hi : Z) (limit : option Z) (right_closed : bool) :
  (forall b, 0 <= xxh64 b < 2 ^ 64) ->
  forallb wf_row rws = true ->
  _addRows xxh64 fresh rws = (s, Ok tt) ->
  len p < 2 ^ 32 ->
  - 2 ^ 63 <= lo -> lo <= hi -> hi <= 2 ^ 63 - 1 ->
  exists l,
    _rowsByMinmax xxh64 s p lo hi limit right_closed false = Ok (QRows l) /\
    Forall (fun r => r_valu r = VInt (ival r)) l /\
    StronglySorted Z.le (map ival l).
Proof.
  intros Hx Hwf Hadd Hp Hlo Hle Hhi.
  pose proof (built_models xxh64 rws s Hwf Hadd) as M.
  destruct (rowsByMinmax_rows xxh64 _ s M p lo hi limit right_closed Hle)
    as (rsn & rsp & E & Hn & Hpz).
  assert (Forall (fun r => r_valu r = VInt (ival r) /\ ival r < 0) rsn /\
          StronglySorted (fun r1 r2 => ival r1 <= ival r2) rsn) as [Fn Sn].
  { destruct (Z.ltb_spec lo 0) as [Hneg|Hneg]; [|subst rsn; split; constructor].
    destruct Hn as (landed & HL & SS & SC).
    apply (scanned_ascending xxh64 Hx _ s M p (fun a b => elt b a) _ limit rsn true SC).
    - unfold bwd_cands. apply SS_filter, SS.
    - intros a b Hab. now apply elt_key_le.
    - intros pk r Hin Hc.
      apply (cand_neg_row xxh64 Hx _ s M p Hp pk r lo (Z.min (-1) hi)) in Hc;
        try assumption; try lia.
      + destruct Hc as (P & V & R). repeat split; auto; lia.
      + intros x Hxin. destruct HL as [->|(x' & -> & _ & Ex)]; [destruct Hxin|].
        destruct Hxin as [<-|[]]. exact Ex. }
  assert (Forall (fun r => r_valu r = VInt (ival r) /\ 0 <= ival r) rsp /\
          StronglySorted (fun r1 r2 => ival r1 <= ival r2) rsp) as [Fp Sp].
  { destruct (Z.geb_spec hi 0) as [Hpos|Hpos]; [|subst rsp; split; constructor].
    destruct Hpz as (limit' & _ & SC).
    apply (scanned_ascending xxh64 Hx _ s M p elt _ limit' rsp false SC).
    - unfold fwd_cands. apply SS_filter, (m_pvt_sorted _ _ _ M).
    - intros a b Hab. now apply elt_key_le.
    - intros pk r Hin Hc.
      apply (cand_pos_row xxh64 Hx _ s M p Hp pk r (Z.max 0 lo) hi) in Hc;
        try assumption; try lia.
      destruct Hc as (P & V & R). repeat split; auto; lia. }
  exists (rsn ++ rsp). split; [exact E|]. split.
  - apply Forall_app. split; (eapply Forall_impl; [|eassumption]); intros r [H _]; exact H.
  - apply SS_map, SS_app; auto.
    intros x y Hxn Hyp. rewrite Forall_forall in Fn, Fp.
    pose proof (proj2 (Fn x Hxn)). pose proof (proj2 (Fp y Hyp)). lia.
Qed.

Lemma rowsByMinmax_ascending_witness :
  let h := fun _ : bytes => 0 in
  let foo := [102; 111; 111] in
  let rws := [mkRow (repeat 97 32) foo (VInt 1) 10;
              mkRow (repeat 97 32) foo (VInt (-5)) 20;
              mkRow (repeat 98 32) foo (VInt 3) 30;
              mkRow (repeat 98 32) foo (VInt (-7)) 40] in
  let s := fst (_addRows h fresh rws) in
  exists l,
    _rowsByMinmax h s foo (-10) 3 None true false = Ok (QRows l) /\
    Forall (fun r => r_valu r = VInt (ival r)) l /\
    StronglySorted Z.le (map ival l).
Proof.
  cbv zeta.
  apply rowsByMinmax_ascending with
    (rws := [mkRow (repeat 97 32) [102; 111; 111] (VInt 1) 10;
             mkRow (repeat 97 32) [102; 111; 111] (VInt (-5)) 20;
             mkRow (repeat 98 32) [102; 111; 111] (VInt 3) 30;
             mkRow (repeat 98 32) [102; 111; 111] (VInt (-7)) 40]);
    [intros; lia | reflexivity | vm_compute; reflexivity | reflexivity | lia | lia | lia].
Defined.

(** ** Primary keys over a session *)

Lemma zseq_length (a : Z) (n : nat) : length (zseq a n) = n.
Proof. revert a; induction n; intros a; simpl; auto. Qed.

Lemma zseq_app (n m : nat) :
  forall a, zseq a n ++ zseq (a + Z.of_nat n) m = zseq a (n + m).
Proof.
  induction n as [|n IH]; intros a.
  - simpl. now rewrite Z.add_0_r.
  - cbn [zseq app Nat.add]. f_equal. rewrite <- IH. do 2 f_equal. lia.
Qed.

Lemma zseq_bounds (n : nat) :
  forall a k, In k (zseq a n) -> a <= k < a + Z.of_nat n.
Proof.
  induction n as [|n IH]; intros a k; [intros []|].
  cbn [zseq In]. intros [<-|H]; [lia|]. apply IH in H. lia.
Qed.

Lemma zseq_sorted (n : nat) : forall a, StronglySorted Z.lt (zseq a n).
Proof.
  induction n as [|n IH]; intros a; [constructor|].
  cbn [zseq]. constructor; [apply IH|].
  apply Forall_forall. intros k Hk. apply zseq_bounds in Hk. lia.
Qed.

Lemma addRows_encs_keys xxh64 (rws : list row) :
  forall npk encs npk',
    addRows_encs xxh64 npk rws = Ok (encs, npk') ->
    map e_pkkey encs = zseq npk (length rws) /\ npk' = npk + Z.of_nat (length rws).
Proof.
  induction rws as [|r rws IH]; intros npk encs npk' H.
  - injection H as <- <-. split; [reflexivity | simpl; lia].
  - cbn [addRows_encs] in H.
    destruct (npk >? MAX_PK); [discriminate|].
    destruct (str_len (r_prop r) >? MAX_PROP_LEN); [discriminate|].
    destruct (_enc_iden (r_iden r)); [|discriminate]. cbn [bind] in H.
    destruct (addRows_encs xxh64 (npk + 1) rws) as [[encs' n']|] eqn:E; [|discriminate].
    cbn [bind] in H. injection H as <- <-.
    destruct (IH _ _ _ E) as [K N]. cbn [map e_pkkey zseq length]. split.
    + unfold _enc_pk_key. now rewrite K.
    + lia.
Qed.

Lemma rputmulti_zseq (kvs : list (Z * bytes)) :
  forall npk t c a,
    map fst kvs = zseq npk (length kvs) ->
    Forall (fun kv => fst kv < npk) t ->
    Lmdb.rputmulti kvs t c a =
    (c + Z.of_nat (length kvs), a + Z.of_nat (length kvs), t ++ kvs).
Proof.
  induction kvs as [|[k v] kvs IH]; intros npk t c a Hk Ht.
  - simpl. now rewrite app_nil_r, !Z.add_0_r.
  - cbn [map fst length zseq] in Hk. injection Hk as -> Hk.
    cbn [Lmdb.rputmulti].
    assert ((match Lmdb.rlast t with
             | Some l => l <? npk
             | None => true
             end) = true) as ->.
    { destruct (Lmdb.rlast t) as [l|] eqn:L; [|reflexivity].
      apply rlast_In, in_map_iff in L as (x & <- & Hx).
      rewrite Forall_forall in Ht. apply Z.ltb_lt. auto. }
    rewrite (IH (npk + 1)); [|assumption|].
    + rewrite <- app_assoc. cbn [app length].
      replace (c + 1 + Z.of_nat (length kvs)) with (c + Z.of_nat (S (length kvs))) by lia.
      replace (a + 1 + Z.of_nat (length kvs)) with (a + Z.of_nat (S (length kvs))) by lia.
      reflexivity.
    + apply Forall_app. split.
      * eapply Forall_impl; [|exact Ht]. simpl. intros; lia.
      * repeat constructor. simpl. lia.
Qed.

(** An append either changes nothing or adds rows under the next keys. *)
Lemma addRows_effect xxh64 (s : store) (rws : list row) :
  Forall (fun kv => fst kv < next_pk s) (rows s) ->
  exists n,
    skipn (length (rows s)) (row_pks (fst (_addRows xxh64 s rws))) = zseq (next_pk s) n /\
    next_pk (fst (_addRows xxh64 s rws)) = next_pk s + Z.of_nat n /\
    Forall (fun kv => fst kv < next_pk s + Z.of_nat n) (rows (fst (_addRows xxh64 s rws))).
Proof.
  intros Hinv.
  assert (exists n, skipn (length (rows s)) (row_pks s) = zseq (next_pk s) n /\
                    next_pk s = next_pk s + Z.of_nat n /\
                    Forall (fun kv => fst kv < next_pk s + Z.of_nat n) (rows s)) as Same.
  { exists O. unfold row_pks. rewrite <- (length_map fst), skipn_all, Z.add_0_r. auto. }
  unfold _addRows.
  destruct (addRows_encs xxh64 (next_pk s) rws) as [[encs npk]|] eqn:E; [|exact Same].
  destruct (addRows_encs_keys _ _ _ _ _ E) as [K N].
  set (kvs := map (fun x => (e_pkkey x, e_i x ++ e_p x ++ e_vval x ++ e_t x)) encs).
  assert (length kvs = length rws) as Lk.
  { unfold kvs. rewrite length_map, <- (length_map e_pkkey), K. apply zseq_length. }
  assert (map fst kvs = zseq (next_pk s) (length kvs)) as Kk.
  { unfold kvs. rewrite map_map. cbn [fst].
    change (map (fun x : enc => e_pkkey x) encs) with (map e_pkkey encs).
    now rewrite K, <- Lk. }
  unfold with_txn. rewrite (rputmulti_zseq kvs (next_pk s)) by assumption.
  destruct (negb _ || negb _); [exact Same|].
  cbn [fst rows next_pk row_pks]. exists (length rws). unfold row_pks. cbn [rows].
  split; [|split].
  - rewrite map_app, skipn_app, length_map, Nat.sub_diag.
    rewrite <- (length_map fst (rows s)), skipn_all. cbn [app skipn].
    rewrite <- Lk. exact Kk.
  - exact N.
  - apply Forall_app. split.
    + eapply Forall_impl; [|exact Hinv]. simpl. intros; lia.
    + apply Forall_forall. intros kv Hkv.
      assert (In (fst kv) (zseq (next_pk s) (length kvs))) as Hf
          by (rewrite <- Kk; now apply in_map).
      apply zseq_bounds in Hf. lia.
Qed.

(** The deletes only take rows away. *)

Lemma shrinks_refl (s : store) : shrinks s s.
Proof. split; [reflexivity | apply incl_refl]. Qed.

Lemma shrinks_trans (s1 s2 s3 : store) : shrinks s1 s2 -> shrinks s2 s3 -> shrinks s1 s3.
Proof.
  intros [N1 I1] [N2 I2]. split; [congruence | eapply incl_tran; eauto].
Qed.

Lemma shrinks_set_index (s : store) (w : which) (t : Lmdb.table) :
  shrinks s (set_index s w t).
Proof. destruct w; split; simpl; auto using incl_refl. Qed.

Lemma rdel_incl (k : Z) (t : Lmdb.rtable) : incl (Lmdb.rdel k t) t.
Proof.
  induction t as [|[k' v] t IH]; simpl; [apply incl_refl|].
  destruct (k' =? k).
  - apply incl_tl, incl_refl.
  - intros x [<-|H]; [now left | right; now apply IH].
Qed.

Ltac break_hyp H :=
  repeat match type of H with
         | context [match ?x with _ => _ end] => destruct x eqn:?; try discriminate
         end.

Lemma getRow_shrinks (s s' : store) (pkv : bytes) (d : bool) (r : row) :
  _getRowByPkValEnc s pkv d = Ok (s', r) -> shrinks s s'.
Proof.
  unfold _getRowByPkValEnc, Lmdb.rpop. intros H.
  destruct (msgunpack pkv) as [[pk|]|]; try discriminate.
  destruct d.
  - destruct (Lmdb.rget (_enc_pk_key pk) (rows s)); [|discriminate].
    break_hyp H. injection H as <- _. split; [reflexivity | apply rdel_incl].
  - destruct (Lmdb.rget (_enc_pk_key pk) (rows s)); [|discriminate].
    cbn [option_map] in H. break_hyp H. injection H as <- _.
    split; [reflexivity | apply incl_refl].
Qed.

Lemma cond_delete_shrinks (c : bool) (e : Lmdb.entry) (s s' : store) (w : which) :
  (if c then
     match Lmdb.delete e (get_index s w) with
     | Some t' => Ok (set_index s w t')
     | None => Raise DatabaseInconsistent
     end
   else Ok s) = Ok s' ->
  shrinks s s'.
Proof.
  destruct c; [destruct (Lmdb.delete e (get_index s w))|]; intros [= <-];
    auto using shrinks_refl, shrinks_set_index.
Qed.

Lemma delRowAndIndices_shrinks xxh64 (s s' : store) (pkv : bytes)
    (i_enc p_enc v_key_enc t_enc : option bytes) (dip dpvt dpt : bool)
    (only : option valu) (b : bool) :
  _delRowAndIndices xxh64 s pkv i_enc p_enc v_key_enc t_enc dip dpvt dpt only =
    Ok (s', b) ->
  shrinks s s'.
Proof.
  unfold _delRowAndIndices. intros H.
  destruct (_getRowByPkValEnc s pkv true) as [[s1 r]|] eqn:G; [|discriminate].
  apply getRow_shrinks in G. cbn [bind] in H.
  destruct (match only with
            | Some w => negb (valu_eqb w (r_valu r))
            | None => false
            end).
  { injection H as <- _. exact G. }
  unfold bind in H. break_hyp H. injection H as <- _.
  repeat match goal with
         | E : (if _ then _ else Ok _) = Ok _ |- _ =>
             first [ apply (cond_delete_shrinks _ _ _ _ IP) in E
                   | apply (cond_delete_shrinks _ _ _ _ PVT) in E
                   | apply (cond_delete_shrinks _ _ _ _ PT) in E ]
         end.
  eauto using shrinks_trans.
Qed.

Lemma delRowsById_loop_shrinks xxh64 (fuel : nat) :
  forall s c i_enc s' u,
    delRowsById_loop xxh64 fuel s c i_enc = Some (Ok (s', u)) -> shrinks s s'.
Proof.
  induction fuel as [|f IH]; intros s c i_enc s' u H; [discriminate|].
  cbn [delRowsById_loop] in H.
  destruct (Lmdb.item (index_ip s) c) as [key value].
  destruct (negb (beq (slice_to (length i_enc) key) i_enc)).
  { injection H as <- _. apply shrinks_refl. }
  destruct (Lmdb.cdelete (index_ip s) c) as [t'|]; [|discriminate].
  destruct (_delRowAndIndices _ _ _ _ _ _ _ _ _ _ _) as [[s1 b]|] eqn:D; [|discriminate].
  apply delRowAndIndices_shrinks in D. apply IH in H.
  eauto using shrinks_trans, shrinks_set_index.
Qed.

Lemma delRowsByIdProp_loop_shrinks xxh64 (fuel : nat) :
  forall s c i_enc p_enc first_key valu s' u,
    delRowsByIdProp_loop xxh64 fuel s c i_enc p_enc first_key valu = Some (Ok (s', u)) ->
    shrinks s s'.
Proof.
  induction fuel as [|f IH]; intros s c i_enc p_enc first_key valu s' u H; [discriminate|].
  cbn [delRowsByIdProp_loop] in H.
  destruct (Lmdb.item (index_ip s) c) as [key value].
  destruct (negb (beq (slice_to (length first_key) key) first_key)).
  { injection H as <- _. apply shrinks_refl. }
  destruct (_delRowAndIndices _ _ _ _ _ _ _ _ _ _ _) as [[s1 b]|] eqn:D; [|discriminate].
  apply delRowAndIndices_shrinks in D. destruct b.
  - destruct (Lmdb.cdelete (index_ip s1) c) as [t'|]; [|discriminate].
    apply IH in H. eauto using shrinks_trans, shrinks_set_index.
  - destruct (Lmdb.next (index_ip s1) c) as [c'|]; [|discriminate].
    apply IH in H. eauto using shrinks_trans.
Qed.

Lemma getRowsByProp_body_shrinks xxh64 (s : store) (w : which) (c : nat)
    (value p_enc : bytes) (valu : option valu) (hashed cnt del : bool) (ret : list row)
    (s' : store) (ret' : list row) :
  getRowsByProp_body xxh64 s w c value p_enc valu hashed cnt del ret = Ok (Some (s', ret')) ->
  shrinks s s'.
Proof.
  unfold getRowsByProp_body. intros H. destruct del.
  - destruct (Lmdb.cdelete (get_index s w) c) as [t'|]; [|discriminate].
    destruct (_delRowAndIndices _ _ _ _ _ _ _ _ _ _ _) as [[s1 b]|] eqn:D; [|discriminate].
    apply delRowAndIndices_shrinks in D. cbn [bind] in H. injection H as <- _.
    eauto using shrinks_trans, shrinks_set_index.
  - destruct (negb cnt || hashed).
    + destruct (_getRowByPkValEnc s value false) as [[s1 r]|]; [|discriminate].
      cbn [bind] in H. destruct (hashed && _); [discriminate|].
      injection H as <- _. apply shrinks_refl.
    + injection H as <- _. apply shrinks_refl.
Qed.

Lemma getRowsByProp_loop_shrinks xxh64 (fuel : nat) :
  forall s w c p_enc last_key valu hashed limit cnt del ret count s' out,
    getRowsByProp_loop xxh64 fuel s w c p_enc last_key valu hashed limit cnt del ret count =
      Some (Ok (s', out)) ->
    shrinks s s'.
Proof.
  induction fuel as [|f IH];
    intros s w c p_enc last_key valu hashed limit cnt del ret count s' out H;
    [discriminate|].
  cbn [getRowsByProp_loop] in H.
  destruct (Lmdb.item (get_index s w) c) as [key value].
  destruct (bge key last_key).
  { injection H as <- _. apply shrinks_refl. }
  destruct (getRowsByProp_body _ _ _ _ _ _ _ _ _ _ _) as [[[s1 ret1]|]|] eqn:B;
    [| |discriminate].
  - apply getRowsByProp_body_shrinks in B.
    destruct (limit_hit limit (count + 1)).
    + injection H as <- _. exact B.
    + destruct (negb del).
      * destruct (Lmdb.next (get_index s1 w) c) as [c'|]; [|discriminate].
        apply IH in H. eauto using shrinks_trans.
      * apply IH in H. eauto using shrinks_trans.
  - now apply IH in H.
Qed.

Lemma with_txn_shrinks {A} (s s' : store) (body : res (store * A)) (r : res A) :
  (forall s1 a, body = Ok (s1, a) -> shrinks s s1) ->
  with_txn s body = (s', r) -> shrinks s s'.
Proof.
  unfold with_txn. intros Hb. destruct body as [[s1 a]|].
  - intros [= <- _]. eauto.
  - intros [= <- _]. apply shrinks_refl.
Qed.

Lemma delete_op_shrinks xxh64 py (fuel : nat) (s s' : store) (o : op) :
  (forall rws, o <> Append rws) ->
  apply_op xxh64 py fuel s o = Some s' -> shrinks s s'.
Proof.
  intros Hno. destruct o as [rws|i|i p v|p v mintime maxtime]; cbn [apply_op].
  - now destruct (Hno rws).
  - unfold _delRowsById. destruct (_enc_iden i) as [i_enc|].
    + destruct (Lmdb.set_range i_enc (index_ip s)) as [c|]; cbn [option_map].
      * destruct (delRowsById_loop xxh64 fuel s c i_enc) as [body|] eqn:L; [|discriminate].
        cbn [option_map]. intros [= <-].
        destruct (with_txn s body) as [s1 r] eqn:W. cbn [fst].
        eapply with_txn_shrinks; [|exact W]. intros s2 a ->.
        eapply delRowsById_loop_shrinks; eauto.
      * intros [= <-]. apply shrinks_refl.
    + intros [= <-]. apply shrinks_refl.
  - unfold _delRowsByIdProp. destruct (_enc_iden i) as [i_enc|].
    + destruct (Lmdb.set_range _ (index_ip s)) as [c|]; cbn [option_map].
      * destruct (delRowsByIdProp_loop _ _ _ _ _ _ _ _) as [body|] eqn:L; [|discriminate].
        cbn [option_map]. intros [= <-].
        destruct (with_txn s body) as [s1 r] eqn:W. cbn [fst].
        eapply with_txn_shrinks; [|exact W]. intros s2 a ->.
        eapply delRowsByIdProp_loop_shrinks; eauto.
      * intros [= <-]. apply shrinks_refl.
    + intros [= <-]. apply shrinks_refl.
  - unfold _delRowsByProp, _getRowsByProp. cbn [andb].
    destruct (Lmdb.set_range _ _) as [c|]; cbn [option_map].
    + destruct (getRowsByProp_loop _ _ _ _ _ _ _ _ _ _ _ _ _ _) as [body|] eqn:L;
        [|discriminate].
      cbn [option_map]. intros [= <-].
      destruct (with_txn s _) as [s1 r] eqn:W. cbn [fst].
      eapply with_txn_shrinks; [|exact W]. intros s2 a E.
      destruct body as [[s3 [ret cnt]]|]; [|discriminate].
      cbn [bind] in E. injection E as <- _.
      eapply getRowsByProp_loop_shrinks; eauto.
    + intros [= <-]. apply shrinks_refl.
Qed.

Lemma apply_op_effect xxh64 py (fuel : nat) (s s' : store) (o : op) :
  Forall (fun kv => fst kv < next_pk s) (rows s) ->
  apply_op xxh64 py fuel s o = Some s' ->
  exists n,
    assigned_pks s s' o = zseq (next_pk s) n /\
    next_pk s' = next_pk s + Z.of_nat n /\
    Forall (fun kv => fst kv < next_pk s') (rows s').
Proof.
  intros Hinv H.
  assert ((exists rws, o = Append rws) \/ forall rws, o <> Append rws) as [[rws ->]|Hno]
      by (destruct o; eauto; right; discriminate).
  - cbn [apply_op] in H. injection H as <-. cbn [assigned_pks].
    destruct (addRows_effect xxh64 s rws Hinv) as (n & A & N & F).
    exists n. rewrite N. auto.
  - destruct (delete_op_shrinks xxh64 py fuel s s' o Hno H) as [N I].
    exists O. rewrite N, Z.add_0_r. repeat split.
    + destruct o; try reflexivity. now destruct (Hno rws).
    + apply Forall_forall. intros kv Hkv. rewrite Forall_forall in Hinv. auto.
Qed.

Lemma run_session_pks xxh64 py (fuel : nat) (ops : list op) :
  forall s s' pks,
    Forall (fun kv => fst kv < next_pk s) (rows s) ->
    run_session xxh64 py fuel s ops = Some (s', pks) ->
    pks = zseq (next_pk s) (length pks) /\
    next_pk s' = next_pk s + Z.of_nat (length pks).
Proof.
  induction ops as [|o ops IH]; intros s s' pks Hinv H.
  - injection H as <- <-. simpl. split; [reflexivity | lia].
  - cbn [run_session] in H.
    destruct (apply_op xxh64 py fuel s o) as [s1|] eqn:A; [|discriminate].
    destruct (run_session xxh64 py fuel s1 ops) as [[s2 pks']|] eqn:R; [|discriminate].
    injection H as <- <-.
    destruct (apply_op_effect xxh64 py fuel s s1 o Hinv A) as (n & E & N & F).
    destruct (IH s1 s2 pks' F R) as [E' N'].
    rewrite E, length_app, zseq_length. split.
    + rewrite E' at 1. rewrite N. apply zseq_app.
    + rewrite N', N. lia.
Qed.

Lemma rlast_cons (x : Z * bytes) (t : Lmdb.rtable) :
  Lmdb.rlast (x :: t) =
  match Lmdb.rlast t with
  | Some l => Some l
  | None => Some (fst x)
  end.
Proof.
  unfold Lmdb.rlast. cbn [rev]. destruct (rev t) as [|[k v] t'] eqn:E.
  - destruct x. reflexivity.
  - reflexivity.
Qed.

Lemma keys_ascend_max (t : Lmdb.rtable) :
  forall prev,
    keys_ascend prev t = true -> -1 <= prev ->
    Forall (fun kv => prev < fst kv) t /\
    max_pk t = match Lmdb.rlast t with
               | Some l => l
               | None => 0
               end.
Proof.
  induction t as [|[k v] t IH]; intros prev H Hp.
  - split; [constructor | reflexivity].
  - cbn [keys_ascend] in H. apply andb_true_iff in H as [Hk Ht]. apply Z.ltb_lt in Hk.
    destruct (IH k Ht ltac:(lia)) as [F E]. split.
    + constructor; [exact Hk|]. eapply Forall_impl; [|exact F]. simpl. intros; lia.
    + rewrite rlast_cons. unfold max_pk in *. cbn [map fst fold_right]. rewrite E.
      destruct (Lmdb.rlast t) as [l|] eqn:L.
      * apply rlast_In, in_map_iff in L as (x & <- & Hx).
        rewrite Forall_forall in F. specialize (F x Hx). lia.
      * cbn [fst]. lia.
Qed.

Lemma max_pk_bound (t : Lmdb.rtable) : Forall (fun kv => fst kv <= max_pk t) t.
Proof.
  induction t as [|[k v] t IH]; [constructor|].
  unfold max_pk in *. cbn [map fst fold_right]. constructor; [cbn [fst]; lia|].
  eapply Forall_impl; [|exact IH]. cbn beta. intros; lia.
Qed.

Lemma initDbConn_counter (r : Lmdb.rtable) (ip pvt pt : Lmdb.table) (s0 : store) :
  rtable_ok r = true -> _initDbConn r ip pvt pt = Ok s0 ->
  rows s0 = r /\ next_pk s0 = max_pk r + 1.
Proof.
  unfold _initDbConn, _get_largest_pk, _dec_pk_key. cbn [rows]. intros Hr H.
  destruct (keys_ascend_max r (-1) Hr ltac:(lia)) as [_ E].
  destruct (_ =? MAX_PK); [discriminate|]. injection H as <-.
  cbn [set_next_pk rows next_pk]. split; [reflexivity|]. rewrite E.
  destruct (Lmdb.rlast r); reflexivity.
Qed.

(** C7, amended: in one open environment the primary keys given out by the
    appends are the consecutive integers from the counter set at open, which
    is the largest stored key plus one (1 on an empty store): they ascend
    strictly and none is given twice or was in the table at open, whatever
    deletes come in between. *)
Theorem session_pks_consecutive xxh64 py (fuel : nat) (r : Lmdb.rtable)
    (ip pvt pt : Lmdb.table) (s0 s : store) (ops : list op) (pks : list Z) :
  rtable_ok r = true ->
  _initDbConn r ip pvt pt = Ok s0 ->
  run_session xxh64 py fuel s0 ops = Some (s, pks) ->
  next_pk s0 = max_pk r + 1 /\
  pks = zseq (max_pk r + 1) (length pks) /\
  StronglySorted Z.lt pks /\
  Forall (fun k => max_pk r < k) pks /\
  next_pk s = max_pk r + 1 + Z.of_nat (length pks).
Proof.
  intros Hr Hinit Hrun.
  destruct (initDbConn_counter r ip pvt pt s0 Hr Hinit) as [Er En].
  assert (Forall (fun kv => fst kv < next_pk s0) (rows s0)) as Hinv.
  { rewrite Er, En. eapply Forall_impl; [|apply max_pk_bound]. simpl. intros; lia. }
  destruct (run_session_pks xxh64 py fuel ops s0 s pks Hinv Hrun) as [E N].
  rewrite En in E, N. repeat split; auto.
  - rewrite E. apply zseq_sorted.
  - apply Forall_forall. intros k Hk. rewrite E in Hk. apply zseq_bounds in Hk. lia.
Qed.

Lemma session_pks_consecutive_witness :
  run_session (fun _ => 0) Python3 10 fresh session_example =
    Some (session_example_store, [1; 2; 3]) /\
  next_pk fresh = max_pk [] + 1 /\
  [1; 2; 3] = zseq (max_pk [] + 1) (length [1; 2; 3]) /\
  StronglySorted Z.lt [1; 2; 3] /\
  Forall (fun k => max_pk [] < k) [1; 2; 3] /\
  next_pk session_example_store = max_pk [] + 1 + Z.of_nat (length [1; 2; 3]).
Proof.
  assert (run_session (fun _ => 0) Python3 10 fresh session_example =
          Some (session_example_store, [1; 2; 3])) as E by (vm_compute; reflexivity).
  split; [exact E|].
  exact (session_pks_consecutive (fun _ => 0) Python3 10 [] [] [] [] fresh
           session_example_store session_example [1; 2; 3] eq_refl eq_refl E).
Defined.

(** ** Scans by property: [_getRowsByProp] *)

Lemma eq_or_div_app (a b c d : bytes) :
  eq_or_div a b -> eq_or_div c d -> eq_or_div (a ++ c) (b ++ d).
Proof.
  intros [->|D] [->|D'].
  - now left.
  - right. now apply diverge_prefix.
  - right. now apply diverge_app.
  - right. now apply diverge_app.
Qed.

(** A key that ends in the last key's tail is never inside the window
    [first_key, last_key) when both bounds start with one word of the code. *)
Lemma window_excludes (A' A T mint : bytes) :
  eq_or_div A' A ->
  bge (A' ++ T) (A ++ mint) = true -> blt (A' ++ T) (A ++ T) = true -> False.
Proof.
  unfold bge, blt. intros [->|D].
  - intros _. now rewrite bcmp_refl.
  - rewrite !diverge_cmp_app by assumption. destruct (bcmp A' A); discriminate.
Qed.

Section PropScan.

Variable xxh64 : bytes -> Z.
Variable live : list (Z * row).
Variable s : store.
Hypothesis M : models xxh64 live s.
Variable w : which.
Variable went : Z * row -> Lmdb.entry.
Hypothesis went_val : forall x, snd (went x) = msgenpack (VInt (fst x)).
Hypothesis w_sorted : StronglySorted elt (get_index s w).
Hypothesis w_in :
  forall e, In e (get_index s w) ->
            e = sentinel_lo \/ e = sentinel_hi \/ In e (map went live).
Variables first_key last_key p_enc : bytes.
Hypothesis hi_out : bge (fst sentinel_hi) last_key = true.
Hypothesis lo_out : bge (fst sentinel_lo) first_key = false.

Lemma body_read (c : nat) (pk : Z) (r : row) (valu : option valu)
    (hashed cnt : bool) (ret : list row) :
  In (pk, r) live ->
  let out := getRowsByProp_body xxh64 s w c (msgenpack (VInt pk)) p_enc valu hashed cnt
               false ret in
  out = Ok None \/ out = Ok (Some (s, if cnt then ret else ret ++ [r])).
Proof.
  intros Hin. unfold getRowsByProp_body.
  rewrite (fetch_row xxh64 live s pk r M Hin). cbn [bind].
  destruct cnt, hashed; cbn [negb orb andb]; auto;
    destruct (match valu with
              | Some w0 => negb (valu_eqb w0 (r_valu r))
              | None => false
              end); auto.
Qed.

Lemma getRowsByProp_loop_read (valu : option valu) (hashed : bool) (limit : option Z)
    (cnt : bool) (fuel : nat) :
  forall c ret count s' ret' count',
    (c < length (get_index s w))%nat ->
    Forall (fun e => bge (fst e) first_key = true) (skipn c (get_index s w)) ->
    getRowsByProp_loop xxh64 fuel s w c p_enc last_key valu hashed limit cnt false ret count =
      Some (Ok (s', (ret', count'))) ->
    s' = s /\
    exists done,
      Forall (fun x => In x live /\ In (went x) (skipn c (get_index s w)) /\
                       blt (fst (went x)) last_key = true) done /\
      StronglySorted elt (map went done) /\
      count' = count + Z.of_nat (length done) /\
      (cnt = false -> ret' = ret ++ map snd done).
Proof.
  set (t := get_index s w) in *.
  induction fuel as [|f IH]; intros c ret count s' ret' count' Hc Hge H; [discriminate|].
  cbn [getRowsByProp_loop] in H. fold t in H.
  pose proof (skipn_cons_nth (A:=Lmdb.entry) ([], []) t c Hc) as Hsk.
  fold (Lmdb.item t c) in Hsk.
  destruct (Lmdb.item t c) as [key value] eqn:Eit.
  destruct (bge key last_key) eqn:Hlast.
  { injection H as <- <- <-. split; [reflexivity|]. exists []. cbn [length map].
    rewrite app_nil_r, Z.add_0_r. repeat split; constructor. }
  assert (In (key, value) t) as Hint.
  { rewrite <- (firstn_skipn c t), Hsk. apply in_or_app. right. now left. }
  assert (bge key first_key = true) as Hfirst.
  { rewrite Hsk in Hge. now inversion Hge. }
  destruct (w_in _ Hint) as [E|[E|E]].
  { pose proof lo_out as L. unfold sentinel_lo in E, L. injection E as -> ->.
    cbn [fst] in L. congruence. }
  { pose proof hi_out as L. unfold sentinel_hi in E, L. injection E as -> ->.
    cbn [fst] in L. congruence. }
  apply in_map_iff in E as ([pk r] & E & Hin).
  assert (value = msgenpack (VInt pk)) as Ev.
  { pose proof (went_val (pk, r)) as V. rewrite E in V. exact V. }
  assert (Forall (elt (key, value)) (skipn (S c) t)) as Hnext.
  { pose proof w_sorted as HS. fold t in HS. rewrite <- (firstn_skipn c t), Hsk in HS.
    apply SS_app_inv in HS as (_ & HS & _). now inversion HS. }
  assert (blt (fst (went (pk, r))) last_key = true) as Hb.
  { rewrite E. cbn [fst]. rewrite bge_not_blt in Hlast. now apply negb_false_iff in Hlast. }
  assert (In (went (pk, r)) (skipn c t)) as Hhere by (rewrite Hsk, E; now left).
  subst value.
  destruct (body_read c pk r valu hashed cnt ret Hin) as [B|B]; rewrite B in H.
  - (* the continue statement *)
    apply IH in H; assumption.
  - destruct (limit_hit limit (count + 1)).
    + injection H as <- <- <-. split; [reflexivity|]. exists [(pk, r)].
      cbn [map snd length]. repeat split.
      * repeat constructor; assumption.
      * repeat constructor.
      * intros ->. reflexivity.
    + cbn [negb] in H. unfold Lmdb.next in H. fold t in H.
      destruct (Nat.ltb_spec (S c) (length t)) as [Hc'|]; [|discriminate].
      apply IH in H; [|assumption|].
      2:{ rewrite Hsk in Hge. now inversion Hge. }
      destruct H as (-> & done & D1 & D2 & D3 & D4). split; [reflexivity|].
      exists ((pk, r) :: done). cbn [map snd length]. repeat split.
      * constructor; [auto|]. eapply Forall_impl; [|exact D1].
        intros x (X1 & X2 & X3). repeat split; auto. rewrite Hsk. now right.
      * constructor; [assumption|]. rewrite E. apply Forall_forall.
        intros e He. apply in_map_iff in He as (x & <- & Hx).
        rewrite Forall_forall in D1, Hnext. apply Hnext. apply (D1 x Hx).
      * lia.
      * intros ->. rewrite (D4 eq_refl), <- app_assoc. reflexivity.
Qed.

End PropScan.

Lemma elt_irrefl (e : Lmdb.entry) : ~ elt e e.
Proof. unfold elt. now rewrite ecmp_refl. Qed.

Lemma sorted_entries_NoDup (live : list (Z * row)) (went : Z * row -> Lmdb.entry)
    (done : list (Z * row)) :
  NoDup (map fst live) ->
  Forall (fun x => In x live) done ->
  StronglySorted elt (map went done) ->
  NoDup (map fst done).
Proof.
  intros Hnd. induction done as [|x done IH]; intros Hin HS; [constructor|].
  inversion Hin as [|? ? Hx Hin']; subst.
  cbn [map] in HS. inversion HS as [|? ? HS' Hall]; subst.
  cbn [map]. constructor; [|auto].
  intros H. apply in_map_iff in H as (y & Ey & Hy).
  rewrite Forall_forall in Hin', Hall.
  assert (y = x) as ->.
  { destruct x as [k v], y as [k' v']. cbn [fst] in Ey. subst k'.
    f_equal. eapply NoDup_fst_inj; eauto. }
  apply (elt_irrefl (went x)). apply Hall. now apply in_map.
Qed.

Section PropQuery.

Variable xxh64 : bytes -> Z.
Hypothesis xxh64_range : forall b, 0 <= xxh64 b < 2 ^ 64.
Variable live : list (Z * row).
Variable s : store.
Hypothesis M : models xxh64 live s.
Variable p : bytes.
Hypothesis p_len : len p < 2 ^ 32.

Lemma time_not_max_pvt (pk : Z) (r : row) (v : valu) (mint : bytes) :
  In (pk, r) live -> wf_valu v = true ->
  bge (pvt_key xxh64 r) (Msgpack.pack_str p ++ _enc_val_key xxh64 v ++ mint) = true ->
  blt (pvt_key xxh64 r) (Msgpack.pack_str p ++ _enc_val_key xxh64 v ++ MAX_TIME_ENC) = true ->
  r_time r <> MAX_INT_VAL.
Proof.
  intros Hin Hv H1 H2 Et.
  destruct (live_wf xxh64 _ s M pk r Hin) as [W _].
  destruct (wf_row_spec r W) as (_ & Hp & Hvr & _).
  unfold pvt_key in H1, H2. rewrite Et in H1, H2. cbn [msgenpack] in H1, H2.
  change (Msgpack.pack_int MAX_INT_VAL) with MAX_TIME_ENC in H1, H2.
  rewrite !app_assoc in H1, H2.
  eapply window_excludes; [|exact H1|exact H2].
  apply eq_or_div_app.
  - apply pack_str_eq_or_div; lia.
  - now apply enc_val_key_eq_or_div.
Qed.

Lemma time_not_max_pt (pk : Z) (r : row) (mint : bytes) :
  In (pk, r) live ->
  bge (pt_key r) (Msgpack.pack_str p ++ [] ++ mint) = true ->
  blt (pt_key r) (Msgpack.pack_str p ++ [] ++ MAX_TIME_ENC) = true ->
  r_time r <> MAX_INT_VAL.
Proof.
  intros Hin H1 H2 Et.
  destruct (live_wf xxh64 _ s M pk r Hin) as [W _].
  destruct (wf_row_spec r W) as (_ & Hp & Hvr & _).
  unfold pt_key in H1, H2. rewrite Et in H1, H2. cbn [msgenpack app] in H1, H2.
  change (Msgpack.pack_int MAX_INT_VAL) with MAX_TIME_ENC in H1, H2.
  eapply window_excludes; [|exact H1|exact H2].
  apply pack_str_eq_or_div; lia.
Qed.

Lemma bound_sentinels (v : bytes) :
  bge (fst sentinel_hi) (Msgpack.pack_str p ++ v) = true /\
  bge (fst sentinel_lo) (Msgpack.pack_str p ++ v) = false.
Proof.
  destruct (bound_head p v) as (h & t & E & Hh).
  destruct (sentinel_hi_above _ h t E Hh) as [G _].
  destruct (sentinel_lo_below _ h t E Hh) as [L _].
  unfold bge. now rewrite G, L.
Qed.

(** Reading and counting with no upper time bound: the result is made of
    distinct stored rows, none of which carries the largest timestamp. *)
Lemma getRowsByProp_read py (fuel : nat) (valu : option valu) (limit mintime : option Z)
    (cnt : bool) (s' : store) (q : qres) :
  (forall v, valu = Some v -> wf_valu v = true) ->
  _getRowsByProp xxh64 py fuel s p valu limit mintime None cnt false = Some (s', Ok q) ->
  exists done,
    NoDup (map fst done) /\
    Forall (fun x => In x live /\ r_time (snd x) <> MAX_INT_VAL) done /\
    q = if cnt then QCount (Z.of_nat (length done)) else QRows (map snd done).
Proof.
  intros Hv H. unfold _getRowsByProp in H. rewrite andb_false_r in H.
  cbn [msgenpack] in H.
  set (mint := match mintime with
               | Some t => Msgpack.pack_int t
               | None => []
               end) in *.
  set (hashed := negb (is_none valu) && _) in H.
  assert (forall (w : which) (went : Z * row -> Lmdb.entry) (first_key last_key : bytes),
            (forall x, snd (went x) = msgenpack (VInt (fst x))) ->
            StronglySorted elt (get_index s w) ->
            (forall e, In e (get_index s w) ->
                       e = sentinel_lo \/ e = sentinel_hi \/ In e (map went live)) ->
            bge (fst sentinel_hi) last_key = true ->
            bge (fst sentinel_lo) first_key = false ->
            (forall pk r, In (pk, r) live ->
                          bge (fst (went (pk, r))) first_key = true ->
                          blt (fst (went (pk, r))) last_key = true ->
                          r_time r <> MAX_INT_VAL) ->
            option_map
              (fun r => with_txn s
                          ('(s', (ret, count)) <- r ;;
                           Ok (s', if cnt then QCount count else QRows ret)))
              match Lmdb.set_range first_key (get_index s w) with
              | None => Some (Raise DatabaseInconsistent)
              | Some c =>
                  getRowsByProp_loop xxh64 fuel s w c (Msgpack.pack_str p) last_key valu
                    hashed limit cnt false [] 0
              end = Some (s', Ok q) ->
            exists done,
              NoDup (map fst done) /\
              Forall (fun x => In x live /\ r_time (snd x) <> MAX_INT_VAL) done /\
              q = if cnt then QCount (Z.of_nat (length done)) else QRows (map snd done))
    as Generic.
  { clear H. intros w went first_key last_key Wv Ws Win Hhi Hlo Htime H.
    destruct (Lmdb.set_range first_key (get_index s w)) as [c|] eqn:R;
      [|discriminate].
    destruct (set_range_split first_key _ Ws c R) as (_ & Hskip & Hc).
    destruct (getRowsByProp_loop _ _ _ _ _ _ _ _ _ _ _ _ _ _) as [[[s1 [ret count]]|]|] eqn:L;
      try discriminate.
    cbn [option_map with_txn bind] in H. injection H as <- <-.
    apply (getRowsByProp_loop_read xxh64 live s M w went Wv Ws Win first_key) in L;
      try assumption.
    2:{ rewrite Hskip. apply Forall_forall. intros e He. now apply filter_In in He. }
    destruct L as (_ & done & D1 & D2 & D3 & D4). exists done. split; [|split].
    - apply (sorted_entries_NoDup live went); [apply (m_nodup _ _ _ M)| |exact D2].
      eapply Forall_impl; [|exact D1]. now intros x [X _].
    - eapply Forall_impl; [|exact D1]. intros [pk r] (X1 & X2 & X3). split; [exact X1|].
      apply (Htime pk r X1); [|exact X3].
      rewrite Hskip in X2. now apply filter_In in X2.
    - destruct cnt; [now rewrite D3 | now rewrite (D4 eq_refl)]. }
  destruct valu as [v|]; cbn [is_none] in H.
  - apply (Generic PVT (pvt_entry xxh64) _ _) in H; auto.
    + apply (m_pvt_sorted _ _ _ M).
    + intros e. apply (m_pvt_in _ _ _ M).
    + apply (proj1 (bound_sentinels _)).
    + apply (proj2 (bound_sentinels _)).
    + intros pk r Hin. unfold pvt_entry. cbn [fst snd].
      apply (time_not_max_pvt pk r v mint Hin (Hv v eq_refl)).
  - apply (Generic PT pt_entry _ _) in H; auto.
    + apply (m_pt_sorted _ _ _ M).
    + intros e He. right. now apply (m_pt_in _ _ _ M).
    + apply (proj1 (bound_sentinels _)).
    + apply (proj2 (bound_sentinels _)).
    + intros pk r Hin. unfold pt_entry. cbn [fst snd].
      apply (time_not_max_pt pk r mint Hin).
Qed.

End PropQuery.

(** ** Deleting by property leaves the other rows alone *)

Lemma delete_keeps (e x : Lmdb.entry) (t t' : Lmdb.table) :
  Lmdb.delete e t = Some t' -> In x t -> x <> e -> In x t'.
Proof.
  revert t'; induction t as [|y t IH]; intros t' H Hx Hne; [destruct Hx|].
  cbn [Lmdb.delete] in H.
  destruct (Lmdb.ecmp e y) eqn:E.
  - injection H as <-. apply ecmp_eq in E. subst y.
    destruct Hx as [->|Hx]; [congruence | exact Hx].
  - destruct (Lmdb.delete e t) as [t1|]; [|discriminate]. injection H as <-.
    destruct Hx as [->|Hx]; [now left | right; auto].
  - destruct (Lmdb.delete e t) as [t1|]; [|discriminate]. injection H as <-.
    destruct Hx as [->|Hx]; [now left | right; auto].
Qed.

Lemma cdelete_spec (t t' : Lmdb.table) (c : nat) :
  Lmdb.cdelete t c = Some t' ->
  (c < length t)%nat /\ skipn c t' = skipn (S c) t /\
  forall x, In x t -> x <> Lmdb.item t c -> In x t'.
Proof.
  unfold Lmdb.cdelete. destruct (Nat.ltb_spec c (length t)) as [Hc|]; [|discriminate].
  intros [= <-]. split; [exact Hc|]. split.
  - rewrite skipn_app, length_firstn, Nat.min_l by lia.
    rewrite Nat.sub_diag, skipn_all2 by (rewrite length_firstn; lia). reflexivity.
  - intros x Hx Hne. rewrite <- (firstn_skipn c t) in Hx.
    rewrite (skipn_cons_nth (A:=Lmdb.entry) ([], []) t c Hc) in Hx.
    apply in_app_or in Hx as [Hx|[Hx|Hx]]; apply in_or_app; auto.
    exfalso. apply Hne. now rewrite <- Hx.
Qed.

Lemma rget_rdel_other (k k' : Z) (t : Lmdb.rtable) :
  k <> k' -> Lmdb.rget k (Lmdb.rdel k' t) = Lmdb.rget k t.
Proof.
  intros N. induction t as [|[a v] t IH]; [reflexivity|].
  cbn [Lmdb.rdel Lmdb.rget]. destruct (Z.eqb_spec a k') as [->|Na].
  - destruct (Z.eqb_spec k' k); [congruence | reflexivity].
  - cbn [Lmdb.rget]. now rewrite IH.
Qed.

Lemma getRow_delete_effect (s s1 : store) (pk : Z) (r : row) :
  - 2 ^ 63 <= pk < 2 ^ 64 ->
  _getRowByPkValEnc s (Msgpack.pack_int pk) true = Ok (s1, r) ->
  s1 = set_rows s (Lmdb.rdel pk (rows s)).
Proof.
  intros Hpk. unfold _getRowByPkValEnc. rewrite msgunpack_pack_int by assumption.
  unfold Lmdb.rpop, _enc_pk_key. intros H.
  destruct (Lmdb.rget pk (rows s)); [|discriminate].
  break_hyp H. now injection H as <- _.
Qed.

Lemma cond_delete_spares (c : bool) (k pkv : bytes) (s s' : store) (w : which) :
  (if c then
     match Lmdb.delete (k, pkv) (get_index s w) with
     | Some t' => Ok (set_index s w t')
     | None => Raise DatabaseInconsistent
     end
   else Ok s) = Ok s' ->
  spares pkv s s' /\ rows s' = rows s /\
  (forall w', c = false \/ w' <> w -> get_index s' w' = get_index s w').
Proof.
  destruct c.
  - destruct (Lmdb.delete (k, pkv) (get_index s w)) as [t'|] eqn:D; [|discriminate].
    intros [= <-]. split; [|split].
    + intros w' x Hx Hne.
      destruct w, w'; cbn [get_index set_index index_ip index_pvt index_pt] in *; auto;
        (eapply delete_keeps; [exact D | exact Hx |]);
        intros ->; now apply Hne.
    + now destruct w.
    + intros w' [E|N]; [discriminate|]. destruct w, w'; try reflexivity; congruence.
  - intros [= <-]. split; [intros w' x Hx _; exact Hx | auto].
Qed.

Lemma spares_trans (pkv : bytes) (s1 s2 s3 : store) :
  spares pkv s1 s2 -> spares pkv s2 s3 -> spares pkv s1 s3.
Proof. intros A B w x Hx Hne. apply B; auto. Qed.

(** [_delRowAndIndices] on the row of one primary key leaves the row of any
    other key and the index entries of other keys in place, and does not
    touch an index it was told to leave. *)
Lemma delRowAndIndices_spares xxh64 (s s' : store) (pke : Z)
    (i_enc p_enc v_key_enc t_enc : option bytes)
    (dip dpvt dpt : bool) (only : option valu) (b : bool) :
  - 2 ^ 63 <= pke < 2 ^ 64 ->
  _delRowAndIndices xxh64 s (Msgpack.pack_int pke) i_enc p_enc v_key_enc t_enc
    dip dpvt dpt only = Ok (s', b) ->
  spares (Msgpack.pack_int pke) s s' /\
  (forall pk, pk <> pke -> Lmdb.rget pk (rows s') = Lmdb.rget pk (rows s)) /\
  (dpvt = false -> index_pvt s' = index_pvt s) /\
  (dpt = false -> index_pt s' = index_pt s).
Proof.
  intros Re H. unfold _delRowAndIndices in H.
  destruct (_getRowByPkValEnc s (Msgpack.pack_int pke) true) as [[s1 r]|] eqn:G;
    [|discriminate].
  apply getRow_delete_effect in G; [|assumption]. cbn [bind] in H.
  assert (spares (Msgpack.pack_int pke) s s1 /\
          (forall pk, pk <> pke -> Lmdb.rget pk (rows s1) = Lmdb.rget pk (rows s)) /\
          (forall w, get_index s1 w = get_index s w)) as (A1 & A2 & A3).
  { subst s1. split; [|split].
    - intros w x Hx _. now destruct w.
    - intros pk N. cbn [set_rows rows]. now apply rget_rdel_other.
    - now destruct w. }
  clear G.
  destruct (match only with
            | Some w => negb (valu_eqb w (r_valu r))
            | None => false
            end).
  { injection H as <- _. split; [exact A1|]. split; [exact A2|].
    split; intros _; [apply (A3 PVT) | apply (A3 PT)]. }
  destruct (match i_enc with
            | Some b0 => Ok b0
            | None => if dip then _enc_iden (r_iden r) else Ok []
            end) as [ie|]; [|discriminate].
  cbn [bind] in H.
  match type of H with
  | bind ?m _ = _ => destruct m as [sa|] eqn:Ea; [|discriminate]
  end.
  cbn [bind] in H.
  match type of H with
  | bind ?m _ = _ => destruct m as [sb|] eqn:Eb; [|discriminate]
  end.
  cbn [bind] in H.
  match type of H with
  | bind ?m _ = _ => destruct m as [sc|] eqn:Ec; [|discriminate]
  end.
  cbn [bind] in H. injection H as <- _.
  apply (cond_delete_spares _ _ _ _ _ IP) in Ea as (Ba1 & Ba2 & Ba3).
  apply (cond_delete_spares _ _ _ _ _ PVT) in Eb as (Bb1 & Bb2 & Bb3).
  apply (cond_delete_spares _ _ _ _ _ PT) in Ec as (Bc1 & Bc2 & Bc3).
  split; [eauto using spares_trans|]. split; [|split].
  - intros pk N. rewrite Bc2, Bb2, Ba2. now apply A2.
  - intros ->. change (get_index sc PVT = get_index s PVT).
    rewrite Bc3, Bb3, Ba3 by first [left; reflexivity | right; discriminate].
    apply A3.
  - intros ->. change (get_index sc PT = get_index s PT).
    rewrite Bc3, Bb3, Ba3 by first [left; reflexivity | right; discriminate].
    apply A3.
Qed.

Section DeleteScan.

Variable xxh64 : bytes -> Z.
Variable live : list (Z * row).
Variable t0 : Lmdb.table.
Variable went : Z * row -> Lmdb.entry.
Hypothesis went_val : forall x, snd (went x) = msgenpack (VInt (fst x)).
Hypothesis t0_in :
  forall e, In e t0 -> e = sentinel_lo \/ e = sentinel_hi \/ In e (map went live).
Hypothesis live_pk : forall x, In x live -> 1 <= fst x <= MAX_PK.
Variables first_key last_key p_enc : bytes.
Hypothesis hi_out : bge (fst sentinel_hi) last_key = true.
Hypothesis lo_out : bge (fst sentinel_lo) first_key = false.
Variable valu : option valu.
Let w : which := if is_none valu then PT else PVT.
Variable pk : Z.
Hypothesis pk_range : 1 <= pk <= MAX_PK.
Hypothesis window :
  forall x, In x live -> bge (fst (went x)) first_key = true ->
            blt (fst (went x)) last_key = true -> fst x <> pk.
Variable pl : bytes.
Variables ei ev et : Lmdb.entry.
Hypothesis ei_val : snd ei = Msgpack.pack_int pk.
Hypothesis ev_val : snd ev = Msgpack.pack_int pk.
Hypothesis et_val : snd et = Msgpack.pack_int pk.

(** The deleting loop never removes the row of a key whose index entry lies
    outside the scanned window. *)
Lemma getRowsByProp_loop_delete (hashed : bool) (limit : option Z) (cnt : bool)
    (fuel : nat) :
  forall s c ret count s' out,
    Forall (fun e => In e t0 /\ bge (fst e) first_key = true) (skipn c (get_index s w)) ->
    kept pk pl ei ev et s ->
    getRowsByProp_loop xxh64 fuel s w c p_enc last_key valu hashed limit cnt true ret count =
      Some (Ok (s', out)) ->
    kept pk pl ei ev et s'.
Proof.
  induction fuel as [|f IH]; intros s c ret count s' out Hge K H; [discriminate|].
  cbn [getRowsByProp_loop] in H.
  destruct (Lmdb.item (get_index s w) c) as [key value] eqn:Eit.
  destruct (bge key last_key) eqn:Hlast.
  { injection H as <- _. exact K. }
  unfold getRowsByProp_body in H.
  destruct (Lmdb.cdelete (get_index s w) c) as [t'|] eqn:D; [|discriminate].
  destruct (cdelete_spec _ _ _ D) as (Hc & Hsk & Hkeep).
  rewrite (skipn_cons_nth (A:=Lmdb.entry) ([], []) _ c Hc) in Hge.
  fold (Lmdb.item (get_index s w) c) in Hge. rewrite Eit in Hge.
  inversion Hge as [|? ? [Hin0 Hfirst] Hrest]; subst. cbn [fst] in Hfirst.
  destruct (t0_in _ Hin0) as [E|[E|E]].
  { pose proof lo_out as L. unfold sentinel_lo in E, L. injection E as -> ->.
    cbn [fst] in L. congruence. }
  { pose proof hi_out as L. unfold sentinel_hi in E, L. injection E as -> ->.
    cbn [fst] in L. congruence. }
  apply in_map_iff in E as (x & E & Hin).
  assert (value = Msgpack.pack_int (fst x)) as Ev.
  { pose proof (went_val x) as V. rewrite E in V. exact V. }
  assert (fst x <> pk) as Hne.
  { apply window; [exact Hin| |]; rewrite E; cbn [fst]; [exact Hfirst|].
    rewrite bge_not_blt in Hlast. now apply negb_false_iff in Hlast. }
  pose proof (live_pk x Hin) as Rx. unfold MAX_PK in Rx, pk_range.
  subst value.
  destruct (_delRowAndIndices _ _ _ _ _ _ _ _ _ _ _) as [[s2 b]|] eqn:Del;
    [|discriminate].
  cbn [bind] in H.
  apply delRowAndIndices_spares in Del as (S1 & S2 & S3 & S4); [|lia].
  assert (forall e : Lmdb.entry, snd e = Msgpack.pack_int pk ->
            snd e <> Msgpack.pack_int (fst x)) as Hdiff.
  { intros e Se Se'. rewrite Se in Se'. apply pack_int_inj in Se'; lia. }
  assert (forall e : Lmdb.entry, snd e = Msgpack.pack_int pk ->
            e <> Lmdb.item (get_index s w) c) as Hdiff'.
  { intros e Se ->. rewrite Eit in Se. now apply (Hdiff _ Se). }
  destruct K as (K1 & K2 & K3 & K4).
  assert (kept pk pl ei ev et s2 /\ get_index s2 w = t') as [K' Ew].
  { subst w. destruct valu as [v|]; cbn [is_none negb get_index] in *.
    - split; [|now rewrite (S3 eq_refl)]. repeat split.
      + rewrite S2 by lia. exact K1.
      + apply (S1 IP); auto.
      + apply (S1 PVT); auto; cbn [get_index set_index index_pvt]; auto.
      + apply (S1 PT); auto.
    - split; [|now rewrite (S4 eq_refl)]. repeat split.
      + rewrite S2 by lia. exact K1.
      + apply (S1 IP); auto.
      + apply (S1 PVT); auto.
      + apply (S1 PT); auto; cbn [get_index set_index index_pt]; auto. }
  destruct (limit_hit limit (count + 1)).
  { injection H as <- _. exact K'. }
  cbn [negb] in H. apply IH in H; [exact H| |exact K'].
  rewrite Ew, Hsk. exact Hrest.
Qed.

End DeleteScan.

Section PropDelete.

Variable xxh64 : bytes -> Z.
Hypothesis xxh64_range : forall b, 0 <= xxh64 b < 2 ^ 64.
Variable live : list (Z * row).
Variable s : store.
Hypothesis M : models xxh64 live s.
Variable p : bytes.
Hypothesis p_len : len p < 2 ^ 32.

Lemma live_kept (pk : Z) (r : row) :
  In (pk, r) live -> In (ip_entry (pk, r)) (index_ip s) ->
  kept pk (payload r) (ip_entry (pk, r)) (pvt_entry xxh64 (pk, r)) (pt_entry (pk, r)) s.
Proof.
  intros Hin Hip. split; [|split; [exact Hip|split]].
  - apply rget_In.
    + rewrite (m_rows _ _ _ M), map_map. cbn [fst]. apply (m_nodup _ _ _ M).
    + rewrite (m_rows _ _ _ M). apply in_map_iff. now exists (pk, r).
  - apply (m_pvt_in _ _ _ M). right; right. now apply in_map.
  - apply (m_pt_in _ _ _ M). right. now apply in_map.
Qed.

(** Deleting with no upper time bound: a stored row that carries the largest
    timestamp is still there afterwards, with its three index entries. *)
Lemma delRowsByProp_keeps py (fuel : nat) (valu : option valu) (mintime : option Z)
    (pk : Z) (r : row) (s' : store) (out : res qres) :
  (forall v, valu = Some v -> wf_valu v = true) ->
  In (pk, r) live -> In (ip_entry (pk, r)) (index_ip s) ->
  r_time r = MAX_INT_VAL ->
  _delRowsByProp xxh64 py fuel s p valu mintime None = Some (s', out) ->
  kept pk (payload r) (ip_entry (pk, r)) (pvt_entry xxh64 (pk, r)) (pt_entry (pk, r)) s'.
Proof.
  intros Hv Hin Hip Ht H.
  pose proof (live_kept pk r Hin Hip) as K.
  unfold _delRowsByProp, _getRowsByProp in H. cbn [andb msgenpack] in H.
  set (mint := match mintime with
               | Some t => Msgpack.pack_int t
               | None => []
               end) in *.
  set (hashed := negb (is_none valu) && _) in H.
  set (w := if is_none valu then PT else PVT) in H.
  set (went := if is_none valu then pt_entry else pvt_entry xxh64).
  set (vk := match valu with
             | Some v => _enc_val_key xxh64 v
             | None => []
             end) in H.
  destruct (Lmdb.set_range _ (get_index s w)) as [c|] eqn:R.
  2:{ cbn [option_map with_txn] in H. now injection H as <- _. }
  destruct (getRowsByProp_loop _ _ _ _ _ _ _ _ _ _ _ _ _ _)
    as [[[s1 [ret count]]|]|] eqn:L; try discriminate.
  2:{ cbn [option_map with_txn] in H. now injection H as <- _. }
  cbn [option_map with_txn bind] in H. injection H as <- _.
  assert (StronglySorted elt (get_index s w)) as Ws.
  { subst w. destruct valu; [apply (m_pvt_sorted _ _ _ M) | apply (m_pt_sorted _ _ _ M)]. }
  destruct (set_range_split _ _ Ws c R) as (_ & Hskip & Hc).
  refine (getRowsByProp_loop_delete xxh64 live (get_index s w) went _ _ _
            (Msgpack.pack_str p ++ vk ++ mint) (Msgpack.pack_str p ++ vk ++ MAX_TIME_ENC)
            (Msgpack.pack_str p) _ _ valu pk _ _ _ _ _ _ _ _ _ hashed None false fuel
            s c [] 0 s1 (ret, count) _ K L).
  - intros x. subst went. now destruct valu.
  - intros e He. subst w went. destruct valu as [v|]; cbn [is_none get_index] in *.
    + now apply (m_pvt_in _ _ _ M).
    + right. now apply (m_pt_in _ _ _ M).
  - intros x Hx. destruct x as [k r']. apply (live_wf xxh64 _ s M k r' Hx).
  - apply (proj1 (bound_sentinels p _)).
  - apply (proj2 (bound_sentinels p _)).
  - apply (live_wf xxh64 _ s M pk r Hin).
  - intros [k r'] Hx H1 H2 E. cbn [fst] in E. subst k.
    assert (r' = r) as ->
      by (apply (NoDup_fst_inj live pk r' r (m_nodup _ _ _ M) Hx Hin)).
    subst went vk. destruct valu as [v|]; cbn [is_none] in H1, H2.
    + now apply (time_not_max_pvt xxh64 xxh64_range live s M p p_len pk r v mint Hin
                   (Hv v eq_refl) H1 H2).
    + now apply (time_not_max_pt xxh64 live s M p p_len pk r mint Hin H1 H2).
  - reflexivity.
  - reflexivity.
  - reflexivity.
  - fold w. rewrite Hskip. apply Forall_forall. intros e He.
    apply filter_In in He. exact He.
Qed.

End PropDelete.

(** ** The property scan returns *)

Lemma getRow_indexes (s s1 : store) (pkv : bytes) (d : bool) (r : row) :
  _getRowByPkValEnc s pkv d = Ok (s1, r) -> forall w, get_index s1 w = get_index s w.
Proof.
  unfold _getRowByPkValEnc, Lmdb.rpop. intros H w.
  destruct (msgunpack pkv) as [[pk|]|]; try discriminate.
  destruct d.
  - destruct (Lmdb.rget (_enc_pk_key pk) (rows s)); [|discriminate].
    break_hyp H. injection H as <- _. now destruct w.
  - destruct (Lmdb.rget (_enc_pk_key pk) (rows s)); [|discriminate].
    cbn [option_map] in H. break_hyp H. injection H as <- _. now destruct w.
Qed.

Lemma delRowAndIndices_indexes xxh64 (s s' : store) (pkv : bytes)
    (i_enc p_enc v_key_enc t_enc : option bytes)
    (dip dpvt dpt : bool) (only : option valu) (b : bool) :
  _delRowAndIndices xxh64 s pkv i_enc p_enc v_key_enc t_enc dip dpvt dpt only =
    Ok (s', b) ->
  (dpvt = false -> index_pvt s' = index_pvt s) /\
  (dpt = false -> index_pt s' = index_pt s).
Proof.
  intros H. unfold _delRowAndIndices in H.
  destruct (_getRowByPkValEnc s pkv true) as [[s1 r]|] eqn:G; [|discriminate].
  pose proof (getRow_indexes _ _ _ _ _ G) as A3. clear G. cbn [bind] in H.
  destruct (match only with
            | Some w => negb (valu_eqb w (r_valu r))
            | None => false
            end).
  { injection H as <- _. split; intros _; [apply (A3 PVT) | apply (A3 PT)]. }
  destruct (match i_enc with
            | Some b0 => Ok b0
            | None => if dip then _enc_iden (r_iden r) else Ok []
            end) as [ie|]; [|discriminate].
  cbn [bind] in H.
  match type of H with
  | bind ?m _ = _ => destruct m as [sa|] eqn:Ea; [|discriminate]
  end.
  cbn [bind] in H.
  match type of H with
  | bind ?m _ = _ => destruct m as [sb|] eqn:Eb; [|discriminate]
  end.
  cbn [bind] in H.
  match type of H with
  | bind ?m _ = _ => destruct m as [sc|] eqn:Ec; [|discriminate]
  end.
  cbn [bind] in H. injection H as <- _.
  apply (cond_delete_spares _ _ _ _ _ IP) in Ea as (_ & _ & Ba3).
  apply (cond_delete_spares _ _ _ _ _ PVT) in Eb as (_ & _ & Bb3).
  apply (cond_delete_spares _ _ _ _ _ PT) in Ec as (_ & _ & Bc3).
  split.
  - intros ->. change (get_index sc PVT = get_index s PVT).
    rewrite Bc3, Bb3, Ba3 by first [left; reflexivity | right; discriminate].
    apply A3.
  - intros ->. change (get_index sc PT = get_index s PT).
    rewrite Bc3, Bb3, Ba3 by first [left; reflexivity | right; discriminate].
    apply A3.
Qed.

(** When no row is re-checked against a hashed value, the loop leaves within
    as many passes as there are entries from the cursor on. *)
Lemma getRowsByProp_loop_returns xxh64 (valu : option valu) (p_enc last_key : bytes)
    (limit : option Z) (cnt del : bool) (fuel : nat) :
  let w := if is_none valu then PT else PVT in
  forall s c ret count,
    (length (get_index s w) - c < fuel)%nat ->
    getRowsByProp_loop xxh64 fuel s w c p_enc last_key valu false limit cnt del ret count
      <> None.
Proof.
  intros w. induction fuel as [|f IH]; intros s c ret count Hf; [lia|].
  cbn [getRowsByProp_loop].
  destruct (Lmdb.item (get_index s w) c) as [key value].
  destruct (bge key last_key); [discriminate|].
  unfold getRowsByProp_body. destruct del.
  - destruct (Lmdb.cdelete (get_index s w) c) as [t'|] eqn:D; [|discriminate].
    destruct (_delRowAndIndices _ _ _ _ _ _ _ _ _ _ _) as [[s2 b]|] eqn:Del;
      [|discriminate].
    cbn [bind]. destruct (limit_hit limit (count + 1)); [discriminate|].
    cbn [negb]. apply IH.
    apply delRowAndIndices_indexes in Del as [S3 S4].
    unfold Lmdb.cdelete in D.
    destruct (Nat.ltb_spec c (length (get_index s w))) as [Hc|]; [|discriminate].
    injection D as <-.
    assert (get_index s2 w = firstn c (get_index s w) ++ skipn (S c) (get_index s w))
      as ->.
    { subst w. destruct valu; cbn [is_none negb get_index] in *;
        [now rewrite (S3 eq_refl) | now rewrite (S4 eq_refl)]. }
    rewrite length_app, length_firstn, length_skipn. lia.
  - rewrite orb_false_r.
    assert (forall s1 ret1,
              (if limit_hit limit (count + 1) then Some (Ok (s, (ret1, count + 1)))
               else if negb false then
                 match Lmdb.next (get_index s w) c with
                 | Some c' =>
                     getRowsByProp_loop xxh64 f s w c' p_enc last_key valu false limit cnt
                       false ret1 (count + 1)
                 | None => Some (Raise DatabaseInconsistent)
                 end
               else s1) <> None) as Go.
    { intros s1 ret1. destruct (limit_hit limit (count + 1)); [discriminate|].
      cbn [negb]. unfold Lmdb.next.
      destruct (Nat.ltb_spec (S c) (length (get_index s w))); [|discriminate].
      apply IH. lia. }
    destruct (negb cnt).
    + destruct (_getRowByPkValEnc s value false) as [[s1 r]|]; [|discriminate].
      cbn [bind andb]. apply Go.
    + apply Go.
Qed.

Lemma put_length_le (e : Lmdb.entry) (t : Lmdb.table) :
  (length (Lmdb.put e t) <= S (length t))%nat.
Proof.
  induction t as [|x t IH]; cbn [Lmdb.put length]; [lia|].
  destruct (Lmdb.ecmp e x); cbn [length]; lia.
Qed.

Lemma putmulti_length_le (es : list Lmdb.entry) :
  forall t, (length (Lmdb.putmulti es t) <= length es + length t)%nat.
Proof.
  unfold Lmdb.putmulti. induction es as [|e es IH]; intros t; cbn [fold_left length]; [lia|].
  pose proof (IH (Lmdb.put e t)). pose proof (put_length_le e t). lia.
Qed.

Lemma built_sizes xxh64 (rws : list row) (s : store) :
  forallb wf_row rws = true ->
  _addRows xxh64 fresh rws = (s, Ok tt) ->
  (length (index_pvt s) <= length rws + 2)%nat /\
  (length (index_pt s) <= length rws + 1)%nat /\
  forall x, In x (numbered 1 rws) -> In (ip_entry x) (index_ip s).
Proof.
  intros Hwf H.
  assert (1 + Z.of_nat (length rws) - 1 <= MAX_PK) as Hb.
  { unfold _addRows in H.
    destruct (addRows_encs xxh64 (next_pk fresh) rws) as [x|] eqn:E; [|discriminate].
    apply addRows_encs_bound in E; [exact E | vm_compute; discriminate]. }
  rewrite addRows_ok in H by (auto; constructor).
  injection H as <-. cbn [index_ip index_pvt index_pt fresh next_pk].
  split; [|split].
  - etransitivity; [apply putmulti_length_le|].
    rewrite length_map, numbered_length. cbn [length]. lia.
  - etransitivity; [apply putmulti_length_le|].
    rewrite length_map, numbered_length. cbn [length]. lia.
  - intros x Hx. apply putmulti_In. left. now apply in_map.
Qed.

Lemma getRowsByProp_returns xxh64 (fuel : nat) (s : store) (prop : bytes)
    (valu : option valu) (limit mintime maxtime : option Z) (cnt del : bool) :
  (length (index_pvt s) < fuel)%nat -> (length (index_pt s) < fuel)%nat ->
  _getRowsByProp xxh64 Python3 fuel s prop valu limit mintime maxtime cnt del <> None.
Proof.
  intros Hv Ht. unfold _getRowsByProp.
  destruct (cnt && del); [discriminate|].
  cbn [index0_eq]. rewrite andb_false_r.
  destruct (Lmdb.set_range _ _) as [c|]; [|discriminate].
  match goal with
  | |- option_map _ ?l <> None =>
      assert (l <> None) as N; [|destruct l; [discriminate | congruence]]
  end.
  apply getRowsByProp_loop_returns.
  destruct valu; cbn [is_none get_index]; lia.
Qed.

(** C10: when [maxtime] is omitted, a query by property never returns, counts
    or deletes a stored row whose timestamp is exactly 2^63 - 1.  On a store
    built from well-formed rows: the rows returned and the rows counted are
    distinct stored rows with another timestamp; after a deletion every
    stored row with that timestamp is still in the rows table with its three
    index entries; and under Python 3 each of the three queries returns once
    the fuel exceeds the number of index entries. *)
Theorem getRowsByProp_open_maxtime_skips_last xxh64 (py : python) (rws : list row)
    (s : store) (fuel : nat) (p : bytes) (valu : option valu) (limit mintime : option Z) :
  (forall b, 0 <= xxh64 b < 2 ^ 64) ->
  forallb wf_row rws = true ->
  _addRows xxh64 fresh rws = (s, Ok tt) ->
  len p < 2 ^ 32 ->
  wf_query valu = true ->
  (forall s' l,
     _getRowsByProp xxh64 py fuel s p valu limit mintime None false false =
       Some (s', Ok (QRows l)) ->
     exists got,
       l = map snd got /\ NoDup (map fst got) /\
       Forall (fun x => In x (numbered 1 rws) /\ r_time (snd x) <> MAX_INT_VAL) got) /\
  (forall s' n,
     _getSizeByProp xxh64 py fuel s p valu limit mintime None = Some (s', Ok (QCount n)) ->
     exists counted,
       n = Z.of_nat (length counted) /\ NoDup (map fst counted) /\
       Forall (fun x => In x (numbered 1 rws) /\ r_time (snd x) <> MAX_INT_VAL) counted) /\
  (forall s' out pk r,
     _delRowsByProp xxh64 py fuel s p valu mintime None = Some (s', out) ->
     In (pk, r) (numbered 1 rws) -> r_time r = MAX_INT_VAL ->
     kept pk (payload r) (ip_entry (pk, r)) (pvt_entry xxh64 (pk, r)) (pt_entry (pk, r))
       s') /\
  (py = Python3 -> (length rws + 2 < fuel)%nat ->
   forall cnt del,
     _getRowsByProp xxh64 py fuel s p valu limit mintime None cnt del <> None).
Proof.
  intros Hx Hwf Hadd Hp Hq.
  pose proof (built_models xxh64 rws s Hwf Hadd) as M.
  destruct (built_sizes xxh64 rws s Hwf Hadd) as (L1 & L2 & Hip).
  assert (forall v, valu = Some v -> wf_valu v = true) as Hv.
  { intros v ->. exact Hq. }
  split; [|split; [|split]].
  - intros s' l H.
    destruct (getRowsByProp_read xxh64 Hx _ s M p Hp py fuel valu limit mintime false s'
                (QRows l) Hv H) as (done & D1 & D2 & D3).
    exists done. injection D3 as ->. auto.
  - intros s' n H.
    destruct (getRowsByProp_read xxh64 Hx _ s M p Hp py fuel valu limit mintime true s'
                (QCount n) Hv H) as (done & D1 & D2 & D3).
    exists done. injection D3 as ->. auto.
  - intros s' out pk r H Hin Ht.
    apply (delRowsByProp_keeps xxh64 Hx _ s M p Hp py fuel valu mintime pk r s' out);
      auto.
  - intros -> Hf cnt del. apply getRowsByProp_returns; lia.
Qed.

Lemma getRowsByProp_open_maxtime_skips_last_witness :
  let h := fun _ : bytes => 0 in
  let foo := [102; 111; 111] in
  let rws := [mkRow (repeat 97 32) foo (VInt 1) 10;
              mkRow (repeat 98 32) foo (VInt 1) MAX_INT_VAL] in
  let s := fst (_addRows h fresh rws) in
  (forall s' l,
     _getRowsByProp h Python3 5 s foo (Some (VInt 1)) None None None false false =
       Some (s', Ok (QRows l)) ->
     exists got,
       l = map snd got /\ NoDup (map fst got) /\
       Forall (fun x => In x (numbered 1 rws) /\ r_time (snd x) <> MAX_INT_VAL) got) /\
  (forall s' n,
     _getSizeByProp h Python3 5 s foo (Some (VInt 1)) None None None =
       Some (s', Ok (QCount n)) ->
     exists counted,
       n = Z.of_nat (length counted) /\ NoDup (map fst counted) /\
       Forall (fun x => In x (numbered 1 rws) /\ r_time (snd x) <> MAX_INT_VAL) counted) /\
  (forall s' out pk r,
     _delRowsByProp h Python3 5 s foo (Some (VInt 1)) None None = Some (s', out) ->
     In (pk, r) (numbered 1 rws) -> r_time r = MAX_INT_VAL ->
     kept pk (payload r) (ip_entry (pk, r)) (pvt_entry h (pk, r)) (pt_entry (pk, r)) s') /\
  (Python3 = Python3 -> (length rws + 2 < 5)%nat ->
   forall cnt del,
     _getRowsByProp h Python3 5 s foo (Some (VInt 1)) None None None cnt del <> None).
Proof.
  cbv zeta.
  apply getRowsByProp_open_maxtime_skips_last with
    (rws := [mkRow (repeat 97 32) [102; 111; 111] (VInt 1) 10;
             mkRow (repeat 98 32) [102; 111; 111] (VInt 1) MAX_INT_VAL]);
    [intros; lia | reflexivity | vm_compute; reflexivity | reflexivity | reflexivity].
Defined.

(** On that store the three queries give: the one row of timestamp 10; the
    count 1; and a store in which the row of timestamp 2^63 - 1 is left. *)
Example getRowsByProp_open_maxtime_sample :
  let h := fun _ : bytes => 0 in
  let foo := [102; 111; 111] in
  let r1 := mkRow (repeat 97 32) foo (VInt 1) 10 in
  let r2 := mkRow (repeat 98 32) foo (VInt 1) MAX_INT_VAL in
  let s := fst (_addRows h fresh [r1; r2]) in
  _getRowsByProp h Python3 5 s foo (Some (VInt 1)) None None None false false =
    Some (s, Ok (QRows [r1])) /\
  _getSizeByProp h Python3 5 s foo (Some (VInt 1)) None None None =
    Some (s, Ok (QCount 1)) /\
  option_map (fun x => (map fst (rows (fst x)), snd x))
    (_delRowsByProp h Python3 5 s foo (Some (VInt 1)) None None) =
    Some ([2], Ok (QRows [])) /\
  option_map (fun x => (map fst (rows (fst x)), snd x))
    (_delRowsByProp h Python3 5 s foo None None None) = Some ([2], Ok (QRows [])).
Proof. vm_compute. repeat split. Qed.

(** ** Queries for a large string under a hash collision *)

Lemma SS_nth {A} (R : A -> A -> Prop) (d : A) (l : list A) :
  StronglySorted R l ->
  forall i j, (i < j)%nat -> (j < length l)%nat -> R (nth i l d) (nth j l d).
Proof.
  induction 1 as [|x l HS IH Hall]; intros i j Hij Hj; cbn [length] in Hj; [lia|].
  destruct j as [|j]; [lia|]. destruct i as [|i]; cbn [nth].
  - rewrite Forall_forall in Hall. apply Hall, nth_In. lia.
  - apply IH; lia.
Qed.

Lemma sorted_nth_le (t : Lmdb.table) (i j : nat) :
  StronglySorted elt t -> (i <= j)%nat -> (j < length t)%nat ->
  bcmp (fst (Lmdb.item t i)) (fst (Lmdb.item t j)) <> Gt.
Proof.
  intros HS Hij Hj. destruct (Nat.eq_dec i j) as [->|N].
  - now rewrite bcmp_refl.
  - apply elt_key_le. unfold Lmdb.item. apply SS_nth; [assumption|lia|assumption].
Qed.

Lemma pvt_entry_inj xxh64 (live : list (Z * row)) (s : store) (x y : Z * row) :
  models xxh64 live s -> In x live -> In y live ->
  pvt_entry xxh64 x = pvt_entry xxh64 y -> x = y.
Proof.
  intros M Hx Hy E. destruct x as [k r], y as [k' r'].
  unfold pvt_entry in E. cbn [fst snd msgenpack] in E.
  injection E as _ E.
  pose proof (live_wf xxh64 _ s M k r Hx) as [_ R].
  pose proof (live_wf xxh64 _ s M k' r' Hy) as [_ R'].
  unfold MAX_PK in R, R'.
  apply pack_int_inj in E; [|lia|lia]. subst k'.
  f_equal. apply (NoDup_fst_inj live k r r' (m_nodup _ _ _ M) Hx Hy).
Qed.

Section HashedScan.

Variable xxh64 : bytes -> Z.
Variable live : list (Z * row).
Variable s : store.
Hypothesis M : models xxh64 live s.
Variables first_key last_key p_enc : bytes.
Hypothesis hi_out : bge (fst sentinel_hi) last_key = true.
Hypothesis lo_out : bge (fst sentinel_lo) first_key = false.
Variable v : valu.

(** The entry under the cursor, when its key is inside the window. *)
Lemma cursor_entry (c : nat) :
  (c < length (index_pvt s))%nat ->
  Forall (fun e => bge (fst e) first_key = true) (skipn c (index_pvt s)) ->
  bge (fst (Lmdb.item (index_pvt s) c)) last_key = false ->
  (exists x, In x live /\ Lmdb.item (index_pvt s) c = pvt_entry xxh64 x) /\
  (S c < length (index_pvt s))%nat /\
  Forall (fun e => bge (fst e) first_key = true) (skipn (S c) (index_pvt s)).
Proof.
  intros Hc Hge Hlast. set (t := index_pvt s) in *.
  pose proof (m_pvt_sorted _ _ _ M) as HS. fold t in HS.
  rewrite (skipn_cons_nth (A:=Lmdb.entry) ([], []) t c Hc) in Hge.
  fold (Lmdb.item t c) in Hge. inversion Hge as [|? ? Hfirst Hrest]; subst.
  assert (In (Lmdb.item t c) t) as Hint by (apply nth_In; exact Hc).
  assert (Lmdb.item t c <> sentinel_hi) as Nhi.
  { intros E. rewrite E in Hlast. congruence. }
  split; [|split; [|exact Hrest]].
  - apply (m_pvt_in _ _ _ M) in Hint as [E|[E|E]].
    + rewrite E in Hfirst. congruence.
    + contradiction.
    + apply in_map_iff in E as (x & E & Hx). exists x. auto.
  - assert (In sentinel_hi t) as Hhi by (apply (m_pvt_in _ _ _ M); auto).
    destruct (In_nth (A:=Lmdb.entry) t sentinel_hi ([], []) Hhi) as (j & Hj & Ej). fold (Lmdb.item t j) in Ej.
    destruct (Nat.le_gt_cases j c) as [Hle|Hgt]; [|lia]. exfalso.
    pose proof (sorted_nth_le t j c HS Hle Hc) as Cmp. rewrite Ej in Cmp.
    apply Cmp. apply bcmp_gt_lt. apply (bcmp_lt_le_trans _ last_key).
    + rewrite bge_not_blt in Hlast. apply negb_false_iff in Hlast.
      unfold blt in Hlast. now destruct (bcmp _ last_key).
    + pose proof hi_out as G. unfold bge in G. rewrite bcmp_antisym.
      destruct (bcmp (fst sentinel_hi) last_key); cbn [CompOpp]; congruence.
Qed.

(** Python 2: the scan does not get past a row whose value differs from the
    one asked for. *)
Lemma getRowsByProp_loop_stuck (cnt : bool) (cb : nat) (pkb : Z) (rb : row) :
  (cb < length (index_pvt s))%nat ->
  Lmdb.item (index_pvt s) cb = pvt_entry xxh64 (pkb, rb) ->
  In (pkb, rb) live ->
  blt (pvt_key xxh64 rb) last_key = true ->
  valu_eqb v (r_valu rb) = false ->
  forall fuel c ret count,
    (c <= cb)%nat ->
    Forall (fun e => bge (fst e) first_key = true) (skipn c (index_pvt s)) ->
    getRowsByProp_loop xxh64 fuel s PVT c p_enc last_key (Some v) true None cnt false
      ret count = None.
Proof.
  intros Hcb Ecb Hb Hwin Hdiff.
  induction fuel as [|f IH]; intros c ret count Hc Hge; [reflexivity|].
  cbn [getRowsByProp_loop get_index].
  assert (bge (fst (Lmdb.item (index_pvt s) c)) last_key = false) as Hlast.
  { rewrite bge_not_blt. apply negb_false_iff. unfold blt.
    rewrite (bcmp_le_lt_trans _ (pvt_key xxh64 rb) last_key); [reflexivity| |].
    - pose proof (sorted_nth_le _ c cb (m_pvt_sorted _ _ _ M) Hc Hcb) as Cmp.
      now rewrite Ecb in Cmp.
    - unfold blt in Hwin. now destruct (bcmp _ last_key). }
  destruct (cursor_entry c ltac:(lia) Hge Hlast) as (([pk r] & Hx & Ex) & Hnext & Hge').
  rewrite Ex in Hlast. rewrite Ex. cbn [pvt_entry fst snd] in Hlast |- *. rewrite Hlast.
  unfold getRowsByProp_body. rewrite orb_true_r.
  rewrite (fetch_row xxh64 live s pk r M Hx). cbn [bind andb].
  destruct (negb (valu_eqb v (r_valu r))) eqn:D.
  - apply IH; assumption.
  - cbn [limit_hit negb get_index]. unfold Lmdb.next.
    destruct (Nat.ltb_spec (S c) (length (index_pvt s))) as [_|]; [|lia].
    apply IH; [|exact Hge'].
    destruct (Nat.eq_dec c cb) as [->|N]; [|lia]. exfalso.
    rewrite Ecb in Ex.
    apply (pvt_entry_inj xxh64 live s _ _ M Hb Hx) in Ex. injection Ex as <- <-.
    rewrite Hdiff in D. discriminate.
Qed.

(** Python 3: no row is checked against the value asked for, and the scan
    returns the row of every entry of the window. *)
Lemma getRowsByProp_loop_all (fuel : nat) :
  forall c ret count,
    (length (index_pvt s) - c < fuel)%nat -> (c < length (index_pvt s))%nat ->
    Forall (fun e => bge (fst e) first_key = true) (skipn c (index_pvt s)) ->
    exists more count',
      getRowsByProp_loop xxh64 fuel s PVT c p_enc last_key (Some v) false None false false
        ret count = Some (Ok (s, (ret ++ more, count'))) /\
      forall cb pkb rb,
        (c <= cb)%nat -> (cb < length (index_pvt s))%nat ->
        Lmdb.item (index_pvt s) cb = pvt_entry xxh64 (pkb, rb) ->
        In (pkb, rb) live ->
        blt (pvt_key xxh64 rb) last_key = true ->
        In rb more.
Proof.
  induction fuel as [|f IH]; intros c ret count Hf Hc Hge; [lia|].
  cbn [getRowsByProp_loop get_index].
  destruct (bge (fst (Lmdb.item (index_pvt s) c)) last_key) eqn:Hlast.
  - destruct (Lmdb.item (index_pvt s) c) as [key value] eqn:Eit. cbn [fst] in Hlast.
    rewrite Hlast. exists [], count. rewrite app_nil_r. split; [reflexivity|].
    intros cb pkb rb Hle Hcb Ecb Hb Hwin. exfalso.
    pose proof (sorted_nth_le _ c cb (m_pvt_sorted _ _ _ M) Hle Hcb) as Cmp.
    rewrite Ecb, Eit in Cmp. cbn [fst pvt_entry snd] in Cmp.
    unfold blt in Hwin. unfold bge in Hlast.
    rewrite (bcmp_le_lt_trans key (pvt_key xxh64 rb) last_key) in Hlast;
      [discriminate|exact Cmp|].
    destruct (bcmp (pvt_key xxh64 rb) last_key); congruence.
  - destruct (cursor_entry c Hc Hge Hlast) as (([pk r] & Hx & Ex) & Hnext & Hge').
    rewrite Ex in Hlast. rewrite Ex. cbn [pvt_entry fst snd] in Hlast |- *. rewrite Hlast.
    unfold getRowsByProp_body. cbn [negb orb].
    rewrite (fetch_row xxh64 live s pk r M Hx). cbn [bind andb limit_hit negb get_index].
    unfold Lmdb.next.
    destruct (Nat.ltb_spec (S c) (length (index_pvt s))) as [_|]; [|lia].
    destruct (IH (S c) (ret ++ [r]) (count + 1) ltac:(lia) Hnext Hge')
      as (more & count' & E & Hall).
    exists (r :: more), count'. split.
    + rewrite E, <- app_assoc. reflexivity.
    + intros cb pkb rb Hle Hcb Ecb Hb Hwin.
      destruct (Nat.eq_dec c cb) as [->|N].
      * left. rewrite Ecb in Ex.
        apply (pvt_entry_inj xxh64 live s _ _ M Hb Hx) in Ex. now injection Ex.
      * right. apply (Hall cb pkb rb); auto. lia.
Qed.

End HashedScan.

(** C6 (defect): a query for the large string [a] does not leave out the
    rows of a different large string [b] of the same hash; large is 128
    characters or more, as [_enc_val_key] counts them.  On a store built
    from well-formed rows that holds a row [rb] of value [b] (timestamp in
    [0, 2^63 - 1)), the query for [(r_prop rb, a)] under Python 3 returns a
    list that contains [rb], since [v_key_enc[0] == HASH_VAL_MARKER_ENC]
    compares an int with a bytes object and the row is never checked; under
    Python 2 the check is made, and its [continue] leaves the cursor on the
    entry of [rb], so the loop returns for no amount of fuel. *)
Theorem hashed_query_collision xxh64 (rws : list row) (s : store) (a b : bytes) (rb : row) :
  (forall x, 0 <= xxh64 x < 2 ^ 64) ->
  forallb wf_row rws = true ->
  _addRows xxh64 fresh rws = (s, Ok tt) ->
  a <> b -> LARGE_STRING_SIZE <= str_len a -> LARGE_STRING_SIZE <= str_len b ->
  xxh64 a = xxh64 b ->
  In rb rws -> r_valu rb = VStr b -> 0 <= r_time rb < MAX_INT_VAL ->
  (forall fuel, (length rws + 2 < fuel)%nat ->
     exists l,
       _getRowsByProp xxh64 Python3 fuel s (r_prop rb) (Some (VStr a)) None None None
         false false = Some (s, Ok (QRows l)) /\
       In rb l) /\
  (forall fuel,
     _getRowsByProp xxh64 Python2 fuel s (r_prop rb) (Some (VStr a)) None None None
       false false = None).
Proof.
  intros Hx Hwf Hadd Hab Ha Hb Hcol Hin Hval Htime.
  pose proof (built_models xxh64 rws s Hwf Hadd) as M.
  destruct (built_sizes xxh64 rws s Hwf Hadd) as (L1 & _ & _).
  destruct (numbered_In_row rws rb 1 Hin) as (pkb & Hlive).
  set (p := r_prop rb).
  set (vk := HASH_VAL_MARKER_ENC ++ Msgpack.pack_int (xxh64 a)).
  assert (_enc_val_key xxh64 (VStr a) = vk) as Eva.
  { unfold _enc_val_key.
    destruct (Z.geb_spec (str_len a) LARGE_STRING_SIZE); [reflexivity|lia]. }
  assert (pvt_key xxh64 rb = Msgpack.pack_str p ++ vk ++ Msgpack.pack_int (r_time rb)) as Ekey.
  { unfold pvt_key. rewrite Hval. unfold _enc_val_key.
    destruct (Z.geb_spec (str_len b) LARGE_STRING_SIZE); [|lia].
    cbn [msgenpack]. now rewrite <- Hcol. }
  set (first_key := Msgpack.pack_str p ++ vk ++ []).
  set (last_key := Msgpack.pack_str p ++ vk ++ MAX_TIME_ENC).
  assert (bge (pvt_key xxh64 rb) first_key = true) as Hfirst.
  { unfold bge, first_key. rewrite Ekey, !bcmp_app_l.
    now destruct (Msgpack.pack_int (r_time rb)). }
  assert (blt (pvt_key xxh64 rb) last_key = true) as Hlast.
  { unfold blt, last_key, MAX_TIME_ENC. rewrite Ekey, !bcmp_app_l.
    rewrite pack_uint_lt; [reflexivity | exact Htime | unfold MAX_INT_VAL; lia]. }
  assert (In (pvt_entry xxh64 (pkb, rb)) (index_pvt s)) as Hent.
  { apply (m_pvt_in _ _ _ M). right; right. now apply in_map. }
  destruct (set_range_some first_key _ _ Hent Hfirst) as (c & R).
  destruct (set_range_split first_key _ (m_pvt_sorted _ _ _ M) c R) as (Hbefore & Hskip & Hc).
  assert (Forall (fun e => bge (fst e) first_key = true) (skipn c (index_pvt s))) as Hge.
  { rewrite Hskip. apply Forall_forall. intros e He. now apply filter_In in He. }
  destruct (In_nth (A:=Lmdb.entry) _ _ ([], []) Hent) as (cb & Hcb & Ecb).
  fold (Lmdb.item (index_pvt s) cb) in Ecb.
  assert (c <= cb)%nat as Hle.
  { destruct (Nat.le_gt_cases c cb) as [|Hgt]; [assumption|]. exfalso.
    assert (In (Lmdb.item (index_pvt s) cb) (firstn c (index_pvt s))) as Hf.
    { unfold Lmdb.item.
      rewrite <- (firstn_skipn c (index_pvt s)) at 1.
      rewrite app_nth1 by (rewrite length_firstn; lia).
      apply nth_In. rewrite length_firstn. lia. }
    rewrite Hbefore, Ecb in Hf. apply filter_In in Hf as [_ Hf].
    cbn [pvt_entry fst snd] in Hf. rewrite bge_not_blt, Hf in Hfirst. discriminate. }
  pose proof (proj1 (bound_sentinels p (vk ++ MAX_TIME_ENC))) as Hhi.
  pose proof (proj2 (bound_sentinels p (vk ++ []))) as Hlo.
  split.
  - intros fuel Hf.
    destruct (getRowsByProp_loop_all xxh64 _ s M first_key last_key (Msgpack.pack_str p)
                Hhi Hlo (VStr a) fuel c [] 0 ltac:(lia) Hc Hge)
      as (more & count' & E & Hall).
    exists more. split; [|now apply (Hall cb pkb rb)].
    unfold _getRowsByProp. cbn [andb is_none negb index0_eq get_index msgenpack].
    rewrite Eva. fold p first_key last_key. rewrite R, E. reflexivity.
  - intros fuel.
    unfold _getRowsByProp. cbn [andb is_none negb index0_eq get_index msgenpack].
    rewrite Eva. fold p first_key last_key. rewrite R.
    assert (beq (firstn 1 vk) HASH_VAL_MARKER_ENC = true) as -> by reflexivity.
    rewrite (getRowsByProp_loop_stuck xxh64 _ s M first_key last_key (Msgpack.pack_str p)
               Hhi Hlo (VStr a) false cb pkb rb Hcb Ecb Hlive Hlast); try assumption.
    + reflexivity.
    + rewrite Hval. cbn [valu_eqb]. destruct (beq a b) eqn:Eb; [|reflexivity].
      apply beq_true in Eb. contradiction.
Qed.

Lemma hashed_query_collision_witness :
  let h := fun _ : bytes => 0 in
  let foo := [102; 111; 111] in
  let a := repeat 97 128 in
  let b := repeat 98 128 in
  let rb := mkRow (repeat 98 32) foo (VStr b) 20 in
  let rws := [mkRow (repeat 97 32) foo (VStr a) 10; rb] in
  let s := fst (_addRows h fresh rws) in
  (forall fuel, (length rws + 2 < fuel)%nat ->
     exists l,
       _getRowsByProp h Python3 fuel s (r_prop rb) (Some (VStr a)) None None None
         false false = Some (s, Ok (QRows l)) /\
       In rb l) /\
  (forall fuel,
     _getRowsByProp h Python2 fuel s (r_prop rb) (Some (VStr a)) None None None
       false false = None).
Proof.
  cbv zeta.
  apply hashed_query_collision with
    (rws := [mkRow (repeat 97 32) [102; 111; 111] (VStr (repeat 97 128)) 10;
             mkRow (repeat 98 32) [102; 111; 111] (VStr (repeat 98 128)) 20])
    (b := repeat 98 128);
    [ intros; lia | reflexivity | vm_compute; reflexivity | discriminate
    | vm_compute; discriminate | vm_compute; discriminate | reflexivity
    | right; left; reflexivity | reflexivity | vm_compute; split; [discriminate | reflexivity] ].
Defined.

(** On that store, with rows of value [a] and of value [b] under one
    property: Python 3 returns both rows for the query of [a]; Python 2 has
    not returned after 1000 passes. *)
Example hashed_query_collision_sample :
  let h := fun _ : bytes => 0 in
  let foo := [102; 111; 111] in
  let a := repeat 97 128 in
  let b := repeat 98 128 in
  let ra := mkRow (repeat 97 32) foo (VStr a) 10 in
  let rb := mkRow (repeat 98 32) foo (VStr b) 20 in
  let s := fst (_addRows h fresh [ra; rb]) in
  _getRowsByProp h Python3 5 s foo (Some (VStr a)) None None None false false =
    Some (s, Ok (QRows [ra; rb])) /\
  _getRowsByProp h Python2 1000 s foo (Some (VStr a)) None None None false false = None.
Proof. vm_compute. split; reflexivity. Qed.

(** * Further properties of the module *)

(** ** The iden codec *)

Lemma unhex_digit_spec (c : Z) :
  match unhex_digit c with
  | Some d => hex_char c = true /\ 0 <= d < 16 /\ hex_digit d = ascii_lower c
  | None => hex_char c = false
  end.
Proof.
  unfold unhex_digit, hex_char, lower_hex, hex_digit, ascii_lower.
  destruct (Z.leb_spec 48 c), (Z.leb_spec c 57), (Z.leb_spec 97 c), (Z.leb_spec c 102),
    (Z.leb_spec 65 c), (Z.leb_spec c 70), (Z.leb_spec c 90);
    cbn [andb orb]; try lia; repeat split; try lia; zcases.
Qed.

Lemma hex_digit_unhex (d : Z) :
  0 <= d < 16 -> unhex_digit (hex_digit d) = Some d.
Proof.
  intros H. unfold unhex_digit, hex_digit.
  destruct (Z.ltb_spec d 10).
  - destruct (Z.leb_spec 48 (48 + d)), (Z.leb_spec (48 + d) 57); try lia.
    cbn [andb]. f_equal. lia.
  - destruct (Z.leb_spec 48 (87 + d)), (Z.leb_spec (87 + d) 57); try lia.
    cbn [andb].
    destruct (Z.leb_spec 97 (87 + d)), (Z.leb_spec (87 + d) 102); try lia.
    cbn [andb]. f_equal. lia.
Qed.

Lemma unhexlify_hexlify (b : bytes) :
  Forall is_byte b -> unhexlify (hexlify b) = Some b.
Proof.
  induction 1 as [|x b Hx Hb IH]; [reflexivity|].
  cbn [hexlify unhexlify]. unfold is_byte in Hx.
  assert (0 <= x / 16 < 16) as Hq
    by (split; [apply Z.div_pos; lia | apply Z.div_lt_upper_bound; lia]).
  assert (0 <= x mod 16 < 16) as Hr by (apply Z.mod_pos_bound; lia).
  rewrite (hex_digit_unhex _ Hq), (hex_digit_unhex _ Hr), IH.
  do 2 f_equal. symmetry. apply Z.div_mod. lia.
Qed.

(** X1: decoding any byte string as an iden and encoding the text back is
    the identity: [_enc_iden (_dec_iden b)] returns [b]. *)
Theorem enc_iden_dec_iden (b : bytes) :
  Forall is_byte b -> _enc_iden (_dec_iden b) = Ok b.
Proof.
  intros H. unfold _enc_iden, _dec_iden. now rewrite unhexlify_hexlify.
Qed.

Lemma enc_iden_dec_iden_witness : _enc_iden (_dec_iden [0; 171; 255]) = Ok [0; 171; 255].
Proof.
  apply enc_iden_dec_iden. repeat constructor; unfold is_byte; lia.
Defined.

Lemma pairs_ind (P : bytes -> Prop) :
  P [] -> (forall a, P [a]) -> (forall a b s, P s -> P (a :: b :: s)) ->
  forall s, P s.
Proof.
  intros H0 H1 H2 s.
  assert (P s /\ forall a, P (a :: s)) as [H _]; [|exact H].
  induction s as [|x s [IH1 IH2]]; split; auto.
Qed.

(** X2: [_enc_iden] accepts exactly the texts of even length made of hex
    digits (either case); every other text is refused with the exception of
    [binascii.unhexlify], [UnhexlifyError]. On an accepted text of 2n
    characters it gives n octets, and [_dec_iden] of these is the text in
    lower case. *)
Theorem enc_iden_spec (iden : bytes) :
  if Nat.even (length iden) && forallb hex_char iden
  then exists b,
         _enc_iden iden = Ok b /\ length iden = (2 * length b)%nat /\
         Forall is_byte b /\ _dec_iden b = map ascii_lower iden
  else _enc_iden iden = Raise UnhexlifyError.
Proof.
  unfold _enc_iden, _dec_iden.
  induction iden as [|a|a b s IH] using pairs_ind.
  - exists []. repeat split. constructor.
  - reflexivity.
  - change (Nat.even (length (a :: b :: s))) with (Nat.even (length s)).
    cbn [forallb unhexlify].
    pose proof (unhex_digit_spec a) as Ha. pose proof (unhex_digit_spec b) as Hb.
    destruct (unhex_digit a) as [x|].
    2:{ rewrite Ha. cbn [andb]. now rewrite andb_false_r. }
    destruct Ha as (Ha & Rx & Ex). rewrite Ha. cbn [andb].
    destruct (unhex_digit b) as [y|].
    2:{ rewrite Hb. cbn [andb]. now rewrite andb_false_r. }
    destruct Hb as (Hb & Ry & Ey). rewrite Hb. cbn [andb].
    destruct (Nat.even (length s) && forallb hex_char s).
    + destruct IH as (r & E & L & B & D).
      destruct (unhexlify s) as [r'|]; [|discriminate]. injection E as ->.
      exists (16 * x + y :: r). split; [reflexivity|]. split; [cbn [length]; lia|].
      split; [constructor; [unfold is_byte; lia | exact B]|].
      cbn [hexlify map].
      replace ((16 * x + y) / 16) with x by (apply Z.div_unique with y; lia).
      replace ((16 * x + y) mod 16) with y by (apply Z.mod_unique with x; lia).
      now rewrite Ex, Ey, D.
    + destruct (unhexlify s); [discriminate | reflexivity].
Qed.

(** ** Value keys *)

Lemma enc_val_key_same xxh64 (v v' : valu) :
  (forall b, 0 <= xxh64 b < 2 ^ 64) ->
  wf_valu v = true -> wf_valu v' = true ->
  _enc_val_key xxh64 v = _enc_val_key xxh64 v' ->
  v = v' \/
  exists s s', v = VStr s /\ v' = VStr s' /\
               LARGE_STRING_SIZE <= str_len s /\ LARGE_STRING_SIZE <= str_len s' /\
               xxh64 s = xxh64 s'.
Proof.
  intros Hx Hv Hv' E.
  pose proof (vk_viewP xxh64 v Hv) as V. pose proof (vk_viewP xxh64 v' Hv') as V'.
  rewrite <- E in V'. clear E.
  remember (_enc_val_key xxh64 v) as k eqn:Ek. clear Ek.
  destruct V as [z Hz | z Hz | s Hs Hc | s Hs];
    inversion V' as [z' Hz' E1 E2 | z' Hz' E1 E2 | s' Hs' Hc' E1 E2 | s' Hs' E1 E2];
    subst.
  all: try (destruct (pack_uint_head z) as (h & t & Eh & Hh); [lia|];
            rewrite Eh in *; injection E2 as E2 _; lia).
  all: try (destruct (pack_uint_head z') as (h & t & Eh & Hh); [lia|];
            rewrite Eh in *; injection E2 as E2 _; lia).
  - left. f_equal. symmetry. apply pack_int_inj; [lia | lia | exact E2].
  - left. f_equal. apply pack_int_inj in E2; lia.
  - left. f_equal. symmetry. apply pack_str_inj; [lia | lia | exact E2].
  - right. exists s, s'. pose proof (Hx s). pose proof (Hx s').
    apply pack_int_inj in E2; [|lia|lia]. unfold LARGE_STRING_SIZE. auto.
Qed.

(** X3: the index key of a value determines the value, except between large
    strings: two encodable values with the same [_enc_val_key] are equal,
    or are both strings of 128 characters or more with the same hash. *)
Theorem enc_val_key_inj xxh64 (v v' : valu) :
  (forall b, 0 <= xxh64 b < 2 ^ 64) ->
  wf_valu v = true -> wf_valu v' = true ->
  _enc_val_key xxh64 v = _enc_val_key xxh64 v' ->
  v = v' \/
  exists s s', v = VStr s /\ v' = VStr s' /\
               LARGE_STRING_SIZE <= str_len s /\ LARGE_STRING_SIZE <= str_len s' /\
               xxh64 s = xxh64 s'.
Proof. intros Hx Hv Hv' E. now apply enc_val_key_same. Qed.

Lemma enc_val_key_inj_witness :
  VInt (-7) = VInt (-7) \/
  exists s s', VInt (-7) = VStr s /\ VInt (-7) = VStr s' /\
               LARGE_STRING_SIZE <= str_len s /\ LARGE_STRING_SIZE <= str_len s' /\
               (fun _ : bytes => 0) s = (fun _ : bytes => 0) s'.
Proof.
  apply (enc_val_key_inj (fun _ => 0) (VInt (-7)) (VInt (-7)));
    [intros; lia | reflexivity | reflexivity | reflexivity].
Defined.


(** ** The tables stay in step *)

Lemma SS_lt_NoDup (l : list Z) : StronglySorted Z.lt l -> NoDup l.
Proof.
  induction 1 as [|a l _ IH Ha]; constructor; [|exact IH].
  intros H. rewrite Forall_forall in Ha. specialize (Ha a H). lia.
Qed.

Lemma numbered_map_fst (rws : list row) :
  forall npk, map fst (numbered npk rws) = zseq npk (length rws).
Proof.
  induction rws as [|r rws IH]; intros npk; [reflexivity|].
  rewrite numbered_cons. cbn [map fst length zseq]. now rewrite IH.
Qed.

Lemma fresh_consistent xxh64 : consistent xxh64 [] fresh.
Proof.
  constructor; cbn [map fresh index_ip next_pk].
  - constructor; cbn [map fresh rows index_pvt index_pt].
    + reflexivity.
    + constructor.
    + constructor.
    + apply sentinels_sorted.
    + intros e. cbn [In]. unfold sentinel_lo, sentinel_hi. intuition congruence.
    + repeat constructor.
    + intros e. cbn [In]. unfold sentinel_hi. intuition congruence.
  - constructor.
  - repeat constructor.
  - intros e. cbn [In]. unfold sentinel_hi. intuition congruence.
  - constructor.
  - unfold MAX_PK. lia.
Qed.

Lemma addRows_consistent xxh64 (live : list (Z * row)) (s s' : store) (rws : list row) :
  consistent xxh64 live s ->
  forallb wf_row rws = true ->
  _addRows xxh64 s rws = (s', Ok tt) ->
  consistent xxh64 (live ++ numbered (next_pk s) rws) s' /\
  next_pk s' = next_pk s + Z.of_nat (length rws).
Proof.
  intros C Hwf H. destruct C as [M Asc IpS IpI Nx Nr].
  assert (next_pk s + Z.of_nat (length rws) - 1 <= MAX_PK) as Hb.
  { unfold _addRows in H.
    destruct (addRows_encs xxh64 (next_pk s) rws) as [x|] eqn:E; [|discriminate].
    apply addRows_encs_bound in E; [exact E | lia]. }
  rewrite addRows_ok in H; [|assumption|assumption|].
  2:{ rewrite (m_rows _ _ _ M). apply Forall_map. exact Nx. }
  injection H as <-. cbn [next_pk]. split; [|reflexivity].
  set (new := numbered (next_pk s) rws).
  assert (forall x, In x new -> next_pk s <= fst x < next_pk s + Z.of_nat (length rws) /\
                                In (snd x) rws) as Hnew.
  { intros x Hx. apply (numbered_range _ _ _ Hx). }
  assert (StronglySorted Z.lt (map fst (live ++ new))) as Asc'.
  { rewrite map_app. apply SS_app; [exact Asc | |].
    - unfold new. rewrite numbered_map_fst. apply zseq_sorted.
    - intros x y Hx Hy. apply in_map_iff in Hx as (a & <- & Ha).
      apply in_map_iff in Hy as (b & <- & Hb').
      rewrite Forall_forall in Nx. specialize (Nx a Ha). specialize (Hnew b Hb'). lia. }
  constructor; cbn [index_ip next_pk].
  - destruct M as [Mr Mn Mw PvS PvI PtS PtI].
    constructor; cbn [rows index_pvt index_pt].
    + rewrite Mr, map_app. reflexivity.
    + apply SS_lt_NoDup, Asc'.
    + apply Forall_app. split; [exact Mw|].
      apply Forall_forall. intros x Hx. destruct (Hnew x Hx) as [R I].
      rewrite forallb_forall in Hwf. split; [auto | lia].
    + apply putmulti_sorted, PvS.
    + intros e. rewrite putmulti_In, PvI, map_app, in_app_iff. tauto.
    + apply putmulti_sorted, PtS.
    + intros e. rewrite putmulti_In, PtI, map_app, in_app_iff. tauto.
  - exact Asc'.
  - apply putmulti_sorted, IpS.
  - intros e. rewrite putmulti_In, IpI, map_app, in_app_iff. tauto.
  - apply Forall_app. split.
    + eapply Forall_impl; [|exact Nx]. cbn beta. intros; lia.
    + apply Forall_forall. intros x Hx. specialize (Hnew x Hx). lia.
  - lia.
Qed.

(** *** Removing a pair from an ordered table *)

Lemma sorted_head_min (x e : Lmdb.entry) (t : Lmdb.table) :
  StronglySorted elt (x :: t) -> In e t -> elt x e.
Proof.
  intros HS He. inversion HS as [|? ? _ Hall]; subst.
  rewrite Forall_forall in Hall. now apply Hall.
Qed.

Lemma delete_sorted_spec (e : Lmdb.entry) (t : Lmdb.table) :
  StronglySorted elt t -> In e t ->
  exists t', Lmdb.delete e t = Some t' /\ StronglySorted elt t' /\
             forall x, In x t' <-> In x t /\ x <> e.
Proof.
  induction 1 as [|y t HS IH Hy]; intros He; [destruct He|].
  cbn [Lmdb.delete]. rewrite Forall_forall in Hy.
  destruct (Lmdb.ecmp e y) eqn:E.
  - apply ecmp_eq in E. subst y. exists t. split; [reflexivity|]. split; [exact HS|].
    intros x. split.
    + intros Hx. split; [now right|]. intros ->.
      apply (elt_irrefl e). now apply Hy.
    + intros [[->|Hx] N]; [congruence | exact Hx].
  - destruct He as [->|He]; [now rewrite ecmp_refl in E|].
    specialize (Hy e He). unfold elt in Hy. rewrite ecmp_antisym, E in Hy. discriminate.
  - destruct He as [->|He]; [now rewrite ecmp_refl in E|].
    destruct (IH He) as (t' & D & S' & I'). rewrite D. cbn [option_map].
    exists (y :: t'). split; [reflexivity|]. split.
    + constructor; [exact S'|]. apply Forall_forall. intros x Hx.
      apply I' in Hx as [Hx _]. now apply Hy.
    + intros x. cbn [In]. rewrite I'. split.
      * intros [->|[Hx N]]; [|auto]. split; [now left|]. intros ->.
        now rewrite ecmp_refl in E.
      * intros [[->|Hx] N]; auto.
Qed.

Lemma cdelete_sorted_spec (t : Lmdb.table) (c : nat) :
  StronglySorted elt t -> (c < length t)%nat ->
  exists t', Lmdb.cdelete t c = Some t' /\ t' = firstn c t ++ skipn (S c) t /\
             StronglySorted elt t' /\
             forall x, In x t' <-> In x t /\ x <> Lmdb.item t c.
Proof.
  intros HS Hc. unfold Lmdb.cdelete.
  destruct (Nat.ltb_spec c (length t)) as [_|]; [|lia].
  eexists. split; [reflexivity|]. split; [reflexivity|].
  pose proof (skipn_cons_nth (A:=Lmdb.entry) ([], []) t c Hc) as Hsk.
  fold (Lmdb.item t c) in Hsk.
  pose proof HS as HS'. rewrite <- (firstn_skipn c t), Hsk in HS'.
  apply SS_app_inv in HS' as (S1 & S2 & S12).
  inversion S2 as [|? ? S2' Hall]; subst. rewrite Forall_forall in Hall.
  split.
  - apply SS_app; [exact S1 | exact S2' |].
    intros x y Hx Hy. apply S12; [exact Hx | now right].
  - intros x. rewrite in_app_iff. rewrite <- (firstn_skipn c t) at 3.
    rewrite Hsk, in_app_iff. cbn [In]. split.
    + intros [Hx|Hx]; (split; [tauto|]); intros ->.
      * apply (elt_irrefl (Lmdb.item t c)). apply S12; [exact Hx | now left].
      * apply (elt_irrefl (Lmdb.item t c)). now apply Hall.
    + intros [[Hx|[Hx|Hx]] N]; auto. congruence.
Qed.

Lemma set_range_app (k : bytes) (l1 l2 : Lmdb.table) (x : Lmdb.entry) :
  Forall (fun e => bge (fst e) k = false) l1 -> bge (fst x) k = true ->
  Lmdb.set_range k (l1 ++ x :: l2) = Some (length l1).
Proof.
  intros H1 Hx. induction H1 as [|y l1 Hy _ IH]; cbn [app Lmdb.set_range length].
  - now rewrite Hx.
  - now rewrite Hy, IH.
Qed.

(** After the pair under the cursor is deleted the cursor is on the next
    pair, which is where [set_range] with the same key lands. *)
Lemma set_range_cdelete (k : bytes) (t : Lmdb.table) (c : nat) :
  StronglySorted elt t -> Lmdb.set_range k t = Some c -> (S c < length t)%nat ->
  Lmdb.set_range k (firstn c t ++ skipn (S c) t) = Some c.
Proof.
  intros HS R Hc. destruct (set_range_split k t HS c R) as (Hbefore & Hafter & _).
  rewrite (skipn_cons_nth (A:=Lmdb.entry) ([], []) t (S c) Hc).
  replace (Some c) with (Some (length (firstn c t)))
    by (rewrite length_firstn; f_equal; lia).
  apply set_range_app.
  - rewrite Hbefore. apply Forall_forall. intros e He. apply filter_In in He as [_ He].
    rewrite bge_not_blt, He. reflexivity.
  - assert (In (nth (S c) t ([], [])) (skipn c t)) as Hin.
    { rewrite (skipn_cons_nth (A:=Lmdb.entry) ([], []) t c) by lia. right.
      rewrite (skipn_cons_nth (A:=Lmdb.entry) ([], []) t (S c) Hc). now left. }
    rewrite Hafter in Hin. now apply filter_In in Hin.
Qed.

(** *** Removing a row *)

Lemma without_In (pk : Z) (live : list (Z * row)) (x : Z * row) :
  In x (without pk live) <-> In x live /\ fst x <> pk.
Proof.
  unfold without. rewrite filter_In, negb_true_iff, Z.eqb_neq. reflexivity.
Qed.

Lemma without_absent (pk : Z) (live : list (Z * row)) :
  ~ In pk (map fst live) -> without pk live = live.
Proof.
  intros H. apply filter_all_true, Forall_forall. intros x Hx.
  apply negb_true_iff, Z.eqb_neq. intros E. apply H. rewrite <- E. now apply in_map.
Qed.

Lemma rdel_live (g : row -> bytes) (pk : Z) (live : list (Z * row)) :
  NoDup (map fst live) ->
  Lmdb.rdel pk (map (fun x => (fst x, g (snd x))) live) =
  map (fun x => (fst x, g (snd x))) (without pk live).
Proof.
  induction live as [|[k r] live IH]; intros Hnd; [reflexivity|].
  cbn [map fst snd] in *. inversion Hnd as [|? ? Hk Hnd']; subst.
  cbn [Lmdb.rdel without filter fst]. destruct (Z.eqb_spec k pk) as [->|N]; cbn [negb].
  - fold (without pk live). now rewrite without_absent.
  - fold (without pk live). cbn [map fst snd]. now rewrite IH.
Qed.

Lemma without_ascend (pk : Z) (live : list (Z * row)) :
  StronglySorted Z.lt (map fst live) -> StronglySorted Z.lt (map fst (without pk live)).
Proof.
  induction live as [|x live IH]; intros HS; [constructor|].
  cbn [map] in HS. inversion HS as [|? ? HS' Hall]; subst.
  cbn [without filter]. fold (without pk live).
  destruct (negb (fst x =? pk)); [|auto].
  cbn [map]. constructor; [auto|].
  rewrite Forall_forall in *. intros k Hk. apply Hall.
  apply in_map_iff in Hk as (y & <- & Hy). apply without_In in Hy as [Hy _].
  now apply in_map.
Qed.

(** Reading a row through its payload, with or without popping it. *)
Lemma getRow_payload (s : store) (pk : Z) (r : row) (d : bool) :
  wf_row r = true -> 1 <= pk <= MAX_PK ->
  Lmdb.rget pk (rows s) = Some (payload r) ->
  _getRowByPkValEnc s (Msgpack.pack_int pk) d =
    Ok (if d then set_rows s (Lmdb.rdel pk (rows s)) else s, r).
Proof.
  intros Hwf Hpk G.
  destruct (wf_row_spec r Hwf) as ((b & Hb & Hhex & Hlen) & Hp & Hv & Ht).
  unfold _getRowByPkValEnc.
  unfold MAX_PK in Hpk. rewrite msgunpack_pack_int by lia.
  unfold _enc_pk_key, Lmdb.rpop. rewrite G.
  assert ((if d then Some (payload r, Lmdb.rdel pk (rows s))
           else option_map (fun v => (v, rows s)) (Some (payload r))) =
          Some (payload r, if d then Lmdb.rdel pk (rows s) else rows s)) as ->
    by (now destruct d).
  unfold payload, iden_bytes. rewrite Hb.
  unfold slice_to, slice_from, UUID_SIZE. rewrite <- Hlen.
  rewrite firstn_app_exact, skipn_app, Nat.sub_diag, skipn_all. cbn [app skipn].
  cbn [msgenpack]. rewrite unpack_pack_str by lia.
  unfold _enc_val_val.
  assert (Msgpack.unpack (msgenpack (r_valu r) ++ Msgpack.pack_int (r_time r)) =
          Some (match r_valu r with
                | VInt z => Msgpack.OInt z
                | VStr x => Msgpack.OStr x
                end, Msgpack.pack_int (r_time r))) as ->.
  { destruct (r_valu r) as [z|x]; cbn [msgenpack wf_valu] in *.
    - apply int64_range in Hv. apply unpack_pack_int. lia.
    - apply Z.ltb_lt in Hv. now apply unpack_pack_str. }
  rewrite <- (app_nil_r (Msgpack.pack_int (r_time r))), unpack_pack_int by lia.
  unfold _dec_iden. rewrite Hhex.
  assert ((if d then set_rows s (Lmdb.rdel pk (rows s)) else s) =
          set_rows s (if d then Lmdb.rdel pk (rows s) else rows s)) as ->
    by (destruct d; [reflexivity | now rewrite set_rows_same]).
  destruct r as [i p v t]; cbn [r_iden r_prop r_valu r_time].
  destruct v; reflexivity.
Qed.

Lemma pack_int_not_nil (z : Z) : [] <> Msgpack.pack_int z.
Proof. intros E. symmetry in E. now apply pack_int_nonempty in E. Qed.

(** The entries of an index once the pair of one row is taken out. *)
Lemma entries_without (went : Z * row -> Lmdb.entry) (live : list (Z * row))
    (pk : Z) (r : row) (sent : Lmdb.entry -> Prop) (t t' : Lmdb.table) :
  (forall x, snd (went x) = Msgpack.pack_int (fst x)) ->
  (forall e, sent e -> snd e = []) ->
  NoDup (map fst live) -> Forall (fun x => 1 <= fst x <= MAX_PK) live ->
  In (pk, r) live ->
  (forall e, In e t <-> sent e \/ In e (map went live)) ->
  (forall e, In e t' <-> In e t /\ e <> went (pk, r)) ->
  forall e, In e t' <-> sent e \/ In e (map went (without pk live)).
Proof.
  intros Wv Hsent Hnd Hrange Hin It It' e.
  rewrite It', It. rewrite Forall_forall in Hrange. split.
  - intros [[Hs|He] N]; [now left|]. right.
    apply in_map_iff in He as (x & <- & Hx). apply in_map, without_In.
    split; [exact Hx|]. intros E. apply N. destruct x as [k r']. cbn [fst] in E. subst k.
    now rewrite (NoDup_fst_inj live pk r' r Hnd Hx Hin).
  - intros [Hs|He].
    + split; [now left|]. intros ->. apply Hsent in Hs. rewrite Wv in Hs.
      symmetry in Hs. now apply pack_int_not_nil in Hs.
    + apply in_map_iff in He as (x & <- & Hx). apply without_In in Hx as [Hx N].
      split; [right; now apply in_map|]. intros E.
      apply (f_equal snd) in E. rewrite !Wv in E. cbn [fst] in E.
      pose proof (Hrange _ Hx). pose proof (Hrange _ Hin). cbn [fst] in *.
      unfold MAX_PK in *. apply pack_int_inj in E; lia.
Qed.

(** A store that differs from a consistent one by the row of [pk] and its
    three index pairs is consistent for the remaining rows. *)
Lemma consistent_without xxh64 (live : list (Z * row)) (s s' : store) (pk : Z) (r : row) :
  consistent xxh64 live s -> In (pk, r) live ->
  rows s' = Lmdb.rdel pk (rows s) ->
  StronglySorted elt (index_ip s') ->
  (forall e, In e (index_ip s') <-> In e (index_ip s) /\ e <> ip_entry (pk, r)) ->
  StronglySorted elt (index_pvt s') ->
  (forall e, In e (index_pvt s') <-> In e (index_pvt s) /\ e <> pvt_entry xxh64 (pk, r)) ->
  StronglySorted elt (index_pt s') ->
  (forall e, In e (index_pt s') <-> In e (index_pt s) /\ e <> pt_entry (pk, r)) ->
  next_pk s' = next_pk s ->
  consistent xxh64 (without pk live) s'.
Proof.
  intros [M Asc IpS IpI Nx Nr] Hin Hrows Sip Iip Spvt Ipvt Spt Ipt Hnext.
  destruct M as [Mr Mn Mw PvS PvI PtS PtI].
  assert (Forall (fun x => 1 <= fst x <= MAX_PK) live) as Hrange.
  { eapply Forall_impl; [|exact Mw]. now intros x [_ H]. }
  constructor.
  - constructor.
    + rewrite Hrows, Mr. now apply rdel_live.
    + apply SS_lt_NoDup, without_ascend, Asc.
    + apply Forall_forall. intros x Hx. apply without_In in Hx as [Hx _].
      rewrite Forall_forall in Mw. now apply Mw.
    + exact Spvt.
    + intros e.
      rewrite (entries_without (pvt_entry xxh64) live pk r
                 (fun e => e = sentinel_lo \/ e = sentinel_hi) (index_pvt s) (index_pvt s'));
        try assumption; [tauto|reflexivity| |].
      * intros e' [->| ->]; reflexivity.
      * intros e'. rewrite PvI. tauto.
    + exact Spt.
    + intros e.
      apply (entries_without pt_entry live pk r (fun e => e = sentinel_hi)
               (index_pt s) (index_pt s')); try assumption; [reflexivity|].
      now intros e' ->.
  - apply without_ascend, Asc.
  - exact Sip.
  - intros e.
    apply (entries_without ip_entry live pk r (fun e => e = sentinel_hi)
             (index_ip s) (index_ip s')); try assumption; [reflexivity|].
    now intros e' ->.
  - rewrite Hnext. apply Forall_forall. intros x Hx. apply without_In in Hx as [Hx _].
    rewrite Forall_forall in Nx. now apply Nx.
  - now rewrite Hnext.
Qed.

(** What a conditional delete of a present pair leaves. *)
Lemma cond_delete_present (c : bool) (e : Lmdb.entry) (s : store) (w : which) :
  (c = true -> StronglySorted elt (get_index s w) /\ In e (get_index s w)) ->
  exists s',
    (if c then
       match Lmdb.delete e (get_index s w) with
       | Some t' => Ok (set_index s w t')
       | None => Raise DatabaseInconsistent
       end
     else Ok s) = Ok s' /\
    rows s' = rows s /\ next_pk s' = next_pk s /\
    (forall w', w' <> w -> get_index s' w' = get_index s w') /\
    if c then StronglySorted elt (get_index s' w) /\
              forall x, In x (get_index s' w) <-> In x (get_index s w) /\ x <> e
    else get_index s' w = get_index s w.
Proof.
  intros H. destruct c.
  - destruct (H eq_refl) as [HS Hin].
    destruct (delete_sorted_spec e _ HS Hin) as (t' & D & S' & I'). rewrite D.
    exists (set_index s w t'). split; [reflexivity|].
    split; [now destruct w|]. split; [now destruct w|]. split.
    + intros w' N. destruct w, w'; try reflexivity; congruence.
    + destruct w; cbn [get_index set_index index_ip index_pvt index_pt]; auto.
  - exists s. repeat split; auto.
Qed.

(** Runs the first step of a chain of binds whose result is known. *)
Ltac step_bind E :=
  cbn [bind];
  match goal with
  | |- bind ?m _ = _ =>
      match type of E with
      | _ = ?rhs => replace m with rhs by (symmetry; exact E); cbn [bind]
      end
  end.

(** [_delRowAndIndices] on a row that is in the rows table, whose pairs are
    in the indices it is told to clean, and whose value is the one asked
    for: the row is popped and each of these pairs is deleted. *)
Lemma delRowAndIndices_row xxh64 (s : store) (pk : Z) (r : row)
    (i_enc p_enc : option bytes) (dip dpvt dpt : bool) (only : option valu) :
  wf_row r = true -> 1 <= pk <= MAX_PK ->
  Lmdb.rget pk (rows s) = Some (payload r) ->
  match only with Some w => valu_eqb w (r_valu r) = true | None => True end ->
  (dip = true -> match i_enc with Some b => b = iden_bytes r | None => True end) ->
  match p_enc with Some b => b = msgenpack (VStr (r_prop r)) | None => True end ->
  (dip = true -> StronglySorted elt (index_ip s) /\ In (ip_entry (pk, r)) (index_ip s)) ->
  (dpvt = true ->
   StronglySorted elt (index_pvt s) /\ In (pvt_entry xxh64 (pk, r)) (index_pvt s)) ->
  (dpt = true -> StronglySorted elt (index_pt s) /\ In (pt_entry (pk, r)) (index_pt s)) ->
  exists s',
    _delRowAndIndices xxh64 s (Msgpack.pack_int pk) i_enc p_enc None None dip dpvt dpt only =
      Ok (s', true) /\
    rows s' = Lmdb.rdel pk (rows s) /\ next_pk s' = next_pk s /\
    (if dip then StronglySorted elt (index_ip s') /\
                 forall x, In x (index_ip s') <-> In x (index_ip s) /\ x <> ip_entry (pk, r)
     else index_ip s' = index_ip s) /\
    (if dpvt then StronglySorted elt (index_pvt s') /\
                  forall x, In x (index_pvt s') <->
                            In x (index_pvt s) /\ x <> pvt_entry xxh64 (pk, r)
     else index_pvt s' = index_pvt s) /\
    (if dpt then StronglySorted elt (index_pt s') /\
                 forall x, In x (index_pt s') <-> In x (index_pt s) /\ x <> pt_entry (pk, r)
     else index_pt s' = index_pt s).
Proof.
  intros Hwf Hpk G Honly Hi Hp Dip Dpvt Dpt.
  destruct (wf_row_spec r Hwf) as ((b & Hb & _ & _) & _).
  set (s0 := set_rows s (Lmdb.rdel pk (rows s))).
  destruct (cond_delete_present dip (ip_entry (pk, r)) s0 IP)
    as (s1 & E1 & R1 & N1 & O1 & I1).
  { intros ->. exact (Dip eq_refl). }
  destruct (cond_delete_present dpvt (pvt_entry xxh64 (pk, r)) s1 PVT)
    as (s2 & E2 & R2 & N2 & O2 & I2).
  { intros ->. rewrite (O1 PVT) by discriminate. exact (Dpvt eq_refl). }
  destruct (cond_delete_present dpt (pt_entry (pk, r)) s2 PT)
    as (s3 & E3 & R3 & N3 & O3 & I3).
  { intros ->. rewrite (O2 PT), (O1 PT) by discriminate. exact (Dpt eq_refl). }
  exists s3. split.
  - unfold _delRowAndIndices.
    rewrite (getRow_payload s pk r true Hwf Hpk G). cbn [bind]. fold s0.
    assert (match only with
            | Some w => negb (valu_eqb w (r_valu r))
            | None => false
            end = false) as ->.
    { destruct only; [now rewrite Honly | reflexivity]. }
    assert (or_else p_enc (msgenpack (VStr (r_prop r))) = msgenpack (VStr (r_prop r)))
      as ->.
    { destruct p_enc; cbn [or_else]; auto. }
    cbn [or_else].
    unfold ip_entry, ip_key, pvt_entry, pvt_key, pt_entry, pt_key in E1, E2, E3.
    cbn [fst snd msgenpack get_index] in E1, E2, E3. cbn [msgenpack].
    destruct dip.
    + assert (match i_enc with
              | Some b0 => Ok b0
              | None => _enc_iden (r_iden r)
              end = Ok (iden_bytes r)) as ->.
      { specialize (Hi eq_refl). unfold _enc_iden, iden_bytes in *. rewrite Hb in *.
        destruct i_enc; [now subst | reflexivity]. }
      cbn [bind]. step_bind E1. step_bind E2. step_bind E3. reflexivity.
    + injection E1 as <-.
      destruct (match i_enc with
                | Some b0 => Ok b0
                | None => Ok []
                end) as [ie|] eqn:Ei; [|destruct i_enc; discriminate].
      cbn [bind]. step_bind E2. step_bind E3. reflexivity.
  - split; [now rewrite R3, R2, R1|]. split; [now rewrite N3, N2, N1|].
    split; [|split].
    + change (index_ip s3) with (get_index s3 IP).
      rewrite (O3 IP), (O2 IP) by discriminate. exact I1.
    + change (index_pvt s3) with (get_index s3 PVT).
      rewrite (O3 PVT) by discriminate.
      destruct dpvt.
      * rewrite (O1 PVT) in I2 by discriminate. exact I2.
      * rewrite I2. now rewrite (O1 PVT) by discriminate.
    + change (index_pt s3) with (get_index s3 PT).
      destruct dpt.
      * rewrite (O2 PT), (O1 PT) in I3 by discriminate. exact I3.
      * rewrite I3, (O2 PT), (O1 PT) by discriminate. reflexivity.
Qed.

Lemma delete_absent (e : Lmdb.entry) (t : Lmdb.table) :
  ~ In e t -> Lmdb.delete e t = None.
Proof.
  induction t as [|y t IH]; intros H; [reflexivity|].
  cbn [Lmdb.delete]. destruct (Lmdb.ecmp e y) eqn:E.
  - apply ecmp_eq in E. subst. exfalso. apply H. now left.
  - rewrite IH; [reflexivity | intros Hin; apply H; now right].
  - rewrite IH; [reflexivity | intros Hin; apply H; now right].
Qed.

Lemma cond_delete_wrong (k rk v : bytes) (s : store) (w : which) :
  (forall k', In (k', v) (get_index s w) -> k' = rk) -> k <> rk ->
  match Lmdb.delete (k, v) (get_index s w) with
  | Some t' => Ok (set_index s w t')
  | None => Raise DatabaseInconsistent
  end = Raise DatabaseInconsistent.
Proof.
  intros U N. rewrite delete_absent; [reflexivity|].
  intros Hin. apply N. now apply U.
Qed.

Ltac fail_bind :=
  cbn [bind];
  match goal with
  | |- bind ?m _ = Raise ?e => assert (m = Raise e) as ->; [|reflexivity]
  end.

(** [_delRowAndIndices] told to delete a pair under a key that is not the
    row's raises: no pair of that key carries the row's primary key. *)
Lemma delRowAndIndices_wrong xxh64 (s : store) (pk : Z) (r : row)
    (i_enc p_enc : option bytes) (dip dpvt dpt : bool) (only : option valu) :
  wf_row r = true -> 1 <= pk <= MAX_PK ->
  Lmdb.rget pk (rows s) = Some (payload r) ->
  match only with Some w => valu_eqb w (r_valu r) = true | None => True end ->
  let ie := match i_enc with Some b => b | None => iden_bytes r end in
  let pe := or_else p_enc (msgenpack (VStr (r_prop r))) in
  (dip = true ->
   StronglySorted elt (index_ip s) /\ In (ip_entry (pk, r)) (index_ip s) /\
   forall k, In (k, Msgpack.pack_int pk) (index_ip s) -> k = ip_key r) ->
  (dpvt = true ->
   StronglySorted elt (index_pvt s) /\ In (pvt_entry xxh64 (pk, r)) (index_pvt s) /\
   forall k, In (k, Msgpack.pack_int pk) (index_pvt s) -> k = pvt_key xxh64 r) ->
  (dpt = true ->
   StronglySorted elt (index_pt s) /\ In (pt_entry (pk, r)) (index_pt s) /\
   forall k, In (k, Msgpack.pack_int pk) (index_pt s) -> k = pt_key r) ->
  (dip = true /\ ie ++ pe <> ip_key r) \/
  (dpvt = true /\
   pe ++ _enc_val_key xxh64 (r_valu r) ++ msgenpack (VInt (r_time r)) <> pvt_key xxh64 r) \/
  (dpt = true /\ pe ++ msgenpack (VInt (r_time r)) <> pt_key r) ->
  _delRowAndIndices xxh64 s (Msgpack.pack_int pk) i_enc p_enc None None dip dpvt dpt only =
    Raise DatabaseInconsistent.
Proof.
  intros Hwf Hpk G Honly ie pe Dip Dpvt Dpt Wrong.
  destruct (wf_row_spec r Hwf) as ((b & Hb & _ & _) & _).
  unfold _delRowAndIndices.
  rewrite (getRow_payload s pk r true Hwf Hpk G). cbn [bind].
  set (s0 := set_rows s (Lmdb.rdel pk (rows s))).
  assert (match only with
          | Some w => negb (valu_eqb w (r_valu r))
          | None => false
          end = false) as ->.
  { destruct only; [now rewrite Honly | reflexivity]. }
  assert (match i_enc with
          | Some b0 => Ok b0
          | None => if dip then _enc_iden (r_iden r) else Ok []
          end = Ok (if dip then ie else match i_enc with Some b0 => b0 | None => [] end))
    as ->.
  { subst ie. unfold _enc_iden, iden_bytes. rewrite Hb. now destruct i_enc, dip. }
  cbn [bind or_else]. fold pe.
  (* the I-P pair *)
  destruct dip.
  - destruct (list_eq_dec Z.eq_dec (ie ++ pe) (ip_key r)) as [E1|N1].
    2:{ destruct (Dip eq_refl) as (_ & _ & U).
        fail_bind. apply (cond_delete_wrong _ (ip_key r) _ s0 IP); [exact U | exact N1]. }
    destruct (cond_delete_present true (ip_entry (pk, r)) s0 IP)
      as (s1 & F1 & R1 & N1 & O1 & I1).
    { intros _. destruct (Dip eq_refl) as (A & B & _). now split. }
    unfold ip_entry in F1. cbn [fst snd msgenpack get_index] in F1.
    rewrite <- E1 in F1. step_bind F1.
    destruct dpvt.
    + destruct (list_eq_dec Z.eq_dec
                  (pe ++ _enc_val_key xxh64 (r_valu r) ++ msgenpack (VInt (r_time r)))
                  (pvt_key xxh64 r)) as [E2|N2].
      2:{ destruct (Dpvt eq_refl) as (_ & _ & U).
          fail_bind. apply (cond_delete_wrong _ (pvt_key xxh64 r) _ s1 PVT); [idtac | exact N2].
          rewrite (O1 PVT) by discriminate. exact U. }
      destruct (cond_delete_present true (pvt_entry xxh64 (pk, r)) s1 PVT)
        as (s2 & F2 & R2 & N2 & O2 & I2).
      { intros _. rewrite (O1 PVT) by discriminate.
        destruct (Dpvt eq_refl) as (A & B & _). now split. }
      unfold pvt_entry in F2. cbn [fst snd msgenpack get_index] in F2.
      rewrite <- E2 in F2. step_bind F2.
      destruct dpt.
      * destruct Wrong as [[_ W]|[[_ W]|[_ W]]]; try contradiction.
        destruct (Dpt eq_refl) as (_ & _ & U).
        fail_bind. apply (cond_delete_wrong _ (pt_key r) _ s2 PT); [idtac | exact W].
        rewrite (O2 PT), (O1 PT) by discriminate. exact U.
      * exfalso. destruct Wrong as [[_ W]|[[_ W]|[W _]]]; try contradiction.
        discriminate.
    + destruct dpt.
      * destruct Wrong as [[_ W]|[[W _]|[_ W]]]; try contradiction; try discriminate.
        destruct (Dpt eq_refl) as (_ & _ & U).
        fail_bind. apply (cond_delete_wrong _ (pt_key r) _ s1 PT); [idtac | exact W].
        rewrite (O1 PT) by discriminate. exact U.
      * exfalso. destruct Wrong as [[_ W]|[[W _]|[W _]]]; try contradiction;
          discriminate.
  - destruct dpvt.
    + destruct (list_eq_dec Z.eq_dec
                  (pe ++ _enc_val_key xxh64 (r_valu r) ++ msgenpack (VInt (r_time r)))
                  (pvt_key xxh64 r)) as [E2|N2].
      2:{ destruct (Dpvt eq_refl) as (_ & _ & U).
          fail_bind. apply (cond_delete_wrong _ (pvt_key xxh64 r) _ s0 PVT); [exact U | exact N2]. }
      destruct (cond_delete_present true (pvt_entry xxh64 (pk, r)) s0 PVT)
        as (s2 & F2 & R2 & N2 & O2 & I2).
      { intros _. destruct (Dpvt eq_refl) as (A & B & _). now split. }
      unfold pvt_entry in F2. cbn [fst snd msgenpack get_index] in F2.
      rewrite <- E2 in F2. step_bind F2.
      destruct dpt.
      * destruct Wrong as [[W _]|[[_ W]|[_ W]]]; try contradiction; try discriminate.
        destruct (Dpt eq_refl) as (_ & _ & U).
        fail_bind. apply (cond_delete_wrong _ (pt_key r) _ s2 PT); [idtac | exact W].
        rewrite (O2 PT) by discriminate. exact U.
      * exfalso. destruct Wrong as [[W _]|[[_ W]|[W _]]]; try contradiction;
          discriminate.
    + destruct dpt.
      * destruct Wrong as [[W _]|[[W _]|[_ W]]]; try discriminate.
        destruct (Dpt eq_refl) as (_ & _ & U).
        fail_bind. apply (cond_delete_wrong _ (pt_key r) _ s0 PT); [exact U | exact W].
      * exfalso. destruct Wrong as [[W _]|[[W _]|[W _]]]; discriminate.
Qed.

(** *** Keys of the I-P index *)

Lemma unhexlify_bytes (s b : bytes) : unhexlify s = Some b -> Forall is_byte b.
Proof.
  revert b. induction s as [|a|a c s IH] using pairs_ind; intros b H.
  - injection H as <-. constructor.
  - discriminate.
  - cbn [unhexlify] in H.
    pose proof (unhex_digit_spec a) as Ha. pose proof (unhex_digit_spec c) as Hc.
    destruct (unhex_digit a) as [x|]; [|discriminate].
    destruct (unhex_digit c) as [y|]; [|discriminate].
    destruct (unhexlify s) as [r|]; [|discriminate].
    destruct Ha as (_ & Rx & _). destruct Hc as (_ & Ry & _).
    injection H as <-. constructor; [|now apply IH].
    change (is_byte (16 * x + y)). unfold is_byte. lia.
Qed.

Lemma prefix_ge (i rest : bytes) : bcmp (i ++ rest) i <> Lt.
Proof.
  rewrite <- (app_nil_r i) at 2. rewrite bcmp_app_l. now destruct rest.
Qed.

Lemma between_prefix (i : bytes) :
  forall k rest, bcmp k i <> Lt -> bcmp k (i ++ rest) <> Gt -> firstn (length i) k = i.
Proof.
  induction i as [|x i IH]; intros k rest H1 H2; [reflexivity|].
  destruct k as [|y k]; [now cbn in H1|].
  cbn [bcmp app length firstn] in *.
  destruct (Z.compare_spec y x) as [->|L|G]; try congruence.
  f_equal. eapply IH; eauto.
Qed.

Lemma below_max (i : bytes) :
  forall (h : Z) (t : bytes) (k : nat),
    Forall is_byte i -> h < 255 ->
    bcmp (i ++ h :: t) (repeat 255 (length i + S k)) = Lt.
Proof.
  induction i as [|x i IH]; intros h t k Hi Hh.
  - cbn [app length Nat.add repeat bcmp].
    destruct (Z.compare_spec h 255); try lia. reflexivity.
  - inversion Hi as [|? ? Hx Hi']; subst. unfold is_byte in Hx.
    cbn [app length Nat.add repeat bcmp].
    destruct (Z.compare_spec x 255) as [->|L|G]; [now apply IH | reflexivity | lia].
Qed.

Lemma ip_key_below_max (r : row) :
  wf_row r = true -> bcmp (ip_key r) MAX_INDEX_KEY = Lt.
Proof.
  intros Hwf. destruct (wf_row_spec r Hwf) as ((b & Hb & _ & Hl) & _).
  unfold ip_key, iden_bytes. rewrite Hb. cbn [msgenpack].
  destruct (pack_str_head (r_prop r)) as (h & t & -> & Hh).
  change MAX_INDEX_KEY with (repeat 255 (16 + 4)). rewrite <- Hl.
  apply below_max; [now apply unhexlify_bytes in Hb | lia].
Qed.

Lemma ip_key_split (r : row) :
  wf_row r = true ->
  length (iden_bytes r) = 16%nat /\
  slice_to 16 (ip_key r) = iden_bytes r /\
  slice_from 16 (ip_key r) = msgenpack (VStr (r_prop r)).
Proof.
  intros Hwf. destruct (wf_row_spec r Hwf) as ((b & Hb & _ & Hl) & _).
  unfold ip_key, iden_bytes, slice_to, slice_from. rewrite Hb. split; [exact Hl|].
  rewrite <- Hl. split.
  - apply firstn_app_exact.
  - rewrite skipn_app, Nat.sub_diag, skipn_all. reflexivity.
Qed.

(** *** What a consistent store holds for one of its rows *)

Lemma entry_unique (went : Z * row -> Lmdb.entry) (live : list (Z * row))
    (sent : Lmdb.entry -> Prop) (t : Lmdb.table) (pk : Z) (r : row) :
  (forall x, snd (went x) = Msgpack.pack_int (fst x)) ->
  (forall e, sent e -> snd e = []) ->
  NoDup (map fst live) -> Forall (fun x => 1 <= fst x <= MAX_PK) live ->
  In (pk, r) live ->
  (forall e, In e t <-> sent e \/ In e (map went live)) ->
  In (went (pk, r)) t /\
  forall k, In (k, Msgpack.pack_int pk) t -> (k, Msgpack.pack_int pk) = went (pk, r).
Proof.
  intros Wv Hsent Hnd Hrange Hin It. split.
  - apply It. right. now apply in_map.
  - intros k Hk. apply It in Hk as [Hs|Hk].
    + apply Hsent in Hs. cbn [snd] in Hs. symmetry in Hs. now apply pack_int_not_nil in Hs.
    + apply in_map_iff in Hk as ([k' r'] & E & Hx). rewrite <- E.
      pose proof (f_equal snd E) as Ev. rewrite Wv in Ev. cbn [fst snd] in Ev.
      rewrite Forall_forall in Hrange.
      pose proof (Hrange _ Hx). pose proof (Hrange _ Hin). cbn [fst] in *.
      unfold MAX_PK in *. apply pack_int_inj in Ev; [|lia|lia]. subst k'.
      now rewrite (NoDup_fst_inj live pk r' r Hnd Hx Hin).
Qed.

Lemma consistent_row xxh64 (live : list (Z * row)) (s : store) (pk : Z) (r : row) :
  consistent xxh64 live s -> In (pk, r) live ->
  wf_row r = true /\ 1 <= pk <= MAX_PK /\
  Lmdb.rget pk (rows s) = Some (payload r) /\
  (StronglySorted elt (index_ip s) /\ In (ip_entry (pk, r)) (index_ip s) /\
   forall k, In (k, Msgpack.pack_int pk) (index_ip s) -> k = ip_key r) /\
  (StronglySorted elt (index_pvt s) /\ In (pvt_entry xxh64 (pk, r)) (index_pvt s) /\
   forall k, In (k, Msgpack.pack_int pk) (index_pvt s) -> k = pvt_key xxh64 r) /\
  (StronglySorted elt (index_pt s) /\ In (pt_entry (pk, r)) (index_pt s) /\
   forall k, In (k, Msgpack.pack_int pk) (index_pt s) -> k = pt_key r).
Proof.
  intros [M Asc IpS IpI Nx Nr] Hin.
  pose proof (live_wf xxh64 live s M pk r Hin) as [Hwf Hpk].
  destruct M as [Mr Mn Mw PvS PvI PtS PtI].
  assert (Forall (fun x => 1 <= fst x <= MAX_PK) live) as Hrange.
  { eapply Forall_impl; [|exact Mw]. now intros x [_ H]. }
  split; [exact Hwf|]. split; [exact Hpk|]. split.
  { apply rget_In.
    - rewrite Mr, map_map. cbn [fst]. exact Mn.
    - rewrite Mr. apply in_map_iff. now exists (pk, r). }
  split; [|split].
  - split; [exact IpS|].
    destruct (entry_unique ip_entry live (fun e => e = sentinel_hi) (index_ip s) pk r)
      as [A B]; try assumption; try reflexivity; [now intros e -> |].
    split; [exact A|]. intros k Hk. apply B in Hk. now injection Hk.
  - split; [exact PvS|].
    destruct (entry_unique (pvt_entry xxh64) live
                (fun e => e = sentinel_lo \/ e = sentinel_hi) (index_pvt s) pk r)
      as [A B]; try assumption; try reflexivity.
    { intros e [-> | ->]; reflexivity. }
    { intros e. rewrite PvI. tauto. }
    split; [exact A|]. intros k Hk. apply B in Hk. now injection Hk.
  - split; [exact PtS|].
    destruct (entry_unique pt_entry live (fun e => e = sentinel_hi) (index_pt s) pk r)
      as [A B]; try assumption; try reflexivity; [now intros e -> |].
    split; [exact A|]. intros k Hk. apply B in Hk. now injection Hk.
Qed.

Lemma del_outcome_impl {A} (good good' : store -> Prop) (bad bad' stuck stuck' : Prop)
    (o : option (res (store * A))) :
  (forall s, good s -> good' s) -> (bad -> bad') -> (stuck -> stuck') ->
  del_outcome good bad stuck o -> del_outcome good' bad' stuck' o.
Proof. destruct o as [[[s u]|e]|]; cbn [del_outcome]; auto. Qed.

Lemma without_length (pk : Z) (r : row) (live : list (Z * row)) :
  In (pk, r) live -> (length (without pk live) < length live)%nat.
Proof.
  induction live as [|x live IH]; intros H; [destruct H|].
  cbn [without filter length]. fold (without pk live).
  pose proof (filter_length_le (fun x => negb (fst x =? pk)) live) as L.
  fold (without pk live) in L.
  destruct H as [->|H].
  - cbn [fst]. rewrite Z.eqb_refl. cbn [negb]. lia.
  - specialize (IH H). destruct (negb (fst x =? pk)); cbn [length]; lia.
Qed.

Lemma filter_without (f : Z * row -> bool) (pk : Z) (live : list (Z * row)) :
  (forall x, In x live -> fst x = pk -> f x = false) ->
  filter f (without pk live) = filter f live.
Proof.
  intros H. unfold without. rewrite filter_filter. apply filter_ext_in.
  intros x Hx. destruct (Z.eqb_spec (fst x) pk) as [E|N]; cbn [negb andb]; [|reflexivity].
  symmetry. now apply H.
Qed.

(** Replaces the scrutinee of the first match on a result by its value. *)
Ltac step_match E :=
  match goal with
  | |- context [match ?m with Ok _ => _ | Raise _ => _ end] =>
      match type of E with
      | _ = ?rhs => replace m with rhs by (symmetry; exact E)
      end
  end.

(** *** Deleting by iden *)

Section DelById.

Variable xxh64 : bytes -> Z.
Variable i_enc : bytes.

(** Where the cursor stands: on a pair of the table whose key is not below
    [i_enc]; when its key does not start with [i_enc] no row's key does. *)
Lemma ip_cursor (live : list (Z * row)) (s : store) (c : nat) (first_key : bytes) :
  consistent xxh64 live s ->
  Lmdb.set_range first_key (index_ip s) = Some c ->
  (c < length (index_ip s))%nat /\
  In (Lmdb.item (index_ip s) c) (index_ip s) /\
  bge (fst sentinel_hi) first_key = true /\
  (forall x, In x live -> slice_to (length first_key) (ip_key (snd x)) = first_key ->
             slice_to (length first_key) (fst (Lmdb.item (index_ip s) c)) = first_key) /\
  (Lmdb.item (index_ip s) c <> sentinel_hi -> (S c < length (index_ip s))%nat).
Proof.
  intros C R. pose proof (c_ip_sorted _ _ _ C) as HS.
  destruct (set_range_split first_key _ HS c R) as (Hbefore & Hafter & Hc).
  pose proof (skipn_cons_nth (A:=Lmdb.entry) ([], []) (index_ip s) c Hc) as Hsk.
  fold (Lmdb.item (index_ip s) c) in Hsk.
  set (e := Lmdb.item (index_ip s) c) in *.
  assert (In e (index_ip s)) as Hin by (apply nth_In; exact Hc).
  assert (bge (fst e) first_key = true) as Hkey.
  { assert (In e (skipn c (index_ip s))) as H by (rewrite Hsk; now left).
    rewrite Hafter in H. now apply filter_In in H. }
  assert (forall y, In y (skipn c (index_ip s)) -> bcmp (fst e) (fst y) <> Gt) as Hmin.
  { intros y Hy. rewrite Hsk in Hy. destruct Hy as [<-|Hy].
    - now rewrite bcmp_refl.
    - apply elt_key_le. pose proof HS as HS'.
      rewrite <- (firstn_skipn c (index_ip s)), Hsk in HS'.
      apply SS_app_inv in HS' as (_ & HS' & _). eapply sorted_head_min; eauto. }
  assert (bge (fst sentinel_hi) first_key = true) as Hhi.
  { apply (c_ip_in _ _ _ C) in Hin as Hcase. destruct Hcase as [<-|Hl]; [exact Hkey|].
    apply in_map_iff in Hl as ([pk r] & E & Hx).
    destruct (consistent_row _ _ _ pk r C Hx) as (Hwf & _).
    pose proof (ip_key_below_max r Hwf) as Hb. rewrite <- E in Hkey.
    cbn [ip_entry fst snd] in Hkey. unfold bge in *. cbn [sentinel_hi fst].
    destruct (bcmp (ip_key r) first_key) eqn:E1; try discriminate.
    - apply bcmp_eq in E1. subst first_key.
      rewrite bcmp_antisym, Hb. reflexivity.
    - apply bcmp_gt_lt in E1.
      rewrite bcmp_antisym, (bcmp_lt_trans _ _ _ E1 Hb). reflexivity. }
  split; [exact Hc|]. split; [exact Hin|]. split; [exact Hhi|]. split.
  - intros x Hx Hpre.
    assert (In (ip_entry x) (skipn c (index_ip s))) as Hx2.
    { rewrite Hafter. apply filter_In.
      split; [apply (c_ip_in _ _ _ C); right; now apply in_map|].
      cbn [ip_entry fst]. unfold bge, slice_to in *.
      rewrite <- (firstn_skipn (length first_key) (ip_key (snd x))), Hpre.
      pose proof (prefix_ge first_key (skipn (length first_key) (ip_key (snd x)))) as P.
      destruct (bcmp (first_key ++ _) first_key); congruence. }
    apply Hmin in Hx2. cbn [ip_entry fst] in Hx2.
    apply (between_prefix first_key (fst e)
             (skipn (length first_key) (ip_key (snd x)))).
    + unfold bge in Hkey. destruct (bcmp (fst e) first_key); congruence.
    + unfold slice_to in Hpre. rewrite <- Hpre at 1. now rewrite firstn_skipn.
  - intros Ne.
    assert (In sentinel_hi (skipn c (index_ip s))) as Hs.
    { rewrite Hafter. apply filter_In. split; [|exact Hhi].
      apply (c_ip_in _ _ _ C). now left. }
    rewrite Hsk in Hs. destruct Hs as [E|Hs]; [congruence|].
    destruct (Nat.lt_ge_cases (S c) (length (index_ip s))) as [|Hge]; [assumption|].
    rewrite skipn_all2 in Hs by exact Hge. destruct Hs.
Qed.

End DelById.

(** The loop of [_delRowsById] on a consistent store: when it returns, the
    rows whose I-P key starts with [i_enc] are gone and the store is
    consistent; it raises only when the sentinel's key starts with [i_enc] or
    a row's key, cut after [i_enc], is not the encoded property. *)
Lemma delRowsById_loop_spec xxh64 (i_enc : bytes) (fuel : nat) :
  forall live s c,
    consistent xxh64 live s ->
    Lmdb.set_range i_enc (index_ip s) = Some c ->
    del_outcome
      (consistent xxh64
         (filter (fun x => negb (beq (slice_to (length i_enc) (ip_key (snd x))) i_enc)) live))
      (slice_to (length i_enc) MAX_INDEX_KEY = i_enc \/
       exists x, In x live /\ slice_to (length i_enc) (ip_key (snd x)) = i_enc /\
                 slice_from (length i_enc) (ip_key (snd x)) <>
                   msgenpack (VStr (r_prop (snd x))))
      (fuel <= length live)%nat
      (delRowsById_loop xxh64 fuel s c i_enc).
Proof.
  induction fuel as [|f IH]; intros live s c C R; [cbn [del_outcome delRowsById_loop delRowsByIdProp_loop getRowsByProp_loop]; lia|].
  cbn [delRowsById_loop].
  destruct (ip_cursor xxh64 live s c i_enc C R) as (Hc & Hin & Hhi & Hblock & Hnext).
  pose proof (c_ip_sorted _ _ _ C) as HS.
  destruct (Lmdb.item (index_ip s) c) as [key value] eqn:Eit. cbn [fst] in Hblock.
  destruct (beq (slice_to (length i_enc) key) i_enc) eqn:Hm; cbn [negb].
  2:{ cbn [del_outcome]. rewrite filter_all_true; [exact C|].
      apply Forall_forall. intros x Hx. apply negb_true_iff.
      destruct (beq (slice_to (length i_enc) (ip_key (snd x))) i_enc) eqn:Hx'; [|reflexivity].
      apply beq_true in Hx'. apply (Hblock x Hx) in Hx'.
      apply beq_true in Hx'. congruence. }
  apply beq_true in Hm.
  destruct (cdelete_sorted_spec _ c HS Hc) as (t' & D & Et' & S' & I').
  rewrite D. rewrite Eit in I'.
  apply (c_ip_in _ _ _ C) in Hin as Hcase. destruct Hcase as [Es|Hl].
  - (* the sentinel *)
    unfold sentinel_hi in Es. injection Es as -> ->.
    cbn [del_outcome]. left. exact Hm.
  - apply in_map_iff in Hl as ([pk r] & E & Hx).
    unfold ip_entry in E. cbn [fst snd msgenpack] in E. injection E as <- <-.
    destruct (consistent_row _ _ _ pk r C Hx) as (Hwf & Hpk & G & Tip & Tpvt & Tpt).
    set (s1 := set_index s IP t').
    destruct (list_eq_dec Z.eq_dec (slice_from (length i_enc) (ip_key r))
                (msgenpack (VStr (r_prop r)))) as [Ep|Np].
    + destruct (delRowAndIndices_row xxh64 s1 pk r (Some i_enc)
                  (Some (slice_from (length i_enc) (ip_key r))) false true true None
                  Hwf Hpk G I ltac:(discriminate) Ep ltac:(discriminate)
                  ltac:(intros _; split; apply Tpvt) ltac:(intros _; split; apply Tpt))
        as (s2 & E2 & R2 & N2 & Iip & Ipvt & Ipt).
      step_match E2.
      assert (consistent xxh64 (without pk live) s2) as C2.
      { apply (consistent_without xxh64 live s s2 pk r C Hx); try assumption.
        - rewrite Iip. exact S'.
        - intros e. rewrite Iip. apply I'.
        - apply Ipvt.
        - apply Ipvt.
        - apply Ipt.
        - apply Ipt. }
      assert (Lmdb.set_range i_enc (index_ip s2) = Some c) as R'.
      { rewrite Iip. cbn [s1 set_index index_ip]. rewrite Et'.
        apply set_range_cdelete; [exact HS | exact R |].
        apply Hnext. unfold sentinel_hi. intros [= _ Ev].
        now apply pack_int_nonempty in Ev. }
      pose proof (without_length pk r live Hx) as Hlen.
      specialize (IH (without pk live) s2 c C2 R').
      revert IH. apply del_outcome_impl; [| |lia].
      * intros s'. rewrite filter_without; [auto|].
        intros [k r'] Hx' Ek. cbn [fst] in Ek. subst k.
        rewrite (NoDup_fst_inj live pk r' r (m_nodup _ _ _ (c_models _ _ _ C)) Hx' Hx).
        cbn [snd]. apply negb_false_iff. now apply beq_true.
      * intros [B|(x & Hx' & B)]; [now left|]. right. exists x.
        apply without_In in Hx' as [Hx' _]. auto.
    + rewrite (delRowAndIndices_wrong xxh64 s1 pk r (Some i_enc)
                 (Some (slice_from (length i_enc) (ip_key r))) false true true None
                 Hwf Hpk G I ltac:(discriminate) ltac:(intros _; exact Tpvt)
                 ltac:(intros _; exact Tpt)).
      * cbn [del_outcome]. right. exists (pk, r). auto.
      * right. left. split; [reflexivity|]. cbn [or_else].
        unfold pvt_key. intros E. apply app_inv_tail in E. contradiction.
Qed.

Lemma max_key_ge (i : bytes) :
  forall n, Forall is_byte i -> (length i <= n)%nat -> bcmp (repeat 255 n) i <> Lt.
Proof.
  induction i as [|x i IH]; intros n Hi Hn.
  - destruct n; cbn; discriminate.
  - destruct n as [|n]; [cbn [length] in Hn; lia|].
    inversion Hi as [|? ? Hx Hi']; subst. unfold is_byte in Hx.
    cbn [repeat bcmp length] in *.
    destruct (Z.compare_spec 255 x) as [E|L|G]; [|lia|discriminate].
    apply IH; [assumption | lia].
Qed.

Lemma with_txn_ok {A} (s s' : store) (a : A) : with_txn s (Ok (s', a)) = (s', Ok a).
Proof. reflexivity. Qed.

(** [_delRowsById] on a consistent store, with fuel for every row: it
    returns before the fuel is out; when it does not raise, the rows whose
    I-P key starts with the encoded iden are gone and the store is
    consistent; when it raises, the store is as it was, and the iden is not
    one of 16 octets other than sixteen times [ff]. *)
Lemma delRowsById_outcome xxh64 (live : list (Z * row)) (s : store) (iden : bytes)
    (fuel : nat) :
  consistent xxh64 live s ->
  match _delRowsById xxh64 fuel s iden with
  | Some (s', Ok _) =>
      exists i_enc,
        _enc_iden iden = Ok i_enc /\
        consistent xxh64
          (filter (fun x => negb (beq (slice_to (length i_enc) (ip_key (snd x))) i_enc))
                  live) s'
  | Some (s', Raise _) =>
      s' = s /\
      forall i_enc, _enc_iden iden = Ok i_enc -> length i_enc = 16%nat ->
                    i_enc = repeat 255 16
  | None => (fuel <= length live)%nat
  end.
Proof.
  intros C. unfold _delRowsById.
  destruct (_enc_iden iden) as [i_enc|e] eqn:Ei.
  2:{ split; [reflexivity | discriminate]. }
  destruct (Lmdb.set_range i_enc (index_ip s)) as [c|] eqn:R.
  - pose proof (delRowsById_loop_spec xxh64 i_enc fuel live s c C R) as L.
    destruct (delRowsById_loop xxh64 fuel s c i_enc) as [[[s' []]|e]|];
      cbn [del_outcome option_map with_txn] in *.
    + exists i_enc. auto.
    + split; [reflexivity|].
      intros i' [= <-] Hl. rewrite Hl in L. destruct L as [B|(x & Hx & H1 & H2)].
      * symmetry. exact B.
      * exfalso. destruct x as [pk r]. cbn [snd] in *.
        destruct (consistent_row _ _ _ pk r C Hx) as (Hwf & _).
        destruct (ip_key_split r Hwf) as (_ & _ & E). contradiction.
    + exact L.
  - cbn [option_map with_txn]. split; [reflexivity|]. intros i' [= <-] Hl. exfalso.
    unfold _enc_iden in Ei. destruct (unhexlify iden) as [b|] eqn:U; [|discriminate].
    injection Ei as ->. apply unhexlify_bytes in U.
    destruct (set_range_some i_enc (index_ip s) sentinel_hi) as (c & R').
    + apply (c_ip_in _ _ _ C). now left.
    + pose proof (max_key_ge i_enc 20 U ltac:(lia)) as G.
      unfold bge. cbn [sentinel_hi fst]. unfold MAX_INDEX_KEY.
      destruct (bcmp (repeat 255 20) i_enc); congruence.
    + congruence.
Qed.

(** *** Deleting by iden and property *)

(** The loop of [_delRowsByIdProp] with no value asked for: when it returns,
    the rows whose I-P key starts with [first_key] are gone and the store is
    consistent; it raises only when the sentinel's key starts with
    [first_key] or [p_enc] is not the encoded property of such a row. *)
Lemma delRowsByIdProp_loop_spec xxh64 (i_enc p_enc first_key : bytes) (fuel : nat) :
  forall live s c,
    consistent xxh64 live s ->
    Lmdb.set_range first_key (index_ip s) = Some c ->
    del_outcome
      (consistent xxh64
         (filter (fun x => negb (beq (slice_to (length first_key) (ip_key (snd x)))
                                     first_key)) live))
      (slice_to (length first_key) MAX_INDEX_KEY = first_key \/
       exists x, In x live /\ slice_to (length first_key) (ip_key (snd x)) = first_key /\
                 p_enc <> msgenpack (VStr (r_prop (snd x))))
      (fuel <= length live)%nat
      (delRowsByIdProp_loop xxh64 fuel s c i_enc p_enc first_key None).
Proof.
  induction fuel as [|f IH]; intros live s c C R; [cbn [del_outcome delRowsById_loop delRowsByIdProp_loop getRowsByProp_loop]; lia|].
  cbn [delRowsByIdProp_loop].
  destruct (ip_cursor xxh64 live s c first_key C R) as (Hc & Hin & Hhi & Hblock & Hnext).
  pose proof (c_ip_sorted _ _ _ C) as HS.
  destruct (Lmdb.item (index_ip s) c) as [key value] eqn:Eit. cbn [fst] in Hblock.
  destruct (beq (slice_to (length first_key) key) first_key) eqn:Hm; cbn [negb].
  2:{ cbn [del_outcome]. rewrite filter_all_true; [exact C|].
      apply Forall_forall. intros x Hx. apply negb_true_iff.
      destruct (beq (slice_to (length first_key) (ip_key (snd x))) first_key) eqn:Hx';
        [|reflexivity].
      apply beq_true in Hx'. apply (Hblock x Hx) in Hx'.
      apply beq_true in Hx'. congruence. }
  apply beq_true in Hm.
  destruct (cdelete_sorted_spec _ c HS Hc) as (t' & D & Et' & S' & I').
  rewrite Eit in I'.
  apply (c_ip_in _ _ _ C) in Hin as Hcase. destruct Hcase as [Es|Hl].
  - unfold sentinel_hi in Es. injection Es as -> ->.
    cbn [del_outcome]. left. exact Hm.
  - apply in_map_iff in Hl as ([pk r] & E & Hx).
    unfold ip_entry in E. cbn [fst snd msgenpack] in E. injection E as <- <-.
    destruct (consistent_row _ _ _ pk r C Hx) as (Hwf & Hpk & G & Tip & Tpvt & Tpt).
    destruct (list_eq_dec Z.eq_dec p_enc (msgenpack (VStr (r_prop r)))) as [Ep|Np].
    + destruct (delRowAndIndices_row xxh64 s pk r (Some i_enc) (Some p_enc)
                  false true true None
                  Hwf Hpk G I ltac:(discriminate) Ep ltac:(discriminate)
                  ltac:(intros _; split; apply Tpvt) ltac:(intros _; split; apply Tpt))
        as (s2 & E2 & R2 & N2 & Iip & Ipvt & Ipt).
      step_match E2. rewrite Iip, D.
      set (s3 := set_index s2 IP t').
      assert (consistent xxh64 (without pk live) s3) as C3.
      { apply (consistent_without xxh64 live s s3 pk r C Hx); try assumption.
        - apply Ipvt.
        - apply Ipvt.
        - apply Ipt.
        - apply Ipt. }
      assert (Lmdb.set_range first_key (index_ip s3) = Some c) as R'.
      { cbn [s3 set_index index_ip]. rewrite Et'.
        apply set_range_cdelete; [exact HS | exact R |].
        apply Hnext. unfold sentinel_hi. intros [= _ Ev].
        now apply pack_int_nonempty in Ev. }
      pose proof (without_length pk r live Hx) as Hlen.
      specialize (IH (without pk live) s3 c C3 R').
      revert IH. apply del_outcome_impl; [| |lia].
      * intros s'. rewrite filter_without; [auto|].
        intros [k r'] Hx' Ek. cbn [fst] in Ek. subst k.
        rewrite (NoDup_fst_inj live pk r' r (m_nodup _ _ _ (c_models _ _ _ C)) Hx' Hx).
        cbn [snd]. apply negb_false_iff. now apply beq_true.
      * intros [B|(x & Hx' & B)]; [now left|]. right. exists x.
        apply without_In in Hx' as [Hx' _]. auto.
    + rewrite (delRowAndIndices_wrong xxh64 s pk r (Some i_enc) (Some p_enc)
                 false true true None
                 Hwf Hpk G I ltac:(discriminate) ltac:(intros _; exact Tpvt)
                 ltac:(intros _; exact Tpt)).
      * cbn [del_outcome]. right. exists (pk, r). auto.
      * right. left. split; [reflexivity|]. cbn [or_else].
        unfold pvt_key. intros E. apply app_inv_tail in E. contradiction.
Qed.

Lemma app_inj_length {A} (a b c d : list A) :
  length a = length c -> a ++ b = c ++ d -> a = c /\ b = d.
Proof.
  revert c. induction a as [|x a IH]; intros [|y c] Hl E; try discriminate.
  - auto.
  - cbn [app length] in *. injection E as -> E. injection Hl as Hl.
    destruct (IH c Hl E) as [-> ->]. auto.
Qed.

(** The key of property [prop] under an iden of 16 octets, against the keys
    of the I-P index. *)
Lemma ip_first_key (i_enc prop : bytes) :
  Forall is_byte i_enc -> length i_enc = 16%nat -> len prop < 2 ^ 32 ->
  let first_key := i_enc ++ msgenpack (VStr prop) in
  bge (fst sentinel_hi) first_key = true /\
  slice_to (length first_key) MAX_INDEX_KEY <> first_key /\
  forall r, wf_row r = true ->
            slice_to (length first_key) (ip_key r) = first_key ->
            iden_bytes r = i_enc /\ r_prop r = prop.
Proof.
  intros Hb Hl Hp first_key. subst first_key. cbn [msgenpack].
  destruct (pack_str_head prop) as (h & t & Eh & Hh).
  split; [|split].
  - unfold bge. cbn [sentinel_hi fst]. rewrite bcmp_antisym, Eh.
    change MAX_INDEX_KEY with (repeat 255 (16 + 4)). rewrite <- Hl.
    rewrite below_max by (auto; lia). reflexivity.
  - intros E. apply (f_equal (fun l => nth 16 l 0)) in E. unfold slice_to in E.
    rewrite Eh, app_nth2, Hl in E by lia. cbn [Nat.sub nth] in E.
    rewrite nth_firstn, length_app, Hl in E. cbn [length] in E.
    destruct (Nat.ltb_spec 16 (16 + S (length t))); [|lia].
    cbn in E. lia.
  - intros r Hwf E.
    destruct (wf_row_spec r Hwf) as (_ & Hpl & _).
    destruct (ip_key_split r Hwf) as (Hil & _ & _).
    unfold ip_key, slice_to in E. cbn [msgenpack] in E.
    rewrite length_app, Hl, <- Hil, firstn_app in E.
    replace (length (iden_bytes r) + length (Msgpack.pack_str prop) -
             length (iden_bytes r))%nat with (length (Msgpack.pack_str prop)) in E by lia.
    rewrite firstn_all2 in E by lia.
    apply app_inj_length in E as [E1 E2]; [|lia].
    split; [exact E1|].
    assert (Msgpack.pack_str (r_prop r) = Msgpack.pack_str prop) as E3.
    { apply (pfree_pack_str _ _ []
               (skipn (length (Msgpack.pack_str prop)) (Msgpack.pack_str (r_prop r)))).
      - exists (r_prop r). split; [lia | reflexivity].
      - exists prop. split; [lia | reflexivity].
      - rewrite app_nil_r, <- E2 at 1. now rewrite firstn_skipn. }
    apply pack_str_inj in E3; [exact E3 | lia | lia].
Qed.

(** [_delRowsByIdProp] with no value asked for, on a consistent store with
    fuel for every row: it returns; when it does not raise, the rows whose
    I-P key starts with the key of the iden and property are gone and the
    store is consistent; when it raises the store is as it was, and the iden
    is not one of 16 octets with a property that can be encoded. *)
Lemma delRowsByIdProp_outcome xxh64 (live : list (Z * row)) (s : store)
    (iden prop : bytes) (fuel : nat) :
  consistent xxh64 live s ->
  match _delRowsByIdProp xxh64 fuel s iden prop None with
  | Some (s', Ok _) =>
      exists i_enc,
        _enc_iden iden = Ok i_enc /\
        let first_key := i_enc ++ msgenpack (VStr prop) in
        consistent xxh64
          (filter (fun x => negb (beq (slice_to (length first_key) (ip_key (snd x)))
                                      first_key)) live) s'
  | Some (s', Raise _) =>
      s' = s /\
      forall i_enc, _enc_iden iden = Ok i_enc -> length i_enc = 16%nat ->
                    len prop < 2 ^ 32 -> False
  | None => (fuel <= length live)%nat
  end.
Proof.
  intros C. unfold _delRowsByIdProp.
  destruct (_enc_iden iden) as [i_enc|e] eqn:Ei.
  2:{ split; [reflexivity | discriminate]. }
  assert (Forall is_byte i_enc) as Hb.
  { unfold _enc_iden in Ei. destruct (unhexlify iden) as [b|] eqn:U; [|discriminate].
    injection Ei as ->. now apply unhexlify_bytes in U. }
  set (first_key := i_enc ++ msgenpack (VStr prop)).
  destruct (Lmdb.set_range first_key (index_ip s)) as [c|] eqn:R.
  - pose proof (delRowsByIdProp_loop_spec xxh64 i_enc (msgenpack (VStr prop)) first_key
                  fuel live s c C R) as L.
    destruct (delRowsByIdProp_loop xxh64 fuel s c i_enc (msgenpack (VStr prop)) first_key
                None) as [[[s' []]|e]|]; cbn [del_outcome option_map with_txn] in *.
    + exists i_enc. auto.
    + split; [reflexivity|].
      intros i' [= <-] Hl Hp.
      destruct (ip_first_key i_enc prop Hb Hl Hp) as (_ & Ns & Hrow).
      fold first_key in Ns, Hrow.
      destruct L as [B|([pk r] & Hx & H1 & H2)]; [contradiction|]. cbn [snd] in *.
      destruct (consistent_row _ _ _ pk r C Hx) as (Hwf & _).
      destruct (Hrow r Hwf H1) as [_ Ep]. now rewrite Ep in H2.
    + exact L.
  - cbn [option_map with_txn]. split; [reflexivity|]. intros i' [= <-] Hl Hp.
    destruct (ip_first_key i_enc prop Hb Hl Hp) as (Hhi & _).
    destruct (set_range_some first_key (index_ip s) sentinel_hi) as (c & R').
    + apply (c_ip_in _ _ _ C). now left.
    + exact Hhi.
    + congruence.
Qed.

(** *** Deleting by property *)

(** Where [set_range] leaves the cursor in an ordered table. *)
Lemma table_cursor (t : Lmdb.table) (k : bytes) (c : nat) :
  StronglySorted elt t -> Lmdb.set_range k t = Some c ->
  (c < length t)%nat /\ In (Lmdb.item t c) t /\
  bge (fst (Lmdb.item t c)) k = true /\
  (forall y, In y t -> bge (fst y) k = true ->
             bcmp (fst (Lmdb.item t c)) (fst y) <> Gt) /\
  (forall y, In y t -> bge (fst y) k = true -> y <> Lmdb.item t c ->
             (S c < length t)%nat).
Proof.
  intros HS R. destruct (set_range_split k t HS c R) as (Hbefore & Hafter & Hc).
  pose proof (skipn_cons_nth (A:=Lmdb.entry) ([], []) t c Hc) as Hsk.
  fold (Lmdb.item t c) in Hsk. set (e := Lmdb.item t c) in *.
  assert (forall y, In y t -> bge (fst y) k = true -> In y (e :: skipn (S c) t)) as Hin'.
  { intros y Hy Hk. rewrite <- Hsk, Hafter. apply filter_In. auto. }
  split; [exact Hc|]. split; [apply nth_In; exact Hc|]. split; [|split].
  - assert (In e (skipn c t)) as H by (rewrite Hsk; now left).
    rewrite Hafter in H. now apply filter_In in H.
  - intros y Hy Hk. destruct (Hin' y Hy Hk) as [<-|Hy'].
    + now rewrite bcmp_refl.
    + apply elt_key_le. pose proof HS as HS'.
      rewrite <- (firstn_skipn c t), Hsk in HS'.
      apply SS_app_inv in HS' as (_ & HS' & _). eapply sorted_head_min; eauto.
  - intros y Hy Hk Ne. destruct (Hin' y Hy Hk) as [E|Hy']; [congruence|].
    destruct (Nat.lt_ge_cases (S c) (length t)) as [|Hge]; [assumption|].
    rewrite skipn_all2 in Hy' by exact Hge. destruct Hy'.
Qed.

Lemma bge_blt_trans (a b c : bytes) :
  bcmp a b <> Gt -> blt b c = true -> blt a c = true.
Proof.
  unfold blt. intros H1 H2. destruct (bcmp b c) eqn:E; try discriminate.
  now rewrite (bcmp_le_lt_trans a b c H1 E).
Qed.

Lemma valu_eqb_true (a b : valu) : valu_eqb a b = true <-> a = b.
Proof.
  destruct a as [x|x], b as [y|y]; cbn [valu_eqb];
    try (split; [discriminate | congruence]).
  - rewrite Z.eqb_eq. split; congruence.
  - rewrite beq_true. split; congruence.
Qed.

(** Replaces the first operand of a bind anywhere in the goal by its value. *)
Ltac step_bind_in E :=
  match goal with
  | |- context [bind ?m _] =>
      match type of E with
      | _ = ?rhs => replace m with rhs by (symmetry; exact E); cbn [bind]
      end
  end.

Section DelByProp.

Variable xxh64 : bytes -> Z.
Variables first_key last_key p_enc : bytes.
Variable valu : option valu.
Variable hashed : bool.
Hypothesis hi_out : bge (fst sentinel_hi) last_key = true.
Hypothesis lo_out : bge (fst sentinel_lo) first_key = false.

Let w : which := if is_none valu then PT else PVT.
Let wkey (r : row) : bytes := if is_none valu then pt_key r else pvt_key xxh64 r.
Let inwin (x : Z * row) : bool :=
  bge (wkey (snd x)) first_key && blt (wkey (snd x)) last_key.

Lemma windex (live : list (Z * row)) (s : store) :
  consistent xxh64 live s ->
  StronglySorted elt (get_index s w) /\
  (forall e, In e (get_index s w) ->
             e = sentinel_lo \/ e = sentinel_hi \/
             exists x, In x live /\ e = (wkey (snd x), Msgpack.pack_int (fst x))) /\
  (forall x, In x live -> In (wkey (snd x), Msgpack.pack_int (fst x)) (get_index s w)) /\
  In sentinel_hi (get_index s w).
Proof.
  intros C. destruct (c_models _ _ _ C) as [_ _ _ PvS PvI PtS PtI].
  subst w wkey. destruct valu; cbn [is_none get_index].
  - split; [exact PvS|]. split; [|split].
    + intros e He. apply PvI in He as [E|[E|E]]; auto. right; right.
      apply in_map_iff in E as (x & <- & Hx). exists x. auto.
    + intros x Hx. apply PvI. right; right. apply in_map_iff. exists x. auto.
    + apply PvI. auto.
  - split; [exact PtS|]. split; [|split].
    + intros e He. apply PtI in He as [E|E]; auto. right; right.
      apply in_map_iff in E as (x & <- & Hx). exists x. auto.
    + intros x Hx. apply PtI. right. apply in_map_iff. exists x. auto.
    + apply PtI. auto.
Qed.

(** The deleting loop of [_getRowsByProp] on a consistent store, when no row
    of the window holds another value than the one asked for: when it
    returns, the rows whose key is in the window are gone and the store is
    consistent; it raises only when [p_enc] is not the encoded property of a
    row of the window. *)
Lemma delRowsByProp_loop_spec (fuel : nat) :
  forall live s c ret count,
    consistent xxh64 live s ->
    Lmdb.set_range first_key (get_index s w) = Some c ->
    (forall x, In x live -> inwin x = true ->
               match valu with
               | Some v => valu_eqb v (r_valu (snd x)) = true
               | None => True
               end) ->
    del_outcome
      (consistent xxh64 (filter (fun x => negb (inwin x)) live))
      (exists x, In x live /\ inwin x = true /\ p_enc <> msgenpack (VStr (r_prop (snd x))))
      (fuel <= length live)%nat
      (getRowsByProp_loop xxh64 fuel s w c p_enc last_key valu hashed None false true
         ret count).
Proof.
  induction fuel as [|f IH]; intros live s c ret count C R Hval; [cbn [del_outcome delRowsById_loop delRowsByIdProp_loop getRowsByProp_loop]; lia|].
  cbn [getRowsByProp_loop].
  destruct (windex live s C) as (HS & Hents & Hlive & Hsent).
  destruct (table_cursor _ _ _ HS R) as (Hc & Hin & Hkey & Hmin & Hnext).
  destruct (Lmdb.item (get_index s w) c) as [key value] eqn:Eit. cbn [fst] in *.
  destruct (bge key last_key) eqn:Hlast.
  { cbn [del_outcome]. rewrite filter_all_true; [exact C|].
    apply Forall_forall. intros x Hx. apply negb_true_iff.
    destruct (inwin x) eqn:Hw; [|reflexivity]. exfalso.
    unfold inwin in Hw. apply andb_true_iff in Hw as [W1 W2].
    specialize (Hmin _ (Hlive x Hx) W1). cbn [fst] in Hmin.
    rewrite bge_not_blt, (bge_blt_trans _ _ _ Hmin W2) in Hlast. discriminate. }
  assert (blt key last_key = true) as Hlt.
  { rewrite bge_not_blt in Hlast. now apply negb_false_iff in Hlast. }
  unfold getRowsByProp_body.
  destruct (cdelete_sorted_spec _ c HS Hc) as (t' & D & Et' & S' & I').
  rewrite D. rewrite Eit in I'.
  destruct (Hents _ Hin) as [E|[E|([pk r] & Hx & E)]].
  { exfalso. unfold sentinel_lo in E. injection E as -> _.
    pose proof lo_out as L. cbn [sentinel_lo fst] in L. congruence. }
  { exfalso. injection E as -> _. pose proof hi_out as L. cbn [sentinel_hi fst] in L.
    rewrite bge_not_blt, Hlt in L. discriminate. }
  cbn [fst snd] in E. injection E as -> ->.
  assert (inwin (pk, r) = true) as Hw.
  { unfold inwin. cbn [snd]. now rewrite Hkey, Hlt. }
  destruct (consistent_row _ _ _ pk r C Hx) as (Hwf & Hpk & G & Tip & Tpvt & Tpt).
  set (s1 := set_index s w t').
  assert (rows s1 = rows s /\ index_ip s1 = index_ip s /\
          (is_none valu = true -> index_pvt s1 = index_pvt s) /\
          (is_none valu = false -> index_pt s1 = index_pt s) /\
          get_index s1 w = t' /\ next_pk s1 = next_pk s) as (A1 & A2 & A3 & A4 & A5 & A6).
  { subst s1 w. destruct valu; cbn [is_none set_index rows index_ip index_pvt index_pt
                                      get_index next_pk]; repeat split; auto; discriminate. }
  assert (Lmdb.rget pk (rows s1) = Some (payload r)) as G1 by (now rewrite A1).
  pose proof (Hval _ Hx Hw) as Hv. cbn [snd] in Hv.
  destruct (list_eq_dec Z.eq_dec p_enc (msgenpack (VStr (r_prop r)))) as [Ep|Np].
  - destruct (delRowAndIndices_row xxh64 s1 pk r None (Some p_enc)
                true (is_none valu) (negb (is_none valu)) valu
                Hwf Hpk G1 Hv (fun _ => I) Ep)
      as (s2 & E2 & R2 & N2 & Iip & Ipvt & Ipt).
    { intros _. rewrite A2. split; apply Tip. }
    { intros Hn. rewrite (A3 Hn). split; apply Tpvt. }
    { intros Hn. apply negb_true_iff in Hn. rewrite (A4 Hn). split; apply Tpt. }
    step_bind_in E2. cbn [limit_hit negb].
    assert (get_index s2 w = t') as Ew.
    { rewrite <- A5. subst w. destruct valu; cbn [is_none negb get_index] in *; congruence. }
    assert (consistent xxh64 (without pk live) s2) as C2.
    { apply (consistent_without xxh64 live s s2 pk r C Hx).
      - now rewrite R2, A1.
      - apply Iip.
      - intros e. rewrite (proj2 Iip), A2. reflexivity.
      - subst w wkey. destruct valu; cbn [is_none negb get_index] in *.
        + rewrite Ew. exact S'.
        + apply Ipvt.
      - subst w wkey. destruct valu; cbn [is_none negb get_index] in *.
        + intros e. rewrite Ew. apply I'.
        + intros e. rewrite (proj2 Ipvt), (A3 eq_refl). reflexivity.
      - subst w wkey. destruct valu; cbn [is_none negb get_index] in *.
        + apply Ipt.
        + rewrite Ew. exact S'.
      - subst w wkey. destruct valu; cbn [is_none negb get_index] in *.
        + intros e. rewrite (proj2 Ipt), (A4 eq_refl). reflexivity.
        + intros e. rewrite Ew. apply I'.
      - now rewrite N2, A6. }
    assert (Lmdb.set_range first_key (get_index s2 w) = Some c) as R'.
    { rewrite Ew, Et'. apply set_range_cdelete; [exact HS | exact R |].
      apply (Hnext sentinel_hi Hsent).
      - pose proof hi_out as L. cbn [sentinel_hi fst] in *. unfold bge in *.
        destruct (bcmp MAX_INDEX_KEY first_key) eqn:E1; try reflexivity. exfalso.
        unfold blt in Hlt. destruct (bcmp (wkey r) last_key) eqn:E3; try discriminate.
        destruct (bcmp (wkey r) first_key) eqn:E4; try discriminate.
        + apply bcmp_eq in E4. rewrite E4 in E3.
          rewrite (bcmp_lt_trans _ _ _ E1 E3) in L. discriminate.
        + apply bcmp_gt_lt in E4.
          rewrite (bcmp_lt_trans _ _ _ E1 (bcmp_lt_trans _ _ _ E4 E3)) in L. discriminate.
      - unfold sentinel_hi. intros [= _ Ev]. now apply pack_int_not_nil in Ev. }
    pose proof (without_length pk r live Hx) as Hlen.
    assert (forall x, In x (without pk live) -> inwin x = true ->
                      match valu with
                      | Some v => valu_eqb v (r_valu (snd x)) = true
                      | None => True
                      end) as Hval'.
    { intros x Hx'. apply without_In in Hx' as [Hx' _]. now apply Hval. }
    specialize (IH (without pk live) s2 c ret (count + 1) C2 R' Hval').
    revert IH. apply del_outcome_impl; [| |lia].
    + intros s'. rewrite filter_without; [auto|].
      intros [k r'] Hx' Ek. cbn [fst] in Ek. subst k.
      rewrite (NoDup_fst_inj live pk r' r (m_nodup _ _ _ (c_models _ _ _ C)) Hx' Hx).
      now rewrite Hw.
    + intros (x & Hx' & B). exists x. apply without_In in Hx' as [Hx' _]. auto.
  - pose proof (delRowAndIndices_wrong xxh64 s1 pk r None (Some p_enc)
                  true (is_none valu) (negb (is_none valu)) valu Hwf Hpk G1 Hv) as W.
    cbn zeta in W. cbn [or_else] in W.
    rewrite W.
    + cbn [bind del_outcome]. exists (pk, r). auto.
    + intros _. now rewrite A2.
    + intros Hn. now rewrite (A3 Hn).
    + intros Hn. apply negb_true_iff in Hn. now rewrite (A4 Hn).
    + left. split; [reflexivity|]. unfold ip_key. intros E.
      apply app_inv_head in E. contradiction.
Qed.

End DelByProp.

(** *** The window of a query by property *)

Lemma window_same (A' A T lo hi : bytes) :
  eq_or_div A' A ->
  bge (A' ++ T) (A ++ lo) = true -> blt (A' ++ T) (A ++ hi) = true -> A' = A.
Proof.
  unfold bge, blt. intros [->|D]; [reflexivity|].
  rewrite !diverge_cmp_app by assumption. destruct (bcmp A' A); discriminate.
Qed.

(** A row whose index key lies in the window of a query is a row of the
    property asked for, and its value has the value key asked for. *)
Lemma window_row xxh64 (p : bytes) (valu : option valu) (lo hi : bytes) (r : row) :
  (forall b, 0 <= xxh64 b < 2 ^ 64) ->
  len p < 2 ^ 32 -> wf_query valu = true -> wf_row r = true ->
  let vk := match valu with Some v => _enc_val_key xxh64 v | None => [] end in
  let wkey := if is_none valu then pt_key r else pvt_key xxh64 r in
  bge wkey (msgenpack (VStr p) ++ vk ++ lo) = true ->
  blt wkey (msgenpack (VStr p) ++ vk ++ hi) = true ->
  r_prop r = p /\
  match valu with
  | Some v => _enc_val_key xxh64 (r_valu r) = _enc_val_key xxh64 v
  | None => True
  end.
Proof.
  intros Hx Hp Hq Hwf vk wkey H1 H2. subst vk wkey.
  destruct (wf_row_spec r Hwf) as (_ & Hpl & Hv & _).
  assert (eq_or_div (Msgpack.pack_str (r_prop r)) (Msgpack.pack_str p)) as EP
    by (apply pack_str_eq_or_div; lia).
  cbn [msgenpack] in *. destruct valu as [v|]; cbn [is_none wf_query] in *.
  - unfold pvt_key in H1, H2. cbn [msgenpack] in H1, H2. rewrite !app_assoc in H1, H2.
    apply (window_same _ _ _ lo) in H2; [|apply eq_or_div_app;
                               [exact EP | now apply enc_val_key_eq_or_div]|exact H1].
    assert (Msgpack.pack_str (r_prop r) = Msgpack.pack_str p) as E.
    { eapply pfree_pack_str; [| |exact H2].
      - exists (r_prop r). split; [lia | reflexivity].
      - exists p. split; [lia | reflexivity]. }
    rewrite E in H2. apply app_inv_head in H2.
    split; [apply pack_str_inj in E; [exact E | lia | lia] | exact H2].
  - unfold pt_key in H1, H2. cbn [msgenpack app] in H1, H2.
    apply (window_same _ _ _ lo) in H2; [|exact EP|exact H1].
    split; [apply pack_str_inj in H2; [exact H2 | lia | lia] | exact I].
Qed.

(** [_delRowsByProp] for a value matched on the index alone, on a consistent
    store: it does not raise; when it returns, the rows of the window are
    gone and the store is consistent; it returns when there is fuel for
    every row. *)
Lemma delRowsByProp_outcome xxh64 py (live : list (Z * row)) (s : store)
    (prop : bytes) (valu : option valu) (mintime maxtime : option Z) (fuel : nat) :
  (forall b, 0 <= xxh64 b < 2 ^ 64) ->
  consistent xxh64 live s -> len prop < 2 ^ 32 ->
  wf_query valu = true -> exact_valu valu = true ->
  match _delRowsByProp xxh64 py fuel s prop valu mintime maxtime with
  | Some (s', Ok _) =>
      consistent xxh64
        (filter (fun x => negb (in_window xxh64 prop valu mintime maxtime (snd x))) live) s'
  | Some (_, Raise _) => False
  | None => (fuel <= length live)%nat
  end.
Proof.
  intros Hx C Hp Hq He. unfold _delRowsByProp, _getRowsByProp. cbn [andb].
  set (vk := match valu with Some v => _enc_val_key xxh64 v | None => [] end).
  set (mint := match mintime with Some t => msgenpack (VInt t) | None => [] end).
  set (maxt := match maxtime with Some t => msgenpack (VInt t) | None => MAX_TIME_ENC end).
  set (hashed := negb (is_none valu) && _).
  set (w := if is_none valu then PT else PVT).
  set (first_key := msgenpack (VStr prop) ++ vk ++ mint).
  set (last_key := msgenpack (VStr prop) ++ vk ++ maxt).
  pose proof (proj1 (bound_sentinels prop (vk ++ maxt))) as Hhi.
  pose proof (proj2 (bound_sentinels prop (vk ++ mint))) as Hlo.
  pose proof (proj1 (bound_sentinels prop (vk ++ mint))) as Hhi1.
  destruct (windex xxh64 [] [] valu live s C) as (HS & _ & _ & Hsent).
  destruct (set_range_some first_key _ sentinel_hi Hsent Hhi1) as (c & R).
  fold w in R. rewrite R.
  pose proof (delRowsByProp_loop_spec xxh64 first_key last_key (msgenpack (VStr prop))
                valu hashed Hhi Hlo fuel live s c [] 0 C R) as L.
  assert (forall x, In x live ->
            in_window xxh64 prop valu mintime maxtime (snd x) = true ->
            r_prop (snd x) = prop /\
            match valu with
            | Some v => valu_eqb v (r_valu (snd x)) = true
            | None => True
            end) as Hrow.
  { intros [pk r] Hin Hw. cbn [snd] in *.
    destruct (consistent_row _ _ _ pk r C Hin) as (Hwf & _).
    destruct (wf_row_spec r Hwf) as (_ & _ & Hv & _).
    unfold in_window in Hw. cbn zeta in Hw. apply andb_true_iff in Hw as [W1 W2].
    destruct (window_row xxh64 prop valu mint maxt r Hx Hp Hq Hwf W1 W2) as [Ep Ev].
    split; [exact Ep|]. destruct valu as [v|]; [|exact I].
    cbn [wf_query exact_valu] in Hq, He. apply valu_eqb_true.
    symmetry in Ev.
    destruct (enc_val_key_same xxh64 v (r_valu r) Hx Hq Hv Ev)
      as [E|(a & b & -> & _ & Ha & _)]; [exact E|].
    apply Z.ltb_lt in He. pose proof (str_len_le a). lia. }
  specialize (L ltac:(intros x Hin Hw; now apply Hrow)).
  unfold w in *.
  destruct (getRowsByProp_loop xxh64 fuel s (if is_none valu then PT else PVT) c
              (msgenpack (VStr prop)) last_key valu
              hashed None false true [] 0) as [[[s' [ret count]]|e]|];
    cbn [del_outcome option_map with_txn bind] in *.
  - exact L.
  - destruct L as (x & Hin & Hw & Np). apply Np. f_equal. f_equal. symmetry.
    now apply Hrow.
  - exact L.
Qed.

(** *** Sessions of operations that keep the tables in step *)

Lemma apply_op_consistent xxh64 py (fuel : nat) (live : list (Z * row)) (s s' : store)
    (o : op) :
  (forall b, 0 <= xxh64 b < 2 ^ 64) ->
  consistent xxh64 live s -> safe_op o = true ->
  apply_op xxh64 py fuel s o = Some s' ->
  exists live', consistent xxh64 live' s'.
Proof.
  intros Hx C Hs H. destruct o as [rws|iden|iden prop v|prop v mint maxt];
    cbn [apply_op safe_op] in *.
  - injection H as <-. destruct (_addRows xxh64 s rws) as [s1 [[]|e]] eqn:E; cbn [fst].
    + destruct (addRows_consistent xxh64 live s s1 rws C Hs E) as [C' _]. eauto.
    + apply addRows_raise_unchanged in E. subst. eauto.
  - pose proof (delRowsById_outcome xxh64 live s iden fuel C) as L.
    destruct (_delRowsById xxh64 fuel s iden) as [[s1 [u|e]]|]; [| |discriminate];
      injection H as <-.
    + destruct L as (i & _ & C'). eauto.
    + destruct L as [-> _]. eauto.
  - destruct v; [discriminate|].
    pose proof (delRowsByIdProp_outcome xxh64 live s iden prop fuel C) as L.
    destruct (_delRowsByIdProp xxh64 fuel s iden prop None) as [[s1 [u|e]]|];
      [| |discriminate]; injection H as <-.
    + destruct L as (i & _ & C'). eauto.
    + destruct L as [-> _]. eauto.
  - apply andb_true_iff in Hs as [Hs He]. apply andb_true_iff in Hs as [Hp Hq].
    apply Z.ltb_lt in Hp.
    pose proof (delRowsByProp_outcome xxh64 py live s prop v mint maxt fuel Hx C Hp Hq He)
      as L.
    destruct (_delRowsByProp xxh64 py fuel s prop v mint maxt) as [[s1 [u|e]]|];
      [| |discriminate]; injection H as <-.
    + eauto.
    + destruct L.
Qed.

Lemma run_session_consistent xxh64 py (fuel : nat) (ops : list op) :
  (forall b, 0 <= xxh64 b < 2 ^ 64) ->
  forall live s s' pks,
    consistent xxh64 live s -> forallb safe_op ops = true ->
    run_session xxh64 py fuel s ops = Some (s', pks) ->
    exists live', consistent xxh64 live' s'.
Proof.
  intros Hx. induction ops as [|o ops IH]; intros live s s' pks C Hs H.
  - injection H as <- _. eauto.
  - cbn [run_session forallb] in *. apply andb_true_iff in Hs as [Ho Hs].
    destruct (apply_op xxh64 py fuel s o) as [s1|] eqn:E; [|discriminate].
    destruct (apply_op_consistent xxh64 py fuel live s s1 o Hx C Ho E) as (live1 & C1).
    destruct (run_session xxh64 py fuel s1 ops) as [[s2 pks2]|] eqn:E2; [|discriminate].
    injection H as <- _. eapply IH; eauto.
Qed.

(** The primary keys an index refers to are those of the rows table. *)
Lemma index_pks_perm (went : Z * row -> Lmdb.entry) (live : list (Z * row))
    (sent : Lmdb.entry -> Prop) (t : Lmdb.table) :
  (forall x, snd (went x) = Msgpack.pack_int (fst x)) ->
  (forall e, sent e -> snd e = []) ->
  NoDup (map fst live) -> Forall (fun x => 1 <= fst x <= MAX_PK) live ->
  StronglySorted elt t ->
  (forall e, In e t <-> sent e \/ In e (map went live)) ->
  Permutation (index_pks t) (map fst live).
Proof.
  intros Wv Hsent Hnd Hrange HS It. rewrite Forall_forall in Hrange.
  assert (forall e pk, In e t ->
            (In pk match msgunpack (snd e) with
                   | Some (VInt k) => [k]
                   | _ => []
                   end <-> exists r, In (pk, r) live /\ e = went (pk, r))) as Hone.
  { intros e pk He. apply It in He as [Hs|Hl].
    - rewrite (Hsent e Hs). cbn. split; [tauto|].
      intros (r & _ & ->). apply Hsent in Hs. rewrite Wv in Hs.
      symmetry in Hs. now apply pack_int_not_nil in Hs.
    - apply in_map_iff in Hl as ([k r] & <- & Hx).
      pose proof (Hrange _ Hx) as Rk. cbn [fst] in Rk. unfold MAX_PK in Rk.
      rewrite Wv. cbn [fst]. rewrite msgunpack_pack_int by lia. cbn [In]. split.
      + intros [<-|[]]. eauto.
      + intros (r' & Hx' & E). left. apply (f_equal snd) in E. rewrite !Wv in E.
        cbn [fst] in E. pose proof (Hrange _ Hx') as Rk'. cbn [fst] in Rk'.
        unfold MAX_PK in Rk'. apply pack_int_inj in E; lia. }
  apply NoDup_Permutation; [|exact Hnd|].
  - clear It. unfold index_pks.
    induction HS as [|e t HS IH He]; [constructor|].
    cbn [flat_map].
    assert (forall e' pk, In e' t ->
              (In pk match msgunpack (snd e') with
                     | Some (VInt k) => [k]
                     | _ => []
                     end <-> exists r, In (pk, r) live /\ e' = went (pk, r))) as Hone'.
    { intros e' pk He'. apply Hone. now right. }
    specialize (IH Hone').
    destruct (msgunpack (snd e)) as [[k|]|] eqn:U; cbn [app]; try exact IH.
    constructor; [|exact IH]. intros Hk. apply in_flat_map in Hk as (e' & He' & Hk).
    apply (Hone' e' k He') in Hk as (r' & Hx' & ->).
    destruct (proj1 (Hone e k (or_introl eq_refl))) as (r & Hx & ->).
    { rewrite U. now left. }
    rewrite (NoDup_fst_inj live k r' r Hnd Hx' Hx) in He'.
    rewrite Forall_forall in He. apply (elt_irrefl (went (k, r))). now apply He.
  - intros pk. unfold index_pks. rewrite in_flat_map. split.
    + intros (e & He & Hk). apply (Hone e pk He) in Hk as (r & Hx & _).
      apply in_map_iff. now exists (pk, r).
    + intros Hk. apply in_map_iff in Hk as ([k r] & <- & Hx). cbn [fst].
      exists (went (k, r)). split; [apply It; right; now apply in_map|].
      apply Hone; [apply It; right; now apply in_map | eauto].
Qed.

Lemma consistent_pks xxh64 (live : list (Z * row)) (s : store) :
  consistent xxh64 live s ->
  row_pks s = map fst live /\
  Permutation (index_pks (index_ip s)) (row_pks s) /\
  Permutation (index_pks (index_pvt s)) (row_pks s) /\
  Permutation (index_pks (index_pt s)) (row_pks s).
Proof.
  intros [M Asc IpS IpI Nx Nr]. destruct M as [Mr Mn Mw PvS PvI PtS PtI].
  assert (Forall (fun x => 1 <= fst x <= MAX_PK) live) as Hrange.
  { eapply Forall_impl; [|exact Mw]. now intros x [_ H]. }
  assert (row_pks s = map fst live) as E.
  { unfold row_pks. rewrite Mr, map_map. reflexivity. }
  split; [exact E|]. rewrite E. split; [|split].
  - apply (index_pks_perm ip_entry live (fun e => e = sentinel_hi)); auto.
    now intros e ->.
  - apply (index_pks_perm (pvt_entry xxh64) live
             (fun e => e = sentinel_lo \/ e = sentinel_hi)); auto.
    + intros e [-> | ->]; reflexivity.
    + intros e. rewrite PvI. tauto.
  - apply (index_pks_perm pt_entry live (fun e => e = sentinel_hi)); auto.
    now intros e ->.
Qed.

(** X4: after any session of appends of well-formed rows, deletes by iden,
    deletes by iden and property with no value asked for, and deletes by
    property for a value matched on the index alone, started on the empty
    environment, the primary keys each of the three indices refers to are
    those of the rows table, each once, and all are below the counter. *)
Theorem session_tables_in_step xxh64 py (fuel : nat) (ops : list op) (s : store)
    (pks : list Z) :
  (forall b, 0 <= xxh64 b < 2 ^ 64) ->
  forallb safe_op ops = true ->
  run_session xxh64 py fuel fresh ops = Some (s, pks) ->
  StronglySorted Z.lt (row_pks s) /\
  Forall (fun pk => 1 <= pk < next_pk s) (row_pks s) /\
  Permutation (index_pks (index_ip s)) (row_pks s) /\
  Permutation (index_pks (index_pvt s)) (row_pks s) /\
  Permutation (index_pks (index_pt s)) (row_pks s).
Proof.
  intros Hx Hs H.
  destruct (run_session_consistent xxh64 py fuel ops Hx [] fresh s pks
              (fresh_consistent xxh64) Hs H) as (live & C).
  destruct (consistent_pks xxh64 live s C) as (E & P1 & P2 & P3).
  split; [rewrite E; apply (c_ascend _ _ _ C)|]. split; [|auto].
  rewrite E. apply Forall_map, Forall_forall. intros [pk r] Hin. cbn [fst].
  destruct (consistent_row _ _ _ pk r C Hin) as (_ & Hpk & _).
  pose proof (c_next _ _ _ C) as Nx. rewrite Forall_forall in Nx.
  specialize (Nx _ Hin). cbn [fst] in Nx. lia.
Qed.

Lemma session_tables_in_step_witness :
  run_session (fun _ => 0) Python3 10 fresh mixed_session =
    Some (mixed_session_store, [1; 2; 3; 4; 5; 6]) /\
  row_pks mixed_session_store = [5; 6] /\
  StronglySorted Z.lt (row_pks mixed_session_store) /\
  Forall (fun pk => 1 <= pk < next_pk mixed_session_store) (row_pks mixed_session_store) /\
  Permutation (index_pks (index_ip mixed_session_store)) (row_pks mixed_session_store) /\
  Permutation (index_pks (index_pvt mixed_session_store)) (row_pks mixed_session_store) /\
  Permutation (index_pks (index_pt mixed_session_store)) (row_pks mixed_session_store).
Proof.
  assert (run_session (fun _ => 0) Python3 10 fresh mixed_session =
          Some (mixed_session_store, [1; 2; 3; 4; 5; 6])) as E by (vm_compute; reflexivity).
  split; [exact E|]. split; [reflexivity|].
  exact (session_tables_in_step (fun _ => 0) Python3 10 mixed_session mixed_session_store
           [1; 2; 3; 4; 5; 6] (fun _ => conj (Z.le_refl 0) eq_refl) eq_refl E).
Defined.

(** *** The rows a store holds *)

Lemma stored_consistent xxh64 (live : list (Z * row)) (s : store) :
  consistent xxh64 live s -> stored s = live.
Proof.
  intros C. pose proof (c_models _ _ _ C) as M.
  unfold stored. rewrite (m_rows _ _ _ M).
  assert (forall l', incl l' live ->
            flat_map (fun kv => match _getRowByPkValEnc s (msgenpack (VInt (fst kv))) false with
                                | Ok (_, r) => [(fst kv, r)]
                                | Raise _ => []
                                end)
                     (map (fun x => (fst x, payload (snd x))) l') = l') as H.
  { induction l' as [|[pk r] l' IH]; intros Hi; [reflexivity|].
    cbn [map flat_map fst snd].
    rewrite (fetch_row xxh64 live s pk r M) by (apply Hi; now left).
    cbn [app]. f_equal. apply IH. intros x Hx. apply Hi. now right. }
  apply H, incl_refl.
Qed.

Lemma reached_consistent xxh64 py (fuel : nat) (ops : list op) (s : store) :
  (forall b, 0 <= xxh64 b < 2 ^ 64) ->
  reached_by xxh64 py fuel ops s -> consistent xxh64 (stored s) s.
Proof.
  intros Hx [Hs H].
  destruct (run_session xxh64 py fuel fresh ops) as [[s1 pks]|] eqn:E; [|discriminate].
  injection H as ->.
  destruct (run_session_consistent xxh64 py fuel ops Hx [] fresh s pks
              (fresh_consistent xxh64) Hs E) as (live & C).
  now rewrite (stored_consistent xxh64 live s C).
Qed.



(** ** Reading by iden *)

Lemma live_NoDup xxh64 (live : list (Z * row)) (s : store) :
  consistent xxh64 live s -> NoDup live.
Proof.
  intros C. apply (NoDup_map_inv fst), (m_nodup _ _ _ (c_models _ _ _ C)).
Qed.

Lemma ip_entry_inj xxh64 (live : list (Z * row)) (s : store) (x y : Z * row) :
  consistent xxh64 live s -> In x live -> In y live -> ip_entry x = ip_entry y -> x = y.
Proof.
  intros C Hx Hy E. destruct x as [k r], y as [k' r'].
  pose proof (f_equal snd E) as Ev. cbn [ip_entry snd fst msgenpack] in Ev.
  destruct (consistent_row _ _ _ k r C Hx) as (_ & R & _).
  destruct (consistent_row _ _ _ k' r' C Hy) as (_ & R' & _).
  unfold MAX_PK in R, R'. apply pack_int_inj in Ev; [|lia|lia]. subst k'.
  f_equal. apply (NoDup_fst_inj live k r r' (m_nodup _ _ _ (c_models _ _ _ C)) Hx Hy).
Qed.

Section ReadById.

Variable xxh64 : bytes -> Z.
Variable live : list (Z * row).
Variable s : store.
Hypothesis C : consistent xxh64 live s.
Variable i_enc : bytes.
Hypothesis not_sentinel : slice_to (length i_enc) MAX_INDEX_KEY <> i_enc.

Let hit (x : Z * row) : bool := beq (slice_to (length i_enc) (ip_key (snd x))) i_enc.

(** The loop of [_getRowsById] over a tail of the index whose keys are not
    below [i_enc]: it returns the rows of the pairs whose key starts with
    [i_enc], which come first. *)
Lemma getRowsById_loop_spec (it : list Lmdb.entry) :
  forall ret,
    StronglySorted elt it -> incl it (index_ip s) -> In sentinel_hi it ->
    Forall (fun e => bge (fst e) i_enc = true) it ->
    exists hits,
      getRowsById_loop s it i_enc ret = Ok (ret ++ map snd hits) /\
      NoDup hits /\
      forall x, In x hits <-> In x live /\ hit x = true /\ In (ip_entry x) it.
Proof.
  induction it as [|[key value] it IH]; intros ret HS Hi Hsent Hge; [destruct Hsent|].
  cbn [getRowsById_loop].
  inversion HS as [|? ? HS' Hall]; subst. rewrite Forall_forall in Hall.
  inversion Hge as [|? ? Hk Hge']; subst. cbn [fst] in Hk.
  destruct (beq (slice_to (length i_enc) key) i_enc) eqn:Hm; cbn [negb].
  - apply beq_true in Hm.
    assert (In (key, value) (index_ip s)) as Hin by (apply Hi; now left).
    apply (c_ip_in _ _ _ C) in Hin as [Es|Hl].
    { exfalso. unfold sentinel_hi in Es. injection Es as -> _. contradiction. }
    apply in_map_iff in Hl as ([pk r] & E & Hx).
    pose proof E as E'. unfold ip_entry in E'. cbn [fst snd] in E'. injection E' as <- <-.
    pose proof (fetch_row xxh64 live s pk r (c_models _ _ _ C) Hx) as F.
    cbn [msgenpack] in F. rewrite F. cbn [bind].
    destruct (IH (ret ++ [r]) HS') as (hits & Eh & Nh & Ih).
    { intros e He. apply Hi. now right. }
    { destruct Hsent as [Es|Hs]; [|exact Hs]. exfalso.
      unfold sentinel_hi in Es. injection Es as _ Ev. now apply pack_int_nonempty in Ev. }
    { exact Hge'. }
    exists ((pk, r) :: hits). split; [|split].
    + rewrite Eh, <- app_assoc. reflexivity.
    + constructor; [|exact Nh]. intros Hh. apply Ih in Hh as (_ & _ & Hh).
      rewrite E in Hh. apply (elt_irrefl (ip_key r, msgenpack (VInt pk))). now apply Hall.
    + intros x. cbn [In]. rewrite Ih. split.
      * intros [<-|(H1 & H2 & H3)].
        -- split; [exact Hx|]. split; [unfold hit; cbn [snd]; now apply beq_true|].
           left. now rewrite E.
        -- auto.
      * intros (H1 & H2 & [H3|H3]); [|auto]. left.
        rewrite <- E in H3. symmetry.
        apply (ip_entry_inj xxh64 live s _ _ C H1 Hx). now symmetry.
  - exists []. rewrite app_nil_r. split; [reflexivity|]. split; [constructor|].
    intros x. split; [intros []|]. intros (H1 & H2 & H3). exfalso.
    unfold hit in H2. apply beq_true in H2.
    assert (bcmp key (ip_key (snd x)) <> Gt) as Hle.
    { destruct H3 as [E|H3].
      - apply (f_equal fst) in E. cbn [fst ip_entry] in E. rewrite E, bcmp_refl.
        discriminate.
      - apply Hall in H3. now apply elt_key_le in H3. }
    assert (slice_to (length i_enc) key = i_enc) as Hp.
    { apply (between_prefix i_enc key (skipn (length i_enc) (ip_key (snd x)))).
      - unfold bge in Hk. destruct (bcmp key i_enc); congruence.
      - unfold slice_to in H2. rewrite <- H2 at 1. now rewrite firstn_skipn. }
    apply beq_true in Hp. congruence.
Qed.

Lemma getRowsById_loop_rows (c : nat) :
  Lmdb.set_range i_enc (index_ip s) = Some c ->
  exists l,
    getRowsById_loop s (Lmdb.iternext (index_ip s) c) i_enc [] = Ok l /\
    Permutation l (map snd (filter hit live)).
Proof.
  intros R. pose proof (c_ip_sorted _ _ _ C) as HS.
  destruct (set_range_split i_enc _ HS c R) as (_ & Hafter & Hc).
  destruct (ip_cursor xxh64 live s c i_enc C R) as (_ & _ & Hhi & _ & _).
  unfold Lmdb.iternext.
  destruct (getRowsById_loop_spec (skipn c (index_ip s)) []) as (hits & E & Nh & Ih).
  - rewrite <- (firstn_skipn c (index_ip s)) in HS. now apply SS_app_inv in HS.
  - intros e He. rewrite <- (firstn_skipn c (index_ip s)). apply in_or_app. now right.
  - rewrite Hafter. apply filter_In. split; [|exact Hhi]. apply (c_ip_in _ _ _ C). now left.
  - rewrite Hafter. apply Forall_forall. intros e He. now apply filter_In in He.
  - exists (map snd hits). split; [exact E|]. apply Permutation_map.
    apply NoDup_Permutation; [exact Nh | apply NoDup_filter, (live_NoDup _ _ _ C)|].
    intros x. rewrite Ih, filter_In. split; [tauto|]. intros [H1 H2].
    split; [exact H1|]. split; [exact H2|].
    rewrite Hafter. apply filter_In.
    split; [apply (c_ip_in _ _ _ C); right; now apply in_map|].
    unfold hit in H2. apply beq_true in H2. cbn [ip_entry fst]. unfold bge, slice_to in *.
    rewrite <- (firstn_skipn (length i_enc) (ip_key (snd x))), H2.
    pose proof (prefix_ge i_enc (skipn (length i_enc) (ip_key (snd x)))) as P.
    destruct (bcmp (i_enc ++ _) i_enc); congruence.
Qed.

End ReadById.

Lemma iden_match (r : row) (i_enc : bytes) :
  wf_row r = true -> Forall is_byte i_enc -> length i_enc = 16%nat ->
  beq (slice_to (length i_enc) (ip_key r)) i_enc = beq (r_iden r) (_dec_iden i_enc).
Proof.
  intros Hwf Hb Hl. destruct (ip_key_split r Hwf) as (_ & E & _). rewrite Hl, E.
  destruct (wf_row_spec r Hwf) as ((b & Ub & Hh & _) & _).
  unfold iden_bytes, _dec_iden. rewrite Ub.
  destruct (beq b i_enc) eqn:E1, (beq (r_iden r) (hexlify i_enc)) eqn:E2; try reflexivity.
  - apply beq_true in E1. subst b. rewrite Hh, (proj2 (beq_true _ _) eq_refl) in E2.
    discriminate.
  - apply beq_true in E2. rewrite E2, unhexlify_hexlify in Ub by assumption.
    injection Ub as ->. now rewrite (proj2 (beq_true _ _) eq_refl) in E1.
Qed.

Lemma enc_iden_bytes (iden i_enc : bytes) :
  _enc_iden iden = Ok i_enc -> Forall is_byte i_enc.
Proof.
  unfold _enc_iden. destruct (unhexlify iden) as [b|] eqn:U; [|discriminate].
  intros [= <-]. now apply unhexlify_bytes in U.
Qed.

Lemma getRowsById_on xxh64 (live : list (Z * row)) (s : store) (iden i_enc : bytes) :
  consistent xxh64 live s ->
  _enc_iden iden = Ok i_enc -> length i_enc = 16%nat -> i_enc <> repeat 255 16 ->
  exists l,
    _getRowsById s iden = Ok l /\
    Permutation l
      (map snd (filter (fun x => beq (r_iden (snd x)) (_dec_iden i_enc)) live)).
Proof.
  intros C Ei Hl Nf.
  pose proof (enc_iden_bytes iden i_enc Ei) as Hb.
  unfold _getRowsById. rewrite Ei. cbn [bind].
  destruct (set_range_some i_enc (index_ip s) sentinel_hi) as (c & R).
  { apply (c_ip_in _ _ _ C). now left. }
  { pose proof (max_key_ge i_enc 20 Hb ltac:(lia)) as G.
    unfold bge. cbn [sentinel_hi fst]. unfold MAX_INDEX_KEY.
    destruct (bcmp (repeat 255 20) i_enc); congruence. }
  rewrite R.
  destruct (getRowsById_loop_rows xxh64 live s C i_enc) with (c := c)
    as (l & E & P); [|exact R|].
  { rewrite Hl. intros E. apply Nf. rewrite <- E. reflexivity. }
  exists l. split; [exact E|].
  erewrite filter_ext_in; [exact P|].
  intros [pk r] Hin. cbn [snd]. symmetry.
  destruct (consistent_row _ _ _ pk r C Hin) as (Hwf & _).
  now apply iden_match.
Qed.

(** X6: on a store reached by a session that keeps the tables in step,
    [_getRowsById] with an iden of 32 hex digits other than thirty-two [f]
    returns the stored rows whose iden is that text in lower case, each
    once, and no other row. *)
Theorem getRowsById_rows xxh64 py (fuel : nat) (ops : list op) (s : store)
    (iden i_enc : bytes) :
  (forall b, 0 <= xxh64 b < 2 ^ 64) ->
  reached_by xxh64 py fuel ops s ->
  _enc_iden iden = Ok i_enc -> length i_enc = 16%nat -> i_enc <> repeat 255 16 ->
  exists l,
    _getRowsById s iden = Ok l /\
    Permutation l
      (map snd (filter (fun x => beq (r_iden (snd x)) (_dec_iden i_enc)) (stored s))).
Proof.
  intros Hx Hr. apply (getRowsById_on xxh64), (reached_consistent xxh64 py fuel ops s Hx Hr).
Qed.

Lemma getRowsById_rows_witness :
  exists l,
    _getRowsById mixed_session_store (repeat 99 32) = Ok l /\
    Permutation l
      (map snd (filter (fun x => beq (r_iden (snd x)) (_dec_iden (repeat 204 16)))
                       (stored mixed_session_store))).
Proof.
  apply (getRowsById_rows (fun _ => 0) Python3 10 mixed_session mixed_session_store
           (repeat 99 32) (repeat 204 16));
    [ intros; lia | split; vm_compute; reflexivity | reflexivity | reflexivity
    | discriminate ].
Defined.

(** ** Reading by iden and property *)

Section ReadByIdProp.

Variable xxh64 : bytes -> Z.
Variable live : list (Z * row).
Variable s : store.
Hypothesis C : consistent xxh64 live s.
Variable first_key : bytes.
Variable valu : option valu.
Hypothesis not_sentinel : MAX_INDEX_KEY <> first_key.

Let hit (x : Z * row) : bool :=
  beq (ip_key (snd x)) first_key &&
  match valu with
  | Some w => valu_eqb (r_valu (snd x)) w
  | None => true
  end.

(** The loop of [_getRowsByIdProp] over a tail of the index whose keys are
    not below [first_key]: it returns the rows of the pairs under that very
    key that have the value asked for. *)
Lemma getRowsByIdProp_loop_spec (it : list Lmdb.entry) :
  forall ret,
    StronglySorted elt it -> incl it (index_ip s) -> In sentinel_hi it ->
    Forall (fun e => bge (fst e) first_key = true) it ->
    exists hits,
      getRowsByIdProp_loop s it first_key valu ret = Ok (ret ++ map snd hits) /\
      NoDup hits /\
      forall x, In x hits <-> In x live /\ hit x = true /\ In (ip_entry x) it.
Proof.
  induction it as [|[key value] it IH]; intros ret HS Hi Hsent Hge; [destruct Hsent|].
  cbn [getRowsByIdProp_loop].
  inversion HS as [|? ? HS' Hall]; subst. rewrite Forall_forall in Hall.
  inversion Hge as [|? ? Hk Hge']; subst. cbn [fst] in Hk.
  destruct (beq key first_key) eqn:Hm; cbn [negb].
  - apply beq_true in Hm.
    assert (In (key, value) (index_ip s)) as Hin by (apply Hi; now left).
    apply (c_ip_in _ _ _ C) in Hin as [Es|Hl].
    { exfalso. unfold sentinel_hi in Es. injection Es as -> _. contradiction. }
    apply in_map_iff in Hl as ([pk r] & E & Hx).
    pose proof E as E'. unfold ip_entry in E'. cbn [fst snd] in E'. injection E' as <- <-.
    pose proof (fetch_row xxh64 live s pk r (c_models _ _ _ C) Hx) as F.
    cbn [msgenpack] in F. rewrite F. cbn [bind].
    assert (In sentinel_hi it) as Hsent'.
    { destruct Hsent as [Es|Hs]; [|exact Hs]. exfalso.
      unfold sentinel_hi in Es. injection Es as _ Ev. now apply pack_int_nonempty in Ev. }
    assert (incl it (index_ip s)) as Hi' by (intros e He; apply Hi; now right).
    assert (forall hits,
              (forall x, In x hits <-> In x live /\ hit x = true /\ In (ip_entry x) it) ->
              ~ In (pk, r) hits) as Fresh.
    { intros hits Ih Hh. apply Ih in Hh as (_ & _ & Hh).
      rewrite E in Hh. apply (elt_irrefl (ip_key r, msgenpack (VInt pk))). now apply Hall. }
    assert (forall x, In x live -> In (ip_entry x) (ip_entry (pk, r) :: it) ->
                      x = (pk, r) \/ In (ip_entry x) it) as Split.
    { intros x H1 [H3|H3]; [left | now right].
      apply (ip_entry_inj xxh64 live s _ _ C H1 Hx). now symmetry. }
    assert (beq (ip_key r) first_key = true) as Hkey by now apply beq_true.
    destruct (match valu with
              | Some w => negb (valu_eqb (r_valu r) w)
              | None => false
              end) eqn:D.
    + destruct (IH ret HS' Hi' Hsent' Hge') as (hits & Eh & Nh & Ih).
      exists hits. split; [exact Eh|]. split; [exact Nh|].
      intros x. rewrite Ih. split.
      * intros (H1 & H2 & H3). split; [exact H1|]. split; [exact H2|]. now right.
      * intros (H1 & H2 & H3). split; [exact H1|]. split; [exact H2|].
        destruct (Split x H1 H3) as [->|H4]; [|exact H4]. exfalso.
        unfold hit in H2. cbn [snd] in H2. rewrite Hkey in H2. cbn [andb] in H2.
        destruct valu as [w|]; [|discriminate]. rewrite H2 in D. discriminate.
    + destruct (IH (ret ++ [r]) HS' Hi' Hsent' Hge') as (hits & Eh & Nh & Ih).
      exists ((pk, r) :: hits). split; [|split].
      * rewrite Eh, <- app_assoc. reflexivity.
      * constructor; [now apply Fresh | exact Nh].
      * intros x. cbn [In]. rewrite Ih. split.
        -- intros [<-|(H1 & H2 & H3)].
           ++ split; [exact Hx|]. split; [|left; now rewrite E].
              unfold hit. cbn [snd]. rewrite Hkey. cbn [andb].
              destruct valu as [w|]; [|reflexivity].
              now destruct (valu_eqb (r_valu r) w).
           ++ auto.
        -- intros (H1 & H2 & H3). destruct (Split x H1 H3) as [->|H4]; auto.
  - exists []. rewrite app_nil_r. split; [reflexivity|]. split; [constructor|].
    intros x. split; [intros []|]. intros (H1 & H2 & H3). exfalso.
    unfold hit in H2. apply andb_prop in H2 as [H2 _]. apply beq_true in H2.
    assert (bcmp key first_key <> Gt) as Hle.
    { rewrite <- H2. destruct H3 as [E|H3].
      - apply (f_equal fst) in E. cbn [fst ip_entry] in E. rewrite E, bcmp_refl.
        discriminate.
      - apply Hall in H3. now apply elt_key_le in H3. }
    unfold bge in Hk. unfold beq in Hm.
    destruct (bcmp key first_key); congruence.
Qed.

Lemma getRowsByIdProp_loop_rows (c : nat) :
  Lmdb.set_range first_key (index_ip s) = Some c ->
  exists l,
    getRowsByIdProp_loop s (Lmdb.iternext (index_ip s) c) first_key valu [] = Ok l /\
    Permutation l (map snd (filter hit live)).
Proof.
  intros R. pose proof (c_ip_sorted _ _ _ C) as HS.
  destruct (set_range_split first_key _ HS c R) as (_ & Hafter & Hc).
  destruct (ip_cursor xxh64 live s c first_key C R) as (_ & _ & Hhi & _ & _).
  unfold Lmdb.iternext.
  destruct (getRowsByIdProp_loop_spec (skipn c (index_ip s)) []) as (hits & E & Nh & Ih).
  - rewrite <- (firstn_skipn c (index_ip s)) in HS. now apply SS_app_inv in HS.
  - intros e He. rewrite <- (firstn_skipn c (index_ip s)). apply in_or_app. now right.
  - rewrite Hafter. apply filter_In. split; [|exact Hhi]. apply (c_ip_in _ _ _ C). now left.
  - rewrite Hafter. apply Forall_forall. intros e He. now apply filter_In in He.
  - exists (map snd hits). split; [exact E|]. apply Permutation_map.
    apply NoDup_Permutation; [exact Nh | apply NoDup_filter, (live_NoDup _ _ _ C)|].
    intros x. rewrite Ih, filter_In. split; [tauto|]. intros [H1 H2].
    split; [exact H1|]. split; [exact H2|].
    rewrite Hafter. apply filter_In.
    split; [apply (c_ip_in _ _ _ C); right; now apply in_map|].
    unfold hit in H2. apply andb_prop in H2 as [H2 _]. apply beq_true in H2.
    cbn [ip_entry fst]. unfold bge. now rewrite H2, bcmp_refl.
Qed.

End ReadByIdProp.

Lemma ip_key_match (r : row) (i_enc prop : bytes) :
  wf_row r = true -> Forall is_byte i_enc -> length i_enc = 16%nat ->
  len prop < 2 ^ 32 ->
  beq (ip_key r) (i_enc ++ msgenpack (VStr prop)) =
  beq (r_iden r) (_dec_iden i_enc) && beq (r_prop r) prop.
Proof.
  intros Hwf Hb Hl Hp. rewrite <- (iden_match r i_enc Hwf Hb Hl).
  destruct (ip_key_split r Hwf) as (_ & E & _). rewrite Hl, E.
  destruct (ip_first_key i_enc prop Hb Hl Hp) as (_ & _ & Hrow).
  apply Bool.eq_iff_eq_true. rewrite andb_true_iff, !beq_true. split.
  - intros K. apply Hrow; [exact Hwf|]. rewrite <- K. apply firstn_all.
  - intros [A B]. unfold ip_key. now rewrite A, B.
Qed.

Lemma getRowsByIdProp_on xxh64 (live : list (Z * row)) (s : store)
    (iden i_enc prop : bytes) (valu : option valu) :
  consistent xxh64 live s ->
  _enc_iden iden = Ok i_enc -> length i_enc = 16%nat -> len prop < 2 ^ 32 ->
  exists l,
    _getRowsByIdProp s iden prop valu = Ok l /\
    Permutation l
      (map snd
         (filter (fun x => beq (r_iden (snd x)) (_dec_iden i_enc) &&
                           beq (r_prop (snd x)) prop &&
                           match valu with
                           | Some w => valu_eqb (r_valu (snd x)) w
                           | None => true
                           end) live)).
Proof.
  intros C Ei Hl Hp.
  pose proof (enc_iden_bytes iden i_enc Ei) as Hb.
  destruct (ip_first_key i_enc prop Hb Hl Hp) as (Hge & Ns & _).
  unfold _getRowsByIdProp. rewrite Ei. cbn [bind]. cbv zeta.
  destruct (set_range_some (i_enc ++ msgenpack (VStr prop)) (index_ip s) sentinel_hi)
    as (c & R); [apply (c_ip_in _ _ _ C); now left | exact Hge |].
  rewrite R.
  destruct (getRowsByIdProp_loop_rows xxh64 live s C
              (i_enc ++ msgenpack (VStr prop)) valu) with (c := c) as (l & E & P);
    [|exact R|].
  { intros K. apply Ns. rewrite <- K. apply firstn_all. }
  exists l. split; [exact E|].
  erewrite filter_ext_in; [exact P|].
  intros [pk r] Hin. cbn [snd].
  destruct (consistent_row _ _ _ pk r C Hin) as (Hwf & _).
  now rewrite (ip_key_match r i_enc prop Hwf Hb Hl Hp).
Qed.

(** X7: on a store reached by a session that keeps the tables in step,
    [_getRowsByIdProp] with an iden of 32 hex digits and a property returns
    the stored rows of that iden and property, each once; with a value, only
    those whose value equals it. *)
Theorem getRowsByIdProp_rows xxh64 py (fuel : nat) (ops : list op) (s : store)
    (iden i_enc prop : bytes) (valu : option valu) :
  (forall b, 0 <= xxh64 b < 2 ^ 64) ->
  reached_by xxh64 py fuel ops s ->
  _enc_iden iden = Ok i_enc -> length i_enc = 16%nat -> len prop < 2 ^ 32 ->
  exists l,
    _getRowsByIdProp s iden prop valu = Ok l /\
    Permutation l
      (map snd
         (filter (fun x => beq (r_iden (snd x)) (_dec_iden i_enc) &&
                           beq (r_prop (snd x)) prop &&
                           match valu with
                           | Some w => valu_eqb (r_valu (snd x)) w
                           | None => true
                           end) (stored s))).
Proof.
  intros Hx Hr. apply (getRowsByIdProp_on xxh64), (reached_consistent xxh64 py fuel ops s Hx Hr).
Qed.

Lemma getRowsByIdProp_rows_witness :
  exists l,
    _getRowsByIdProp mixed_session_store (repeat 99 32) [98; 97; 114] (Some (VInt 7))
      = Ok l /\
    Permutation l
      (map snd
         (filter (fun x => beq (r_iden (snd x)) (_dec_iden (repeat 204 16)) &&
                           beq (r_prop (snd x)) [98; 97; 114] &&
                           valu_eqb (r_valu (snd x)) (VInt 7))
                 (stored mixed_session_store))).
Proof.
  apply (getRowsByIdProp_rows (fun _ => 0) Python3 10 mixed_session mixed_session_store
           (repeat 99 32) (repeat 204 16) [98; 97; 114] (Some (VInt 7)));
    [ intros; lia | split; vm_compute; reflexivity | reflexivity | reflexivity
    | vm_compute; reflexivity ].
Defined.

(** ** Deleting, as seen through the readers *)

Lemma filter_neg_nil {A} (f : A -> bool) (l : list A) :
  filter f (filter (fun x => negb (f x)) l) = [].
Proof.
  induction l as [|x l IH]; [reflexivity|]. cbn [filter].
  destruct (f x) eqn:E; cbn [negb filter]; [exact IH|]. now rewrite E.
Qed.

Lemma consistent_rows_length xxh64 (live : list (Z * row)) (s : store) :
  consistent xxh64 live s -> length (rows s) = length live.
Proof.
  intros C. rewrite (m_rows _ _ _ (c_models _ _ _ C)). apply length_map.
Qed.

(** X8: on a store reached by a session that keeps the tables in step,
    [_delRowsById] with an iden of 32 hex digits other than thirty-two [f],
    given a step for every row, returns: the rows of that iden are gone,
    every other row is stored as before, and [_getRowsById] then finds
    nothing under the iden. *)
Theorem delRowsById_stored xxh64 py (fuel : nat) (ops : list op) (s : store)
    (iden i_enc : bytes) (n : nat) :
  (forall b, 0 <= xxh64 b < 2 ^ 64) ->
  reached_by xxh64 py fuel ops s ->
  _enc_iden iden = Ok i_enc -> length i_enc = 16%nat -> i_enc <> repeat 255 16 ->
  (length (rows s) < n)%nat ->
  exists s',
    _delRowsById xxh64 n s iden = Some (s', Ok tt) /\
    stored s' =
      filter (fun x => negb (beq (r_iden (snd x)) (_dec_iden i_enc))) (stored s) /\
    _getRowsById s' iden = Ok [].
Proof.
  intros Hx Hr Ei Hl Nf Hn.
  pose proof (reached_consistent xxh64 py fuel ops s Hx Hr) as C.
  pose proof (enc_iden_bytes iden i_enc Ei) as Hb.
  rewrite (consistent_rows_length _ _ _ C) in Hn.
  pose proof (delRowsById_outcome xxh64 (stored s) s iden n C) as O.
  destruct (_delRowsById xxh64 n s iden) as [[s' [[]|e]]|]; [| |lia].
  2:{ exfalso. destruct O as [_ O]. now apply Nf, (O i_enc). }
  destruct O as (i' & Ei' & C'). rewrite Ei in Ei'. injection Ei' as <-.
  assert (consistent xxh64
            (filter (fun x => negb (beq (r_iden (snd x)) (_dec_iden i_enc))) (stored s))
            s') as C2.
  { erewrite filter_ext_in; [exact C'|].
    intros [pk r] Hin. cbn [snd]. f_equal. symmetry.
    destruct (consistent_row _ _ _ pk r C Hin) as (Hwf & _). now apply iden_match. }
  exists s'. split; [reflexivity|]. split; [apply (stored_consistent _ _ _ C2)|].
  destruct (getRowsById_on xxh64 _ s' iden i_enc C2 Ei Hl Nf) as (l & E & P).
  rewrite (filter_neg_nil (fun x => beq (r_iden (snd x)) (_dec_iden i_enc))) in P.
  apply Permutation_sym, Permutation_nil in P. now subst l.
Qed.

Lemma delRowsById_stored_witness :
  exists s',
    _delRowsById (fun _ => 0) 10 mixed_session_store (repeat 99 32) = Some (s', Ok tt) /\
    stored s' =
      filter (fun x => negb (beq (r_iden (snd x)) (_dec_iden (repeat 204 16))))
             (stored mixed_session_store) /\
    _getRowsById s' (repeat 99 32) = Ok [].
Proof.
  apply (delRowsById_stored (fun _ => 0) Python3 10 mixed_session mixed_session_store
           (repeat 99 32) (repeat 204 16) 10);
    [ intros; lia | split; vm_compute; reflexivity | reflexivity | reflexivity
    | discriminate | vm_compute; lia ].
Defined.

Lemma ip_prefix_match (r : row) (i_enc prop : bytes) :
  wf_row r = true -> Forall is_byte i_enc -> length i_enc = 16%nat ->
  len prop < 2 ^ 32 ->
  let first_key := i_enc ++ msgenpack (VStr prop) in
  beq (slice_to (length first_key) (ip_key r)) first_key =
  beq (r_iden r) (_dec_iden i_enc) && beq (r_prop r) prop.
Proof.
  intros Hwf Hb Hl Hp first_key.
  rewrite <- (ip_key_match r i_enc prop Hwf Hb Hl Hp). fold first_key.
  destruct (ip_first_key i_enc prop Hb Hl Hp) as (_ & _ & Hrow). fold first_key in Hrow.
  apply Bool.eq_iff_eq_true. rewrite !beq_true. split.
  - intros K. destruct (Hrow r Hwf K) as [A B]. unfold ip_key, first_key.
    now rewrite A, B.
  - intros K. rewrite K. apply firstn_all.
Qed.

(** X9: on a store reached by a session that keeps the tables in step,
    [_delRowsByIdProp] with an iden of 32 hex digits, a property and no
    value, given a step for every row, returns: the rows of that iden and
    property are gone, every other row is stored as before, and
    [_getRowsByIdProp] then finds nothing under the pair. *)
Theorem delRowsByIdProp_stored xxh64 py (fuel : nat) (ops : list op) (s : store)
    (iden i_enc prop : bytes) (n : nat) :
  (forall b, 0 <= xxh64 b < 2 ^ 64) ->
  reached_by xxh64 py fuel ops s ->
  _enc_iden iden = Ok i_enc -> length i_enc = 16%nat -> len prop < 2 ^ 32 ->
  (length (rows s) < n)%nat ->
  exists s',
    _delRowsByIdProp xxh64 n s iden prop None = Some (s', Ok tt) /\
    stored s' =
      filter (fun x => negb (beq (r_iden (snd x)) (_dec_iden i_enc) &&
                             beq (r_prop (snd x)) prop)) (stored s) /\
    _getRowsByIdProp s' iden prop None = Ok [].
Proof.
  intros Hx Hr Ei Hl Hp Hn.
  pose proof (reached_consistent xxh64 py fuel ops s Hx Hr) as C.
  pose proof (enc_iden_bytes iden i_enc Ei) as Hb.
  rewrite (consistent_rows_length _ _ _ C) in Hn.
  pose proof (delRowsByIdProp_outcome xxh64 (stored s) s iden prop n C) as O.
  destruct (_delRowsByIdProp xxh64 n s iden prop None) as [[s' [[]|e]]|]; [| |lia].
  2:{ exfalso. destruct O as [_ O]. now apply (O i_enc). }
  destruct O as (i' & Ei' & C'). rewrite Ei in Ei'. injection Ei' as <-.
  cbv zeta in C'.
  assert (consistent xxh64
            (filter (fun x => negb (beq (r_iden (snd x)) (_dec_iden i_enc) &&
                                    beq (r_prop (snd x)) prop)) (stored s)) s') as C2.
  { erewrite filter_ext_in; [exact C'|].
    intros [pk r] Hin. cbn [snd]. f_equal. symmetry.
    destruct (consistent_row _ _ _ pk r C Hin) as (Hwf & _).
    now apply ip_prefix_match. }
  exists s'. split; [reflexivity|]. split; [apply (stored_consistent _ _ _ C2)|].
  destruct (getRowsByIdProp_on xxh64 _ s' iden i_enc prop None C2 Ei Hl Hp) as (l & E & P).
  rewrite (filter_ext _ (fun x => beq (r_iden (snd x)) (_dec_iden i_enc) &&
                                  beq (r_prop (snd x)) prop)) in P
    by (intros x; apply andb_true_r).
  rewrite (filter_neg_nil (fun x => beq (r_iden (snd x)) (_dec_iden i_enc) &&
                                    beq (r_prop (snd x)) prop)) in P.
  apply Permutation_sym, Permutation_nil in P. now subst l.
Qed.

Lemma delRowsByIdProp_stored_witness :
  exists s',
    _delRowsByIdProp (fun _ => 0) 10 mixed_session_store (repeat 99 32) [98; 97; 114] None
      = Some (s', Ok tt) /\
    stored s' =
      filter (fun x => negb (beq (r_iden (snd x)) (_dec_iden (repeat 204 16)) &&
                             beq (r_prop (snd x)) [98; 97; 114]))
             (stored mixed_session_store) /\
    _getRowsByIdProp s' (repeat 99 32) [98; 97; 114] None = Ok [].
Proof.
  apply (delRowsByIdProp_stored (fun _ => 0) Python3 10 mixed_session mixed_session_store
           (repeat 99 32) (repeat 204 16) [98; 97; 114] 10);
    [ intros; lia | split; vm_compute; reflexivity | reflexivity | reflexivity
    | vm_compute; reflexivity | vm_compute; lia ].
Defined.

(** ** Queries by property, in terms of rows *)

Lemma pack_neg_gt (t b : Z) :
  MIN_INT_VAL <= t < 0 -> 0 <= b < 2 ^ 64 ->
  bcmp (Msgpack.pack_int t) (Msgpack.pack_int b) = Gt.
Proof.
  intros Ht Hb. apply bcmp_gt_lt. unfold MIN_INT_VAL in Ht. unfold Msgpack.pack_int.
  destruct (Z.leb_spec 0 t); [lia|]. destruct (Z.leb_spec 0 b); [|lia].
  change (2 ^ 8) with 256 in *. change (2 ^ 16) with 65536 in *.
  change (2 ^ 32) with 4294967296 in *. change (2 ^ 64) with 18446744073709551616 in *.
  change (2 ^ 7) with 128 in *. change (2 ^ 15) with 32768 in *.
  change (2 ^ 31) with 2147483648 in *.
  repeat match goal with
         | |- context [?x <? ?y] => destruct (Z.ltb_spec x y)
         | |- context [?x <=? ?y] => destruct (Z.leb_spec x y)
         end; try lia; apply bcmp_cons_lt; lia.
Qed.

(** The encoded timestamp of a row against the encoded bounds of a query. *)
Lemma time_window (mintime maxtime : option Z) (t : Z) :
  int64 t = true -> wf_bound mintime = true -> wf_bound maxtime = true ->
  let mint := match mintime with Some a => msgenpack (VInt a) | None => [] end in
  let maxt := match maxtime with Some b => msgenpack (VInt b) | None => MAX_TIME_ENC end in
  bge (Msgpack.pack_int t) mint && blt (Msgpack.pack_int t) maxt =
  in_times mintime maxtime t.
Proof.
  intros Ht Ha Hb mint maxt. unfold int64 in Ht.
  apply andb_true_iff in Ht as [T1 T2]. apply Z.leb_le in T1, T2.
  assert (forall b, 0 <= b < 2 ^ 64 ->
            bcmp (Msgpack.pack_int t) (Msgpack.pack_int b) =
            if t <? 0 then Gt else t ?= b) as Cmp.
  { intros b Hb'. destruct (Z.ltb_spec t 0) as [Hn|Hn].
    - apply pack_neg_gt; lia.
    - unfold MAX_INT_VAL in T2. destruct (Z.compare_spec t b) as [->|Hlt|Hgt].
      + apply bcmp_refl.
      + apply pack_uint_lt; lia.
      + apply bcmp_gt_lt, pack_uint_lt; lia. }
  assert (bge (Msgpack.pack_int t) mint =
          match mintime with
          | Some a => (t <? 0) || (a <=? t)
          | None => true
          end) as E1.
  { subst mint. destruct mintime as [a|]; cbn [msgenpack].
    - cbn [wf_bound] in Ha. apply andb_true_iff in Ha as [A1 A2].
      apply Z.leb_le in A1. apply Z.ltb_lt in A2.
      unfold bge. rewrite (Cmp a) by lia.
      destruct (Z.ltb_spec t 0); [reflexivity|]. cbn [orb].
      destruct (Z.compare_spec t a), (Z.leb_spec a t); try reflexivity; lia.
    - unfold bge. pose proof (pack_int_nonempty t) as N.
      destruct (Msgpack.pack_int t); [contradiction | reflexivity]. }
  assert (blt (Msgpack.pack_int t) maxt =
          (0 <=? t) && (t <? match maxtime with Some b => b | None => MAX_INT_VAL end))
    as E2.
  { assert (forall b, 0 <= b < 2 ^ 64 ->
              blt (Msgpack.pack_int t) (Msgpack.pack_int b) = (0 <=? t) && (t <? b)) as B.
    { intros b Hb'. unfold blt. rewrite (Cmp b Hb').
      destruct (Z.ltb_spec t 0), (Z.leb_spec 0 t); try lia; reflexivity. }
    subst maxt. destruct maxtime as [b|]; cbn [msgenpack].
    - cbn [wf_bound] in Hb. apply andb_true_iff in Hb as [B1 B2].
      apply Z.leb_le in B1. apply Z.ltb_lt in B2. apply B. lia.
    - unfold MAX_TIME_ENC. apply B. unfold MAX_INT_VAL. lia. }
  rewrite E1, E2. unfold in_times.
  destruct mintime as [a|]; [|now rewrite andb_true_r].
  destruct (Z.ltb_spec t 0), (Z.leb_spec 0 t); try lia; cbn [orb andb]; reflexivity.
Qed.

(** The window of keys a query by property scans, as a condition on the
    row: its property, its value when one is asked for and matched on the
    index alone, and its timestamp. *)
Lemma in_window_selected xxh64 (prop : bytes) (valu : option valu)
    (mintime maxtime : option Z) (r : row) :
  (forall b, 0 <= xxh64 b < 2 ^ 64) ->
  len prop < 2 ^ 32 -> wf_query valu = true -> exact_valu valu = true ->
  wf_bound mintime = true -> wf_bound maxtime = true -> wf_row r = true ->
  in_window xxh64 prop valu mintime maxtime r = selected prop valu mintime maxtime r.
Proof.
  intros Hx Hp Hq He Ha Hb Hwf.
  destruct (wf_row_spec r Hwf) as (_ & _ & Hv & Ht).
  assert (int64 (r_time r) = true) as Ht'.
  { unfold int64, MIN_INT_VAL, MAX_INT_VAL. apply andb_true_iff.
    split; apply Z.leb_le; lia. }
  destruct (beq (r_prop r) prop &&
            match valu with
            | Some v => valu_eqb (r_valu r) v
            | None => true
            end) eqn:Same.
  - unfold selected. rewrite Same. cbn [andb].
    apply andb_true_iff in Same as [Ep Ev]. apply beq_true in Ep.
    rewrite <- (time_window mintime maxtime (r_time r) Ht' Ha Hb). cbv zeta.
    unfold in_window. cbv zeta. destruct valu as [v|]; cbn [is_none].
    + apply valu_eqb_true in Ev. unfold pvt_key. rewrite Ep, Ev.
      unfold bge, blt. cbn [msgenpack]. now rewrite !bcmp_app_l.
    + unfold pt_key. rewrite Ep. unfold bge, blt. cbn [msgenpack app].
      now rewrite !bcmp_app_l.
  - unfold selected. rewrite Same. cbn [andb].
    destruct (in_window xxh64 prop valu mintime maxtime r) eqn:W; [|reflexivity].
    exfalso. unfold in_window in W. cbv zeta in W. apply andb_true_iff in W as [W1 W2].
    destruct (window_row xxh64 prop valu _ _ r Hx Hp Hq Hwf W1 W2) as [Ep Ev].
    rewrite (proj2 (beq_true _ _) Ep) in Same. cbn [andb] in Same.
    destruct valu as [v|]; [|discriminate]. cbn [wf_query exact_valu] in *.
    destruct (enc_val_key_same xxh64 _ _ Hx Hv Hq Ev)
      as [E|(a & b & _ & -> & _ & Hl & _)].
    + apply valu_eqb_true in E. congruence.
    + apply Z.ltb_lt in He. pose proof (str_len_le b). lia.
Qed.

Lemma skipn_head {A} (d : A) (l : list A) (c : nat) (e : A) (tl : list A) :
  skipn c l = e :: tl -> (c < length l)%nat /\ nth c l d = e /\ skipn (S c) l = tl.
Proof.
  intros E.
  assert (c < length l)%nat as Hc.
  { destruct (Nat.lt_ge_cases c (length l)) as [|Hge]; [assumption|].
    rewrite skipn_all2 in E by exact Hge. discriminate. }
  rewrite (skipn_cons_nth d l c Hc) in E. injection E as E1 E2. auto.
Qed.

Section ReadByProp.

Variable xxh64 : bytes -> Z.
Variables first_key last_key p_enc : bytes.
Variable valu : option valu.
Variable hashed : bool.
Variable live : list (Z * row).
Variable s : store.
Hypothesis C : consistent xxh64 live s.

Let w : which := if is_none valu then PT else PVT.
Let wkey (r : row) : bytes := if is_none valu then pt_key r else pvt_key xxh64 r.
Let inwin (x : Z * row) : bool :=
  bge (wkey (snd x)) first_key && blt (wkey (snd x)) last_key.
Let went (x : Z * row) : Lmdb.entry := (wkey (snd x), Msgpack.pack_int (fst x)).
Let fetch (e : Lmdb.entry) : list row :=
  match _getRowByPkValEnc s (snd e) false with
  | Ok (_, r) => [r]
  | Raise _ => []
  end.

Hypothesis same_valu :
  forall x, In x live -> inwin x = true ->
            match valu with
            | Some v => valu_eqb v (r_valu (snd x)) = true
            | None => True
            end.

(** The reading and counting loop of [_getRowsByProp] over the entries [W]
    of the window that lie before the first entry at or above [last_key]:
    it goes through them in order until the limit stops it, fetches their
    rows unless it only counts, and leaves the store as it was. *)
Lemma getRowsByProp_loop_scan (limit : option Z) (cnt : bool) :
  forall W fuel c ret count e tl,
    skipn c (get_index s w) = W ++ e :: tl ->
    Forall (fun y => exists x, In x live /\ inwin x = true /\ y = went x) W ->
    bge (fst e) last_key = true ->
    (length W < fuel)%nat ->
    getRowsByProp_loop xxh64 fuel s w c p_enc last_key valu hashed limit cnt false
      ret count =
    Some (Ok (s, (ret ++ (if cnt then [] else flat_map fetch (take_limit limit count W)),
                  count + Z.of_nat (length (take_limit limit count W))))).
Proof.
  induction W as [|y W IH]; intros fuel c ret count e tl Hsk HW He Hf;
    (destruct fuel as [|f]; [cbn [length] in Hf; lia|]); cbn [getRowsByProp_loop].
  - cbn [app] in Hsk.
    destruct (skipn_head (A:=Lmdb.entry) ([], []) _ c e tl Hsk) as (_ & Ei & _).
    unfold Lmdb.item. rewrite Ei. destruct e as [key value]. cbn [fst] in He.
    rewrite He. cbn [take_limit flat_map length]. rewrite Z.add_0_r.
    destruct cnt; now rewrite app_nil_r.
  - cbn [app] in Hsk.
    inversion HW as [|? ? ([pk r] & Hx & Hw & Ey) HW']; subst.
    destruct (skipn_head (A:=Lmdb.entry) ([], []) _ c _ _ Hsk) as (Hc & Ei & Hsk').
    unfold Lmdb.item. rewrite Ei. unfold went. cbn [fst snd].
    pose proof Hw as Hw'. unfold inwin in Hw'. cbn [snd] in Hw'.
    apply andb_true_iff in Hw' as [_ Hlt].
    rewrite bge_not_blt, Hlt. cbn [negb].
    pose proof (fetch_row xxh64 live s pk r (c_models _ _ _ C) Hx) as F.
    cbn [msgenpack] in F.
    assert (getRowsByProp_body xxh64 s w c (Msgpack.pack_int pk) p_enc valu hashed cnt
              false ret = Ok (Some (s, if negb cnt then ret ++ [r] else ret))) as B.
    { unfold getRowsByProp_body.
      pose proof (same_valu _ Hx Hw) as Hv. cbn [snd] in Hv.
      destruct cnt, hashed; cbn [negb orb andb]; try reflexivity;
        rewrite F; cbn [bind]; try reflexivity;
        (destruct valu as [v|]; [rewrite Hv|]; reflexivity). }
    rewrite B. cbn [negb take_limit length].
    assert (fetch (wkey r, Msgpack.pack_int pk) = [r]) as Fe
      by (unfold fetch; cbn [snd]; now rewrite F).
    destruct (limit_hit limit (count + 1)) eqn:L.
    + cbn [flat_map length]. rewrite Fe. change (Z.of_nat 1) with 1.
      destruct cnt; cbn [negb app]; [now rewrite app_nil_r | reflexivity].
    + unfold Lmdb.next.
      assert (S c < length (get_index s w))%nat as Hn.
      { destruct (Nat.lt_ge_cases (S c) (length (get_index s w))) as [|Hge]; [assumption|].
        rewrite skipn_all2 in Hsk' by exact Hge. now destruct W. }
      destruct (Nat.ltb_spec (S c) (length (get_index s w))) as [_|]; [|lia].
      rewrite (IH f (S c) _ (count + 1) e tl Hsk' HW' He) by (cbn [length] in Hf; lia).
      cbn [flat_map]. rewrite Fe, Nat2Z.inj_succ. unfold Z.succ.
      rewrite (Z.add_comm (Z.of_nat _) 1), Z.add_assoc.
      destruct cnt; cbn [negb]; [reflexivity|]. now rewrite <- app_assoc.
Qed.

End ReadByProp.

Lemma sorted_partition (k : bytes) (l : Lmdb.table) :
  StronglySorted elt l ->
  l = filter (fun e => blt (fst e) k) l ++ filter (fun e => bge (fst e) k) l.
Proof.
  induction l as [|x l IH]; intros HS; [reflexivity|].
  cbn [filter]. rewrite (bge_not_blt (fst x) k). destruct (blt (fst x) k) eqn:E; cbn [negb].
  - inversion HS; subst. cbn [app]. f_equal. auto.
  - assert (bge (fst x) k = true) as G by (now rewrite bge_not_blt, E).
    pose proof (sorted_keys_ge x l k HS G) as Hall.
    inversion Hall as [|? ? _ Hall']; subst.
    rewrite (filter_all_true (fun e => bge (fst e) k) l Hall').
    rewrite filter_all_false; [reflexivity|].
    eapply Forall_impl; [|exact Hall']. intros e He. cbn beta in He.
    rewrite bge_not_blt in He. now apply negb_true_iff in He.
Qed.

Lemma SS_elt_NoDup (l : Lmdb.table) : StronglySorted elt l -> NoDup l.
Proof.
  induction 1 as [|x l _ IH Hall]; constructor; [|exact IH].
  intros Hin. rewrite Forall_forall in Hall. apply (elt_irrefl x). now apply Hall.
Qed.

Lemma take_limit_firstn {A} (z : Z) (l : list A) :
  forall count, take_limit (Some z) count l = firstn (Z.to_nat (Z.max 1 (z - count))) l.
Proof.
  induction l as [|x l IH]; intros count; cbn [take_limit limit_hit].
  - now rewrite firstn_nil.
  - destruct (Z.geb_spec (count + 1) z) as [H|H].
    + replace (Z.to_nat (Z.max 1 (z - count))) with 1%nat by lia. reflexivity.
    + replace (Z.to_nat (Z.max 1 (z - count)))
        with (S (Z.to_nat (Z.max 1 (z - (count + 1))))) by lia.
      cbn [firstn]. f_equal. apply IH.
Qed.

Lemma take_limit_none {A} (l : list A) : forall count, take_limit None count l = l.
Proof.
  induction l as [|x l IH]; intros count; cbn [take_limit limit_hit]; [reflexivity|].
  f_equal. apply IH.
Qed.

Lemma take_limit_limited {A} (limit : option Z) (l : list A) :
  take_limit limit 0 l = firstn (limited limit (length l)) l /\
  length (take_limit limit 0 l) = limited limit (length l).
Proof.
  destruct limit as [z|]; cbn [limited].
  - rewrite take_limit_firstn, Z.sub_0_r, length_firstn.
    split; [|apply Nat.min_comm].
    destruct (Nat.le_ge_cases (length l) (Z.to_nat (Z.max 1 z))) as [H|H].
    + rewrite Nat.min_l by exact H. now rewrite firstn_all, firstn_all2.
    + now rewrite Nat.min_r.
  - rewrite take_limit_none, firstn_all. auto.
Qed.

Lemma Forall_exists_map {A B} (P : A -> Prop) (f : A -> B) (l : list B) :
  Forall (fun y => exists x, P x /\ y = f x) l ->
  exists hits, l = map f hits /\ Forall P hits.
Proof.
  induction 1 as [|y l (x & Hx & ->) _ (hits & -> & IH)].
  - exists []. split; [reflexivity | constructor].
  - exists (x :: hits). split; [reflexivity | now constructor].
Qed.

(** A row in the window of a query for a value matched on the index alone
    is a row of the property and of the value asked for. *)
Lemma window_valu xxh64 (live : list (Z * row)) (s : store) (prop : bytes)
    (valu : option valu) (mintime maxtime : option Z) :
  (forall b, 0 <= xxh64 b < 2 ^ 64) ->
  consistent xxh64 live s -> len prop < 2 ^ 32 ->
  wf_query valu = true -> exact_valu valu = true ->
  forall x, In x live ->
    in_window xxh64 prop valu mintime maxtime (snd x) = true ->
    r_prop (snd x) = prop /\
    match valu with
    | Some v => valu_eqb v (r_valu (snd x)) = true
    | None => True
    end.
Proof.
  intros Hx C Hp Hq He [pk r] Hin Hw. cbn [snd] in *.
  destruct (consistent_row _ _ _ pk r C Hin) as (Hwf & _).
  destruct (wf_row_spec r Hwf) as (_ & _ & Hv & _).
  unfold in_window in Hw. cbn zeta in Hw. apply andb_true_iff in Hw as [W1 W2].
  destruct (window_row xxh64 prop valu _ _ r Hx Hp Hq Hwf W1 W2) as [Ep Ev].
  split; [exact Ep|]. destruct valu as [v|]; [|exact I].
  cbn [wf_query exact_valu] in Hq, He. apply valu_eqb_true.
  symmetry in Ev.
  destruct (enc_val_key_same xxh64 v (r_valu r) Hx Hq Hv Ev)
    as [E|(a & b & -> & _ & Ha & _)]; [exact E|].
  apply Z.ltb_lt in He. pose proof (str_len_le a). lia.
Qed.

(** [_getRowsByProp] reading or counting, for a value matched on the index
    alone, on a consistent store with a step for every row: the rows of the
    window, in the order of the index, cut at the limit; the store is left
    as it was. *)
Lemma getRowsByProp_on xxh64 py (live : list (Z * row)) (s : store) (prop : bytes)
    (valu : option valu) (mintime maxtime : option Z) (n : nat) :
  (forall b, 0 <= xxh64 b < 2 ^ 64) ->
  consistent xxh64 live s -> len prop < 2 ^ 32 ->
  wf_query valu = true -> exact_valu valu = true ->
  (length live < n)%nat ->
  exists l,
    Permutation l
      (map snd (filter (fun x => in_window xxh64 prop valu mintime maxtime (snd x)) live)) /\
    StronglySorted
      (fun a b => bcmp (if is_none valu then pt_key a else pvt_key xxh64 a)
                       (if is_none valu then pt_key b else pvt_key xxh64 b) <> Gt) l /\
    forall limit cnt,
      _getRowsByProp xxh64 py n s prop valu limit mintime maxtime cnt false =
      Some (s, Ok (if cnt then QCount (Z.of_nat (limited limit (length l)))
                   else QRows (firstn (limited limit (length l)) l))).
Proof.
  intros Hx C Hp Hq He Hn.
  set (vk := match valu with Some v => _enc_val_key xxh64 v | None => [] end).
  set (mint := match mintime with Some t => msgenpack (VInt t) | None => [] end).
  set (maxt := match maxtime with Some t => msgenpack (VInt t) | None => MAX_TIME_ENC end).
  set (first_key := msgenpack (VStr prop) ++ vk ++ mint).
  set (last_key := msgenpack (VStr prop) ++ vk ++ maxt).
  set (wkey := fun r : row => if is_none valu then pt_key r else pvt_key xxh64 r).
  set (went := fun x : Z * row => (wkey (snd x), Msgpack.pack_int (fst x))).
  assert (bge (fst sentinel_hi) last_key = true) as Hhi
    by apply (proj1 (bound_sentinels prop (vk ++ maxt))).
  assert (bge (fst sentinel_lo) first_key = false) as Hlo
    by apply (proj2 (bound_sentinels prop (vk ++ mint))).
  assert (bge (fst sentinel_hi) first_key = true) as Hhi1
    by apply (proj1 (bound_sentinels prop (vk ++ mint))).
  destruct (windex xxh64 [] [] valu live s C) as (HS & Hents & Hlive & Hsent).
  set (t := get_index s (if is_none valu then PT else PVT)) in *.
  destruct (set_range_some first_key t sentinel_hi Hsent Hhi1) as (c & R).
  destruct (set_range_split first_key t HS c R) as (_ & Hafter & Hc).
  assert (StronglySorted elt (skipn c t)) as HS2.
  { pose proof HS as HS'. rewrite <- (firstn_skipn c t) in HS'.
    now apply SS_app_inv in HS'. }
  pose proof (sorted_partition last_key _ HS2) as Part.
  set (W := filter (fun e => blt (fst e) last_key) (skipn c t)) in *.
  assert (In sentinel_hi (filter (fun e => bge (fst e) last_key) (skipn c t))) as Hs2.
  { apply filter_In. split; [|exact Hhi]. rewrite Hafter. apply filter_In. auto. }
  destruct (filter (fun e => bge (fst e) last_key) (skipn c t)) as [|e tl] eqn:Etl;
    [destruct Hs2|].
  assert (bge (fst e) last_key = true) as Hel.
  { assert (In e (filter (fun e => bge (fst e) last_key) (skipn c t))) as Hin
      by (rewrite Etl; now left).
    now apply filter_In in Hin. }
  assert (Forall (fun y => exists x,
                    (In x live /\ in_window xxh64 prop valu mintime maxtime (snd x) = true)
                    /\ y = went x) W) as HW.
  { apply Forall_forall. intros y Hy. apply filter_In in Hy as [Hy1 Hy2].
    rewrite Hafter in Hy1. apply filter_In in Hy1 as [Hy0 Hy1].
    destruct (Hents y Hy0) as [E|[E|(x & Hxl & E)]].
    - subst y. rewrite Hlo in Hy1. discriminate.
    - subst y. rewrite bge_not_blt, Hy2 in Hhi. discriminate.
    - exists x. subst y. cbn [fst] in Hy1, Hy2. split; [|reflexivity].
      split; [exact Hxl|]. unfold in_window. cbv zeta. apply andb_true_iff.
      split; [exact Hy1 | exact Hy2]. }
  destruct (Forall_exists_map _ went W HW) as (hits & EW & Hhits).
  assert (NoDup hits) as Nh.
  { apply (NoDup_map_inv went). rewrite <- EW. apply NoDup_filter, SS_elt_NoDup, HS2. }
  assert (length hits <= length live)%nat as Hlen.
  { apply NoDup_incl_length; [exact Nh|]. intros x Hin.
    rewrite Forall_forall in Hhits. now apply Hhits. }
  assert (forall k, flat_map (fun e : Lmdb.entry =>
                                match _getRowByPkValEnc s (snd e) false with
                                | Ok (_, r) => [r]
                                | Raise _ => []
                                end) (firstn k (map went hits)) =
                    firstn k (map snd hits)) as Fetch.
  { clear - Hhits C. induction Hhits as [|[pk r] hits [Hin _] _ IH]; intros [|k];
      try reflexivity.
    cbn [map firstn flat_map snd fst went].
    pose proof (fetch_row xxh64 live s pk r (c_models _ _ _ C) Hin) as F.
    cbn [msgenpack] in F. rewrite F. cbn [app]. f_equal. apply IH. }
  exists (map snd hits). split.
  - apply Permutation_map. apply NoDup_Permutation;
      [exact Nh | apply NoDup_filter, (live_NoDup _ _ _ C)|].
    intros x. rewrite filter_In. rewrite Forall_forall in Hhits. split; [apply Hhits|].
    intros [H1 H2].
    assert (In (went x) W) as Hw.
    { unfold in_window in H2. cbv zeta in H2. apply andb_true_iff in H2 as [H2 H3].
      apply filter_In. split; [|exact H3]. rewrite Hafter. apply filter_In.
      split; [apply (Hlive x H1) | exact H2]. }
    rewrite EW in Hw. apply in_map_iff in Hw as (x' & E & Hx').
    destruct (Hhits x' Hx') as [Hl' _].
    destruct x as [pk r], x' as [pk' r'].
    injection E as _ Ek.
    destruct (consistent_row _ _ _ pk r C H1) as (_ & Rk & _).
    destruct (consistent_row _ _ _ pk' r' C Hl') as (_ & Rk' & _).
    unfold MAX_PK in Rk, Rk'. apply pack_int_inj in Ek; [|lia|lia]. subst pk'.
    now rewrite (NoDup_fst_inj live pk r r' (m_nodup _ _ _ (c_models _ _ _ C)) H1 Hl').
  - split.
    { apply SS_map.
      assert (StronglySorted elt (map went hits)) as HSW
        by (rewrite <- EW; apply SS_filter, HS2).
      clear - HSW. induction hits as [|x hits IH]; [constructor|].
      cbn [map] in HSW. inversion HSW as [|? ? HS' Hall]; subst.
      constructor; [now apply IH|].
      apply Forall_forall. intros y Hy. rewrite Forall_forall in Hall.
      apply (elt_key_le (went x) (went y)), Hall. now apply in_map. }
    intros limit cnt.
    pose proof (getRowsByProp_loop_scan xxh64 first_key last_key (msgenpack (VStr prop))
                  valu (negb (is_none valu) && index0_eq py vk HASH_VAL_MARKER_ENC)
                  live s C) as L.
    specialize (L ltac:(intros x Hin Hw;
                        now apply (window_valu xxh64 live s prop valu mintime maxtime
                                     Hx C Hp Hq He x Hin))).
    specialize (L limit cnt W n c [] 0 e tl Part).
    specialize (L ltac:(rewrite EW; apply Forall_forall; intros y Hy;
                        apply in_map_iff in Hy as (x & <- & Hin);
                        rewrite Forall_forall in Hhits;
                        destruct (Hhits x Hin) as [H1 H2];
                        exists x; auto) Hel).
    specialize (L ltac:(rewrite EW, length_map; lia)).
    unfold _getRowsByProp. rewrite andb_false_r. cbv zeta.
    fold vk mint maxt first_key last_key t. rewrite R.
    unfold t. rewrite L. cbn [option_map bind with_txn app Z.add].
    destruct (take_limit_limited limit W) as [T1 T2].
    assert (length W = length hits) as HWl by (rewrite EW; apply length_map).
    rewrite HWl in T1, T2. rewrite length_map.
    destruct cnt.
    + do 5 f_equal. exact T2.
    + do 4 f_equal. rewrite <- Fetch, <- EW. f_equal. exact T1.
Qed.

Lemma filter_selected xxh64 (live : list (Z * row)) (s : store) (prop : bytes)
    (valu : option valu) (mintime maxtime : option Z) :
  (forall b, 0 <= xxh64 b < 2 ^ 64) ->
  consistent xxh64 live s -> len prop < 2 ^ 32 ->
  wf_query valu = true -> exact_valu valu = true ->
  wf_bound mintime = true -> wf_bound maxtime = true ->
  forall x, In x live ->
    in_window xxh64 prop valu mintime maxtime (snd x) =
    selected prop valu mintime maxtime (snd x).
Proof.
  intros Hx C Hp Hq He Ha Hb [pk r] Hin. cbn [snd].
  destruct (consistent_row _ _ _ pk r C Hin) as (Hwf & _).
  now apply in_window_selected.
Qed.

(** X10: on a store reached by a session that keeps the tables in step,
    [_getRowsByProp] for a property, an integer or short string value or
    none, and time bounds that are not negative, given a step for every
    row, leaves the store as it was and returns stored rows of that
    property and value whose timestamp is not negative, at or above
    [mintime] and below [maxtime] (below the largest timestamp without
    one): all of them, each once, or with a limit the first ones by the
    index up to the limit, a limit below one counting as one. *)
Theorem getRowsByProp_selected xxh64 py (fuel : nat) (ops : list op) (s : store)
    (prop : bytes) (valu : option valu) (mintime maxtime : option Z) (n : nat) :
  (forall b, 0 <= xxh64 b < 2 ^ 64) ->
  reached_by xxh64 py fuel ops s ->
  len prop < 2 ^ 32 -> wf_query valu = true -> exact_valu valu = true ->
  wf_bound mintime = true -> wf_bound maxtime = true ->
  (length (rows s) < n)%nat ->
  exists l,
    Permutation l
      (map snd (filter (fun x => selected prop valu mintime maxtime (snd x)) (stored s))) /\
    forall limit,
      _getRowsByProp xxh64 py n s prop valu limit mintime maxtime false false =
      Some (s, Ok (QRows (firstn (limited limit (length l)) l))).
Proof.
  intros Hx Hr Hp Hq He Ha Hb Hn.
  pose proof (reached_consistent xxh64 py fuel ops s Hx Hr) as C.
  rewrite (consistent_rows_length _ _ _ C) in Hn.
  destruct (getRowsByProp_on xxh64 py (stored s) s prop valu mintime maxtime n
              Hx C Hp Hq He Hn) as (l & P & _ & E).
  exists l. split; [|intros limit; apply (E limit false)].
  erewrite filter_ext_in; [exact P|].
  intros x Hin. symmetry. now apply (filter_selected xxh64 (stored s) s).
Qed.

Lemma getRowsByProp_selected_witness :
  exists l,
    Permutation l
      (map snd (filter (fun x => selected [102; 111; 111] (Some (VInt 1)) None None (snd x))
                       (stored mixed_session_store))) /\
    forall limit,
      _getRowsByProp (fun _ => 0) Python3 10 mixed_session_store [102; 111; 111]
        (Some (VInt 1)) limit None None false false =
      Some (mixed_session_store, Ok (QRows (firstn (limited limit (length l)) l))).
Proof.
  apply (getRowsByProp_selected (fun _ => 0) Python3 10 mixed_session mixed_session_store
           [102; 111; 111] (Some (VInt 1)) None None 10);
    [ intros; lia | split; vm_compute; reflexivity | vm_compute; reflexivity
    | reflexivity | reflexivity | reflexivity | reflexivity | vm_compute; lia ].
Defined.

(** X11: on a store reached by a session that keeps the tables in step,
    [_getSizeByProp] for a property, an integer or short string value or
    none, and time bounds that are not negative, given a step for every
    row, returns the number of stored rows of the property and value with a
    timestamp between the bounds, or with a limit the smaller of that
    number and the limit, a limit below one counting as one. *)
Theorem getSizeByProp_counts xxh64 py (fuel : nat) (ops : list op) (s : store)
    (prop : bytes) (valu : option valu) (limit mintime maxtime : option Z) (n : nat) :
  (forall b, 0 <= xxh64 b < 2 ^ 64) ->
  reached_by xxh64 py fuel ops s ->
  len prop < 2 ^ 32 -> wf_query valu = true -> exact_valu valu = true ->
  wf_bound mintime = true -> wf_bound maxtime = true ->
  (length (rows s) < n)%nat ->
  _getSizeByProp xxh64 py n s prop valu limit mintime maxtime =
  Some (s, Ok (QCount
                 (Z.of_nat
                    (limited limit
                       (length (filter (fun x => selected prop valu mintime maxtime (snd x))
                                       (stored s))))))).
Proof.
  intros Hx Hr Hp Hq He Ha Hb Hn.
  pose proof (reached_consistent xxh64 py fuel ops s Hx Hr) as C.
  rewrite (consistent_rows_length _ _ _ C) in Hn.
  destruct (getRowsByProp_on xxh64 py (stored s) s prop valu mintime maxtime n
              Hx C Hp Hq He Hn) as (l & P & _ & E).
  unfold _getSizeByProp. rewrite (E limit true).
  rewrite (Permutation_length P), length_map.
  erewrite filter_ext_in; [reflexivity|].
  intros x Hin. now apply (filter_selected xxh64 (stored s) s).
Qed.

Lemma getSizeByProp_counts_witness :
  _getSizeByProp (fun _ => 0) Python3 10 mixed_session_store [102; 111; 111]
    (Some (VInt 1)) (Some 0) None None =
  Some (mixed_session_store,
        Ok (QCount
              (Z.of_nat
                 (limited (Some 0)
                    (length (filter (fun x => selected [102; 111; 111] (Some (VInt 1))
                                                None None (snd x))
                                    (stored mixed_session_store))))))).
Proof.
  apply (getSizeByProp_counts (fun _ => 0) Python3 10 mixed_session mixed_session_store
           [102; 111; 111] (Some (VInt 1)) (Some 0) None None 10);
    [ intros; lia | split; vm_compute; reflexivity | vm_compute; reflexivity
    | reflexivity | reflexivity | reflexivity | reflexivity | vm_compute; lia ].
Defined.

(** X12: on a store reached by a session that keeps the tables in step,
    [_delRowsByProp] for a property, an integer or short string value or
    none, and time bounds that are not negative, given a step for every
    row, returns without raising: the rows of that property and value with
    a timestamp between the bounds are gone, every other row is stored as
    before, and [_getSizeByProp] with the same arguments then counts
    nothing. *)
Theorem delRowsByProp_stored xxh64 py (fuel : nat) (ops : list op) (s : store)
    (prop : bytes) (valu : option valu) (mintime maxtime : option Z) (n : nat) :
  (forall b, 0 <= xxh64 b < 2 ^ 64) ->
  reached_by xxh64 py fuel ops s ->
  len prop < 2 ^ 32 -> wf_query valu = true -> exact_valu valu = true ->
  wf_bound mintime = true -> wf_bound maxtime = true ->
  (length (rows s) < n)%nat ->
  exists s' q,
    _delRowsByProp xxh64 py n s prop valu mintime maxtime = Some (s', Ok q) /\
    stored s' =
      filter (fun x => negb (selected prop valu mintime maxtime (snd x))) (stored s) /\
    forall limit,
      _getSizeByProp xxh64 py n s' prop valu limit mintime maxtime =
      Some (s', Ok (QCount 0)).
Proof.
  intros Hx Hr Hp Hq He Ha Hb Hn.
  pose proof (reached_consistent xxh64 py fuel ops s Hx Hr) as C.
  rewrite (consistent_rows_length _ _ _ C) in Hn.
  pose proof (delRowsByProp_outcome xxh64 py (stored s) s prop valu mintime maxtime n
                Hx C Hp Hq He) as O.
  destruct (_delRowsByProp xxh64 py n s prop valu mintime maxtime) as [[s' [q|e]]|];
    [|destruct O|lia].
  set (live' := filter (fun x => negb (selected prop valu mintime maxtime (snd x)))
                       (stored s)).
  assert (consistent xxh64 live' s') as C'.
  { unfold live'. erewrite filter_ext_in; [exact O|].
    intros x Hin. cbn beta. f_equal. symmetry.
    now apply (filter_selected xxh64 (stored s) s). }
  exists s', q. split; [reflexivity|]. split; [apply (stored_consistent _ _ _ C')|].
  intros limit.
  assert (length live' < n)%nat as Hn'.
  { pose proof (filter_length_le
                  (fun x => negb (selected prop valu mintime maxtime (snd x))) (stored s)).
    unfold live'. lia. }
  destruct (getRowsByProp_on xxh64 py live' s' prop valu mintime maxtime n
              Hx C' Hp Hq He Hn') as (l & P & _ & E).
  unfold _getSizeByProp. rewrite (E limit true).
  assert (l = []) as ->; [|now destruct limit].
  apply Permutation_nil. symmetry. etransitivity; [exact P|].
  erewrite filter_ext_in.
  - unfold live'. rewrite (filter_neg_nil
                             (fun x => selected prop valu mintime maxtime (snd x))).
    reflexivity.
  - intros x Hin. now apply (filter_selected xxh64 live' s').
Qed.

Lemma delRowsByProp_stored_witness :
  exists s' q,
    _delRowsByProp (fun _ => 0) Python3 10 mixed_session_store [102; 111; 111]
      (Some (VInt 1)) None None = Some (s', Ok q) /\
    stored s' =
      filter (fun x => negb (selected [102; 111; 111] (Some (VInt 1)) None None (snd x)))
             (stored mixed_session_store) /\
    forall limit,
      _getSizeByProp (fun _ => 0) Python3 10 s' [102; 111; 111] (Some (VInt 1)) limit
        None None = Some (s', Ok (QCount 0)).
Proof.
  apply (delRowsByProp_stored (fun _ => 0) Python3 10 mixed_session mixed_session_store
           [102; 111; 111] (Some (VInt 1)) None None 10);
    [ intros; lia | split; vm_compute; reflexivity | vm_compute; reflexivity
    | reflexivity | reflexivity | reflexivity | reflexivity | vm_compute; lia ].
Defined.

(** ** The largest iden and the sentinel *)

(** On a consistent store every pair of the I-P index at or above sixteen
    octets [ff] has a key that starts with them: the rows of the largest
    iden, and the sentinel. *)
Lemma max_iden_entry xxh64 (live : list (Z * row)) (s : store) (i_enc : bytes)
    (e : Lmdb.entry) :
  consistent xxh64 live s -> i_enc = repeat 255 16 ->
  In e (index_ip s) -> bge (fst e) i_enc = true ->
  slice_to (length i_enc) (fst e) = i_enc.
Proof.
  intros C -> Hin Hge. apply (c_ip_in _ _ _ C) in Hin as [->|Hl]; [reflexivity|].
  apply in_map_iff in Hl as ([pk r] & <- & Hx). cbn [ip_entry fst snd] in *.
  destruct (consistent_row _ _ _ pk r C Hx) as (Hwf & _).
  apply (between_prefix (repeat 255 16) (ip_key r) (repeat 255 4)).
  - unfold bge in Hge. destruct (bcmp (ip_key r) (repeat 255 16)); congruence.
  - change (repeat 255 16 ++ repeat 255 4) with MAX_INDEX_KEY.
    now rewrite (ip_key_below_max r Hwf).
Qed.

Lemma getRowsById_loop_max xxh64 (live : list (Z * row)) (s : store) (i_enc : bytes) :
  consistent xxh64 live s -> i_enc = repeat 255 16 ->
  forall it ret,
    incl it (index_ip s) -> In sentinel_hi it ->
    Forall (fun e => bge (fst e) i_enc = true) it ->
    exists e, getRowsById_loop s it i_enc ret = Raise e.
Proof.
  intros C Ei. induction it as [|[key value] it IH]; intros ret Hi Hs Hge; [destruct Hs|].
  cbn [getRowsById_loop].
  pose proof (Forall_inv Hge) as Hk. pose proof (Forall_inv_tail Hge) as Hge'.
  cbn [fst] in Hk.
  assert (In (key, value) (index_ip s)) as Hin by (apply Hi; now left).
  pose proof (max_iden_entry xxh64 live s i_enc _ C Ei Hin Hk) as Hpre.
  cbn [fst] in Hpre. rewrite (proj2 (beq_true _ _) Hpre).
  cbn [negb].
  apply (c_ip_in _ _ _ C) in Hin as [Es|Hl].
  - unfold sentinel_hi in Es. injection Es as -> ->. eexists. reflexivity.
  - apply in_map_iff in Hl as ([pk r] & E & Hx).
    unfold ip_entry in E. cbn [fst snd] in E. injection E as <- <-.
    pose proof (fetch_row xxh64 live s pk r (c_models _ _ _ C) Hx) as F.
    cbn [msgenpack] in F. rewrite F. cbn [bind]. apply IH.
    + intros e He. apply Hi. now right.
    + destruct Hs as [Es|Hs]; [|exact Hs]. exfalso.
      unfold sentinel_hi in Es. injection Es as _ Ev. now apply pack_int_nonempty in Ev.
    + exact Hge'.
Qed.

Lemma delRowsById_loop_max xxh64 (i_enc : bytes) (fuel : nat) :
  i_enc = repeat 255 16 ->
  forall live s c,
    consistent xxh64 live s ->
    Lmdb.set_range i_enc (index_ip s) = Some c ->
    del_outcome (fun _ => False) True (fuel <= length live)%nat
      (delRowsById_loop xxh64 fuel s c i_enc).
Proof.
  intros Ei. induction fuel as [|f IH]; intros live s c C R;
    [cbn [del_outcome delRowsById_loop]; lia|].
  cbn [delRowsById_loop].
  destruct (ip_cursor xxh64 live s c i_enc C R) as (Hc & Hin & Hhi & Hblock & Hnext).
  pose proof (c_ip_sorted _ _ _ C) as HS.
  destruct (table_cursor _ _ _ HS R) as (_ & _ & Hkey & _).
  destruct (Lmdb.item (index_ip s) c) as [key value] eqn:Eit. cbn [fst] in Hkey.
  pose proof Hin as Hpre.
  apply (max_iden_entry xxh64 live s i_enc _ C Ei) in Hpre; [|exact Hkey].
  cbn [fst] in Hpre. rewrite (proj2 (beq_true _ _) Hpre).
  cbn [negb].
  destruct (cdelete_sorted_spec _ c HS Hc) as (t' & D & Et' & S' & I').
  rewrite D. rewrite Eit in I'.
  apply (c_ip_in _ _ _ C) in Hin as Hcase. destruct Hcase as [Es|Hl].
  - unfold sentinel_hi in Es. injection Es as -> ->. exact I.
  - apply in_map_iff in Hl as ([pk r] & E & Hx).
    unfold ip_entry in E. cbn [fst snd msgenpack] in E. injection E as <- <-.
    destruct (consistent_row _ _ _ pk r C Hx) as (Hwf & Hpk & G & Tip & Tpvt & Tpt).
    set (s1 := set_index s IP t').
    destruct (list_eq_dec Z.eq_dec (slice_from (length i_enc) (ip_key r))
                (msgenpack (VStr (r_prop r)))) as [Ep|Np].
    + destruct (delRowAndIndices_row xxh64 s1 pk r (Some i_enc)
                  (Some (slice_from (length i_enc) (ip_key r))) false true true None
                  Hwf Hpk G I ltac:(discriminate) Ep ltac:(discriminate)
                  ltac:(intros _; split; apply Tpvt) ltac:(intros _; split; apply Tpt))
        as (s2 & E2 & R2 & N2 & Iip & Ipvt & Ipt).
      step_match E2.
      assert (consistent xxh64 (without pk live) s2) as C2.
      { apply (consistent_without xxh64 live s s2 pk r C Hx); try assumption.
        - rewrite Iip. exact S'.
        - intros e. rewrite Iip. apply I'.
        - apply Ipvt.
        - apply Ipvt.
        - apply Ipt.
        - apply Ipt. }
      assert (Lmdb.set_range i_enc (index_ip s2) = Some c) as R'.
      { rewrite Iip. cbn [s1 set_index index_ip]. rewrite Et'.
        apply set_range_cdelete; [exact HS | exact R |].
        apply Hnext. unfold sentinel_hi. intros [= _ Ev].
        now apply pack_int_nonempty in Ev. }
      pose proof (without_length pk r live Hx) as Hlen.
      specialize (IH (without pk live) s2 c C2 R').
      revert IH. apply del_outcome_impl; [auto|auto|lia].
    + rewrite (delRowAndIndices_wrong xxh64 s1 pk r (Some i_enc)
                 (Some (slice_from (length i_enc) (ip_key r))) false true true None
                 Hwf Hpk G I ltac:(discriminate) ltac:(intros _; exact Tpvt)
                 ltac:(intros _; exact Tpt)).
      * exact I.
      * right. left. split; [reflexivity|]. cbn [or_else].
        unfold pvt_key. intros E. apply app_inv_tail in E. contradiction.
Qed.

(** X13: the largest iden cannot be read or deleted by iden. On a store
    reached by a session that keeps the tables in step, [_getRowsById] with
    an iden of thirty-two [f] raises, and [_delRowsById], given a step for
    every row, raises and leaves the store as it was: the scan takes the
    sentinel of the index for a row of the iden. *)
Theorem max_iden_hits_sentinel xxh64 py (fuel : nat) (ops : list op) (s : store)
    (iden : bytes) (n : nat) :
  (forall b, 0 <= xxh64 b < 2 ^ 64) ->
  reached_by xxh64 py fuel ops s ->
  _enc_iden iden = Ok (repeat 255 16) ->
  (length (rows s) < n)%nat ->
  (exists e, _getRowsById s iden = Raise e) /\
  (exists e, _delRowsById xxh64 n s iden = Some (s, Raise e)).
Proof.
  intros Hx Hr Ei Hn.
  pose proof (reached_consistent xxh64 py fuel ops s Hx Hr) as C.
  rewrite (consistent_rows_length _ _ _ C) in Hn.
  destruct (set_range_some (repeat 255 16) (index_ip s) sentinel_hi) as (c & R);
    [apply (c_ip_in _ _ _ C); now left | reflexivity |].
  pose proof (c_ip_sorted _ _ _ C) as HS.
  destruct (set_range_split _ _ HS c R) as (_ & Hafter & Hc).
  split.
  - unfold _getRowsById. rewrite Ei. cbn [bind]. rewrite R.
    apply (getRowsById_loop_max xxh64 (stored s) s _ C eq_refl).
    + unfold Lmdb.iternext. intros e He.
      rewrite <- (firstn_skipn c (index_ip s)). apply in_or_app. now right.
    + unfold Lmdb.iternext. rewrite Hafter. apply filter_In.
      split; [apply (c_ip_in _ _ _ C); now left | reflexivity].
    + unfold Lmdb.iternext. rewrite Hafter. apply Forall_forall.
      intros e He. now apply filter_In in He.
  - unfold _delRowsById. rewrite Ei, R.
    pose proof (delRowsById_loop_max xxh64 (repeat 255 16) n eq_refl (stored s) s c C R)
      as L.
    destruct (delRowsById_loop xxh64 n s c (repeat 255 16)) as [[[s' u]|e]|];
      cbn [del_outcome option_map with_txn] in *; [destruct L | eauto | lia].
Qed.

Lemma max_iden_hits_sentinel_witness :
  (exists e, _getRowsById max_iden_store (repeat 102 32) = Raise e) /\
  (exists e, _delRowsById (fun _ => 0) 10 max_iden_store (repeat 102 32)
             = Some (max_iden_store, Raise e)).
Proof.
  apply (max_iden_hits_sentinel (fun _ => 0) Python3 10 max_iden_session max_iden_store
           (repeat 102 32) 10);
    [ intros; lia | split; vm_compute; reflexivity | reflexivity | vm_compute; lia ].
Defined.

(** ** Opening the environment again *)

Lemma put_present (e : Lmdb.entry) (t : Lmdb.table) :
  StronglySorted elt t -> In e t -> Lmdb.put e t = t.
Proof.
  induction 1 as [|x t HS IH Hall]; intros Hin; [destruct Hin|].
  cbn [Lmdb.put]. rewrite Forall_forall in Hall.
  destruct Hin as [->|Hin]; [now rewrite ecmp_refl|].
  pose proof (Hall e Hin) as L. unfold elt in L.
  rewrite ecmp_antisym, L. cbn [CompOpp]. f_equal. now apply IH.
Qed.

Lemma largest_pk_last (r : Lmdb.rtable) (ip pvt pt : Lmdb.table) (n : Z) :
  _get_largest_pk (mkStore r ip pvt pt n) = last (map fst r) 0.
Proof.
  unfold _get_largest_pk, Lmdb.rlast, _dec_pk_key. cbn [rows].
  destruct r as [|x r] using rev_ind; [reflexivity|].
  rewrite rev_app_distr, map_app. cbn [map rev app]. rewrite last_last. now destruct x.
Qed.

(** X14: opening the environment again on the tables of a store reached by
    a session that keeps the tables in step leaves the four tables as they
    are and sets the counter just above the largest stored primary key,
    which is never above where the counter was; it raises
    [DatabaseLimitReached] when that key is [MAX_PK]. *)
Theorem reopen_keeps_tables xxh64 py (fuel : nat) (ops : list op) (s : store) :
  (forall b, 0 <= xxh64 b < 2 ^ 64) ->
  reached_by xxh64 py fuel ops s ->
  _initDbConn (rows s) (index_ip s) (index_pvt s) (index_pt s) =
    (if last (row_pks s) 0 =? MAX_PK then Raise DatabaseLimitReached
     else Ok (set_next_pk s (last (row_pks s) 0 + 1))) /\
  last (row_pks s) 0 + 1 <= next_pk s.
Proof.
  intros Hx Hr.
  pose proof (reached_consistent xxh64 py fuel ops s Hx Hr) as C.
  pose proof (c_models _ _ _ C) as M.
  split.
  - unfold _initDbConn. cbv zeta.
    rewrite (put_present (MAX_INDEX_KEY, []) (index_ip s) (c_ip_sorted _ _ _ C))
      by (apply (c_ip_in _ _ _ C); now left).
    rewrite (put_present (MAX_INDEX_KEY, []) (index_pvt s) (m_pvt_sorted _ _ _ M))
      by (apply (m_pvt_in _ _ _ M); right; now left).
    rewrite (put_present ([0], []) (index_pvt s) (m_pvt_sorted _ _ _ M))
      by (apply (m_pvt_in _ _ _ M); now left).
    rewrite (put_present (MAX_INDEX_KEY, []) (index_pt s) (m_pt_sorted _ _ _ M))
      by (apply (m_pt_in _ _ _ M); now left).
    rewrite largest_pk_last. fold (row_pks s).
    destruct (last (row_pks s) 0 =? MAX_PK); reflexivity.
  - destruct (consistent_pks _ _ _ C) as (E & _). rewrite E.
    pose proof (c_next _ _ _ C) as N. pose proof (c_next_range _ _ _ C) as R.
    destruct (stored s) as [|x l] eqn:El; [cbn [map last]; lia|].
    assert (In (last (map fst (x :: l)) 0) (map fst (x :: l))) as Hin.
    { destruct (exists_last (l:=map fst (x :: l)) ltac:(discriminate)) as (l' & a & ->).
      rewrite last_last. apply in_or_app. right. now left. }
    apply in_map_iff in Hin as (y & <- & Hy).
    rewrite Forall_forall in N. specialize (N y Hy). cbn beta in N. lia.
Qed.

Lemma reopen_keeps_tables_witness :
  _initDbConn (rows mixed_session_store) (index_ip mixed_session_store)
    (index_pvt mixed_session_store) (index_pt mixed_session_store) =
    (if last (row_pks mixed_session_store) 0 =? MAX_PK then Raise DatabaseLimitReached
     else Ok (set_next_pk mixed_session_store (last (row_pks mixed_session_store) 0 + 1))) /\
  last (row_pks mixed_session_store) 0 + 1 <= next_pk mixed_session_store.
Proof.
  apply (reopen_keeps_tables (fun _ => 0) Python3 10 mixed_session mixed_session_store);
    [ intros; lia | split; vm_compute; reflexivity ].
Defined.

(** ** Range queries with a closed or an open upper bound *)

(** [_rowsByMinmax] with no limit on a store that models [live]: the rows
    it returns are rows of the property with an integer value in the
    interval, and it returns every such row whose value is above [lo], or
    equal to a non-negative [lo]. *)
Lemma rowsByMinmax_interval xxh64 (live : list (Z * row)) (s : store) (p : bytes)
    (lo hi : Z) (rc : bool) :
  (forall b, 0 <= xxh64 b < 2 ^ 64) ->
  models xxh64 live s -> len p < 2 ^ 32 ->
  - 2 ^ 63 <= lo -> lo <= hi -> hi <= 2 ^ 63 - 1 ->
  exists l,
    _rowsByMinmax xxh64 s p lo hi None rc false = Ok (QRows l) /\
    (forall r, In r l ->
       In r (map snd live) /\ r_prop r = p /\
       exists v, r_valu r = VInt v /\ lo <= v /\ (if rc then v <= hi else v < hi)) /\
    (forall r v, In r (map snd live) -> r_prop r = p -> r_valu r = VInt v ->
       lo <= v -> (if rc then v <= hi else v < hi) ->
       0 <= lo \/ lo < v -> In r l).
Proof.
  intros Hx M Hp Hlo Hle Hhi.
  destruct (rowsByMinmax_rows xxh64 _ s M p lo hi None rc Hle)
    as (rsn & rsp & E & Hn & Hpz).
  exists (rsn ++ rsp). split; [exact E|]. split.
  - intros r Hr. apply in_app_or in Hr as [Hr|Hr].
    + destruct (Z.ltb_spec lo 0) as [Hneg|Hneg]; [|subst rsn; destruct Hr].
      destruct Hn as (landed & HL & _ & SC).
      destruct (scanned_sound xxh64 _ _ _ _ r SC Hr) as (pk & Hin & Hc).
      destruct (live_wf xxh64 _ s M pk r Hin) as [Hwr _].
      destruct (wf_row_spec r Hwr) as (_ & Hpl & _ & _).
      apply (bwd_cands_row xxh64 Hx _ s M p Hp pk r) in Hc; try assumption; try lia.
      2:{ intros x Hxin. destruct HL as [->|(x' & -> & _ & Ex)]; [destruct Hxin|].
          destruct Hxin as [<-|[]]. exact Ex. }
      destruct Hc as [C1 C2].
      assert (r_prop r = p) as Ep.
      { apply (row_cmp_match_bwd r p lo (Z.min (-1) hi)); try lia.
        - destruct C1 as [-> | ->]; discriminate.
        - destruct ((hi >=? 0) || rc); [exact C2 | rewrite C2; discriminate]. }
      split; [apply in_map_iff; now exists (pk, r)|]. split; [exact Ep|].
      subst p. rewrite !row_cmp_same_prop in *.
      destruct C1 as [C1|C1].
      * destruct (proj1 (vcmp_landed (r_valu r) lo (Z.min (-1) hi) _ Hneg ltac:(lia))
                    (conj C1 C2)) as [Ev Hb].
        exists lo. split; [exact Ev|].
        destruct (Z.geb_spec hi 0), rc; cbn [orb] in Hb; lia.
      * destruct (proj1 (vcmp_bwd (r_valu r) lo (Z.min (-1) hi) _ Hneg ltac:(lia))
                    (conj C1 C2)) as (z & Ev & Hz & Hb).
        exists z. split; [exact Ev|].
        destruct (Z.geb_spec hi 0), rc; cbn [orb] in Hb; lia.
    + destruct (Z.geb_spec hi 0) as [Hpos|Hpos]; [|subst rsp; destruct Hr].
      destruct Hpz as (limit' & _ & SC).
      destruct (scanned_sound xxh64 _ _ _ _ r SC Hr) as (pk & Hin & Hc).
      destruct (live_wf xxh64 _ s M pk r Hin) as [Hwr _].
      destruct (wf_row_spec r Hwr) as (_ & Hpl & _ & _).
      apply (fwd_cands_row xxh64 Hx _ s M p Hp pk r) in Hc; try assumption; try lia.
      destruct Hc as [C1 C2].
      assert (r_prop r = p) as Ep.
      { apply (row_cmp_match_fwd r p (Z.max 0 lo) hi); try lia; auto.
        destruct rc; [exact C2 | rewrite C2; discriminate]. }
      split; [apply in_map_iff; now exists (pk, r)|]. split; [exact Ep|].
      subst p. rewrite !row_cmp_same_prop in *.
      destruct (proj1 (vcmp_fwd (r_valu r) (Z.max 0 lo) hi rc ltac:(lia) ltac:(lia))
                  (conj C1 C2)) as (z & Ev & Hz & Hb).
      exists z. split; [exact Ev|]. destruct rc; lia.
  - intros r v Hr Ep Ev Hv1 Hv2 Hslip.
    apply in_map_iff in Hr as ([pk r'] & Er & Hin). cbn [snd] in Er. subst r'.
    subst p. apply in_or_app.
    destruct (Z_lt_ge_dec v 0) as [Hvn|Hvp].
    + left. destruct (Z.ltb_spec lo 0) as [Hneg|Hneg]; [|lia].
      destruct Hn as (landed & HL & _ & SC).
      apply (scanned_complete xxh64 _ s M _ _ pk r SC Hin).
      apply (bwd_cands_row_below xxh64 Hx _ s M (r_prop r) Hp pk r); try assumption;
        try lia; rewrite !row_cmp_same_prop.
      * apply (proj2 (vcmp_bwd (r_valu r) lo (Z.min (-1) hi) ((hi >=? 0) || rc)
                        Hneg ltac:(lia))).
        exists v. split; [exact Ev|]. split; [lia|].
        destruct (Z.geb_spec hi 0), rc; cbn [orb]; lia.
      * apply (proj2 (vcmp_bwd (r_valu r) lo (Z.min (-1) hi) ((hi >=? 0) || rc)
                        Hneg ltac:(lia))).
        exists v. split; [exact Ev|]. split; [lia|].
        destruct (Z.geb_spec hi 0), rc; cbn [orb]; lia.
    + right. destruct (Z.geb_spec hi 0) as [Hpos|Hpos]; [|destruct rc; lia].
      destruct Hpz as (limit' & Hnone & SC). rewrite (Hnone eq_refl) in SC.
      apply (scanned_complete xxh64 _ s M _ _ pk r SC Hin).
      apply (fwd_cands_row xxh64 Hx _ s M (r_prop r) Hp pk r); try assumption; try lia.
      rewrite !row_cmp_same_prop.
      apply (proj2 (vcmp_fwd (r_valu r) (Z.max 0 lo) hi rc ltac:(lia) ltac:(lia))).
      exists v. split; [exact Ev|]. destruct rc; lia.
Qed.

(** ** Counting against reading in the range queries *)

Lemma subrange_loop_count (s : store) (last_key : bytes)
    (term_cmp : bytes -> bytes -> bool) (limit : option Z) (it : list Lmdb.entry) :
  forall ret count ret' count' ret0,
    subrange_loop s it last_key term_cmp limit false ret count = Ok (ret', count') ->
    subrange_loop s it last_key term_cmp limit true ret0 count = Ok (ret0, count') /\
    count' - count = Z.of_nat (length ret') - Z.of_nat (length ret).
Proof.
  induction it as [|[key value] it IH]; intros ret count ret' count' ret0 H;
    cbn [subrange_loop] in *.
  - injection H as <- <-. split; [reflexivity | lia].
  - destruct (term_cmp (slice_to (length last_key) key) last_key).
    + injection H as <- <-. split; [reflexivity | lia].
    + cbn [negb bind] in *.
      destruct (_getRowByPkValEnc s value false) as [[s1 r]|e]; cbn [bind] in H;
        [|discriminate].
      destruct (limit_hit limit (count + 1)).
      * injection H as <- <-. rewrite length_app. cbn [length].
        split; [reflexivity | lia].
      * destruct (IH _ _ _ _ ret0 H) as [E L]. rewrite length_app in L. cbn [length] in L.
        split; [exact E | lia].
Qed.

Lemma subrangeRows_count xxh64 (s : store) (p_enc : bytes) (first_val last_val : Z)
    (limit : option Z) (right_closed : bool) (q : qres) :
  _subrangeRows xxh64 s p_enc first_val last_val limit right_closed false = Ok q ->
  exists l,
    q = QRows l /\
    _subrangeRows xxh64 s p_enc first_val last_val limit right_closed true =
      Ok (QCount (Z.of_nat (length l))).
Proof.
  unfold _subrangeRows. cbv zeta.
  destruct (Lmdb.set_range _ (index_pvt s)) as [c|]; [|discriminate].
  match goal with
  | |- context [bind ?m _] => destruct m as [it|e]; cbn [bind]; [|discriminate]
  end.
  match goal with
  | |- context [subrange_loop ?s ?it ?lk ?tc ?lim false [] 0] =>
      destruct (subrange_loop s it lk tc lim false [] 0) as [[ret count]|e] eqn:E;
        cbn [bind]; [|discriminate];
        destruct (subrange_loop_count s lk tc lim it [] 0 ret count [] E) as [E' L]
  end.
  intros [= <-]. exists ret. split; [reflexivity|].
  rewrite E'. cbn [bind]. do 2 f_equal. cbn [length] in L. lia.
Qed.

(** [_rowsByMinmax] counting returns the number of rows it returns when
    reading, with the same bounds and limit. *)
Lemma rowsByMinmax_count xxh64 (s : store) (p : bytes) (lo hi : Z) (limit : option Z)
    (rc : bool) (l : list row) :
  _rowsByMinmax xxh64 s p lo hi limit rc false = Ok (QRows l) ->
  _rowsByMinmax xxh64 s p lo hi limit rc true = Ok (QCount (Z.of_nat (length l))).
Proof.
  unfold _rowsByMinmax. destruct (lo >? hi); [discriminate|]. cbv zeta.
  assert (forall lim ret n,
            n = Z.of_nat (length ret) ->
            (if hi >=? 0
             then sub <- _subrangeRows xxh64 s (msgenpack (VStr p)) (Z.max 0 lo) hi lim rc
                           false ;;
                  Ok (qadd (QRows ret) sub)
             else Ok (QRows ret)) = Ok (QRows l) ->
            (if hi >=? 0
             then sub <- _subrangeRows xxh64 s (msgenpack (VStr p)) (Z.max 0 lo) hi lim rc
                           true ;;
                  Ok (qadd (QCount n) sub)
             else Ok (QCount n)) = Ok (QCount (Z.of_nat (length l)))) as Pos.
  { intros lim ret n -> H. destruct (hi >=? 0).
    - destruct (_subrangeRows xxh64 s (msgenpack (VStr p)) (Z.max 0 lo) hi lim rc false)
        as [q|e] eqn:E; cbn [bind] in H; [|discriminate].
      destruct (subrangeRows_count _ _ _ _ _ _ _ _ E) as (l2 & -> & ->).
      cbn [bind qadd] in *. injection H as <-.
      now rewrite length_app, Nat2Z.inj_add.
    - now injection H as <-. }
  destruct (lo <? 0).
  - destruct (_subrangeRows xxh64 s (msgenpack (VStr p)) lo (Z.min (-1) hi) limit
                ((hi >=? 0) || rc) false) as [q|e] eqn:E; cbn [bind]; [|discriminate].
    destruct (subrangeRows_count _ _ _ _ _ _ _ _ E) as (l1 & -> & ->).
    cbn [bind qadd qsize app Z.add].
    destruct limit as [z|]; cbn [bind].
    + destruct (z - Z.of_nat (length l1) =? 0).
      * now intros [= <-].
      * apply Pos. reflexivity.
    + apply Pos. reflexivity.
  - cbn [bind]. apply Pos. reflexivity.
Qed.

Lemma stored_int64 xxh64 (live : list (Z * row)) (s : store) (r : row) (v : Z) :
  consistent xxh64 live s -> In r (map snd live) -> r_valu r = VInt v ->
  - 2 ^ 63 <= v <= 2 ^ 63 - 1.
Proof.
  intros C Hr Ev. apply in_map_iff in Hr as ([pk r'] & E & Hin). cbn [snd] in E. subst r'.
  destruct (consistent_row _ _ _ pk r C Hin) as (Hwf & _).
  destruct (wf_row_spec r Hwf) as (_ & _ & Hv & _).
  rewrite Ev in Hv. cbn [wf_valu] in Hv. now apply int64_range in Hv.
Qed.

(** X15: on a store reached by a session that keeps the tables in step,
    [_rowsByGe] for a property and an integer [lo], with no limit, returns
    only stored rows of the property with an integer value of at least
    [lo], and every such row whose value is above [lo], or equal to a [lo]
    that is not negative. *)
Theorem rowsByGe_rows xxh64 py (fuel : nat) (ops : list op) (s : store) (p : bytes)
    (lo : Z) :
  (forall b, 0 <= xxh64 b < 2 ^ 64) ->
  reached_by xxh64 py fuel ops s ->
  len p < 2 ^ 32 -> MIN_INT_VAL <= lo <= MAX_INT_VAL ->
  exists l,
    _rowsByGe xxh64 s p lo None = Ok (QRows l) /\
    (forall r, In r l ->
       In r (map snd (stored s)) /\ r_prop r = p /\
       exists v, r_valu r = VInt v /\ lo <= v) /\
    (forall r v, In r (map snd (stored s)) -> r_prop r = p -> r_valu r = VInt v ->
       lo <= v -> 0 <= lo \/ lo < v -> In r l).
Proof.
  intros Hx Hr Hp Hlo. unfold MIN_INT_VAL, MAX_INT_VAL in Hlo.
  pose proof (reached_consistent xxh64 py fuel ops s Hx Hr) as C.
  destruct (rowsByMinmax_interval xxh64 (stored s) s p lo MAX_INT_VAL true Hx
              (c_models _ _ _ C) Hp) as (l & E & Hs & Hc);
    try (unfold MAX_INT_VAL; lia).
  exists l. split; [exact E|]. split.
  - intros r Hin. destruct (Hs r Hin) as (H1 & H2 & v & H3 & H4 & _). eauto.
  - intros r v H1 H2 H3 H4 H5. apply (Hc r v H1 H2 H3 H4); [|exact H5].
    pose proof (stored_int64 xxh64 _ s r v C H1 H3). unfold MAX_INT_VAL. lia.
Qed.

Lemma rowsByGe_rows_witness :
  exists l,
    _rowsByGe (fun _ => 0) mixed_session_store [102; 111; 111] (-3) None = Ok (QRows l) /\
    (forall r, In r l ->
       In r (map snd (stored mixed_session_store)) /\ r_prop r = [102; 111; 111] /\
       exists v, r_valu r = VInt v /\ -3 <= v) /\
    (forall r v, In r (map snd (stored mixed_session_store)) ->
       r_prop r = [102; 111; 111] -> r_valu r = VInt v ->
       -3 <= v -> 0 <= -3 \/ -3 < v -> In r l).
Proof.
  apply (rowsByGe_rows (fun _ => 0) Python3 10 mixed_session mixed_session_store
           [102; 111; 111] (-3));
    [ intros; lia | split; vm_compute; reflexivity | vm_compute; reflexivity
    | unfold MIN_INT_VAL, MAX_INT_VAL; lia ].
Defined.

(** X16: on a store reached by a session that keeps the tables in step,
    [_rowsByLe] for a property and an integer [hi], with no limit, returns
    only stored rows of the property with an integer value of at most
    [hi], the bound included, and every such row whose value is above
    [MIN_INT_VAL]. *)
Theorem rowsByLe_rows xxh64 py (fuel : nat) (ops : list op) (s : store) (p : bytes)
    (hi : Z) :
  (forall b, 0 <= xxh64 b < 2 ^ 64) ->
  reached_by xxh64 py fuel ops s ->
  len p < 2 ^ 32 -> MIN_INT_VAL <= hi <= MAX_INT_VAL ->
  exists l,
    _rowsByLe xxh64 s p hi None = Ok (QRows l) /\
    (forall r, In r l ->
       In r (map snd (stored s)) /\ r_prop r = p /\
       exists v, r_valu r = VInt v /\ v <= hi) /\
    (forall r v, In r (map snd (stored s)) -> r_prop r = p -> r_valu r = VInt v ->
       v <= hi -> MIN_INT_VAL < v -> In r l).
Proof.
  intros Hx Hr Hp Hhi. unfold MIN_INT_VAL, MAX_INT_VAL in Hhi.
  pose proof (reached_consistent xxh64 py fuel ops s Hx Hr) as C.
  destruct (rowsByMinmax_interval xxh64 (stored s) s p MIN_INT_VAL hi true Hx
              (c_models _ _ _ C) Hp) as (l & E & Hs & Hc);
    try (unfold MIN_INT_VAL; lia).
  exists l. split; [exact E|]. split.
  - intros r Hin. destruct (Hs r Hin) as (H1 & H2 & v & H3 & _ & H4). eauto.
  - intros r v H1 H2 H3 H4 H5. apply (Hc r v H1 H2 H3); [|exact H4|now right].
    pose proof (stored_int64 xxh64 _ s r v C H1 H3). unfold MIN_INT_VAL. lia.
Qed.

Lemma rowsByLe_rows_witness :
  exists l,
    _rowsByLe (fun _ => 0) mixed_session_store [102; 111; 111] 1 None = Ok (QRows l) /\
    (forall r, In r l ->
       In r (map snd (stored mixed_session_store)) /\ r_prop r = [102; 111; 111] /\
       exists v, r_valu r = VInt v /\ v <= 1) /\
    (forall r v, In r (map snd (stored mixed_session_store)) ->
       r_prop r = [102; 111; 111] -> r_valu r = VInt v ->
       v <= 1 -> MIN_INT_VAL < v -> In r l).
Proof.
  apply (rowsByLe_rows (fun _ => 0) Python3 10 mixed_session mixed_session_store
           [102; 111; 111] 1);
    [ intros; lia | split; vm_compute; reflexivity | vm_compute; reflexivity
    | unfold MIN_INT_VAL, MAX_INT_VAL; lia ].
Defined.

Lemma minmax_size xxh64 (live : list (Z * row)) (s : store) (p : bytes) (lo hi : Z)
    (limit : option Z) (rc : bool) :
  models xxh64 live s ->
  exists q,
    _rowsByMinmax xxh64 s p lo hi limit rc false = Ok q /\
    _rowsByMinmax xxh64 s p lo hi limit rc true = Ok (QCount (qsize q)).
Proof.
  intros M. destruct (Z_le_gt_dec lo hi) as [Hle|Hgt].
  - destruct (rowsByMinmax_rows xxh64 live s M p lo hi limit rc Hle) as (a & b & E & _).
    exists (QRows (a ++ b)). split; [exact E|]. now apply rowsByMinmax_count.
  - exists (QCount 0). unfold _rowsByMinmax.
    destruct (Z.gtb_spec lo hi); [auto | lia].
Qed.

(** X17: on a store reached by a session that keeps the tables in step,
    for a property name and integer bounds that MessagePack writes (a name
    under 2^32 octets, bounds between -2^64 and 2^64, both excluded), each
    counting range query returns the size of what the reading query with
    the same arguments returns, in whatever order the bounds are and
    whatever the limit: [_sizeByRange] against [_rowsByRange], [_sizeByGe]
    against [_rowsByGe], [_sizeByLe] against [_rowsByLe], and [_sizeByLt]
    against [_rowsByRange] from [MIN_INT_VAL]; with the bounds of a range
    out of order both return the number 0. *)
Theorem size_counts_rows xxh64 py (fuel : nat) (ops : list op) (s : store) (p : bytes)
    (lo hi : Z) (limit : option Z) :
  (forall b, 0 <= xxh64 b < 2 ^ 64) ->
  reached_by xxh64 py fuel ops s ->
  len p < 2 ^ 32 -> - 2 ^ 64 < lo < 2 ^ 64 -> - 2 ^ 64 < hi < 2 ^ 64 ->
  (exists q, _rowsByRange xxh64 s p (lo, hi) limit = Ok q /\
             _sizeByRange xxh64 s p (lo, hi) limit = Ok (QCount (qsize q)) /\
             (hi < lo -> q = QCount 0)) /\
  (exists q, _rowsByGe xxh64 s p lo limit = Ok q /\
             _sizeByGe xxh64 s p lo limit = Ok (QCount (qsize q))) /\
  (exists q, _rowsByLe xxh64 s p hi limit = Ok q /\
             _sizeByLe xxh64 s p hi limit = Ok (QCount (qsize q))) /\
  (exists q, _rowsByRange xxh64 s p (MIN_INT_VAL, hi) limit = Ok q /\
             _sizeByLt xxh64 s p hi limit = Ok (QCount (qsize q))).
Proof.
  intros Hx Hr _ _ _.
  pose proof (c_models _ _ _ (reached_consistent xxh64 py fuel ops s Hx Hr)) as M.
  unfold _rowsByRange, _sizeByRange, _rowsByGe, _sizeByGe, _rowsByLe, _sizeByLe, _sizeByLt.
  cbn [fst snd]. repeat split; try apply (minmax_size xxh64 (stored s) s p _ _ limit _ M).
  destruct (minmax_size xxh64 (stored s) s p lo hi limit false M) as (q & E1 & E2).
  exists q. split; [exact E1|]. split; [exact E2|].
  intros Hgt. unfold _rowsByMinmax in E1.
  destruct (Z.gtb_spec lo hi); [|lia]. now injection E1 as <-.
Qed.

Lemma size_counts_rows_witness :
  (exists q, _rowsByRange (fun _ => 0) mixed_session_store [102; 111; 111] (0, 5) (Some 1)
             = Ok q /\
             _sizeByRange (fun _ => 0) mixed_session_store [102; 111; 111] (0, 5) (Some 1)
             = Ok (QCount (qsize q)) /\
             (5 < 0 -> q = QCount 0)) /\
  (exists q, _rowsByGe (fun _ => 0) mixed_session_store [102; 111; 111] 0 (Some 1) = Ok q /\
             _sizeByGe (fun _ => 0) mixed_session_store [102; 111; 111] 0 (Some 1)
             = Ok (QCount (qsize q))) /\
  (exists q, _rowsByLe (fun _ => 0) mixed_session_store [102; 111; 111] 5 (Some 1) = Ok q /\
             _sizeByLe (fun _ => 0) mixed_session_store [102; 111; 111] 5 (Some 1)
             = Ok (QCount (qsize q))) /\
  (exists q, _rowsByRange (fun _ => 0) mixed_session_store [102; 111; 111]
               (MIN_INT_VAL, 5) (Some 1) = Ok q /\
             _sizeByLt (fun _ => 0) mixed_session_store [102; 111; 111] 5 (Some 1)
             = Ok (QCount (qsize q))).
Proof.
  apply (size_counts_rows (fun _ => 0) Python3 10 mixed_session mixed_session_store
           [102; 111; 111] 0 5 (Some 1));
    [ intros; lia | split; vm_compute; reflexivity | vm_compute; reflexivity
    | lia | lia ].
Defined.

(** ** The order of the rows of a query by property *)

Lemma SS_impl_in {A} (R R' : A -> A -> Prop) (l : list A) :
  (forall x y, In x l -> In y l -> R x y -> R' x y) ->
  StronglySorted R l -> StronglySorted R' l.
Proof.
  intros HR HS. induction HS as [|x l _ IH Hx]; constructor.
  - apply IH. intros a b Ha Hb. apply HR; now right.
  - apply Forall_forall. intros y Hy. rewrite Forall_forall in Hx.
    apply HR; [now left | now right | now apply Hx].
Qed.

(** X18: on a store reached by a session that keeps the tables in step,
    for a property, an integer or short string value or none, and time
    bounds that are not negative, the rows [_getRowsByProp] returns, with
    or without a limit, come in ascending order of timestamp. *)
Theorem getRowsByProp_time_order xxh64 py (fuel : nat) (ops : list op) (s : store)
    (prop : bytes) (valu : option valu) (limit mintime maxtime : option Z) (n : nat) :
  (forall b, 0 <= xxh64 b < 2 ^ 64) ->
  reached_by xxh64 py fuel ops s ->
  len prop < 2 ^ 32 -> wf_query valu = true -> exact_valu valu = true ->
  wf_bound mintime = true -> wf_bound maxtime = true ->
  (length (rows s) < n)%nat ->
  exists l,
    _getRowsByProp xxh64 py n s prop valu limit mintime maxtime false false =
      Some (s, Ok (QRows l)) /\
    StronglySorted (fun a b => r_time a <= r_time b) l.
Proof.
  intros Hx Hr Hp Hq He Ha Hb Hn.
  pose proof (reached_consistent xxh64 py fuel ops s Hx Hr) as C.
  rewrite (consistent_rows_length _ _ _ C) in Hn.
  destruct (getRowsByProp_on xxh64 py (stored s) s prop valu mintime maxtime n
              Hx C Hp Hq He Hn) as (l & P & S & E).
  exists (firstn (limited limit (length l)) l). split; [apply (E limit false)|].
  apply SS_firstn.
  assert (forall a, In a l ->
            r_prop a = prop /\
            match valu with Some v => r_valu a = v | None => True end /\
            0 <= r_time a < 2 ^ 63) as Sel.
  { intros a Hin. apply (Permutation_in _ P) in Hin.
    apply in_map_iff in Hin as (x & <- & Hf). apply filter_In in Hf as [Hl Hw].
    rewrite (filter_selected xxh64 (stored s) s prop valu mintime maxtime
               Hx C Hp Hq He Ha Hb x Hl) in Hw.
    unfold selected in Hw. apply andb_true_iff in Hw as [Hw Ht].
    apply andb_true_iff in Hw as [Hpr Hv]. apply beq_true in Hpr.
    split; [exact Hpr|]. split.
    - destruct valu as [v|]; [now apply valu_eqb_true | exact I].
    - destruct x as [pk r]. cbn [snd] in *.
      destruct (consistent_row _ _ _ pk r C Hl) as (Hwf & _).
      destruct (wf_row_spec r Hwf) as (_ & _ & _ & Hrt).
      unfold in_times in Ht. apply andb_true_iff in Ht as [Ht _].
      apply andb_true_iff in Ht as [Ht _]. apply Z.leb_le in Ht. lia. }
  revert S. apply SS_impl_in. intros a b Hia Hib Hk.
  destruct (Sel a Hia) as (Pa & Va & Ta). destruct (Sel b Hib) as (Pb & Vb & Tb).
  destruct (Z_le_gt_dec (r_time a) (r_time b)) as [|Hgt]; [assumption|]. exfalso.
  apply Hk. apply bcmp_gt_lt.
  assert (bcmp (Msgpack.pack_int (r_time b)) (Msgpack.pack_int (r_time a)) = Lt) as L
    by (apply pack_uint_lt; lia).
  destruct valu as [v|]; cbn [is_none].
  - unfold pvt_key. rewrite Pa, Pb, Va, Vb. cbn [msgenpack]. now rewrite !bcmp_app_l.
  - unfold pt_key. rewrite Pa, Pb. cbn [msgenpack]. now rewrite bcmp_app_l.
Qed.

Lemma getRowsByProp_time_order_witness :
  exists l,
    _getRowsByProp (fun _ => 0) Python3 10 mixed_session_store [102; 111; 111] None
      (Some 2) None None false false = Some (mixed_session_store, Ok (QRows l)) /\
    StronglySorted (fun a b => r_time a <= r_time b) l.
Proof.
  apply (getRowsByProp_time_order (fun _ => 0) Python3 10 mixed_session
           mixed_session_store [102; 111; 111] None (Some 2) None None 10);
    [ intros; lia | split; vm_compute; reflexivity | vm_compute; reflexivity
    | reflexivity | reflexivity | reflexivity | reflexivity | vm_compute; lia ].
Defined.

(** ** The limit of the range queries *)

Lemma subrange_loop_limit (s : store) (last_key : bytes)
    (term_cmp : bytes -> bytes -> bool) (z : Z) (cnt : bool) (it : list Lmdb.entry) :
  forall ret count ret' count',
    subrange_loop s it last_key term_cmp (Some z) cnt ret count = Ok (ret', count') ->
    0 <= count' - count <= Z.max 1 (z - count).
Proof.
  induction it as [|[key value] it IH]; intros ret count ret' count' H;
    cbn [subrange_loop] in H.
  - injection H as <- <-. lia.
  - destruct (term_cmp (slice_to (length last_key) key) last_key).
    + injection H as <- <-. lia.
    + destruct (if negb cnt
                then '(_, r) <- _getRowByPkValEnc s value false ;; Ok (ret ++ [r])
                else Ok ret) as [ret1|e]; cbn [bind] in H; [|discriminate].
      cbn [limit_hit] in H. destruct (Z.geb_spec (count + 1) z).
      * injection H as <- <-. lia.
      * apply IH in H. lia.
Qed.

Lemma subrangeRows_limit xxh64 (s : store) (p_enc : bytes) (first_val last_val z : Z)
    (right_closed : bool) (q : qres) :
  _subrangeRows xxh64 s p_enc first_val last_val (Some z) right_closed false = Ok q ->
  0 <= qsize q <= Z.max 1 z.
Proof.
  intros H. destruct (subrangeRows_count _ _ _ _ _ _ _ _ H) as (l & -> & Hc).
  revert Hc. unfold _subrangeRows. cbv zeta.
  destruct (Lmdb.set_range _ (index_pvt s)) as [c|]; [|discriminate].
  match goal with
  | |- context [bind ?m _] => destruct m as [it|e]; cbn [bind]; [|discriminate]
  end.
  match goal with
  | |- context [subrange_loop ?s ?it ?lk ?tc ?lim true [] 0] =>
      destruct (subrange_loop s it lk tc lim true [] 0) as [[ret count]|e] eqn:E;
        cbn [bind]; [|discriminate];
        apply subrange_loop_limit in E
  end.
  intros [= Hc]. cbn [qsize]. lia.
Qed.

(** [_rowsByMinmax] with a limit: a limit of one or more bounds the number
    of rows; below one, up to two rows get through, one of each scan. *)
Lemma rowsByMinmax_limit xxh64 (s : store) (p : bytes) (lo hi z : Z) (rc : bool)
    (q : qres) :
  _rowsByMinmax xxh64 s p lo hi (Some z) rc false = Ok q ->
  0 <= qsize q <= (if 1 <=? z then z else 2).
Proof.
  unfold _rowsByMinmax.
  assert (0 <= (if 1 <=? z then z else 2)) as Hz by (destruct (Z.leb_spec 1 z); lia).
  destruct (lo >? hi); [intros [= <-]; cbn [qsize]; lia|]. cbv zeta.
  destruct (lo <? 0).
  - destruct (_subrangeRows xxh64 s (msgenpack (VStr p)) lo (Z.min (-1) hi) (Some z)
                ((hi >=? 0) || rc) false) as [q1|e] eqn:E1; cbn [bind]; [|discriminate].
    pose proof (subrangeRows_limit _ _ _ _ _ _ _ _ E1) as L1.
    destruct (subrangeRows_count _ _ _ _ _ _ _ _ E1) as (l1 & -> & _).
    cbn [qadd qsize app] in *.
    destruct (Z.eqb_spec (z - Z.of_nat (length l1)) 0) as [Ez|Nz].
    + intros [= <-]. cbn [qsize]. destruct (Z.leb_spec 1 z); lia.
    + destruct (hi >=? 0).
      * destruct (_subrangeRows xxh64 s (msgenpack (VStr p)) (Z.max 0 lo) hi
                    (Some (z - Z.of_nat (length l1))) rc false) as [q2|e] eqn:E2;
          cbn [bind]; [|discriminate].
        pose proof (subrangeRows_limit _ _ _ _ _ _ _ _ E2) as L2.
        destruct (subrangeRows_count _ _ _ _ _ _ _ _ E2) as (l2 & -> & _).
        cbn [qadd qsize] in *. intros [= <-]. cbn [qsize].
        rewrite length_app, Nat2Z.inj_add. destruct (Z.leb_spec 1 z); lia.
      * intros [= <-]. cbn [qsize]. destruct (Z.leb_spec 1 z); lia.
  - cbn [bind]. destruct (hi >=? 0).
    + destruct (_subrangeRows xxh64 s (msgenpack (VStr p)) (Z.max 0 lo) hi (Some z) rc
                  false) as [q2|e] eqn:E2; cbn [bind]; [|discriminate].
      pose proof (subrangeRows_limit _ _ _ _ _ _ _ _ E2) as L2.
      destruct (subrangeRows_count _ _ _ _ _ _ _ _ E2) as (l2 & -> & _).
      cbn [qadd qsize app] in *. intros [= <-]. cbn [qsize].
      destruct (Z.leb_spec 1 z); lia.
    + intros [= <-]. cbn [qsize length]. lia.
Qed.

(** X19: on a store reached by a session that keeps the tables in step,
    for a property name and integer bounds that MessagePack writes (a name
    under 2^32 octets, bounds between -2^64 and 2^64, both excluded),
    [_rowsByRange], [_rowsByGe] and [_rowsByLe] with a limit of one or more
    return at most that many rows; with a limit below one they return at
    most two rows. *)
Theorem range_limit_bound xxh64 py (fuel : nat) (ops : list op) (s : store) (p : bytes)
    (lo hi z : Z) :
  (forall b, 0 <= xxh64 b < 2 ^ 64) ->
  reached_by xxh64 py fuel ops s ->
  len p < 2 ^ 32 -> - 2 ^ 64 < lo < 2 ^ 64 -> - 2 ^ 64 < hi < 2 ^ 64 ->
  (exists q, _rowsByRange xxh64 s p (lo, hi) (Some z) = Ok q /\
             0 <= qsize q <= (if 1 <=? z then z else 2)) /\
  (exists q, _rowsByGe xxh64 s p lo (Some z) = Ok q /\
             0 <= qsize q <= (if 1 <=? z then z else 2)) /\
  (exists q, _rowsByLe xxh64 s p hi (Some z) = Ok q /\
             0 <= qsize q <= (if 1 <=? z then z else 2)).
Proof.
  intros Hx Hr _ _ _.
  pose proof (c_models _ _ _ (reached_consistent xxh64 py fuel ops s Hx Hr)) as M.
  assert (forall a b rc,
            exists q, _rowsByMinmax xxh64 s p a b (Some z) rc false = Ok q /\
                      0 <= qsize q <= (if 1 <=? z then z else 2)) as H.
  { intros a b rc.
    destruct (minmax_size xxh64 (stored s) s p a b (Some z) rc M) as (q & E & _).
    exists q. split; [exact E|]. now apply rowsByMinmax_limit in E. }
  unfold _rowsByRange, _rowsByGe, _rowsByLe. cbn [fst snd]. repeat split; apply H.
Qed.

Lemma range_limit_bound_witness :
  (exists q, _rowsByRange (fun _ => 0) mixed_session_store [102; 111; 111] (-5, 5) (Some 1)
             = Ok q /\ 0 <= qsize q <= (if 1 <=? 1 then 1 else 2)) /\
  (exists q, _rowsByGe (fun _ => 0) mixed_session_store [102; 111; 111] (-5) (Some 1)
             = Ok q /\ 0 <= qsize q <= (if 1 <=? 1 then 1 else 2)) /\
  (exists q, _rowsByLe (fun _ => 0) mixed_session_store [102; 111; 111] 5 (Some 1)
             = Ok q /\ 0 <= qsize q <= (if 1 <=? 1 then 1 else 2)).
Proof.
  apply (range_limit_bound (fun _ => 0) Python3 10 mixed_session mixed_session_store
           [102; 111; 111] (-5) 5 1);
    [ intros; lia | split; vm_compute; reflexivity | vm_compute; reflexivity
    | lia | lia ].
Defined.

(** X20: on a store reached by a session that keeps the tables in step,
    deletes included, [_rowsByRange] for a property and integers
    [lo <= hi], with no limit, returns only stored rows of the property
    with an integer value [v] such that [lo <= v < hi], and every such row
    whose value is above [lo], or equal to a [lo] that is not negative. *)
Theorem rowsByRange_rows xxh64 py (fuel : nat) (ops : list op) (s : store) (p : bytes)
    (lo hi : Z) :
  (forall b, 0 <= xxh64 b < 2 ^ 64) ->
  reached_by xxh64 py fuel ops s ->
  len p < 2 ^ 32 -> MIN_INT_VAL <= lo -> lo <= hi -> hi <= MAX_INT_VAL ->
  exists l,
    _rowsByRange xxh64 s p (lo, hi) None = Ok (QRows l) /\
    (forall r, In r l ->
       In r (map snd (stored s)) /\ r_prop r = p /\
       exists v, r_valu r = VInt v /\ lo <= v < hi) /\
    (forall r v, In r (map snd (stored s)) -> r_prop r = p -> r_valu r = VInt v ->
       lo <= v < hi -> 0 <= lo \/ lo < v -> In r l).
Proof.
  intros Hx Hr Hp Hlo Hle Hhi. unfold MIN_INT_VAL in Hlo. unfold MAX_INT_VAL in Hhi.
  pose proof (reached_consistent xxh64 py fuel ops s Hx Hr) as C.
  destruct (rowsByMinmax_interval xxh64 (stored s) s p lo hi false Hx
              (c_models _ _ _ C) Hp) as (l & E & Hs & Hc); try lia.
  exists l. split; [exact E|]. split.
  - intros r Hin. destruct (Hs r Hin) as (H1 & H2 & v & H3 & H4 & H5). eauto.
  - intros r v H1 H2 H3 [H4 H5] H6. now apply (Hc r v).
Qed.

Lemma rowsByRange_rows_witness :
  exists l,
    _rowsByRange (fun _ => 0) mixed_session_store [102; 111; 111] (-3, 2) None
      = Ok (QRows l) /\
    (forall r, In r l ->
       In r (map snd (stored mixed_session_store)) /\ r_prop r = [102; 111; 111] /\
       exists v, r_valu r = VInt v /\ -3 <= v < 2) /\
    (forall r v, In r (map snd (stored mixed_session_store)) ->
       r_prop r = [102; 111; 111] -> r_valu r = VInt v ->
       -3 <= v < 2 -> 0 <= -3 \/ -3 < v -> In r l).
Proof.
  apply (rowsByRange_rows (fun _ => 0) Python3 10 mixed_session mixed_session_store
           [102; 111; 111] (-3) 2);
    [ intros; lia | split; vm_compute; reflexivity | vm_compute; reflexivity
    | unfold MIN_INT_VAL; lia | lia | unfold MAX_INT_VAL; lia ].
Defined.

(** ** Looking a row up by its primary key *)

Lemma rget_some_In (k : Z) (v : bytes) (t : Lmdb.rtable) :
  Lmdb.rget k t = Some v -> In (k, v) t.
Proof.
  induction t as [|[k' v'] t IH]; cbn [Lmdb.rget In]; [discriminate|].
  destruct (Z.eqb_spec k' k) as [->|N]; [intros [= ->]; now left | auto].
Qed.

(** X21: on a store reached by a session that keeps the tables in step,
    every value of the rows table is the concatenation [_addRows] writes
    for a well-formed row (iden octets, then the MessagePack encodings of
    name, value and timestamp), and [_getRowByPkValEnc] on the encoding of
    its primary key returns that row; with [do_delete] it also takes the
    row out of the rows table and leaves the rest of the store as it is.
    For a key the rows table does not hold it raises
    [DatabaseInconsistent]. *)
Theorem getRowByPkValEnc_lookup xxh64 py (fuel : nat) (ops : list op) (s : store)
    (pk : Z) (do_delete : bool) :
  (forall b, 0 <= xxh64 b < 2 ^ 64) ->
  reached_by xxh64 py fuel ops s ->
  1 <= pk <= MAX_PK ->
  match Lmdb.rget (_enc_pk_key pk) (rows s) with
  | Some v =>
      exists r,
        wf_row r = true /\ v = payload r /\
        _getRowByPkValEnc s (msgenpack (VInt pk)) do_delete =
          Ok (if do_delete then set_rows s (Lmdb.rdel (_enc_pk_key pk) (rows s)) else s,
              r)
  | None => _getRowByPkValEnc s (msgenpack (VInt pk)) do_delete = Raise DatabaseInconsistent
  end.
Proof.
  intros Hx Hr Hpk.
  pose proof (reached_consistent xxh64 py fuel ops s Hx Hr) as C.
  unfold _enc_pk_key.
  destruct (Lmdb.rget pk (rows s)) as [v|] eqn:G.
  - pose proof (rget_some_In _ _ _ G) as Hin.
    rewrite (m_rows _ _ _ (c_models _ _ _ C)) in Hin.
    apply in_map_iff in Hin as ([k r] & E & Hl). cbn [fst snd] in E.
    injection E as -> <-.
    destruct (consistent_row _ _ _ pk r C Hl) as (Hwf & _ & G' & _).
    exists r. split; [exact Hwf|]. split; [reflexivity|].
    cbn [msgenpack]. now apply getRow_payload.
  - unfold _getRowByPkValEnc. cbn [msgenpack]. unfold MAX_PK in Hpk.
    rewrite msgunpack_pack_int by lia.
    unfold _enc_pk_key, Lmdb.rpop. rewrite G. now destruct do_delete.
Qed.

Lemma getRowByPkValEnc_lookup_witness :
  Lmdb.rget (_enc_pk_key 5) (rows mixed_session_store) <> None /\
  match Lmdb.rget (_enc_pk_key 5) (rows mixed_session_store) with
  | Some v =>
      exists r,
        wf_row r = true /\ v = payload r /\
        _getRowByPkValEnc mixed_session_store (msgenpack (VInt 5)) true =
          Ok (set_rows mixed_session_store
                (Lmdb.rdel (_enc_pk_key 5) (rows mixed_session_store)), r)
  | None =>
      _getRowByPkValEnc mixed_session_store (msgenpack (VInt 5)) true =
        Raise DatabaseInconsistent
  end.
Proof.
  split; [vm_compute; discriminate|].
  apply (getRowByPkValEnc_lookup (fun _ => 0) Python3 10 mixed_session
           mixed_session_store 5 true);
    [ intros; lia | split; vm_compute; reflexivity | unfold MAX_PK; lia ].
Defined.
